(** * vatican: bottom-up beta reduction on a shared lambda graph

    A shallow embedding of [vatican.cpp].  The C++ heap of [Node] objects is a
    finite map from addresses to node records; [new Node] takes the next unused
    address and [delete] removes the binding.  Every function of the source
    that follows pointers becomes a function on that store which returns an
    [outcome]: a normal return, [std::abort()], a read through a pointer that
    is not live (or through the wrong member of the union), or exhaustion of
    the recursion budget of the model. *)

From Stdlib Require Import ZArith List Lia Ascii String.
From stdpp Require Import base option list gmap relations strings.

Set Warnings "-clear-no-such-hyp".

(** ** Outcomes *)

Inductive outcome (A : Type) : Type :=
  | Done (a : A)      (* the call returned *)
  | Aborted           (* std::abort() was reached *)
  | Undefined         (* dangling pointer or wrong union member was read *)
  | OutOfFuel.        (* the model's recursion budget ran out *)
Arguments Done {A} a.
Arguments Aborted {A}.
Arguments Undefined {A}.
Arguments OutOfFuel {A}.

Definition obind {A B} (m : outcome A) (k : A -> outcome B) : outcome B :=
  match m with
  | Done a => k a
  | Aborted => Aborted
  | Undefined => Undefined
  | OutOfFuel => OutOfFuel
  end.

#[export] Instance outcome_ret : MRet outcome := fun A a => Done a.
#[export] Instance outcome_bind : MBind outcome := fun A B k m => obind m k.

(** ** Data model *)

Abbreviation addr := positive.

Inductive UplinkType := UPLINK_APPL | UPLINK_APPR | UPLINK_NA.

Definition UplinkType_eqb (a b : UplinkType) : bool :=
  match a, b with
  | UPLINK_APPL, UPLINK_APPL | UPLINK_APPR, UPLINK_APPR
  | UPLINK_NA, UPLINK_NA => true
  | _, _ => false
  end.

(** An [Uplink] record; its [prev]/[next] pointers are the position of the
    record in the list that models the [UplinkSet] (head first, tail last). *)
Record Uplink := mkUplink { up_link : addr; up_type : UplinkType }.

Definition Uplink_matches (parent : addr) (type : UplinkType) (u : Uplink) : bool :=
  Pos.eqb (up_link u) parent && UplinkType_eqb (up_type u) type.

(** The [cache] pointer: [0], the sentinel [(Node* )~0], or a node. *)
Inductive Cache := NULL | STOP | Cached (a : addr).

Inductive NodeType := NODE_APP | NODE_LAMBDA | NODE_VAR | NODE_PRIM.

#[export] Instance UplinkType_eq_dec : EqDecision UplinkType.
Proof. solve_decision. Defined.
#[export] Instance Uplink_eq_dec : EqDecision Uplink.
Proof. solve_decision. Defined.


Section Vatican.

(** [PrimNode] is declared in [vatican.h]; only its [apply] method is used by
    the reduction engine. *)
Variable PrimNode : Type.

(** The tagged union of [Node]. *)
Inductive Payload :=
  | app (app_left app_right : addr)
  | lambda (lambda_body lambda_var : addr)
  | var
  | prim (p : PrimNode).

Record Node := mkNode {
  cache : Cache;
  uplinks : list Uplink;
  payload : Payload
}.

Definition node_type (n : Node) : NodeType :=
  match payload n with
  | app _ _ => NODE_APP
  | lambda _ _ => NODE_LAMBDA
  | var => NODE_VAR
  | prim _ => NODE_PRIM
  end.

Record Head := mkHead { dummy : addr }.

(** The store: the live nodes and the next address [new Node] hands out. *)
Record State := mkState {
  nodes : gmap positive Node;
  next : addr
}.

Definition empty_state : State := mkState ∅ 1%positive.

Definition deref (st : State) (a : addr) : outcome Node :=
  match nodes st !! a with
  | Some n => Done n
  | None => Undefined
  end.

Definition store (a : addr) (n : Node) (st : State) : State :=
  mkState (<[a := n]> (nodes st)) (next st).

(** [new Node] followed by the field initialisations of the caller. *)
Definition new_Node (st : State) (n : Node) : addr * State :=
  (next st, mkState (<[next st := n]> (nodes st)) (Pos.succ (next st))).

(** [delete node]. *)
Definition delete_Node (st : State) (a : addr) : outcome State :=
  match nodes st !! a with
  | Some _ => Done (mkState (delete a (nodes st)) (next st))
  | None => Undefined
  end.

Definition set_cache (a : addr) (c : Cache) (st : State) : outcome State :=
  n ← deref st a;
  Done (store a (mkNode c (uplinks n) (payload n)) st).

Definition set_payload (a : addr) (p : Payload) (st : State) : outcome State :=
  n ← deref st a;
  Done (store a (mkNode (cache n) (uplinks n) p) st).

(** ** UplinkSet *)

(** [UplinkSet::add]: the new record goes to the tail. *)
Definition uplinks_add (child link : addr) (type : UplinkType) (st : State)
  : outcome State :=
  n ← deref st child;
  Done (store child (mkNode (cache n) (uplinks n ++ [mkUplink link type]) (payload n)) st).

(** [UplinkSet::unlink] on the list: the first record equal to
    [(parent, type)] is removed; [None] when the loop falls through to
    [std::abort()]. *)
Fixpoint unlink_list (parent : addr) (type : UplinkType) (l : list Uplink)
  : option (list Uplink) :=
  match l with
  | [] => None
  | u :: rest =>
      if Uplink_matches parent type u then Some rest
      else match unlink_list parent type rest with
           | Some rest' => Some (u :: rest')
           | None => None
           end
  end.

Definition uplinks_unlink (child parent : addr) (type : UplinkType) (st : State)
  : outcome State :=
  n ← deref st child;
  match unlink_list parent type (uplinks n) with
  | Some l => Done (store child (mkNode (cache n) l (payload n)) st)
  | None => Aborted
  end.

(** ** Loops over an uplink list

    [cur = head; while (cur) { body; cur = cur->next; }] over a list that
    the body leaves alone (the uses below say why it does). *)
Fixpoint for_each_uplink (body : State -> Uplink -> outcome State)
  (l : list Uplink) (st : State) : outcome State :=
  match l with
  | [] => Done st
  | cur :: l => st ← body st cur; for_each_uplink body l st
  end.

(** ** cleanup *)

Fixpoint cleanup (fuel : nat) (st : State) (node : addr) : outcome State :=
  match fuel with
  | O => OutOfFuel
  | S fuel =>
      n ← deref st node;
      match uplinks n with
      | _ :: _ => Done st
      | [] =>
          match payload n with
          | lambda b _ =>
              st ← uplinks_unlink b node UPLINK_NA st;
              st ← cleanup fuel st b;
              delete_Node st node
          | app l _ =>
              st ← uplinks_unlink l node UPLINK_APPL st;
              st ← cleanup fuel st l;
              n' ← deref st node;
              match payload n' with
              | app _ r =>
                  st ← uplinks_unlink r node UPLINK_APPR st;
                  st ← cleanup fuel st r;
                  delete_Node st node
              | _ => Undefined
              end
          | var => delete_Node st node
          | prim _ => delete_Node st node
          end
      end
  end.

(** ** upreplace *)

Definition upreplace (fuel : nat) (st : State) (newchild into : addr)
  (type : UplinkType) : outcome State :=
  n ← deref st into;
  match payload n with
  | app l r =>
      match type with
      | UPLINK_APPL =>
          st ← uplinks_unlink l into UPLINK_APPL st;
          st ← set_payload into (app newchild r) st;
          st ← uplinks_add newchild into UPLINK_APPL st;
          cleanup fuel st l
      | _ =>
          st ← uplinks_unlink r into UPLINK_APPR st;
          st ← set_payload into (app l newchild) st;
          st ← uplinks_add newchild into UPLINK_APPR st;
          cleanup fuel st r
      end
  | lambda b v =>
      st ← uplinks_unlink b into UPLINK_NA st;
      st ← set_payload into (lambda newchild v) st;
      st ← uplinks_add newchild into UPLINK_NA st;
      cleanup fuel st b
  | _ => Aborted
  end.

(** ** upcopy *)

(** The three ways the [switch] of [upcopy] ends for an App or a Lambda are
    kept apart by the first component of the result of the [switch]: [None]
    is the early [return], [Some newNode] goes on to the loop over
    [into->uplinks].  No
    call below [upcopy] adds or removes an uplink record or deletes a node, so
    the list read at the start of the loop is the list the loop walks. *)
Fixpoint upcopy (fuel : nat) (st : State) (newchild into : addr)
  (type : UplinkType) : outcome State :=
  match fuel with
  | O => OutOfFuel
  | S fuel =>
      n ← deref st into;
      '(r, st) ← match payload n with
          | app l r =>
              match cache n with
              | NULL =>
                  let '(newNode, st) :=
                    new_Node st (mkNode NULL []
                      (match type with
                       | UPLINK_APPL => app newchild r
                       | _ => app l newchild
                       end)) in
                  st ← set_cache into (Cached newNode) st;
                  Done (Some newNode, st)
              | Cached newNode =>
                  c ← deref st newNode;
                  match payload c with
                  | app l' r' =>
                      st ← set_payload newNode
                             (match type with
                              | UPLINK_APPL => app newchild r'
                              | _ => app l' newchild
                              end) st;
                      Done (None, st)
                  | _ => Undefined
                  end
              | STOP => Undefined
              end
          | lambda _ v =>
              match cache n with
              | STOP => Done (None, st)
              | _ =>
                  let '(newVar, st) := new_Node st (mkNode NULL [] var) in
                  let '(newNode, st) :=
                    new_Node st (mkNode NULL [] (lambda newchild newVar)) in
                  st ← set_cache into (Cached newNode) st;
                  st ← upcopy fuel st newVar v UPLINK_NA;
                  Done (Some newNode, st)
              end
          | var =>
              st ← set_cache into (Cached newchild) st;
              Done (Some newchild, st)
          | prim _ =>
              (* no [break]: control falls into [default: std::abort()] *)
              _ ← set_cache into (Cached newchild) st;
              Aborted
          end;
      match r with
      | None => Done st
      | Some newNode =>
          n' ← deref st into;
          for_each_uplink
            (fun st cur => upcopy fuel st newNode (up_link cur) (up_type cur))
            (uplinks n') st
      end
  end.

(** ** clear *)

(** [clear] appends uplink records while it walks uplink lists, and a record
    appended to the list being walked is reached by [cur->next]; the loop is
    therefore modelled on the live list, [cur] being the position [i].
    [clear_from fuel st node i] is the loop of [clear(node)] from position
    [i] on; [clear] starts it at the head. *)
Fixpoint clear_from (fuel : nat) (st : State) (node : addr) (i : nat)
  : outcome State :=
  match fuel with
  | O => OutOfFuel
  | S fuel =>
      n ← deref st node;
      match uplinks n !! i with
      | None => Done st
      | Some cur =>
          p ← deref st (up_link cur);
          match cache p with
          | NULL => clear_from fuel st node (S i)
          | c =>
              st ← match payload p with
                   | app _ _ =>
                       match c with
                       | Cached c =>
                           cn ← deref st c;
                           match payload cn with
                           | app l r =>
                               st ← uplinks_add l c UPLINK_APPL st;
                               st ← uplinks_add r c UPLINK_APPR st;
                               set_cache (up_link cur) NULL st
                           | _ => Undefined
                           end
                       | _ => Undefined
                       end
                   | lambda _ v =>
                       match c with
                       | Cached c =>
                           cn ← deref st c;
                           match payload cn with
                           | lambda b _ =>
                               st ← uplinks_add b c UPLINK_NA st;
                               st ← set_cache (up_link cur) NULL st;
                               clear_from fuel st v 0
                           | _ => Undefined
                           end
                       | _ => Undefined
                       end
                   | _ => Aborted
                   end;
              st ← clear_from fuel st (up_link cur) 0;
              clear_from fuel st node (S i)
          end
      end
  end.

Definition clear (fuel : nat) (st : State) (node : addr) : outcome State :=
  clear_from fuel st node 0.

(** ** beta_reduce *)

(** The loop shared by [beta_reduce] and [prim_reduce]: [nexty] is saved
    before [upreplace] unlinks (and frees) the record [cur], which is the
    first record of the live list with its [(link, type)]; the loop thus
    walks the list as it was when the loop started. *)
Definition upreplace_all (fuel : nat) (st : State) (result : addr)
  (l : list Uplink) : outcome State :=
  for_each_uplink
    (fun st cur => upreplace fuel st result (up_link cur) (up_type cur)) l st.

(** [result] is a [Node*] read from a [cache] in the general case; when it is
    not a node, the first [upreplace] dereferences it. *)
Definition beta_reduce (fuel : nat) (st : State) (a : addr) : outcome State :=
  n ← deref st a;
  match payload n with
  | app fn arg =>
      f ← deref st fn;
      match payload f with
      | lambda b v =>
          vn ← deref st v;
          '(result, st) ←
            match uplinks vn with
            | [] => Done (Cached b, st)
            | _ :: _ =>
                st ← set_cache fn STOP st;
                st ← upcopy fuel st arg v UPLINK_NA;
                bn ← deref st b;
                st ← set_cache fn NULL st;
                st ← clear fuel st v;
                Done (cache bn, st)
            end;
          n' ← deref st a;
          match uplinks n', result with
          | [], _ => Done st
          | l, Cached result => upreplace_all fuel st result l
          | _, _ => Undefined
          end
      | _ => Undefined
      end
  | _ => Undefined
  end.

(** ** Constructors and heads *)

Definition Var (st : State) : addr * State :=
  new_Node st (mkNode NULL [] var).

Definition Fun (st : State) (v body : addr) : outcome (addr * State) :=
  let '(ret, st) := new_Node st (mkNode NULL [] (lambda body v)) in
  st ← uplinks_add body ret UPLINK_NA st;
  Done (ret, st).

Definition App (st : State) (l r : addr) : outcome (addr * State) :=
  let '(ret, st) := new_Node st (mkNode NULL [] (app l r)) in
  st ← uplinks_add l ret UPLINK_APPL st;
  st ← uplinks_add r ret UPLINK_APPR st;
  Done (ret, st).

Definition Prim (st : State) (p : PrimNode) : addr * State :=
  new_Node st (mkNode NULL [] (prim p)).

Definition make_head (st : State) (body : addr) : outcome (Head * State) :=
  let '(v, st) := Var st in
  '(d, st) ← Fun st v body;
  Done (mkHead d, st).

Definition copy_head (st : State) (other : Head) : outcome (Head * State) :=
  let '(v, st) := Var st in
  '(d, st) ← Fun st v (dummy other);
  Done (mkHead d, st).

(** [cleanup(head->dummy); delete head].  The store holds the nodes; a
    [Head] stands for the pointer together with the one field it leads to,
    which is written when the Head is made and never again.  The [delete]
    of the Head object changes no node, so what is stated of [free_head]
    is stated of the nodes; that the handle is not used again is the
    caller's duty in the code, and nothing below relies on a handle that
    has been freed. *)
Definition free_head (fuel : nat) (st : State) (head : Head) : outcome State :=
  cleanup fuel st (dummy head).

Definition get_prim (st : State) (expr : Head)
  : outcome (option PrimNode * State) :=
  d ← deref st (dummy expr);
  match payload d with
  | lambda b _ =>
      bn ← deref st b;
      match payload bn with
      | prim p => Done (Some p, st)
      | _ => Done (None, st)
      end
  | _ => Done (None, st)
  end.

(** ** The head-normal-form driver *)

(** [PrimNode::apply(Head* )] belongs to the client.  It receives the head
    over the argument and may reduce it through the public interface, so the
    model hands it the one-step reducer on heads together with the store. *)
Variable prim_apply :
  (State -> Head -> outcome (bool * State)) ->
  PrimNode -> Head -> State -> outcome (option PrimNode * State).

Definition prim_reduce (fuel : nat)
  (reduce : State -> Head -> outcome (bool * State))
  (st : State) (a : addr) : outcome (bool * State) :=
  n ← deref st a;
  match payload n with
  | app fn arg =>
      '(arghead, st) ← make_head st arg;
      f ← deref st fn;
      match payload f with
      | prim pn =>
          '(p, st) ← prim_apply reduce pn arghead st;
          st ← free_head fuel st arghead;
          match p with
          | None => Done (false, st)
          | Some p =>
              let '(result, st) := new_Node st (mkNode NULL [] (prim p)) in
              n' ← deref st a;
              st ← upreplace_all fuel st result (uplinks n');
              Done (true, st)
          end
      | _ => Undefined
      end
  | _ => Undefined
  end.

Fixpoint hnf_reduce_1 (fuel : nat) (st : State) (ptr : addr)
  : outcome (bool * State) :=
  match fuel with
  | O => OutOfFuel
  | S fuel =>
      n ← deref st ptr;
      match payload n with
      | lambda b _ => hnf_reduce_1 fuel st b
      | app l _ =>
          '(reduced, st) ← hnf_reduce_1 fuel st l;
          if reduced : bool then Done (true, st)
          else
            n' ← deref st ptr;
            match payload n' with
            | app l' _ =>
                ln ← deref st l';
                match node_type ln with
                | NODE_LAMBDA =>
                    st ← beta_reduce fuel st ptr;
                    Done (true, st)
                | NODE_PRIM =>
                    prim_reduce fuel
                      (fun st h => hnf_reduce_1 fuel st (dummy h)) st ptr
                | _ => Done (false, st)
                end
            | _ => Undefined
            end
      | var => Done (false, st)
      | prim _ => Done (false, st)
      end
  end.

(** The public overload on heads. *)
Definition hnf_reduce_1_head (fuel : nat) (st : State) (ptr : Head)
  : outcome (bool * State) :=
  hnf_reduce_1 fuel st (dummy ptr).

(** [while (hnf_reduce_1(top)) { }] *)
Fixpoint hnf_reduce (fuel : nat) (st : State) (top : Head) : outcome State :=
  match fuel with
  | O => OutOfFuel
  | S fuel =>
      '(progress, st) ← hnf_reduce_1_head fuel st top;
      if progress : bool then hnf_reduce fuel st top else Done st
  end.

End Vatican.

Arguments app {PrimNode}.
Arguments lambda {PrimNode}.
Arguments var {PrimNode}.
Arguments prim {PrimNode}.
Arguments mkNode {PrimNode}.
Arguments cache {PrimNode}.
Arguments uplinks {PrimNode}.
Arguments payload {PrimNode}.
Arguments node_type {PrimNode}.
Arguments mkState {PrimNode}.
Arguments nodes {PrimNode}.
Arguments next {PrimNode}.
Arguments empty_state {PrimNode}.
Arguments deref {PrimNode}.
Arguments store {PrimNode}.
Arguments new_Node {PrimNode}.
Arguments delete_Node {PrimNode}.
Arguments set_cache {PrimNode}.
Arguments set_payload {PrimNode}.
Arguments uplinks_add {PrimNode}.
Arguments uplinks_unlink {PrimNode}.
Arguments for_each_uplink {PrimNode}.
Arguments cleanup {PrimNode}.
Arguments upreplace {PrimNode}.
Arguments upreplace_all {PrimNode}.
Arguments upcopy {PrimNode}.
Arguments clear_from {PrimNode}.
Arguments clear {PrimNode}.
Arguments beta_reduce {PrimNode}.
Arguments Var {PrimNode}.
Arguments Fun {PrimNode}.
Arguments App {PrimNode}.
Arguments Prim {PrimNode}.
Arguments make_head {PrimNode}.
Arguments copy_head {PrimNode}.
Arguments free_head {PrimNode}.
Arguments get_prim {PrimNode}.
Arguments prim_reduce {PrimNode}.
Arguments hnf_reduce_1 {PrimNode}.
Arguments hnf_reduce_1_head {PrimNode}.
Arguments hnf_reduce {PrimNode}.

(** ** dotify *)

Section Dotify.
Context {PrimNode : Type}.
(** [operator<<] on a [Node*] prints an address in a format of the
    platform's choosing, and [repr] belongs to the client. *)
Variable show : addr -> string.
Variable repr : PrimNode -> string.

Definition dq : string := String "034"%char EmptyString.
Definition nl : string := String "010"%char EmptyString.

(** [stream << "p" << a] *)
Definition pnode (a : addr) : string := "p" +:+ show a.

(** The loop over [top->uplinks] at the end of [dotify_rec]. *)
Definition dot_uplinks (top : addr) (l : list Uplink) (out : string) : string :=
  fold_left
    (fun out cur => out +:+ pnode top +:+ " -> " +:+ pnode (up_link cur)
                        +:+ " [color=red];" +:+ nl)
    l out.

Fixpoint dotify_rec (fuel : nat) (st : State PrimNode) (top : addr)
  (s : string * gset addr) : outcome (string * gset addr) :=
  match fuel with
  | O => OutOfFuel
  | S fuel =>
      let '(out, seen) := s in
      if decide (top ∈ seen) then Done (out, seen)
      else
        let seen := {[top]} ∪ seen in
        n ← deref st top;
        '(out, seen) ←
          match payload n with
          | lambda b v =>
              let out := out +:+ pnode top +:+ " [label=" +:+ dq +:+ "\\" +:+ dq
                             +:+ "];" +:+ nl in
              let out := out +:+ pnode top +:+ " -> " +:+ pnode b +:+ ";" +:+ nl in
              vn ← deref st v;
              let out :=
                match uplinks vn with
                | [] => out
                | _ :: _ => out +:+ pnode top +:+ " -> " +:+ pnode v
                                +:+ " [color=blue];" +:+ nl
                end in
              dotify_rec fuel st b (out, seen)
          | app l r =>
              let out := out +:+ pnode top +:+ " [label=" +:+ dq +:+ "*" +:+ dq
                             +:+ "];" +:+ nl in
              let out := out +:+ pnode top +:+ " -> " +:+ pnode l
                             +:+ " [color=" +:+ dq +:+ "#007f00" +:+ dq
                             +:+ ",label=" +:+ dq +:+ "fv" +:+ dq +:+ "];" +:+ nl in
              let out := out +:+ pnode top +:+ " -> " +:+ pnode r
                             +:+ " [label=" +:+ dq +:+ "av" +:+ dq +:+ "];" +:+ nl in
              s ← dotify_rec fuel st l (out, seen);
              dotify_rec fuel st r s
          | var =>
              Done (out +:+ pnode top +:+ " [label=" +:+ dq +:+ "x" +:+ dq
                        +:+ "];" +:+ nl, seen)
          | prim p =>
              Done (out +:+ pnode top +:+ " [label=" +:+ dq +:+ repr p +:+ dq
                        +:+ "];" +:+ nl, seen)
          end;
        n' ← deref st top;
        Done (dot_uplinks top (uplinks n') out, seen)
  end.

Definition dotify (fuel : nat) (st : State PrimNode) (top : Head) : outcome string :=
  let out := "digraph Lambda {" +:+ nl in
  d ← deref st (dummy top);
  let out := out +:+ pnode (dummy top) +:+ " [label=" +:+ dq +:+ "HEAD" +:+ dq
                 +:+ "];" +:+ nl in
  match payload d with
  | lambda b _ =>
      let out := out +:+ pnode (dummy top) +:+ " -> " +:+ pnode b +:+ ";" +:+ nl in
      '(out, _) ← dotify_rec fuel st b (out, {[dummy top]});
      Done (out +:+ "}" +:+ nl)
  | _ => Undefined
  end.
End Dotify.

Arguments pnode show a : clear implicits.
Arguments dot_uplinks show top l out : clear implicits.
Arguments dotify_rec {PrimNode}.
Arguments dotify {PrimNode}.

(** ** A concrete client, for running the engine *)

Module Client.

(** Two primitives in the style of the interface's contract: a literal, and
    [PStep], whose [apply] lets the argument take one reduction step and
    answers with the successor literal when the argument is a literal by
    then, and rejects otherwise. *)
Inductive PrimNode := PLit (n : nat) | PStep.

Definition apply (reduce : State PrimNode -> Head -> outcome (bool * State PrimNode))
  (self : PrimNode) (arg : Head) (st : State PrimNode)
  : outcome (option PrimNode * State PrimNode) :=
  match self with
  | PLit _ => Done (None, st)
  | PStep =>
      '(_, st) ← reduce st arg;
      '(p, st) ← get_prim st arg;
      match p with
      | Some (PLit n) => Done (Some (PLit (S n)), st)
      | _ => Done (None, st)
      end
  end.

End Client.

(** ** Worked scenarios

    Terms built through the public constructors, from an empty store. *)

Module Scenarios.
Import Client.

Abbreviation St := (State PrimNode).

(** A head over the literal 7. *)
Definition lit7 : outcome (Head * St) :=
  let '(p, st) := Prim empty_state (PLit 7) in
  make_head st p.

(** [(\x. x) 7] under a head. *)
Definition id_lit7 : outcome (Head * St) :=
  let st := empty_state in
  let '(x, st) := Var st in
  '(f, st) ← Fun st x x;
  let '(p, st) := Prim st (PLit 7) in
  '(t, st) ← App st f p;
  make_head st t.

(** A lambda whose variable is a Prim node, applied to a free variable. *)
Definition prim_binder : outcome (Head * St) :=
  let '(v, st) := Prim empty_state (PLit 0) in
  '(f, st) ← Fun st v v;
  let '(a, st) := Var st in
  '(t, st) ← App st f a;
  make_head st t.

(** A head over a free variable. *)
Definition free_var : outcome (Head * St) :=
  let '(y, st) := Var empty_state in
  make_head st y.

(** [(f a) (f b)] with one shared [f = \x. x]. *)
Definition shared_identity : outcome (Head * St) :=
  let st := empty_state in
  let '(x, st) := Var st in
  '(f, st) ← Fun st x x;
  let '(a, st) := Var st in
  let '(b, st) := Var st in
  '(fa, st) ← App st f a;
  '(fb, st) ← App st f b;
  '(t, st) ← App st fa fb;
  make_head st t.

(** [(\x. x x) (a b)] with free [a] and [b]; the argument node is 6. *)
Definition dup_arg : outcome (Head * St) :=
  let st := empty_state in
  let '(x, st) := Var st in
  '(xx, st) ← App st x x;
  '(f, st) ← Fun st x xx;
  let '(a, st) := Var st in
  let '(b, st) := Var st in
  '(ab, st) ← App st a b;
  '(t, st) ← App st f ab;
  make_head st t.

(** [(\x. a) Omega], [Omega = (\y. y y) (\y. y y)]; [a] is node 1, [x] node 2,
    the redex node 11 and its head's dummy node 13. *)
Definition unused_omega : outcome (Head * St) :=
  let st := empty_state in
  let '(a, st) := Var st in
  let '(x, st) := Var st in
  '(f, st) ← Fun st x a;
  let '(y1, st) := Var st in
  '(y1y1, st) ← App st y1 y1;
  '(w1, st) ← Fun st y1 y1y1;
  let '(y2, st) := Var st in
  '(y2y2, st) ← App st y2 y2;
  '(w2, st) ← Fun st y2 y2y2;
  '(om, st) ← App st w1 w2;
  '(t, st) ← App st f om;
  make_head st t.

(** [PStep ((\x. x) ((\x. x) 0))]. *)
Definition step_twice : outcome (Head * St) :=
  let st := empty_state in
  let '(s, st) := Prim st PStep in
  let '(x1, st) := Var st in
  '(i1, st) ← Fun st x1 x1;
  let '(x2, st) := Var st in
  '(i2, st) ← Fun st x2 x2;
  let '(z, st) := Prim st (PLit 0) in
  '(i2z, st) ← App st i2 z;
  '(arg, st) ← App st i1 i2z;
  '(t, st) ← App st s arg;
  make_head st t.

(** The store and the head of a scenario that was built without a fault. *)
Definition built (t : outcome (Head * St)) : Head * St :=
  match t with
  | Done hs => hs
  | _ => (mkHead 1, empty_state)
  end.

(** What a test harness can observe of a node. *)
Definition cache_at (st : St) (a : addr) : option Cache :=
  cache <$> nodes st !! a.
Definition payload_at (st : St) (a : addr) : option (Payload PrimNode) :=
  payload <$> nodes st !! a.
Definition uplinks_at (st : St) (a : addr) : option (list Uplink) :=
  uplinks <$> nodes st !! a.
Definition live_nodes (st : St) : nat := size (nodes st).

(** The store after [hnf_reduce] on [dup_arg]. *)
Definition dup_arg_reduced : St :=
  match hnf_reduce Client.apply 20 (snd (built dup_arg)) (fst (built dup_arg)) with
  | Done st => st
  | _ => empty_state
  end.

(** The store of a run that returned. *)
Definition state_of (o : outcome St) : St :=
  match o with
  | Done st => st
  | _ => empty_state
  end.

(** [dup_arg] in the middle of its beta step: after the upcopy pass and
    [fun->cache = 0], before [clear]. *)
Definition dup_arg_copied : St :=
  state_of (st ← set_cache 3 STOP (snd (built dup_arg));
            st ← upcopy 20 st 6 1 UPLINK_NA;
            set_cache 3 NULL st).

(** [1 y] under a head: the literal 1 applied to a free variable; the App
    is node 3. *)
Definition lit_applied : outcome (Head * St) :=
  let '(p, st) := Prim empty_state (PLit 1) in
  let '(y, st) := Var st in
  '(t, st) ← App st p y;
  make_head st t.

(** Two heads over one free variable; the dummies are nodes 3 and 5. *)
Definition two_heads : St :=
  let '(y, st) := Var empty_state in
  state_of ('(_, st) ← make_head st y; '(_, st) ← make_head st y; Done st).

(** A store with a cycle, as no sequence of public calls builds it: node 1
    is an App of itself, under the dummy 3. *)
Definition knot : St :=
  mkState (<[3%positive := mkNode NULL [] (lambda 1 2)]>
           (<[2%positive := mkNode NULL [] var]>
            (<[1%positive := mkNode NULL [mkUplink 1 UPLINK_APPL; mkUplink 1 UPLINK_APPR;
                                          mkUplink 3 UPLINK_NA] (app 1 1)]> ∅)))
          4.

(** [\x. (\y. z) x] under a head: [g] is node 6, [x] node 4. *)
Definition inner_redex : outcome (Head * St) :=
  let st := empty_state in
  let '(z, st) := Var st in
  let '(y, st) := Var st in
  '(f, st) ← Fun st y z;
  let '(x, st) := Var st in
  '(t, st) ← App st f x;
  '(g, st) ← Fun st x t;
  make_head st g.

(** [inner_redex] after one step. *)
Definition inner_redex_reduced : St :=
  match hnf_reduce_1_head Client.apply 20 (snd (built inner_redex))
          (fst (built inner_redex)) with
  | Done (_, st) => st
  | _ => empty_state
  end.


(** [(\x. \y. x y) a] under a head: [x] is node 1, [y] node 2, [x y] node 3,
    [\y. x y] node 4, [\x. \y. x y] node 5, [a] node 6, the redex node 7
    and its head's dummy node 9. *)
Definition curried : outcome (Head * St) :=
  let st := empty_state in
  let '(x, st) := Var st in
  let '(y, st) := Var st in
  '(xy, st) ← App st x y;
  '(g, st) ← Fun st y xy;
  '(f, st) ← Fun st x g;
  let '(a, st) := Var st in
  '(t, st) ← App st f a;
  make_head st t.


(** [PStep 3] under a head: [PStep] is node 1, the literal node 2, the App
    node 3 and its head's dummy node 5. *)
Definition step_lit : outcome (Head * St) :=
  let st := empty_state in
  let '(s, st) := Prim st PStep in
  let '(z, st) := Prim st (PLit 3) in
  '(t, st) ← App st s z;
  make_head st t.


(** [\x. \y. x y] under a head of its own, and [(\x. \y. x y) a] under a
    second head: [x y] is node 3, [\y. x y] node 4, [\x. \y. x y] node 5,
    the first dummy node 7, [a] node 8, the redex node 9 and the second
    dummy node 11. *)
Definition curried_kept : outcome (Head * St) :=
  let st := empty_state in
  let '(x, st) := Var st in
  let '(y, st) := Var st in
  '(xy, st) ← App st x y;
  '(g, st) ← Fun st y xy;
  '(f, st) ← Fun st x g;
  '(_, st) ← make_head st f;
  let '(a, st) := Var st in
  '(t, st) ← App st f a;
  make_head st t.

(** The store after [hnf_reduce] on the second head of [curried_kept]: the
    Lambda [\x. \y. x y] and its body are still there for the first head,
    and the second head holds the copy [\y'. a y'] (node 14, with [a y']
    node 12 and [y'] node 13). *)
Definition curried_kept_reduced : St :=
  state_of (hnf_reduce Client.apply 20 (snd (built curried_kept))
              (fst (built curried_kept))).

End Scenarios.

(** ** Predicates used in the statements *)

Section Predicates.
Context {P : Type}.
Implicit Types (st : State P) (h : Head) (m n : Node P).

(** The body under a head's dummy Lambda is a Prim node wrapping [p]. *)
Definition body_is_prim st h (p : P) : Prop :=
  exists d b v bn,
    nodes st !! dummy h = Some d /\ payload d = lambda b v /\
    nodes st !! b = Some bn /\ payload bn = prim p.

(** Every pointer [get_prim] follows is live. *)
Definition head_readable st h : Prop :=
  exists d, nodes st !! dummy h = Some d /\
    forall b v, payload d = lambda b v -> is_Some (nodes st !! b).

Definition children (p : Payload P) : list addr :=
  match p with
  | app l r => [l; r]
  | lambda b _ => [b]
  | _ => []
  end.

Definition ranked (rank : addr -> nat) st : Prop :=
  forall x m c, nodes st !! x = Some m -> c ∈ children (payload m) ->
    rank c < rank x.

(** [st'] is [st] with some nodes deleted and some uplink lists changed. *)
Definition shrinks st st' : Prop :=
  next st' = next st /\
  forall c m', nodes st' !! c = Some m' ->
    exists m, nodes st !! c = Some m /\ payload m' = payload m /\ cache m' = cache m.

(** [c] is out of reach of the cascade that starts at [a]: it sits at least
    as high as [a], or all its recorded parents sit above [a]. *)
Definition out_of_reach (rank : addr -> nat) st (a c : addr) : Prop :=
  rank a <= rank c \/
  forall m, nodes st !! c = Some m ->
    forall u, u ∈ uplinks m -> rank a < rank (up_link u).

Definition slot_of (p : Payload P) (t : UplinkType) : option addr :=
  match p, t with
  | app l _, UPLINK_APPL => Some l
  | app _ r, UPLINK_APPR => Some r
  | lambda b _, UPLINK_NA => Some b
  | _, _ => None
  end.

Definition set_slot (p : Payload P) (t : UplinkType) (c : addr) : Payload P :=
  match p, t with
  | app _ r, UPLINK_APPL => app c r
  | app l _, _ => app l c
  | lambda _ v, _ => lambda c v
  | p, _ => p
  end.

(** [p'] is [p] with some child slots now holding [b]. *)
Definition payload_upd (b : addr) (p p' : Payload P) : Prop :=
  match p, p' with
  | app l r, app l' r' => (l' = l \/ l' = b) /\ (r' = r \/ r' = b)
  | lambda bd v, lambda bd' v' => v' = v /\ (bd' = bd \/ bd' = b)
  | var, var => True
  | prim q, prim q' => q' = q
  | _, _ => False
  end.

(** [st'] is [st] with nodes deleted, uplink lists changed and child slots
    redirected to [b]: nothing was allocated. *)
Definition spliced (b : addr) st st' : Prop :=
  next st' = next st /\
  forall c m', nodes st' !! c = Some m' ->
    exists m, nodes st !! c = Some m /\ cache m' = cache m /\
      payload_upd b (payload m) (payload m').

(** No node of the store is a Prim node. *)
Definition prim_free st : Prop :=
  forall x m, nodes st !! x = Some m -> node_type m <> NODE_PRIM.

Definition is_prim (p : Payload P) : bool :=
  match p with prim _ => true | _ => false end.

Definition prim_free_check st : bool :=
  bool_decide
    (map_Forall (fun (_ : addr) m => is_prim (payload m) = false) (nodes st)).

(** The [cache] field of the node at [a], when [a] is live. *)
Definition cache_of st (a : addr) : option Cache := cache <$> nodes st !! a.

(** [a] is an App or a Lambda of [st]. *)
Definition inner st (a : addr) : Prop :=
  exists m, nodes st !! a = Some m /\
    (node_type m = NODE_APP \/ node_type m = NODE_LAMBDA).

(** [g] is a Lambda of [st] whose variable is [v]. *)
Definition binds st (g v : addr) : Prop :=
  exists m b, nodes st !! g = Some m /\ payload m = lambda b v.

(** The part of invariants 1 and 3 that stays true while nodes come and
    go: uplinks name real parent edges, once each, and a Lambda's variable
    is its own and, while it is allocated, a Var node. *)
Record scoped st : Prop := {
  sc_uplink : forall c m u, nodes st !! c = Some m -> u ∈ uplinks m ->
    exists mp, nodes st !! up_link u = Some mp /\
      slot_of (payload mp) (up_type u) = Some c;
  sc_nodup : forall c m, nodes st !! c = Some m -> NoDup (uplinks m);
  sc_var : forall g v mv, binds st g v -> nodes st !! v = Some mv ->
    payload mv = var;
  sc_binder : forall g g' v, binds st g v -> binds st g' v -> g = g'
}.

(** Invariants 1, 3 and 5 of the data model, as far as one upcopy pass
    depends on them. *)
Record well_formed st : Prop := {
  wf_uplink : forall c m u, nodes st !! c = Some m -> u ∈ uplinks m ->
    exists mp, nodes st !! up_link u = Some mp /\
      slot_of (payload mp) (up_type u) = Some c;
  wf_nodup : forall c m, nodes st !! c = Some m -> NoDup (uplinks m);
  wf_var : forall g v, binds st g v ->
    exists mv, nodes st !! v = Some mv /\ payload mv = var;
  wf_binder : forall g g' v, binds st g v -> binds st g' v -> g = g';
  wf_cache : forall a, inner st a -> cache_of st a = Some NULL;
  wf_fresh : forall a, (next st <= a)%positive -> nodes st !! a = None
}.

Section PassPreds.
Variable st0 : State P.

(** The rebuilt image of the child [c] is known: [c] is an App or Lambda
    that holds its copy, or a variable whose binder is being copied (or is
    the lambda under reduction). *)
Definition done st (c : addr) : Prop :=
  (inner st0 c /\ exists k, cache_of st c = Some (Cached k)) \/
  (exists g cg, binds st0 g c /\ cache_of st g = Some cg /\ cg <> NULL).

(** What holds of the store throughout one pass over the graph [st0]. *)
Record pass_inv st : Prop := {
  pi_static : forall a m0, nodes st0 !! a = Some m0 ->
    exists m, nodes st !! a = Some m /\
      payload m = payload m0 /\ uplinks m = uplinks m0;
  pi_fresh : forall a, (next st <= a)%positive -> nodes st !! a = None;
  pi_app : forall a m0 m, nodes st0 !! a = Some m0 ->
    node_type m0 = NODE_APP -> nodes st !! a = Some m ->
    cache m = NULL \/
    exists k mk l r, cache m = Cached k /\ nodes st !! k = Some mk /\
      payload mk = app l r /\ nodes st0 !! k = None;
  pi_lambda : forall g m0 b v k, nodes st0 !! g = Some m0 ->
    payload m0 = lambda b v -> cache_of st g = Some (Cached k) -> done st b
}.

(** Caches of Apps and Lambdas, once set, stay as they are. *)
Definition marks_kept st st' : Prop :=
  forall a c, inner st0 a -> cache_of st a = Some c -> c <> NULL ->
    cache_of st' a = Some c.

(** The child [b] has not been reached in [st]. *)
Definition unreached st (b : addr) : Prop :=
  (inner st0 b /\ cache_of st b = Some NULL) \/
  (exists g, binds st0 g b /\ cache_of st g = Some NULL).

(** Every Lambda that got its copy between [st] and [st'] is [into], or a
    Lambda directly over the variable [into], or a Lambda over a child that
    had not been reached in [st]. *)
Definition copied_above st st' (into : addr) : Prop :=
  forall q mq b v k, nodes st0 !! q = Some mq -> payload mq = lambda b v ->
    cache_of st q = Some NULL -> cache_of st' q = Some (Cached k) ->
    q = into \/ (b = into /\ ~ inner st0 into) \/ unreached st b.

(** The Lambdas among the parents listed in [l] have no copy yet. *)
Definition lambdas_open st (l : list Uplink) : Prop :=
  forall u mp b v, u ∈ l -> nodes st0 !! up_link u = Some mp ->
    payload mp = lambda b v ->
    cache_of st (up_link u) = Some NULL \/ cache_of st (up_link u) = Some STOP.

(** [U] contains every App and Lambda without a copy. *)
Definition covers (U : gset positive) st : Prop :=
  forall a, inner st0 a -> cache_of st a = Some NULL -> a ∈ U.

Definition upcopy_pre st (into : addr) : Prop :=
  exists m0, nodes st0 !! into = Some m0 /\
    match payload m0 with
    | app _ _ => True
    | lambda b _ =>
        done st b /\
        (cache_of st into = Some NULL \/ cache_of st into = Some STOP)
    | var => done st into /\ lambdas_open st (uplinks m0)
    | prim _ => False
    end.
Definition var_weight (into : addr) : nat :=
  match nodes st0 !! into with
  | Some m => match payload m with var => 1 | _ => 0 end
  | None => 0
  end.

End PassPreds.

(** [well_formed], decided on a given store. *)
Definition uplink_ok st (c : addr) (u : Uplink) : bool :=
  match nodes st !! up_link u with
  | Some mp => bool_decide (slot_of (payload mp) (up_type u) = Some c)
  | None => false
  end.

Definition var_ok st m : bool :=
  match payload m with
  | lambda _ v =>
      match nodes st !! v with
      | Some mv => match payload mv with var => true | _ => false end
      | None => false
      end
  | _ => true
  end.

Definition binder_ok (g : addr) m (g' : addr) m' : bool :=
  match payload m, payload m' with
  | lambda _ v, lambda _ v' => implb (Pos.eqb v v') (Pos.eqb g g')
  | _, _ => true
  end.

Definition cache_ok m : bool :=
  match payload m, cache m with
  | app _ _, NULL | lambda _ _, NULL => true
  | app _ _, _ | lambda _ _, _ => false
  | _, _ => true
  end.

Definition well_formed_check st : bool :=
  bool_decide (map_Forall (fun c m => forallb (uplink_ok st c) (uplinks m) = true) (nodes st))
  && bool_decide (map_Forall (fun (_ : addr) m => NoDup (uplinks m)) (nodes st))
  && bool_decide (map_Forall (fun (_ : addr) m => var_ok st m = true) (nodes st))
  && bool_decide (map_Forall (fun g m =>
        map_Forall (fun g' m' => binder_ok g m g' m' = true) (nodes st)) (nodes st))
  && bool_decide (map_Forall (fun (_ : addr) m => cache_ok m = true) (nodes st))
  && bool_decide (map_Forall (fun (a : addr) (_ : Node P) => (a < next st)%positive) (nodes st)).

(** [ranked], decided on a given store. *)
Definition ranked_check (rank : addr -> nat) st : bool :=
  bool_decide
    (map_Forall
       (fun x m => Forall (fun c => rank c < rank x) (children (payload m)))
       (nodes st)).

End Predicates.

(** ** Predicates for invariant 1 *)

Section EdgesDefs.
Context {P : Type}.
Implicit Types (st : State P) (m : Node P).

(** Invariant 1 of the data model, up to a set [E] of parent edges whose
    uplink record is not installed (edges of copies that [clear] has yet to
    wire, edges of nodes that [cleanup] is about to delete). *)
Record edges_ok (E : addr -> UplinkType -> Prop) st : Prop := {
  eo_sound : forall c m u, nodes st !! c = Some m -> u ∈ uplinks m ->
    exists mp, nodes st !! up_link u = Some mp /\
      slot_of (payload mp) (up_type u) = Some c /\
      ~ E (up_link u) (up_type u);
  eo_nodup : forall c m, nodes st !! c = Some m -> NoDup (uplinks m);
  eo_complete : forall p mp t c, nodes st !! p = Some mp ->
    slot_of (payload mp) t = Some c -> ~ E p t ->
    exists m, nodes st !! c = Some m /\ mkUplink p t ∈ uplinks m
}.

(** No edge is exempt. *)
Definition no_edge (_ : addr) (_ : UplinkType) : Prop := False.

(** [st'] is [st] with nodes deleted and uplink records removed. *)
Definition pruned st st' : Prop :=
  next st' = next st /\
  forall c m', nodes st' !! c = Some m' ->
    exists m, nodes st !! c = Some m /\ payload m' = payload m /\
      cache m' = cache m /\ forall u, u ∈ uplinks m' -> u ∈ uplinks m.
End EdgesDefs.

Section ExtDefs.
Context {P : Type}.
Implicit Types (st : State P) (m : Node P).

(** Binder discipline of a store: a variable has one binder, is a Var node
    while allocated, and lies below the allocation counter. *)
Record binders_ok st : Prop := {
  bo_binder : forall g g' v, binds st g v -> binds st g' v -> g = g';
  bo_var : forall g v mv, binds st g v -> nodes st !! v = Some mv ->
    payload mv = var;
  bo_bound : forall g v, binds st g v -> (v < next st)%positive
}.

Section PassExt.
Variables (st0 : State P) (x : addr).

(** One step of the walk of [upcopy]: from a child to a parent that holds a
    copy, or from a Lambda that holds a copy to its variable. *)
Definition walk_step st (c q : addr) : Prop :=
  (exists t m0, nodes st0 !! c = Some m0 /\ mkUplink q t ∈ uplinks m0 /\
     inner st0 q /\ exists k, cache_of st q = Some (Cached k)) \/
  (binds st0 c q /\ exists k, cache_of st c = Some (Cached k)).

(** [q] is reached by the walk that started at the variable [x]. *)
Definition reached st (q : addr) : Prop := rtc (walk_step st) x q.

(** What holds in addition throughout a pass, about the nodes the pass
    allocates. *)
Record pass_ext st : Prop := {
  pe_inv : pass_inv st0 st;
  pe_dead : forall a, nodes st0 !! a = None -> (a < next st0)%positive ->
    nodes st !! a = None;
  pe_next : (next st0 <= next st)%positive;
  pe_new : forall k mk, nodes st !! k = Some mk -> nodes st0 !! k = None ->
    cache mk = NULL /\ uplinks mk = [] /\
    (payload mk = var \/
     exists a, inner st0 a /\ cache_of st a = Some (Cached k));
  pe_inj : forall a a' k, inner st0 a -> inner st0 a' ->
    cache_of st a = Some (Cached k) -> cache_of st a' = Some (Cached k) ->
    a = a';
  pe_copy : forall a k, inner st0 a -> cache_of st a = Some (Cached k) ->
    nodes st0 !! k = None /\ is_Some (nodes st !! k);
  pe_binders : binders_ok st;
  pe_reached : forall q k, inner st0 q -> cache_of st q = Some (Cached k) ->
    reached st q;
  pe_stop : forall a, inner st0 a -> cache_of st a = Some STOP ->
    cache_of st0 a = Some STOP
}.

(** The caller of [upcopy(_, into, t)] has been reached by the walk. *)
Definition upcopy_from st (into : addr) (t : UplinkType) : Prop :=
  (inner st0 into /\
   exists c m0, nodes st0 !! c = Some m0 /\ mkUplink into t ∈ uplinks m0 /\
     reached st c) \/
  (~ inner st0 into /\ reached st into).
End PassExt.
End ExtDefs.

Section ClearDefs.
Context {P : Type}.
Implicit Types (st : State P) (m : Node P).

(** [st'] is [st] after steps of [clear]: payloads stay, caches stay or are
    reset, uplink lists grow at the tail. *)
Record cleared st st' : Prop := {
  cl_next : next st' = next st;
  cl_dead : forall a, nodes st !! a = None -> nodes st' !! a = None;
  cl_live : forall a m, nodes st !! a = Some m ->
    exists m', nodes st' !! a = Some m' /\ payload m' = payload m /\
      (cache m' = cache m \/ cache m' = NULL) /\
      exists ext, uplinks m' = uplinks m ++ ext
}.

Variable st0 : State P.

(** The parent edges of the copies that no cache of the old graph has
    handed over yet. *)
Definition unwired st (p : addr) (_ : UplinkType) : Prop :=
  exists a, inner st0 a /\ cache_of st a = Some (Cached p).

(** What [clear] relies on and keeps: a copy is held by one cache, is not a
    node of the old graph and has no cache of its own; an old node keeps
    its payload, and its uplink list only grows at the tail. *)
Record clear_base st : Prop := {
  cb_inj : forall a a' k, inner st0 a -> inner st0 a' ->
    cache_of st a = Some (Cached k) -> cache_of st a' = Some (Cached k) ->
    a = a';
  cb_copy : forall a k, inner st0 a -> cache_of st a = Some (Cached k) ->
    nodes st0 !! k = None;
  cb_old : forall a m0, nodes st0 !! a = Some m0 ->
    exists m, nodes st !! a = Some m /\ payload m = payload m0 /\
      exists ext, uplinks m = uplinks m0 ++ ext;
  cb_new : forall k mk, nodes st !! k = Some mk -> nodes st0 !! k = None ->
    cache mk = NULL
}.

(** Throughout [clear], invariant 1 holds up to the edges of the copies
    that are still held in a cache. *)
Record clear_inv st : Prop := {
  ci_edges : edges_ok (unwired st) st;
  ci_base : clear_base st
}.

(** Every parent recorded on [q] in the old graph has its cache reset. *)
Definition parents_reset st (q : addr) : Prop :=
  forall m0 u, nodes st0 !! q = Some m0 -> u ∈ uplinks m0 ->
    cache_of st (up_link u) = Some NULL.

(** The parents recorded on [node] from position [i] on have no cache. *)
Definition tail_reset st (node : addr) (i : nat) : Prop :=
  forall m j u, nodes st !! node = Some m -> i <= j -> uplinks m !! j = Some u ->
    cache_of st (up_link u) = Some NULL.

(** [a] and, when [a] is a Lambda, its variable have been walked. *)
Definition walked st (a : addr) : Prop :=
  parents_reset st a /\ forall v, binds st0 a v -> parents_reset st v.

(** Every cache reset between [st] and [st'] belongs to a walked node. *)
Definition reset_closed st st' : Prop :=
  forall a, inner st0 a -> cache_of st a <> Some NULL ->
    cache_of st' a = Some NULL -> walked st' a.
End ClearDefs.

Section GraphInvDefs.
Context {P : Type}.
Implicit Types (st : State P) (m : Node P).

(** What holds of the store between public operations: invariant 1, the
    binder discipline, no cache on an App or Lambda, and nothing allocated
    at or above the allocation counter. *)
Record graph_inv st : Prop := {
  gi_edges : edges_ok no_edge st;
  gi_binders : binders_ok st;
  gi_cache : forall a, inner st a -> cache_of st a = Some NULL;
  gi_fresh : forall a, (next st <= a)%positive -> nodes st !! a = None
}.

(** The parts of [graph_inv] that do not mention uplink records. *)
Record graph_rest st : Prop := {
  gr_binders : binders_ok st;
  gr_cache : forall a, inner st a -> cache_of st a = Some NULL;
  gr_fresh : forall a, (next st <= a)%positive -> nodes st !! a = None
}.

(** A reducer that keeps the invariant. *)
Definition keeps_inv (reduce : State P -> Head -> outcome (bool * State P)) : Prop :=
  forall st h b st', reduce st h = Done (b, st') -> graph_inv st -> graph_inv st'.
End GraphInvDefs.

Section PublicDefs.
Context {P : Type}.
Implicit Types (st : State P) (m : Node P).

(** Invariant 1 as the data model states it: every parent edge has exactly
    one uplink record on the child's list, and every uplink record is the
    record of a parent edge. *)
Definition uplinks_mirror_edges st : Prop :=
  (forall p mp t c, nodes st !! p = Some mp -> slot_of (payload mp) t = Some c ->
     exists m, nodes st !! c = Some m /\
       count_occ Uplink_eq_dec (uplinks m) (mkUplink p t) = 1) /\
  (forall c m u, nodes st !! c = Some m -> u ∈ uplinks m ->
     exists mp, nodes st !! up_link u = Some mp /\
       slot_of (payload mp) (up_type u) = Some c).

(** [m] is a Lambda whose variable is [v]. *)
Definition binds_var m (v : addr) : bool :=
  match payload m with lambda _ w => Pos.eqb w v | _ => false end.

(** What [Fun(var, body)] assumes of [var]: a Var node that no Lambda
    binds. *)
Definition Fun_pre st (v : addr) : bool :=
  match nodes st !! v with
  | Some mv => match payload mv with var => true | _ => false end
  | None => false
  end
  && bool_decide (map_Forall (fun (_ : addr) m => binds_var m v = false) (nodes st)).

Variable prim_apply :
  (State P -> Head -> outcome (bool * State P)) ->
  P -> Head -> State P -> outcome (option P * State P).

(** One call of the public interface that returns. *)
Inductive public_step st st' : Prop :=
  | step_Var a : Var st = (a, st') -> public_step st st'
  | step_Prim p a : Prim st p = (a, st') -> public_step st st'
  | step_Fun v body ret :
      Fun_pre st v = true -> Fun st v body = Done (ret, st') -> public_step st st'
  | step_App l r ret : App st l r = Done (ret, st') -> public_step st st'
  | step_make_head body h :
      make_head st body = Done (h, st') -> public_step st st'
  | step_copy_head other h :
      copy_head st other = Done (h, st') -> public_step st st'
  | step_free_head fuel h :
      free_head fuel st h = Done st' -> public_step st st'
  | step_hnf_reduce_1 fuel h b :
      hnf_reduce_1_head prim_apply fuel st h = Done (b, st') -> public_step st st'
  | step_hnf_reduce fuel h :
      hnf_reduce prim_apply fuel st h = Done st' -> public_step st st'
  | step_get_prim h r : get_prim st h = Done (r, st') -> public_step st st'.
End PublicDefs.

(** ** Predicates for the copies an upcopy pass makes *)

Section ContentDefs.
Context {P : Type}.
Implicit Types (st : State P) (m : Node P).
Variables (st0 : State P) (x arg : addr).

(** [c'] stands for [c] in the copies of the pass that substitutes [arg]
    for the variable [x]: [c'] is the copy that the App or Lambda [c] holds
    in its cache, or [c] is [x] and [c'] is [arg], or [c] is the variable of
    a Lambda that holds a copy and [c'] is the variable of that copy. *)
Definition image st (c c' : addr) : Prop :=
  (inner st0 c /\ cache_of st c = Some (Cached c')) \/
  (c = x /\ c' = arg) \/
  (exists g k mk b, binds st0 g c /\ cache_of st g = Some (Cached k) /\
     nodes st !! k = Some mk /\ payload mk = lambda b c').

(** [p'] is the payload of a copy in the making of a node with payload
    [p]: a child slot of an App holds the original child or its image, the
    body slot of a Lambda holds the image of the body, and the variable of
    a Lambda is a Var node that the pass allocated. *)
Definition copy_of st (p p' : Payload P) : Prop :=
  match p, p' with
  | app l r, app l' r' => (l' = l \/ image st l l') /\ (r' = r \/ image st r r')
  | lambda b v, lambda b' v' =>
      image st b b' /\ nodes st0 !! v' = None /\
      exists mv, nodes st !! v' = Some mv /\ payload mv = var
  | _, _ => False
  end.

(** Every copy held in a cache is a copy in the making of its original. *)
Definition content_inv st : Prop :=
  forall q m0 k, nodes st0 !! q = Some m0 -> inner st0 q ->
    cache_of st q = Some (Cached k) ->
    exists mk, nodes st !! k = Some mk /\ copy_of st (payload m0) (payload mk).

(** The parent [q] has been told of the image of its child in slot [t]:
    [q] is where the pass stops, or the slot [t] of the copy of [q] holds
    the image. *)
Definition told st (q : addr) (t : UplinkType) : Prop :=
  inner st0 q /\
  (cache_of st q = Some STOP \/
   exists m0 c k mk c', nodes st0 !! q = Some m0 /\
     slot_of (payload m0) t = Some c /\
     cache_of st q = Some (Cached k) /\ nodes st !! k = Some mk /\
     slot_of (payload mk) t = Some c' /\ image st c c').

(** Every parent recorded on [c] has been told. *)
Definition all_told st (c : addr) : Prop :=
  forall m0 u, nodes st0 !! c = Some m0 -> u ∈ uplinks m0 ->
    told st (up_link u) (up_type u).

(** Nodes stay allocated, and a payload changes at most in the child slots
    of an App. *)
Definition shape_kept st st' : Prop :=
  forall k mk, nodes st !! k = Some mk ->
    exists mk', nodes st' !! k = Some mk' /\
      (payload mk' = payload mk \/
       exists l r l' r', payload mk = app l r /\ payload mk' = app l' r').

Definition told_kept st st' : Prop :=
  forall q t, told st q t -> told st' q t.

(** What [upcopy(nc, into, t)] expects of [nc]: it is the image of the child
    in slot [t] of [into], or of the variable [into] itself. *)
Definition content_pre st (nc into : addr) (t : UplinkType) : Prop :=
  (forall m0 c, nodes st0 !! into = Some m0 -> slot_of (payload m0) t = Some c ->
     image st c nc) /\
  (forall m0, nodes st0 !! into = Some m0 -> payload m0 = var -> image st into nc).

(** What [upcopy(nc, into, t)] has done when it returns. *)
Definition content_post st st' (into : addr) (t : UplinkType) : Prop :=
  content_inv st' /\ shape_kept st st' /\ told_kept st st' /\
  (inner st0 into -> told st' into t) /\
  (~ inner st0 into -> all_told st' into) /\
  (forall c, done st0 st' c -> done st0 st c \/ all_told st' c).

(** [c'] is what stands for [c] once the pass is over: the image of [c]
    when [c] has one, and [c] itself otherwise. *)
Definition stands_for st (c c' : addr) : Prop :=
  (c' = c \/ image st c c') /\ forall c'', image st c c'' -> c'' = c'.

(** [p'] is [p] with every child replaced by what stands for it, the
    variable of a Lambda by a Var node that the pass allocated. *)
Definition substituted st (p p' : Payload P) : Prop :=
  match p, p' with
  | app l r, app l' r' => stands_for st l l' /\ stands_for st r r'
  | lambda b v, lambda b' v' =>
      stands_for st b b' /\ stands_for st v v' /\
      nodes st0 !! v' = None /\
      exists mv, nodes st !! v' = Some mv /\ payload mv = var
  | _, _ => False
  end.
End ContentDefs.

Section CopyStepDefs.
Context {P : Type}.
Implicit Types (st : State P) (m : Node P).

(** One step up from [c] towards the nodes that a pass copies: to a
    recorded parent of [c] other than the Lambda [fn] under reduction, or
    from a Lambda to its variable. *)
Definition copy_step st (fn c q : addr) : Prop :=
  (q <> fn /\ exists mc t, nodes st !! c = Some mc /\ mkUplink q t ∈ uplinks mc) \/
  binds st c q.
End CopyStepDefs.

Section PassResultDefs.
Context {P : Type}.

(** What the pass of a beta step has done when it returns. *)
Record pass_result (st1 st2 : State P) (fn x arg : addr) : Prop := {
  pr_ext : pass_ext st1 x st2;
  pr_kept : marks_kept st1 st1 st2;
  pr_scoped : scoped st1;
  pr_edges : edges_ok no_edge st1;
  pr_content : content_inv st1 x arg st2;
  pr_told : forall c, done st1 st2 c -> all_told st1 x arg st2 c;
  pr_stop : cache_of st2 fn = Some STOP;
  pr_binds : binds st1 fn x;
  pr_var : ~ inner st1 x;
  pr_null : forall a, inner st1 a -> a <> fn -> cache_of st1 a = Some NULL
}.
End PassResultDefs.

(** ** Predicates for the termination of [clear] *)

Section ClearTotalDefs.
Context {P : Type}.
Implicit Types (st : State P) (m : Node P).
Variable st0 : State P.

(** The nodes [clear] dereferences when it wires a copy with payload [p']
    of a node with payload [p] are allocated: the children of the copy and,
    for a Lambda, the variable of the original. *)
Definition wirable st (p p' : Payload P) : Prop :=
  match p, p' with
  | app _ _, app l r => is_Some (nodes st !! l) /\ is_Some (nodes st !! r)
  | lambda _ v, lambda b _ => is_Some (nodes st !! b) /\ is_Some (nodes st !! v)
  | _, _ => False
  end.

(** What [clear] needs of the caches it meets. *)
Record clear_ready st : Prop := {
  cr_copy : forall q m0 k, nodes st0 !! q = Some m0 -> inner st0 q ->
    cache_of st q = Some (Cached k) ->
    exists mk, nodes st !! k = Some mk /\ wirable st (payload m0) (payload mk);
  cr_stop : forall a, inner st0 a -> cache_of st a <> Some STOP
}.

(** [U] contains every App and Lambda that holds a copy. *)
Definition pending (U : gset addr) st : Prop :=
  forall a k, inner st0 a -> cache_of st a = Some (Cached k) -> a ∈ U.

(** No uplink list is longer than [L] less two records for each node of
    [U]. *)
Definition len_bound (L : nat) (U : gset addr) st : Prop :=
  forall a m, nodes st !! a = Some m -> length (uplinks m) + 2 * size U <= L.

(** Nodes stay allocated and no node is allocated; an uplink list grows by
    [n] records at most. *)
Definition grown (n : nat) st st' : Prop :=
  forall a, match nodes st !! a, nodes st' !! a with
            | Some m, Some m' => length (uplinks m') <= length (uplinks m) + n
            | None, None => True
            | _, _ => False
            end.
End ClearTotalDefs.

(** ** Predicates for the further properties *)

Section MoreDefs.
Context {P : Type}.
Implicit Types (st : State P) (m n : Node P).

(** The store a head over [body] leaves behind once it is freed: the Var
    that [make_head] made stays allocated. *)
Definition leaked_var st : State P :=
  mkState (<[next st := mkNode NULL [] var]> (nodes st))
          (Pos.succ (Pos.succ (next st))).

(** [y] is a child of [x]. *)
Definition child_of st (x y : addr) : Prop :=
  exists m, nodes st !! x = Some m /\ y ∈ children (payload m).

(** Every uplink record of [st] either is still on its node in [st'], or
    names a parent that [st'] no longer has. *)
Definition records_kept st st' : Prop :=
  forall c m u, nodes st !! c = Some m -> u ∈ uplinks m ->
    (exists m', nodes st' !! c = Some m' /\ u ∈ uplinks m') \/
    nodes st' !! up_link u = None.
End MoreDefs.

Section CheckDefs.
Context {P : Type}.
Implicit Types (st : State P) (m n : Node P).

(** The edge from slot [t] of [p] has its record on the child. *)
Definition slot_ok st (p : addr) m (t : UplinkType) : bool :=
  match slot_of (payload m) t with
  | Some c =>
      match nodes st !! c with
      | Some mc => bool_decide (mkUplink p t ∈ uplinks mc)
      | None => false
      end
  | None => true
  end.

(** [graph_inv], decided on a given store. *)
Definition graph_inv_check st : bool :=
  well_formed_check st
  && bool_decide (map_Forall (fun p m =>
       forallb (slot_ok st p m) [UPLINK_APPL; UPLINK_APPR; UPLINK_NA] = true)
       (nodes st)).
End CheckDefs.

Section HnfDefs.
Context {P : Type}.
Implicit Types (st : State P) (m n : Node P).

(** The term at [a] is in head normal form: under its leading Lambdas, a
    spine of applications whose head is a variable (or [a] is a Prim
    node). *)
Inductive head_normal st : addr -> Prop :=
  | hn_var a m : nodes st !! a = Some m -> payload m = var -> head_normal st a
  | hn_prim a m p : nodes st !! a = Some m -> payload m = prim p -> head_normal st a
  | hn_lambda a m b v :
      nodes st !! a = Some m -> payload m = lambda b v ->
      head_normal st b -> head_normal st a
  | hn_app a m l r ml :
      nodes st !! a = Some m -> payload m = app l r ->
      head_normal st l -> nodes st !! l = Some ml ->
      node_type ml = NODE_VAR \/ node_type ml = NODE_APP ->
      head_normal st a.
End HnfDefs.

Section SpineDefs.
Context {P : Type}.
Implicit Types (st : State P) (m n : Node P).

(** [c] lies on the head spine below [a]: the path from [a] that enters the
    body of every Lambda and the left child of every App. *)
Inductive on_spine st : addr -> addr -> Prop :=
  | sp_here a : on_spine st a a
  | sp_lambda a m b v c :
      nodes st !! a = Some m -> payload m = lambda b v ->
      on_spine st b c -> on_spine st a c
  | sp_app a m l r c :
      nodes st !! a = Some m -> payload m = app l r ->
      on_spine st l c -> on_spine st a c.
End SpineDefs.

Section DotifyDefs.
Context {P : Type}.
Implicit Types (st : State P) (m n : Node P).

(** Every pointer field of a node of [st] points to a node of [st]. *)
Definition closed st : Prop :=
  forall a m, nodes st !! a = Some m ->
    match payload m with
    | app l r => is_Some (nodes st !! l) /\ is_Some (nodes st !! r)
    | lambda b v => is_Some (nodes st !! b) /\ is_Some (nodes st !! v)
    | _ => True
    end.

Definition closed_node st m : bool :=
  match payload m with
  | app l r => bool_decide (is_Some (nodes st !! l)) && bool_decide (is_Some (nodes st !! r))
  | lambda b v => bool_decide (is_Some (nodes st !! b)) && bool_decide (is_Some (nodes st !! v))
  | _ => true
  end.

Definition closed_check st : bool :=
  bool_decide (map_Forall (fun (_ : addr) m => closed_node st m = true) (nodes st)).
End DotifyDefs.

(** ** Predicates for the termination of a beta step *)

Section RankDefs.
Context {P : Type}.
Implicit Types (st : State P) (m : Node P).

(** The node [qm] is an App or Lambda that holds [k] in its cache. *)
Definition holds_copy (k : addr) (qm : addr * Node P) : bool :=
  match cache qm.2, payload qm.2 with
  | Cached c, app _ _ | Cached c, lambda _ _ => Pos.eqb c k
  | _, _ => false
  end.

(** The App or Lambda of which [k] is the copy. *)
Definition origin st (k : addr) : option addr :=
  fst <$> List.find (holds_copy k) (map_to_list (nodes st)).

(** A rank for the store after a pass on the redex of rank [ra], from a
    rank [rank] of the store [st1] before it: the old nodes keep their
    order, and the copies sit together between the nodes below the redex
    and the redex. *)
Definition copy_rank (rank : addr -> nat) (ra : nat) st1 st2 (k : addr) : nat :=
  if decide (is_Some (nodes st1 !! k)) then (ra + 2) * rank k
  else match origin st2 k with
       | Some q => (ra + 2) * (ra - 1) + 1 + rank q
       | None => 0
       end.
End RankDefs.

(** ** Predicates for the release of an unused argument *)

Section ReleaseDefs.
Context {P : Type}.
Implicit Types (st : State P) (m : Node P).


End ReleaseDefs.

(** ** Predicates for a step after [hnf_reduce] *)

Section RejectDefs.
Context {P : Type}.
Implicit Types (st : State P) (m n : Node P).
Variable prim_apply :
  (State P -> Head -> outcome (bool * State P)) ->
  P -> Head -> State P -> outcome (option P * State P).

(** [apply] rejects every argument of the primitive [pn], and leaves the
    store alone when it does. *)
Definition inert (pn : P) : Prop :=
  forall reduce h st, prim_apply reduce pn h st = Done (None, st).

(** On the head spine below [a] there is an application of the primitive
    [pn] whose argument, under the head that [prim_reduce] makes for it,
    [apply] rejects. *)
Definition rejected st (a : addr) (pn : P) : Prop :=
  exists (r fn arg : addr) n reduce h1 st1 f st2,
    on_spine st a r /\ nodes st !! r = Some n /\ payload n = app fn arg /\
    make_head st arg = Done (h1, st1) /\
    nodes st1 !! fn = Some f /\ payload f = prim pn /\
    prim_apply reduce pn h1 st1 = Done (None, st2).
End RejectDefs.

(** * Properties *)

(** ** Frame lemmas for the operations that only unlink and delete *)

Section Frame.
Context {P : Type}.
Implicit Types (st : State P) (m n : Node P).

Lemma bind_Done {A B} (m : outcome A) (k : A -> outcome B) (r : B) :
  (m ≫= k) = Done r -> exists a, m = Done a /\ k a = Done r.
Proof. destruct m; cbn; intros; try discriminate. eauto. Qed.

Lemma deref_Done st a n : deref st a = Done n -> nodes st !! a = Some n.
Proof. unfold deref. destruct (nodes st !! a); congruence. Qed.

Lemma unlink_list_In parent type l l' :
  unlink_list parent type l = Some l' -> mkUplink parent type ∈ l.
Proof.
  revert l'. induction l as [|u l IH]; cbn; intros l' H; [discriminate|].
  destruct (Uplink_matches parent type u) eqn:E.
  - unfold Uplink_matches in E. apply andb_prop in E as [E1 E2].
    apply Pos.eqb_eq in E1. destruct u as [pl ty]; cbn in *. subst.
    destruct ty, type; try discriminate; left.
  - destruct (unlink_list parent type l); [|discriminate]. right. eauto.
Qed.

Lemma uplinks_unlink_Done child parent type st st' :
  uplinks_unlink child parent type st = Done st' ->
  exists m l, nodes st !! child = Some m /\
    unlink_list parent type (uplinks m) = Some l /\
    st' = store child (mkNode (cache m) l (payload m)) st.
Proof.
  unfold uplinks_unlink. intros H. apply bind_Done in H as (m & Hm & H).
  apply deref_Done in Hm.
  destruct (unlink_list parent type (uplinks m)) as [l|] eqn:E; [|discriminate].
  injection H as <-. eauto.
Qed.

Lemma uplinks_add_Done child link type st st' :
  uplinks_add child link type st = Done st' ->
  exists m, nodes st !! child = Some m /\
    st' = store child
            (mkNode (cache m) (uplinks m ++ [mkUplink link type]) (payload m)) st.
Proof.
  unfold uplinks_add. intros H. apply bind_Done in H as (m & Hm & H).
  apply deref_Done in Hm. injection H as <-. eauto.
Qed.

Lemma set_payload_Done a p st st' :
  set_payload a p st = Done st' ->
  exists m, nodes st !! a = Some m /\
    st' = store a (mkNode (cache m) (uplinks m) p) st.
Proof.
  unfold set_payload. intros H. apply bind_Done in H as (m & Hm & H).
  apply deref_Done in Hm. injection H as <-. eauto.
Qed.

Lemma delete_Node_Done st a st' :
  delete_Node st a = Done st' ->
  is_Some (nodes st !! a) /\ st' = mkState (delete a (nodes st)) (next st).
Proof.
  unfold delete_Node. destruct (nodes st !! a); [|discriminate].
  intros [= <-]. eauto.
Qed.

Lemma shrinks_refl st : shrinks st st.
Proof. split; eauto. Qed.

Lemma shrinks_trans st1 st2 st3 :
  shrinks st1 st2 -> shrinks st2 st3 -> shrinks st1 st3.
Proof.
  intros [E1 H1] [E2 H2]. split; [congruence|].
  intros c m3 H3. destruct (H2 _ _ H3) as (m2 & Hm2 & ? & ?).
  destruct (H1 _ _ Hm2) as (m1 & Hm1 & ? & ?). exists m1. split_and!; congruence.
Qed.

Lemma shrinks_ranked rank st st' : shrinks st st' -> ranked rank st -> ranked rank st'.
Proof.
  intros [_ H] R x m' c Hx Hc. destruct (H _ _ Hx) as (m & Hm & Hp & _).
  rewrite Hp in Hc. eauto.
Qed.

Lemma shrinks_store_uplinks st a m l :
  nodes st !! a = Some m ->
  shrinks st (store a (mkNode (cache m) l (payload m)) st).
Proof.
  intros Hm. split; [done|]. intros c m' Hc. cbn in Hc.
  destruct (decide (c = a)) as [->|Hne].
  - rewrite lookup_insert_eq in Hc. injection Hc as <-. eauto.
  - rewrite lookup_insert_ne in Hc by done. eauto.
Qed.

Lemma shrinks_delete st a :
  shrinks st (mkState (delete a (nodes st)) (next st)).
Proof.
  split; [done|]. intros c m' Hc. cbn in Hc.
  apply lookup_delete_Some in Hc as [_ Hc]. eauto.
Qed.

Lemma uplinks_unlink_shrinks child parent type st st' :
  uplinks_unlink child parent type st = Done st' -> shrinks st st'.
Proof.
  intros H. apply uplinks_unlink_Done in H as (m & l & Hm & _ & ->).
  by apply shrinks_store_uplinks.
Qed.

Lemma uplinks_add_shrinks child link type st st' :
  uplinks_add child link type st = Done st' -> shrinks st st'.
Proof.
  intros H. apply uplinks_add_Done in H as (m & Hm & ->).
  by apply shrinks_store_uplinks.
Qed.

Lemma delete_Node_shrinks st a st' : delete_Node st a = Done st' -> shrinks st st'.
Proof. intros H. apply delete_Node_Done in H as [_ ->]. apply shrinks_delete. Qed.

Lemma cleanup_shrinks fuel : forall st (a : addr) st',
  cleanup fuel st a = Done st' -> shrinks st st'.
Proof.
  induction fuel as [|fuel IH]; intros st a st' H; [discriminate|].
  cbn in H. apply bind_Done in H as (m & Hm & H).
  destruct (uplinks m); [|injection H as <-; apply shrinks_refl].
  destruct (payload m) as [l r|b v| |q].
  - apply bind_Done in H as (st1 & H1 & H). apply bind_Done in H as (st2 & H2 & H).
    apply bind_Done in H as (m' & Hm' & H).
    destruct (payload m') as [l' r'| | |]; try discriminate.
    apply bind_Done in H as (st3 & H3 & H). apply bind_Done in H as (st4 & H4 & H).
    eauto 10 using shrinks_trans, uplinks_unlink_shrinks, delete_Node_shrinks.
  - apply bind_Done in H as (st1 & H1 & H). apply bind_Done in H as (st2 & H2 & H).
    eauto 10 using shrinks_trans, uplinks_unlink_shrinks, delete_Node_shrinks.
  - eauto using delete_Node_shrinks.
  - eauto using delete_Node_shrinks.
Qed.

Lemma out_of_reach_child rank st st' a b c :
  out_of_reach rank st a c -> rank b < rank a ->
  nodes st' !! c = nodes st !! c ->
  out_of_reach rank st' b c.
Proof.
  intros [H|H] Hlt E; [left; lia|right].
  intros m Hm u Hu. rewrite E in Hm. specialize (H m Hm u Hu). lia.
Qed.

Lemma unlink_child_frame rank st st' a b c type :
  uplinks_unlink b a type st = Done st' ->
  rank b < rank a -> out_of_reach rank st a c ->
  nodes st' !! c = nodes st !! c.
Proof.
  intros H Hlt Hc. apply uplinks_unlink_Done in H as (m & l & Hm & Hl & ->).
  cbn. destruct (decide (c = b)) as [->|Hne]; [|by rewrite lookup_insert_ne].
  exfalso. destruct Hc as [Hc|Hc]; [lia|].
  apply unlink_list_In in Hl. specialize (Hc m Hm _ Hl). cbn in Hc. lia.
Qed.

Lemma cleanup_frame rank fuel : forall st (a : addr) st',
  cleanup fuel st a = Done st' -> ranked rank st ->
  forall c, c <> a -> out_of_reach rank st a c ->
  nodes st' !! c = nodes st !! c.
Proof.
  induction fuel as [|fuel IH]; intros st a st' H R c Hca Hc; [discriminate|].
  cbn in H. apply bind_Done in H as (m & Hm & H). apply deref_Done in Hm.
  destruct (uplinks m); [|by injection H as <-].
  destruct (payload m) as [l r|b v| |q] eqn:Hp.
  - apply bind_Done in H as (st1 & H1 & H). apply bind_Done in H as (st2 & H2 & H).
    apply bind_Done in H as (m' & Hm' & H). apply deref_Done in Hm'.
    destruct (payload m') as [l' r'| | |] eqn:Hp'; try discriminate.
    apply bind_Done in H as (st3 & H3 & H). apply bind_Done in H as (st4 & H4 & H).
    assert (Hl : rank l < rank a) by (eapply R; [done|rewrite Hp; set_solver]).
    assert (Hr : rank r < rank a) by (eapply R; [done|rewrite Hp; set_solver]).
    assert (S1 := uplinks_unlink_shrinks _ _ _ _ _ H1).
    assert (S2 := cleanup_shrinks _ _ _ _ H2).
    assert (S3 := uplinks_unlink_shrinks _ _ _ _ _ H3).
    assert (r' = r) as ->.
    { destruct (shrinks_trans _ _ _ S1 S2) as [_ S].
      destruct (S _ _ Hm') as (m0 & Hm0 & E & _). congruence. }
    assert (E1 := unlink_child_frame _ _ _ _ _ _ _ H1 Hl Hc).
    assert (C1 : l <> c).
    { intros ->. destruct Hc as [Hc|Hc]; [lia|].
      apply uplinks_unlink_Done in H1 as (ml & ll & Hml & Hll & _).
      apply unlink_list_In in Hll. specialize (Hc _ Hml _ Hll). cbn in Hc. lia. }
    assert (E2 : nodes st2 !! c = nodes st1 !! c).
    { eapply IH; eauto using shrinks_ranked, out_of_reach_child. }
    assert (O2 : out_of_reach rank st2 a c).
    { destruct Hc as [Hc|Hc]; [by left|right]. intros ?. rewrite E2, E1. eauto. }
    assert (E3 := unlink_child_frame _ _ _ _ _ _ _ H3 Hr O2).
    assert (C3 : r <> c).
    { intros ->. destruct O2 as [O2|O2]; [lia|].
      apply uplinks_unlink_Done in H3 as (ml & ll & Hml & Hll & _).
      apply unlink_list_In in Hll. specialize (O2 _ Hml _ Hll). cbn in O2. lia. }
    assert (E4 : nodes st4 !! c = nodes st3 !! c).
    { eapply IH; eauto using shrinks_ranked, shrinks_trans, out_of_reach_child. }
    apply delete_Node_Done in H as [_ ->]. cbn.
    rewrite lookup_delete_ne by done. congruence.
  - apply bind_Done in H as (st1 & H1 & H). apply bind_Done in H as (st2 & H2 & H).
    assert (Hb : rank b < rank a) by (eapply R; [done|rewrite Hp; set_solver]).
    assert (S1 := uplinks_unlink_shrinks _ _ _ _ _ H1).
    assert (E1 := unlink_child_frame _ _ _ _ _ _ _ H1 Hb Hc).
    assert (C1 : b <> c).
    { intros ->. destruct Hc as [Hc|Hc]; [lia|].
      apply uplinks_unlink_Done in H1 as (ml & ll & Hml & Hll & _).
      apply unlink_list_In in Hll. specialize (Hc _ Hml _ Hll). cbn in Hc. lia. }
    assert (E2 : nodes st2 !! c = nodes st1 !! c).
    { eapply IH; eauto using shrinks_ranked, out_of_reach_child. }
    apply delete_Node_Done in H as [_ ->]. cbn.
    rewrite lookup_delete_ne by done. congruence.
  - apply delete_Node_Done in H as [_ ->]. cbn. by rewrite lookup_delete_ne.
  - apply delete_Node_Done in H as [_ ->]. cbn. by rewrite lookup_delete_ne.
Qed.

Lemma cleanup_deletes fuel st (a : addr) st' m :
  cleanup fuel st a = Done st' ->
  nodes st !! a = Some m -> uplinks m = [] ->
  nodes st' !! a = None.
Proof.
  destruct fuel as [|fuel]; [discriminate|]. intros H Hm Hu.
  cbn in H. unfold deref in H. rewrite Hm in H. cbn in H. rewrite Hu in H.
  destruct (payload m) as [l r|b v| |q].
  - apply bind_Done in H as (st1 & H1 & H). apply bind_Done in H as (st2 & H2 & H).
    apply bind_Done in H as (m' & Hm' & H).
    destruct (payload m') as [l' r'| | |]; try discriminate.
    apply bind_Done in H as (st3 & H3 & H). apply bind_Done in H as (st4 & H4 & H).
    apply delete_Node_Done in H as [_ ->]. cbn. apply lookup_delete_eq.
  - apply bind_Done in H as (st1 & H1 & H). apply bind_Done in H as (st2 & H2 & H).
    apply delete_Node_Done in H as [_ ->]. cbn. apply lookup_delete_eq.
  - apply delete_Node_Done in H as [_ ->]. cbn. apply lookup_delete_eq.
  - apply delete_Node_Done in H as [_ ->]. cbn. apply lookup_delete_eq.
Qed.

Lemma payload_upd_refl b (p : Payload P) : payload_upd b p p.
Proof. destruct p; cbn; auto. Qed.

Lemma payload_upd_trans b (p1 p2 p3 : Payload P) :
  payload_upd b p1 p2 -> payload_upd b p2 p3 -> payload_upd b p1 p3.
Proof.
  destruct p1, p2, p3; cbn; try done; try congruence.
  - intros [[|] [|]] [[|] [|]]; subst; auto.
  - intros [? [|]] [? [|]]; subst; auto.
Qed.

Lemma payload_upd_set_slot b (p : Payload P) t : payload_upd b p (set_slot p t b).
Proof. destruct p, t; cbn; auto. Qed.

Lemma payload_upd_slot b (p p' : Payload P) t :
  payload_upd b p p' -> slot_of p t = Some b -> slot_of p' t = Some b.
Proof.
  destruct p, p', t; cbn; try done.
  all: try (intros [[|] [|]]; congruence).
  all: intros [? [|]]; congruence.
Qed.

Lemma slot_of_set_slot (p : Payload P) t old c :
  slot_of p t = Some old -> slot_of (set_slot p t c) t = Some c.
Proof. destruct p, t; cbn; congruence. Qed.

Lemma slot_of_set_slot_ne (p : Payload P) t t' old c x :
  slot_of p t = Some old -> t' <> t -> slot_of p t' = Some x ->
  slot_of (set_slot p t c) t' = Some x.
Proof. destruct p, t, t'; cbn; congruence. Qed.

Lemma slot_of_children (p : Payload P) t c : slot_of p t = Some c -> c ∈ children p.
Proof. destruct p, t; cbn; intros [= <-]; set_solver. Qed.

Lemma children_set_slot (p : Payload P) t old c x :
  slot_of p t = Some old -> x ∈ children (set_slot p t c) ->
  x = c \/ x ∈ children p.
Proof. destruct p, t; cbn; intros [= <-]; set_solver. Qed.

Lemma spliced_refl b st : spliced b st st.
Proof. split; eauto using payload_upd_refl. Qed.

Lemma spliced_trans b st1 st2 st3 :
  spliced b st1 st2 -> spliced b st2 st3 -> spliced b st1 st3.
Proof.
  intros [E1 H1] [E2 H2]. split; [congruence|].
  intros c m3 H3. destruct (H2 _ _ H3) as (m2 & Hm2 & ? & ?).
  destruct (H1 _ _ Hm2) as (m1 & Hm1 & ? & ?). exists m1.
  split_and!; eauto using payload_upd_trans; congruence.
Qed.

Lemma shrinks_spliced b st st' : shrinks st st' -> spliced b st st'.
Proof.
  intros [E H]. split; [done|]. intros c m' Hc.
  destruct (H _ _ Hc) as (m & ? & Hp & ?). exists m. split_and!; try done.
  rewrite Hp. apply payload_upd_refl.
Qed.

Lemma upreplace_Done fuel st newchild into t st' m old :
  upreplace fuel st newchild into t = Done st' ->
  nodes st !! into = Some m -> slot_of (payload m) t = Some old ->
  exists st1 st2 st3,
    uplinks_unlink old into t st = Done st1 /\
    set_payload into (set_slot (payload m) t newchild) st1 = Done st2 /\
    uplinks_add newchild into t st2 = Done st3 /\
    cleanup fuel st3 old = Done st'.
Proof.
  unfold upreplace, deref. intros H Hm Hs. rewrite Hm in H. cbn in H.
  destruct (payload m) as [l r|b v| |q], t; cbn in Hs; try discriminate;
    injection Hs as <-; cbn;
    apply bind_Done in H as (st1 & H1 & H); apply bind_Done in H as (st2 & H2 & H);
    apply bind_Done in H as (st3 & H3 & H); eauto 10.
Qed.

Lemma unlink_list_head p t l :
  unlink_list p t (mkUplink p t :: l) = Some l.
Proof.
  cbn. unfold Uplink_matches. cbn. rewrite Pos.eqb_refl. by destruct t.
Qed.

Lemma ranked_store rank st x m :
  ranked rank st ->
  (forall c, c ∈ children (payload m) -> rank c < rank x) ->
  ranked rank (store x m st).
Proof.
  intros R H y my c Hy Hc. cbn in Hy.
  destruct (decide (y = x)) as [->|Hne].
  - rewrite lookup_insert_eq in Hy. injection Hy as <-. eauto.
  - rewrite lookup_insert_ne in Hy by done. eauto.
Qed.

Lemma spliced_store b st x m m' :
  nodes st !! x = Some m -> cache m' = cache m ->
  payload_upd b (payload m) (payload m') ->
  spliced b st (store x m' st).
Proof.
  intros Hm Hc Hp. split; [done|]. intros c mc Hl. cbn in Hl.
  destruct (decide (c = x)) as [->|Hne].
  - rewrite lookup_insert_eq in Hl. injection Hl as <-. eauto.
  - rewrite lookup_insert_ne in Hl by done. eauto using payload_upd_refl.
Qed.

Lemma cleanup_nonempty fuel st (a : addr) st' m :
  cleanup fuel st a = Done st' ->
  nodes st !! a = Some m -> uplinks m <> [] -> st' = st.
Proof.
  destruct fuel as [|fuel]; [discriminate|]. intros H Hm Hu.
  cbn in H. unfold deref in H. rewrite Hm in H. cbn in H.
  destruct (uplinks m); [done|]. by injection H.
Qed.

Lemma ranked_check_sound rank st : ranked_check rank st = true -> ranked rank st.
Proof.
  unfold ranked_check. intros H. apply bool_decide_eq_true in H.
  intros x m c Hx Hc. specialize (H x m Hx). cbn in H.
  rewrite Forall_forall in H. auto.
Qed.

End Frame.

(** ** Graphs without primitives *)

Ltac inv_done :=
  repeat match goal with
  | H : Done _ = Done _ |- _ => injection H as H; try subst
  | H : (_, _) = (_, _) |- _ => injection H as ? ?; try subst
  | H : Aborted = Done _ |- _ => discriminate H
  | H : Undefined = Done _ |- _ => discriminate H
  | H : OutOfFuel = Done _ |- _ => discriminate H
  | H : mbind _ _ = Done _ |- _ => apply bind_Done in H as (? & ? & H)
  | H : deref _ _ = Done _ |- _ => apply deref_Done in H
  | H : (let '(_, _) := ?x in _) = Done _ |- _ => destruct x eqn:?
  | H : match ?x with _ => _ end = Done _ |- _ => destruct x eqn:?
  end.

Create HintDb pf.

Section PrimFree.
Context {P : Type}.
Implicit Types (st : State P) (m n : Node P).

#[local] Arguments new_Node : simpl never.

Lemma prim_free_check_sound st : prim_free_check st = true -> prim_free st.
Proof.
  unfold prim_free_check. intros H. apply bool_decide_eq_true in H.
  intros x m Hx Ht. specialize (H x m Hx). cbn in H.
  unfold node_type in Ht. by destruct (payload m).
Qed.

Lemma prim_free_store st x m :
  prim_free st -> node_type m <> NODE_PRIM -> prim_free (store x m st).
Proof.
  intros F Hm y my Hy. cbn in Hy. destruct (decide (y = x)) as [->|].
  - rewrite lookup_insert_eq in Hy. by injection Hy as <-.
  - rewrite lookup_insert_ne in Hy by done. eauto.
Qed.

Lemma prim_free_new_Node st n a st' :
  new_Node st n = (a, st') -> node_type n <> NODE_PRIM ->
  prim_free st -> prim_free st'.
Proof.
  unfold new_Node. intros [= <- <-] Hn F. by apply (prim_free_store st).
Qed.

Lemma prim_free_set_cache a c st st' :
  set_cache a c st = Done st' -> prim_free st -> prim_free st'.
Proof.
  unfold set_cache. intros H F. inv_done.
  match goal with Hl : nodes st !! a = Some ?m |- _ => pose proof (F _ _ Hl) end.
  by apply prim_free_store.
Qed.

Lemma prim_free_set_payload a p st st' :
  set_payload a p st = Done st' -> (forall q, p <> prim q) ->
  prim_free st -> prim_free st'.
Proof.
  unfold set_payload. intros H Hp F. inv_done. apply prim_free_store; [done|].
  unfold node_type. cbn. destruct p; try done. by destruct (Hp p).
Qed.

Lemma prim_free_spliced b st st' : spliced b st st' -> prim_free st -> prim_free st'.
Proof.
  intros [_ S] F x m' Hx. destruct (S _ _ Hx) as (m & Hm & _ & Hp).
  specialize (F _ _ Hm). unfold node_type in *.
  destruct (payload m), (payload m'); cbn in Hp; try done.
Qed.

Lemma prim_free_shrinks st st' : shrinks st st' -> prim_free st -> prim_free st'.
Proof. intros S. apply (prim_free_spliced 1%positive). by apply shrinks_spliced. Qed.

Lemma for_each_uplink_inv (I : State P -> Prop) body l : forall st st',
  (forall st cur st', body st cur = Done st' -> I st -> I st') ->
  for_each_uplink body l st = Done st' -> I st -> I st'.
Proof.
  induction l as [|u l IH]; intros st st' Hb H HI; cbn in H; inv_done; eauto.
Qed.

Lemma prim_free_unlink c p t st st' :
  uplinks_unlink c p t st = Done st' -> prim_free st -> prim_free st'.
Proof. eauto using prim_free_shrinks, uplinks_unlink_shrinks. Qed.

Lemma prim_free_add c p t st st' :
  uplinks_add c p t st = Done st' -> prim_free st -> prim_free st'.
Proof. eauto using prim_free_shrinks, uplinks_add_shrinks. Qed.

Lemma prim_free_cleanup fuel st (a : addr) st' :
  cleanup fuel st a = Done st' -> prim_free st -> prim_free st'.
Proof. eauto using prim_free_shrinks, cleanup_shrinks. Qed.

Local Hint Extern 1 (node_type _ <> NODE_PRIM) =>
  (unfold node_type; cbn; repeat case_match; discriminate) : pf.
Local Hint Extern 1 (forall q, _ <> prim q) =>
  (intros; repeat case_match; discriminate) : pf.
Local Hint Resolve prim_free_unlink prim_free_add prim_free_cleanup
  prim_free_set_cache prim_free_set_payload prim_free_new_Node : pf.

Lemma prim_free_upreplace fuel st (nc into : addr) t st' :
  upreplace fuel st nc into t = Done st' -> prim_free st -> prim_free st'.
Proof.
  unfold upreplace. intros H F. inv_done; eauto 10 with pf.
Qed.

Lemma prim_free_upcopy fuel : forall st (nc into : addr) t st',
  upcopy fuel st nc into t = Done st' -> prim_free st -> prim_free st'.
Proof.
  induction fuel as [|fuel IH]; intros st nc into t st' H F; [discriminate|].
  cbn in H. inv_done.
  all: try (eapply for_each_uplink_inv; [|eassumption|];
            [intros ? ? ? Hb ?; eapply IH; [exact Hb|done]|]).
  all: eauto 12 with pf.
Qed.

Lemma prim_free_clear_from fuel : forall st (node : addr) i st',
  clear_from fuel st node i = Done st' -> prim_free st -> prim_free st'.
Proof.
  induction fuel as [|fuel IH]; intros st node i st' H F; [discriminate|].
  cbn in H. inv_done; eauto 12 with pf.
Qed.

Lemma prim_free_upreplace_all fuel st (b : addr) l st' :
  upreplace_all fuel st b l = Done st' -> prim_free st -> prim_free st'.
Proof.
  unfold upreplace_all. intros H F.
  eapply for_each_uplink_inv; [|eassumption|done].
  intros ? ? ? Hb ?. eapply prim_free_upreplace; [exact Hb|done].
Qed.

Lemma prim_free_beta_reduce fuel st (a : addr) st' :
  beta_reduce fuel st a = Done st' -> prim_free st -> prim_free st'.
Proof.
  unfold beta_reduce, clear. intros H F. inv_done;
    eauto 12 using prim_free_upreplace_all, prim_free_upcopy,
      prim_free_clear_from with pf.
Qed.

Section Driver.
Variable prim_apply :
  (State P -> Head -> outcome (bool * State P)) ->
  P -> Head -> State P -> outcome (option P * State P).

Lemma hnf_reduce_1_prim_free fuel : forall st (ptr : addr) r st',
  hnf_reduce_1 prim_apply fuel st ptr = Done (r, st') -> prim_free st ->
  prim_free st' /\ (r = false -> st' = st).
Proof.
  induction fuel as [|fuel IH]; intros st ptr r st' H F; [discriminate|].
  cbn in H. inv_done; eauto.
  all: try match goal with
    | H : hnf_reduce_1 _ _ _ _ = Done (_, _) |- _ =>
        destruct (IH _ _ _ _ H F) as [F' E]; try (specialize (E eq_refl); subst)
    end.
  all: try (split; [eauto using prim_free_beta_reduce|done]).
  all: try done.
  all: exfalso; match goal with
    | Hn : nodes ?s !! _ = Some ?m, Ht : node_type ?m = NODE_PRIM,
      Hf : prim_free ?s |- _ => exact (Hf _ _ Hn Ht)
    end.
Qed.

Lemma hnf_reduce_1_stuck_mono fuel : forall st (ptr : addr),
  prim_free st ->
  hnf_reduce_1 prim_apply fuel st ptr = Done (false, st) ->
  forall fuel', fuel <= fuel' ->
    hnf_reduce_1 prim_apply fuel' st ptr = Done (false, st).
Proof.
  induction fuel as [|fuel IH]; intros st ptr F H fuel' Hle; [discriminate|].
  destruct fuel' as [|fuel']; [lia|]. assert (Hle' : fuel <= fuel') by lia.
  cbn in H |- *. unfold deref in *.
  destruct (nodes st !! ptr) as [n|] eqn:Hn; [|discriminate]. cbn in H |- *.
  destruct (payload n) as [l r|b v| |q] eqn:Hp; try done.
  - apply bind_Done in H as ([reduced st1] & H1 & H).
    destruct reduced; [discriminate|].
    destruct (hnf_reduce_1_prim_free _ _ _ _ _ H1 F) as [_ E].
    specialize (E eq_refl). subst st1.
    rewrite (IH _ _ F H1 _ Hle'). cbn. rewrite Hn in H |- *. cbn in H |- *.
    rewrite Hp in H |- *.
    destruct (nodes st !! l) as [ln|] eqn:Hl; [|discriminate]. cbn in H |- *.
    destruct (node_type ln) eqn:Ht; try done.
    + apply bind_Done in H as (? & _ & H). discriminate.
    + exfalso. exact (F _ _ Hl Ht).
  - eauto.
Qed.

(** After [hnf_reduce] on a graph without Prim nodes has returned, every
    further one-step call (with at least a certain recursion budget) returns
    false and leaves the store as it is. *)
Lemma hnf_reduce_fixpoint fuel : forall st (h : Head) st',
  prim_free st ->
  hnf_reduce prim_apply fuel st h = Done st' ->
  prim_free st' /\
  exists fuel0, forall fuel', fuel0 <= fuel' ->
    hnf_reduce_1_head prim_apply fuel' st' h = Done (false, st').
Proof.
  induction fuel as [|fuel IH]; intros st h st' F H; [discriminate|].
  cbn in H. apply bind_Done in H as ([progress st1] & H1 & H).
  unfold hnf_reduce_1_head in H1.
  destruct (hnf_reduce_1_prim_free _ _ _ _ _ H1 F) as [F1 E].
  destruct progress; [eauto|].
  injection H as <-. specialize (E eq_refl). subst st1.
  split; [done|]. exists fuel. intros fuel' Hle.
  unfold hnf_reduce_1_head. eauto using hnf_reduce_1_stuck_mono.
Qed.
End Driver.
End PrimFree.

(** ** One upcopy pass runs to completion on a well-formed graph *)

Section Pass.
Context {P : Type} (st0 : State P).
Implicit Types (st : State P) (m n : Node P).
Hypothesis SC : scoped st0.

#[local] Abbreviation pass_inv := (pass_inv st0).
#[local] Abbreviation done := (done st0).
#[local] Abbreviation marks_kept := (marks_kept st0).
#[local] Abbreviation unreached := (unreached st0).
#[local] Abbreviation copied_above := (copied_above st0).
#[local] Abbreviation lambdas_open := (lambdas_open st0).
#[local] Abbreviation covers := (covers st0).
#[local] Abbreviation upcopy_pre := (upcopy_pre st0).
#[local] Abbreviation var_weight := (var_weight st0).

Lemma cache_of_Some st a m : nodes st !! a = Some m -> cache_of st a = Some (cache m).
Proof. unfold cache_of. by intros ->. Qed.

Lemma cache_of_store st a m x :
  cache_of (store a m st) x = if decide (x = a) then Some (cache m) else cache_of st x.
Proof.
  unfold cache_of, store. cbn. destruct (decide (x = a)) as [->|].
  - by rewrite lookup_insert_eq.
  - by rewrite lookup_insert_ne.
Qed.

Lemma inner_live st a : pass_inv st -> inner st0 a -> exists m, nodes st !! a = Some m.
Proof. intros I (m0 & H0 & _). destruct (pi_static _ _ I _ _ H0) as (m & ? & _). eauto. Qed.

Lemma old_lt_next st a m0 : pass_inv st -> nodes st0 !! a = Some m0 -> a <> next st.
Proof.
  intros I H0 ->. destruct (pi_static _ _ I _ _ H0) as (m & Hm & _).
  rewrite (pi_fresh _ _ I) in Hm; [done|lia].
Qed.

Lemma binds_inner g v : binds st0 g v -> inner st0 g.
Proof. intros (m & b & Hm & Hp). exists m. split; [done|]. right. unfold node_type. by rewrite Hp. Qed.

Lemma marks_kept_refl st : marks_kept st st.
Proof. by intros a c. Qed.

Lemma marks_kept_trans st1 st2 st3 :
  marks_kept st1 st2 -> marks_kept st2 st3 -> marks_kept st1 st3.
Proof. intros H1 H2 a c Hi Hc Hn. eauto. Qed.

Lemma done_mono st st' c : marks_kept st st' -> done st c -> done st' c.
Proof.
  intros K [[Hi [k Hk]]|(g & cg & Hb & Hc & Hn)].
  - left. split; [done|]. exists k. by apply K.
  - right. exists g, cg. split_and!; try done. apply K; eauto using binds_inner.
Qed.

Lemma null_back st st' a :
  pass_inv st -> marks_kept st st' -> inner st0 a ->
  cache_of st' a = Some NULL -> cache_of st a = Some NULL.
Proof.
  intros I K Hi H'. destruct (inner_live _ _ I Hi) as (m & Hm).
  rewrite (cache_of_Some _ _ _ Hm). destruct (cache m) eqn:E; [done| |].
  - rewrite (K a STOP) in H'; try done. by rewrite (cache_of_Some _ _ _ Hm), E.
  - rewrite (K a (Cached a0)) in H'; try done. by rewrite (cache_of_Some _ _ _ Hm), E.
Qed.

Lemma unreached_back st st' b :
  pass_inv st -> marks_kept st st' -> unreached st' b -> unreached st b.
Proof.
  intros I K [[Hi Hc]|(g & Hb & Hc)].
  - left. eauto using null_back.
  - right. exists g. eauto using null_back, binds_inner.
Qed.

Lemma covers_mono U st st' :
  pass_inv st -> marks_kept st st' -> covers U st -> covers U st'.
Proof. intros I K C a Hi Hc. eauto using null_back. Qed.

Lemma lambdas_open_tail st u l : lambdas_open st (u :: l) -> lambdas_open st l.
Proof. intros H u' mp b v Hin. apply H. by right. Qed.


Lemma pass_inv_set_cache st a m0 m c :
  pass_inv st -> nodes st0 !! a = Some m0 -> nodes st !! a = Some m ->
  (node_type m0 = NODE_APP -> c = NULL \/
     exists k mk l r, c = Cached k /\ nodes st !! k = Some mk /\
       payload mk = app l r /\ nodes st0 !! k = None) ->
  (forall b v k, payload m0 = lambda b v -> c = Cached k -> done st b) ->
  (inner st0 a -> cache m = NULL \/ c = cache m) ->
  let st' := store a (mkNode c (uplinks m) (payload m)) st in
  set_cache a c st = Done st' /\ pass_inv st' /\ marks_kept st st'.
Proof.
  intros I H0 Hm Happ Hlam Hkeep st'.
  assert (K : marks_kept st st').
  { intros x c' Hi Hc Hn. unfold st'. rewrite cache_of_store.
    destruct (decide (x = a)) as [->|]; [|done].
    rewrite (cache_of_Some _ _ _ Hm) in Hc. injection Hc as <-.
    destruct (Hkeep Hi) as [E | E]; [by rewrite E in Hn|by rewrite E]. }
  split; [by unfold set_cache, deref; rewrite Hm|]. split; [|done].
  destruct (pi_static _ _ I _ _ H0) as (m' & Hm' & Hp & Hu).
  rewrite Hm in Hm'. injection Hm' as <-.
  split.
  - intros x mx Hx. unfold st'. cbn. destruct (decide (x = a)) as [->|].
    + rewrite lookup_insert_eq. rewrite H0 in Hx. injection Hx as <-. eauto.
    + rewrite lookup_insert_ne by done. by apply (pi_static _ _ I).
  - intros x Hx. unfold st'. cbn. destruct (decide (x = a)) as [->|].
    + by rewrite (pi_fresh _ _ I) in Hm.
    + rewrite lookup_insert_ne by done. by apply (pi_fresh _ _ I).
  - intros x mx0 mx Hx0 Ht Hx. unfold st' in Hx. cbn in Hx.
    assert (Hk : forall k mk, nodes st !! k = Some mk -> nodes st0 !! k = None ->
                   nodes st' !! k = Some mk).
    { intros k mk Hk Hk0. unfold st'. cbn. rewrite lookup_insert_ne; [done|].
      intros ->. congruence. }
    destruct (decide (x = a)) as [->|].
    + rewrite lookup_insert_eq in Hx. injection Hx as <-. cbn.
      rewrite H0 in Hx0. injection Hx0 as <-.
      destruct (Happ Ht) as [?|(k & mk & l & r & ? & ? & ? & ?)]; [by left|].
      right. exists k, mk, l, r. eauto.
    + rewrite lookup_insert_ne in Hx by done.
      destruct (pi_app _ _ I _ _ _ Hx0 Ht Hx) as [?|(k & mk & l & r & ? & ? & ? & ?)];
        [by left|].
      right. exists k, mk, l, r. eauto.
  - intros g mg b v k Hg Hpg Hc. apply (done_mono st); [done|].
    unfold st' in Hc. rewrite cache_of_store in Hc.
    destruct (decide (g = a)) as [->|].
    + injection Hc as ->. rewrite H0 in Hg. injection Hg as <-. eauto.
    + eapply (pi_lambda _ _ I); eauto.
Qed.

Lemma pass_inv_alloc st m :
  pass_inv st ->
  let st' := (new_Node st m).2 in
  pass_inv st' /\ marks_kept st st' /\
  nodes st' !! next st = Some m /\
  (forall x, x <> next st -> nodes st' !! x = nodes st !! x) /\
  nodes st0 !! next st = None.
Proof.
  intros I st'. unfold st', new_Node. cbn.
  assert (N0 : nodes st0 !! next st = None).
  { destruct (nodes st0 !! next st) as [m0|] eqn:E; [|done].
    by destruct (old_lt_next _ _ _ I E). }
  assert (Hne : forall x mx, nodes st !! x = Some mx -> next st <> x).
  { intros x mx Hx <-. rewrite (pi_fresh _ _ I) in Hx; [done|lia]. }
  assert (Hne0 : forall x mx, nodes st0 !! x = Some mx -> next st <> x).
  { intros x mx Hx <-. congruence. }
  assert (K : marks_kept st
                (mkState (<[next st:=m]> (nodes st)) (Pos.succ (next st)))).
  { intros x c (mx0 & Hx0 & _) Hc Hn. unfold cache_of in *. cbn.
    rewrite lookup_insert_ne; eauto. }
  split_and!; try done.
  - split; cbn.
    + intros x mx0 Hx0. destruct (pi_static _ _ I _ _ Hx0) as (mx & Hx & ? & ?).
      exists mx. rewrite lookup_insert_ne; eauto.
    + intros x Hx. rewrite lookup_insert_ne by lia. apply (pi_fresh _ _ I). lia.
    + intros x mx0 mx Hx0 Ht Hx. rewrite lookup_insert_ne in Hx by eauto.
      destruct (pi_app _ _ I _ _ _ Hx0 Ht Hx) as [?|(k & mk & l & r & ? & Hk & ? & ?)];
        [by left|].
      right. exists k, mk, l, r. split_and!; try done.
      rewrite lookup_insert_ne; eauto.
    + intros g mg b v k Hg Hpg Hc. apply (done_mono st); [done|].
      eapply (pi_lambda _ _ I); eauto.
      unfold cache_of in *. cbn in Hc. rewrite lookup_insert_ne in Hc; eauto.
  - apply lookup_insert_eq.
  - intros x Hx. by rewrite lookup_insert_ne.
Qed.

Lemma pass_inv_patch st k mk l r p' :
  pass_inv st -> nodes st0 !! k = None -> nodes st !! k = Some mk ->
  payload mk = app l r -> node_type (mkNode (cache mk) (uplinks mk) p') = NODE_APP ->
  let st' := store k (mkNode (cache mk) (uplinks mk) p') st in
  set_payload k p' st = Done st' /\ pass_inv st' /\ marks_kept st st' /\
  (forall x, cache_of st' x = cache_of st x).
Proof.
  intros I Hk0 Hk Hp Ht st'.
  assert (C : forall x, cache_of st' x = cache_of st x).
  { intros x. unfold st'. rewrite cache_of_store. destruct (decide (x = k)) as [->|]; [|done].
    by rewrite (cache_of_Some _ _ _ Hk). }
  assert (K : marks_kept st st') by (intros x c _ Hc _; by rewrite C).
  split; [by unfold set_payload, deref; rewrite Hk|]. split; [|done].
  split.
  - intros x mx0 Hx0. unfold st'. cbn. rewrite lookup_insert_ne by congruence.
    by apply (pi_static _ _ I).
  - intros x Hx. unfold st'. cbn. destruct (decide (x = k)) as [->|].
    + by rewrite (pi_fresh _ _ I) in Hk.
    + rewrite lookup_insert_ne by done. by apply (pi_fresh _ _ I).
  - intros x mx0 mx Hx0 Htx Hx. unfold st' in Hx. cbn in Hx.
    rewrite lookup_insert_ne in Hx by congruence.
    destruct (pi_app _ _ I _ _ _ Hx0 Htx Hx) as [?|(k' & mk' & l' & r' & ? & Hk' & ? & ?)];
      [by left|].
    right. unfold st'. cbn. destruct (decide (k' = k)) as [->|].
    + unfold node_type in Ht. cbn in Ht. destruct p' as [l2 r2| | |] eqn:E; try done.
      eexists k, _, l2, r2. rewrite lookup_insert_eq. split_and!; done.
    + exists k', mk', l', r'. rewrite lookup_insert_ne by done. done.
  - intros g mg b v k' Hg Hpg Hc. apply (done_mono st); [done|].
    rewrite C in Hc. eapply (pi_lambda _ _ I); eauto.
Qed.


Lemma binds_not_inner g v : binds st0 g v -> ~ inner st0 v.
Proof.
  intros Hb (m & Hm & Ht). assert (Hp := sc_var _ SC _ _ _ Hb Hm).
  unfold node_type in Ht. rewrite Hp in Ht. by destruct Ht.
Qed.

Lemma done_not_unreached st c : done st c -> unreached st c -> False.
Proof.
  intros [[Hi [k Hk]]|(g & cg & Hb & Hc & Hn)] [[Hi' Hc']|(g' & Hb' & Hc')].
  - congruence.
  - by eapply binds_not_inner.
  - by eapply binds_not_inner.
  - rewrite (sc_binder _ SC _ _ _ Hb Hb') in Hc. congruence.
Qed.

Lemma lambda_parent_open st p mp b v :
  pass_inv st -> nodes st0 !! p = Some mp -> payload mp = lambda b v ->
  ~ done st b ->
  cache_of st p = Some NULL \/ cache_of st p = Some STOP.
Proof.
  intros I Hp Hl Hnd. destruct (pi_static _ _ I _ _ Hp) as (m & Hm & _).
  rewrite (cache_of_Some _ _ _ Hm). destruct (cache m) eqn:E; auto.
  destruct Hnd. eapply (pi_lambda _ _ I); eauto.
  by rewrite (cache_of_Some _ _ _ Hm), E.
Qed.

Lemma open_step st st' p mp :
  pass_inv st' -> marks_kept st st' -> nodes st0 !! p = Some mp ->
  inner st0 p ->
  cache_of st p = Some NULL \/ cache_of st p = Some STOP ->
  (forall k, cache_of st p = Some NULL -> cache_of st' p = Some (Cached k) -> False) ->
  cache_of st' p = Some NULL \/ cache_of st' p = Some STOP.
Proof.
  intros I K Hp Hi Ho Hn. destruct (pi_static _ _ I _ _ Hp) as (m & Hm & _).
  rewrite (cache_of_Some _ _ _ Hm). destruct (cache m) eqn:E; auto.
  destruct Ho as [Ho|Ho].
  - destruct (Hn a Ho). by rewrite (cache_of_Some _ _ _ Hm), E.
  - apply (K _ _ Hi) in Ho; [|done].
    rewrite (cache_of_Some _ _ _ Hm), E in Ho. done.
Qed.

Lemma slot_lambda_NA (b v : addr) t c :
  slot_of (lambda (PrimNode := P) b v) t = Some c -> t = UPLINK_NA /\ b = c.
Proof. destruct t; cbn; intros [= <-]; done. Qed.

Lemma slot_inner mp t c p :
  nodes st0 !! p = Some mp -> slot_of (payload mp) t = Some c -> inner st0 p.
Proof.
  intros Hp Hs. exists mp. split; [done|]. unfold node_type.
  destruct (payload mp), t; cbn in Hs; try discriminate; auto.
Qed.

Section Loop.
Variable n : nat.
Hypothesis IH : forall st (nc into : addr) t (U : gset positive),
  pass_inv st -> upcopy_pre st into -> covers U st ->
  2 * size U + var_weight into < n ->
  exists st', upcopy n st nc into t = Done st' /\ pass_inv st' /\
    marks_kept st st' /\ copied_above st st' into.

Lemma upcopy_loop (newNode into : addr) (U : gset positive) : forall l st,
  pass_inv st -> covers U st -> 2 * size U < n ->
  NoDup l ->
  (forall u, u ∈ l -> exists mp, nodes st0 !! up_link u = Some mp /\
      slot_of (payload mp) (up_type u) = Some into) ->
  done st into -> lambdas_open st l ->
  exists st',
    for_each_uplink
      (fun st cur => upcopy n st newNode (up_link cur) (up_type cur)) l st
    = Done st' /\
    pass_inv st' /\ marks_kept st st' /\
    (forall q mq b v k, nodes st0 !! q = Some mq -> payload mq = lambda b v ->
       cache_of st q = Some NULL -> cache_of st' q = Some (Cached k) ->
       b = into \/ unreached st b).
Proof.
  induction l as [|[p t] l IHl]; intros st I C Hn ND Hpar Hd Ho.
  { exists st. cbn. split_and!; eauto using marks_kept_refl. congruence. }
  apply NoDup_cons in ND as [Nin ND].
  destruct (Hpar (mkUplink p t)) as (mp & Hp & Hs); [left|]. cbn in Hp, Hs.
  assert (Hip : inner st0 p) by eauto using slot_inner.
  assert (Wp : var_weight p = 0).
  { unfold var_weight. rewrite Hp. destruct (payload mp), t; cbn in Hs; done. }
  assert (Pre : upcopy_pre st p).
  { exists mp. split; [done|]. destruct (payload mp) as [| b v | |] eqn:E; try done.
    apply slot_lambda_NA in Hs as [-> ->]. split; [done|].
      eapply (Ho (mkUplink p UPLINK_NA)); [left|done..]. }
  destruct (IH st newNode p t U I Pre C) as (st1 & H1 & I1 & K1 & A1); [lia|].
  destruct (IHl st1) as (st' & H' & I' & K' & A'); try done.
  - eauto using covers_mono.
  - intros u Hu. apply Hpar. by right.
  - eauto using done_mono.
  - intros u mu b v Hu Hmu Hpu.
    destruct (Hpar u) as (mu' & Hmu' & Hsu); [by right|].
    rewrite Hmu in Hmu'. injection Hmu' as <-.
    assert (Hiu : inner st0 (up_link u)) by eauto using slot_inner.
    rewrite Hpu in Hsu. apply slot_lambda_NA in Hsu as [Et ->].
    eapply (open_step st st1 (up_link u) mu I1 K1 Hmu Hiu).
    + eapply Ho; [by right|done..].
    + intros k H0 Hk. destruct (A1 _ _ _ _ _ Hmu Hpu H0 Hk) as [E|[[E Hni]|E]].
      * apply Nin. destruct u as [pu tu]. cbn in *. subst.
        rewrite Hp in Hmu. injection Hmu as ->. rewrite Hpu in Hs.
        apply slot_lambda_NA in Hs as [-> _]. done.
      * subst. done.
      * eauto using done_not_unreached.
  - exists st'. cbn. rewrite H1. cbn. split_and!; eauto using marks_kept_trans.
    intros q mq b v k Hq Hpq H0 Hk.
    destruct (pi_static _ _ I1 _ _ Hq) as (m1 & Hm1 & _).
    assert (Hiq : inner st0 q).
    { exists mq. split; [done|]. right. unfold node_type. by rewrite Hpq. }
    destruct (cache m1) as [| |k1] eqn:E.
    + assert (C1 : cache_of st1 q = Some NULL)
        by (by rewrite (cache_of_Some _ _ _ Hm1), E).
      destruct (A' _ _ _ _ _ Hq Hpq C1 Hk) as [?|?]; auto.
      right. eauto using unreached_back.
    + rewrite (K' q STOP) in Hk; try done.
      by rewrite (cache_of_Some _ _ _ Hm1), E.
    + assert (C1 : cache_of st1 q = Some (Cached k1))
        by (by rewrite (cache_of_Some _ _ _ Hm1), E).
      destruct (A1 _ _ _ _ k1 Hq Hpq H0 C1) as [->|[[-> Hni]|?]]; auto;
        [|done].
      left. rewrite Hp in Hq. injection Hq as ->. rewrite Hpq in Hs.
      by apply slot_lambda_NA in Hs as [_ ->].
Qed.
End Loop.


#[local] Arguments new_Node : simpl never.

Lemma new_Node_eq st m : new_Node st m = (next st, (new_Node st m).2).
Proof. reflexivity. Qed.

Lemma covers_remove U st st' (into : addr) k :
  pass_inv st -> marks_kept st st' -> covers U st ->
  cache_of st' into = Some (Cached k) ->
  covers (U ∖ {[into]}) st'.
Proof.
  intros I K C Hc a Hi Ha. apply elem_of_difference. split.
  - eauto using null_back.
  - intros ->%elem_of_singleton. congruence.
Qed.

Lemma size_remove (U : gset positive) (a : addr) :
  a ∈ U -> S (size (U ∖ {[a]})) = size U.
Proof.
  intros Ha.
  assert (E : size U = size ({[a]} : gset positive) + size (U ∖ {[a]})).
  { rewrite <- size_union by set_solver. f_equal.
    by apply union_difference_singleton_L. }
  rewrite size_singleton in E. lia.
Qed.

Lemma lambda_inner q mq b v :
  nodes st0 !! q = Some mq -> payload mq = lambda b v -> inner st0 q.
Proof. intros Hq Hp. exists mq. split; [done|]. right. unfold node_type. by rewrite Hp. Qed.

Lemma app_inner q mq l r :
  nodes st0 !! q = Some mq -> payload mq = app l r -> inner st0 q.
Proof. intros Hq Hp. exists mq. split; [done|]. left. unfold node_type. by rewrite Hp. Qed.

Lemma deref_eq st a m : nodes st !! a = Some m -> deref st a = Done m.
Proof. unfold deref. by intros ->. Qed.

Lemma cache_of_alloc st m x :
  x <> next st -> cache_of (new_Node st m).2 x = cache_of st x.
Proof. intros Hx. unfold cache_of, new_Node. cbn. by rewrite lookup_insert_ne. Qed.

Lemma open_frame st st' (l : list Uplink) :
  (forall u mp b v, u ∈ l -> nodes st0 !! up_link u = Some mp ->
     payload mp = lambda b v ->
     cache_of st' (up_link u) = cache_of st (up_link u)) ->
  lambdas_open st l -> lambdas_open st' l.
Proof. intros F Ho u mp b v Hu Hmp Hpp. rewrite (F u mp b v) by done. eauto. Qed.

(** The Lambdas directly over a child that has not been reached have no
    copy. *)
Lemma unreached_open st c m0 :
  pass_inv st -> nodes st0 !! c = Some m0 -> unreached st c ->
  lambdas_open st (uplinks m0).
Proof.
  intros I H0 Hun u mp b v Hu Hmp Hpp.
  destruct (sc_uplink _ SC _ _ _ H0 Hu) as (mp' & Hmp' & Hs).
  rewrite Hmp in Hmp'. injection Hmp' as <-. rewrite Hpp in Hs.
  apply slot_lambda_NA in Hs as [_ ->].
  eapply lambda_parent_open; eauto. intros Hd. eauto using done_not_unreached.
Qed.

Lemma open_keep st st' (x c : addr) m0 :
  pass_inv st' -> marks_kept st st' -> copied_above st st' x ->
  nodes st0 !! c = Some m0 -> lambdas_open st (uplinks m0) -> done st c ->
  (forall u, u ∈ uplinks m0 -> up_link u <> x) ->
  (c <> x \/ inner st0 x) ->
  lambdas_open st' (uplinks m0).
Proof.
  intros I' K A H0 Ho Hd Hne Hx u mp b v Hu Hmp Hpp.
  destruct (sc_uplink _ SC _ _ _ H0 Hu) as (mp' & Hmp' & Hs).
  rewrite Hmp in Hmp'. injection Hmp' as <-. rewrite Hpp in Hs.
  apply slot_lambda_NA in Hs as [_ ->].
  eapply (open_step st st'); eauto using lambda_inner.
  intros k Hk0 Hk. destruct (A _ _ _ _ _ Hmp Hpp Hk0 Hk) as [E|[[E Hni]|E]].
  - by eapply Hne.
  - destruct Hx; done.
  - eauto using done_not_unreached.
Qed.

(** For the pass to run to completion, the variable of every Lambda has to
    be allocated. *)
Hypothesis VL : forall g v, binds st0 g v -> is_Some (nodes st0 !! v).

Lemma upcopy_total : forall fuel st (nc into : addr) t (U : gset positive),
  pass_inv st -> upcopy_pre st into -> covers U st ->
  2 * size U + var_weight into < fuel ->
  exists st', upcopy fuel st nc into t = Done st' /\ pass_inv st' /\
    marks_kept st st' /\ copied_above st st' into.
Proof.
  induction fuel as [|fuel IHn]; intros st nc into t U I (m0 & H0 & Pre) C Hsz; [lia|].
  destruct (pi_static _ _ I _ _ H0) as (m & Hm & Hp & Hu).
  assert (W : var_weight into = match payload m0 with var => 1 | _ => 0 end)
    by (unfold var_weight; by rewrite H0).
  assert (Nn : into <> next st) by eauto using old_lt_next.
  cbn [upcopy]. rewrite (deref_eq _ _ _ Hm). cbn [mbind outcome_bind obind].
  rewrite Hp. destruct (payload m0) as [l r|b v| |q] eqn:E0; [| | |done].
  - (* App *)
    assert (Hi : inner st0 into) by eauto using app_inner.
    assert (Ht : node_type m0 = NODE_APP) by (unfold node_type; by rewrite E0).
    destruct (pi_app _ _ I _ _ _ H0 Ht Hm) as [Hc|(k & mk & l' & r' & Hc & Hk & Hpk & Hk0)];
      rewrite Hc.
    + (* first arrival *)
      assert (Hun : unreached st into).
      { left. split; [done|]. by rewrite (cache_of_Some _ _ _ Hm), Hc. }
      set (pl := match t with UPLINK_APPL => app nc r | _ => app l nc end).
      rewrite (new_Node_eq st (mkNode NULL [] pl)).
      destruct (pass_inv_alloc st (mkNode NULL [] pl) I) as (Ia & Ka & La & Fa & N0).
      assert (Ca := cache_of_alloc st (mkNode NULL [] pl)).
      set (sta := (new_Node st (mkNode NULL [] pl)).2) in *.
      assert (Ha : nodes sta !! into = Some m) by (rewrite Fa; eauto).
      destruct (pass_inv_set_cache sta into m0 m (Cached (next st)) Ia H0 Ha)
        as (Hset & Ib & Kb).
      { intros _. right. exists (next st), (mkNode NULL [] pl).
        destruct t; eexists _, _; split_and!; try done. }
      { intros ? ? ? ?. congruence. }
      { auto. }
      assert (Cb := cache_of_store sta into
                      (mkNode (Cached (next st)) (uplinks m) (payload m))).
      set (stb := store into (mkNode (Cached (next st)) (uplinks m) (payload m)) sta) in *.
      cbn [mbind outcome_bind obind]. rewrite Hset. cbn [mbind outcome_bind obind].
      assert (Cbi : cache_of stb into = Some (Cached (next st))).
      { rewrite Cb. by rewrite decide_True. }
      assert (Fr : forall x mx, nodes st0 !! x = Some mx -> x <> into ->
                     cache_of stb x = cache_of st x).
      { intros x mx Hx Hne. rewrite Cb, decide_False by done.
        apply Ca. eauto using old_lt_next. }
      assert (Kab : marks_kept st stb) by eauto using marks_kept_trans.
      assert (Hin : into ∈ U).
      { apply C; [done|]. by rewrite (cache_of_Some _ _ _ Hm), Hc. }
      assert (Hsize := size_remove U into Hin).
      destruct (upcopy_loop fuel IHn (next st) into (U ∖ {[into]}) (uplinks m0) stb)
        as (st' & Hl & I' & K' & A'); try done.
      * eauto using covers_remove.
      * lia.
      * eapply (sc_nodup _ SC); eauto.
      * intros u Hu'. eapply (sc_uplink _ SC); eauto.
      * left. eauto.
      * apply (open_frame st); [|by eapply unreached_open].
        intros u mp b v Hu' Hmp Hpp. eapply Fr; [done|].
        intros E. rewrite E in Hmp. congruence.
      * exists st'. rewrite (deref_eq stb into _ (lookup_insert_eq _ _ _)).
        cbn [mbind outcome_bind obind uplinks].
        rewrite Hu. split_and!; eauto using marks_kept_trans.
        intros q mq b v k Hq Hpq Hq0 Hqk.
        destruct (decide (q = into)) as [->|Hne]; [by left|]. right. right.
        destruct (A' q mq b v k Hq Hpq) as [->|Hun']; try done.
        { by rewrite (Fr q mq). }
        eauto using unreached_back.
    + (* second arrival: patch the copy and return *)
      rewrite (deref_eq _ _ _ Hk). cbn [mbind outcome_bind obind]. rewrite Hpk.
      set (pl := match t with UPLINK_APPL => app nc r' | _ => app l' nc end).
      destruct (pass_inv_patch st k mk l' r' pl I Hk0 Hk Hpk) as (Hset & I' & K' & C').
      { unfold node_type, pl. cbn. by destruct t. }
      rewrite Hset. cbn [mbind outcome_bind obind].
      eexists. split_and!; try done.
      intros q mq b v k' Hq Hpq Hq0 Hqk. rewrite C' in Hqk. congruence.
  - (* Lambda *)
    destruct Pre as [Hdb Hc]. rewrite (cache_of_Some _ _ _ Hm) in Hc.
    assert (Hi : inner st0 into) by eauto using lambda_inner.
    destruct Hc as [Hc|Hc]; injection Hc as Hc; rewrite Hc;
      cbn [mbind outcome_bind obind].
    2:{ exists st. split_and!; eauto using marks_kept_refl.
        intros q mq b' v' k Hq Hpq Hq0 Hqk. congruence. }
    assert (Hun : unreached st into).
    { left. split; [done|]. by rewrite (cache_of_Some _ _ _ Hm), Hc. }
    assert (Hbv : binds st0 into v) by (exists m0, b; done).
    assert (Hunv : unreached st v).
    { right. exists into. split; [done|]. by rewrite (cache_of_Some _ _ _ Hm), Hc. }
    destruct (VL _ _ Hbv) as (mv & Hv).
    assert (Hpv := sc_var _ SC _ _ _ Hbv Hv).
    rewrite (new_Node_eq st (mkNode NULL [] var)). cbn beta iota zeta.
    destruct (pass_inv_alloc st (mkNode NULL [] var) I) as (I1 & K1 & L1 & F1 & N1).
    assert (C1 := cache_of_alloc st (mkNode NULL [] var)).
    assert (E1 : next (new_Node st (mkNode NULL [] var)).2 = Pos.succ (next st))
      by reflexivity.
    set (st1 := (new_Node st (mkNode NULL [] var)).2) in *.
    set (nl := mkNode NULL [] (lambda nc (next st))).
    rewrite (new_Node_eq st1 nl). cbn beta iota zeta.
    destruct (pass_inv_alloc st1 nl I1) as (I2 & K2 & L2 & F2 & N2).
    assert (C2 := cache_of_alloc st1 nl).
    set (st2 := (new_Node st1 nl).2) in *.
    assert (Ha : nodes st2 !! into = Some m).
    { rewrite F2, F1; eauto using old_lt_next. }
    destruct (pass_inv_set_cache st2 into m0 m (Cached (next st1)) I2 H0 Ha)
      as (Hset & I3 & K3).
    { unfold node_type. by rewrite E0. }
    { intros b' v' k Hpl _. rewrite E0 in Hpl. injection Hpl as <- <-.
      eauto using done_mono, marks_kept_trans. }
    { auto. }
    assert (C3 := cache_of_store st2 into
                    (mkNode (Cached (next st1)) (uplinks m) (payload m))).
    set (st3 := store into (mkNode (Cached (next st1)) (uplinks m) (payload m)) st2) in *.
    rewrite Hset. cbn [mbind outcome_bind obind].
    assert (C3i : cache_of st3 into = Some (Cached (next st1))).
    { rewrite C3. by rewrite decide_True. }
    assert (Fr : forall x mx, nodes st0 !! x = Some mx -> x <> into ->
                   cache_of st3 x = cache_of st x).
    { intros x mx Hx Hne. rewrite C3, decide_False by done.
      rewrite C2, C1; eauto using old_lt_next. }
    assert (K03 : marks_kept st st3) by eauto using marks_kept_trans.
    assert (Hin : into ∈ U).
    { apply C; [done|]. by rewrite (cache_of_Some _ _ _ Hm), Hc. }
    assert (Hsize := size_remove U into Hin).
    assert (C03 : covers (U ∖ {[into]}) st3) by eauto using covers_remove.
    assert (Hd3 : done st3 into) by (left; eauto).
    assert (Nself : forall u mp b' v', u ∈ uplinks m0 ->
              nodes st0 !! up_link u = Some mp -> payload mp = lambda b' v' ->
              up_link u <> into).
    { intros u mp b' v' Hu' Hmp Hpp E.
      destruct (sc_uplink _ SC _ _ _ H0 Hu') as (mp' & Hmp' & Hs).
      rewrite E, H0 in Hmp'. injection Hmp' as <-. rewrite E0 in Hs.
      apply slot_lambda_NA in Hs as [_ ->]. eauto using done_not_unreached. }
    (* the renaming pass from the old variable *)
    destruct (IHn st3 (next st) v UPLINK_NA (U ∖ {[into]}))
      as (st4 & H4 & I4 & K4 & A4); try done.
    { exists mv. split; [done|]. rewrite Hpv. split.
      - right. exists into, (Cached (next st1)). done.
      - apply (open_frame st); [|by eapply unreached_open].
        intros u mp b' v' Hu' Hmp Hpp. eapply Fr; [done|].
        intros E. destruct (sc_uplink _ SC _ _ _ Hv Hu') as (mp' & Hmp' & Hs).
        rewrite E, H0 in Hmp'. injection Hmp' as <-. rewrite E0 in Hs.
        apply slot_lambda_NA in Hs as [_ ->]. eauto using done_not_unreached. }
    { unfold var_weight. rewrite Hv, Hpv. lia. }
    rewrite H4. cbn [mbind outcome_bind obind].
    destruct (pi_static _ _ I4 _ _ H0) as (m4 & Hm4 & Hp4 & Hu4).
    rewrite (deref_eq _ _ _ Hm4). cbn [mbind outcome_bind obind]. rewrite Hu4.
    destruct (upcopy_loop fuel IHn (next st1) into (U ∖ {[into]}) (uplinks m0) st4)
      as (st' & Hl & I' & K' & A'); try done.
    + eauto using covers_mono.
    + lia.
    + eapply (sc_nodup _ SC); eauto.
    + intros u Hu'. eapply (sc_uplink _ SC); eauto.
    + eauto using done_mono.
    + eapply (open_keep st3 st4 v into m0); eauto.
      * apply (open_frame st); [|by eapply unreached_open].
        intros u mp b' v' Hu' Hmp Hpp. eapply Fr; eauto.
      * intros u Hu' E.
        destruct (sc_uplink _ SC _ _ _ H0 Hu') as (mp' & Hmp' & Hs).
        rewrite E, Hv in Hmp'. injection Hmp' as <-. rewrite Hpv in Hs. done.
      * left. intros ->. rewrite H0 in Hv. injection Hv as <-. congruence.
    + exists st'. split_and!; eauto using marks_kept_trans.
      intros q mq b' v' k Hq Hpq Hq0 Hqk.
      destruct (decide (q = into)) as [->|Hne]; [by left|]. right. right.
      assert (Hq3 : cache_of st3 q = Some NULL) by (by rewrite (Fr q mq)).
      destruct (pi_static _ _ I4 _ _ Hq) as (mq4 & Hmq4 & _).
      assert (Hiq : inner st0 q) by eauto using lambda_inner.
      destruct (cache mq4) as [| |k4] eqn:E4.
      * destruct (A' q mq b' v' k Hq Hpq) as [->|Hun']; try done.
        { by rewrite (cache_of_Some _ _ _ Hmq4), E4. }
        eauto using unreached_back, marks_kept_trans.
      * rewrite (K' q STOP) in Hqk; try done.
        by rewrite (cache_of_Some _ _ _ Hmq4), E4.
      * destruct (A4 q mq b' v' k4 Hq Hpq Hq3) as [->|[[-> _]|Hun']].
        { by rewrite (cache_of_Some _ _ _ Hmq4), E4. }
        { rewrite Hv in Hq. injection Hq as <-. congruence. }
        { done. }
        { eauto using unreached_back. }
  - (* Var *)
    destruct Pre as [Hd Ho].
    destruct (pass_inv_set_cache st into m0 m (Cached nc) I H0 Hm) as (Hset & Ia & Ka).
    { unfold node_type. by rewrite E0. }
    { intros ? ? ? ?. congruence. }
    { intros (mi & Hmi & Hti). rewrite H0 in Hmi. injection Hmi as <-.
      unfold node_type in Hti. rewrite E0 in Hti. by destruct Hti. }
    assert (Ca := cache_of_store st into (mkNode (Cached nc) (uplinks m) (payload m))).
    set (sta := store into (mkNode (Cached nc) (uplinks m) (payload m)) st) in *.
    rewrite Hset. cbn [mbind outcome_bind obind].
    assert (Ni : ~ inner st0 into).
    { intros (mi & Hmi & Hti). rewrite H0 in Hmi. injection Hmi as <-.
      unfold node_type in Hti. rewrite E0 in Hti. by destruct Hti. }
    assert (Fr : forall x, inner st0 x -> cache_of sta x = cache_of st x).
    { intros x Hx. rewrite Ca, decide_False; [done|]. by intros ->. }
    destruct (upcopy_loop fuel IHn nc into U (uplinks m0) sta)
      as (st' & Hl & I' & K' & A'); try done.
    + eauto using covers_mono.
    + lia.
    + eapply (sc_nodup _ SC); eauto.
    + intros u Hu'. eapply (sc_uplink _ SC); eauto.
    + eauto using done_mono.
    + apply (open_frame st); [|done].
      intros u mp b v Hu' Hmp Hpp. eauto using lambda_inner.
    + exists st'. rewrite (deref_eq sta into _ (lookup_insert_eq _ _ _)).
      cbn [mbind outcome_bind obind uplinks].
      rewrite Hu. split_and!; eauto using marks_kept_trans.
      intros q mq b v k Hq Hpq Hq0 Hqk. right.
      destruct (A' q mq b v k Hq Hpq) as [->|Hun']; try done.
      { rewrite Fr; eauto using lambda_inner. }
      { by left. }
      right. eauto using unreached_back.
Qed.

End Pass.

Section Top.
Context {P : Type}.
Implicit Types (st : State P).

Lemma well_formed_scoped st : well_formed st -> scoped st.
Proof.
  intros WF. split.
  - apply (wf_uplink _ WF).
  - apply (wf_nodup _ WF).
  - intros g v mv Hb Hv. destruct (wf_var _ WF _ _ Hb) as (mv' & Hv' & Hp).
    congruence.
  - apply (wf_binder _ WF).
Qed.

Lemma upcopy_started_total st (a fn arg b v : addr) n f :
  well_formed st ->
  nodes st !! a = Some n -> payload n = app fn arg ->
  nodes st !! fn = Some f -> payload f = lambda b v ->
  exists st1, set_cache fn STOP st = Done st1 /\
    exists fuel0, forall fuel, fuel0 <= fuel ->
      exists st2, upcopy fuel st1 arg v UPLINK_NA = Done st2.
Proof.
  intros WF Ha Hpa Hf Hpf.
  assert (VL : forall g v, binds st g v -> is_Some (nodes st !! v)).
  { intros g w Hg. destruct (wf_var _ WF _ _ Hg) as (mw & ? & _). eauto. }
  set (st1 := store fn (mkNode STOP (uplinks f) (payload f)) st).
  exists st1. split; [by unfold set_cache; rewrite (deref_eq _ _ _ Hf)|].
  assert (C1 := cache_of_store st fn (mkNode STOP (uplinks f) (payload f))).
  fold st1 in C1.
  assert (Hfn : inner st fn) by eauto using lambda_inner.
  assert (Hb : binds st fn v) by (exists f, b; done).
  assert (I : pass_inv st st1).
  { split.
    - intros x mx Hx. unfold st1. cbn. destruct (decide (x = fn)) as [->|].
      + rewrite lookup_insert_eq. rewrite Hf in Hx. injection Hx as <-. eauto.
      + rewrite lookup_insert_ne by done. eauto.
    - intros x Hx. unfold st1. cbn. rewrite lookup_insert_ne.
      + by apply (wf_fresh _ WF).
      + intros <-. by rewrite (wf_fresh _ WF) in Hf.
    - intros x mx0 mx Hx0 Ht Hx. left.
      assert (Hix : inner st x) by (exists mx0; auto).
      assert (Hc := wf_cache _ WF _ Hix).
      assert (x <> fn).
      { intros ->. rewrite Hf in Hx0. injection Hx0 as <-.
        unfold node_type in Ht. by rewrite Hpf in Ht. }
      unfold st1 in Hx. cbn in Hx. rewrite lookup_insert_ne in Hx by done.
      rewrite (cache_of_Some _ _ _ Hx) in Hc. by injection Hc.
    - intros g mg bg vg k Hg Hpg Hc. exfalso. rewrite C1 in Hc.
      destruct (decide (g = fn)); [done|].
      rewrite (wf_cache _ WF g) in Hc; [done|]. eauto using lambda_inner. }
  destruct (wf_var _ WF _ _ Hb) as (mv & Hv & Hpv).
  assert (Pre : upcopy_pre st st1 v).
  { exists mv. split; [done|]. rewrite Hpv. split.
    - right. exists fn, STOP. split_and!; try done. rewrite C1. by rewrite decide_True.
    - intros u mp bp vp Hu Hmp Hpp. rewrite C1. destruct (decide (up_link u = fn)); [auto|].
      left. apply (wf_cache _ WF). eauto using lambda_inner. }
  exists (S (2 * size (dom (nodes st)) + 1)). intros fuel Hfuel.
  destruct (upcopy_total st (well_formed_scoped _ WF) VL fuel st1 arg v
              UPLINK_NA (dom (nodes st)) I Pre)
    as (st2 & H2 & _).
  - intros x (mx & Hx & _) _. by apply elem_of_dom.
  - unfold var_weight. rewrite Hv, Hpv. lia.
  - eauto.
Qed.
End Top.

Section Check.
Context {P : Type}.
Implicit Types (st : State P) (m : Node P).

Lemma well_formed_check_sound st : well_formed_check st = true -> well_formed st.
Proof.
  unfold well_formed_check. rewrite !andb_true_iff, !bool_decide_eq_true.
  intros [[[[[H1 H2] H3] H4] H5] H6]. split.
  - intros c m u Hc Hu. specialize (H1 c m Hc). cbn in H1.
    rewrite forallb_forall in H1. apply list_elem_of_In in Hu.
    specialize (H1 u Hu). unfold uplink_ok in H1.
    destruct (nodes st !! up_link u) as [mp|]; [|done].
    apply bool_decide_eq_true in H1. eauto.
  - intros c m Hc. exact (H2 c m Hc).
  - intros g v (m & b & Hm & Hp). specialize (H3 g m Hm). cbn in H3.
    unfold var_ok in H3. rewrite Hp in H3.
    destruct (nodes st !! v) as [mv|]; [|done]. exists mv. split; [done|].
    by destruct (payload mv).
  - intros g g' v (m & b & Hm & Hp) (m' & b' & Hm' & Hp').
    specialize (H4 g m Hm g' m' Hm'). cbn in H4. unfold binder_ok in H4.
    rewrite Hp, Hp', Pos.eqb_refl in H4. cbn in H4. by apply Pos.eqb_eq.
  - intros a (m & Hm & Ht). specialize (H5 a m Hm). cbn in H5.
    rewrite (cache_of_Some _ _ _ Hm). unfold cache_ok, node_type in *.
    destruct (payload m), (cache m); try done; by destruct Ht.
  - intros a Ha. destruct (nodes st !! a) as [m|] eqn:E; [|done].
    specialize (H6 a m E). cbn in H6. lia.
Qed.
End Check.

Section Heads.
Context {P : Type}.
Implicit Types (st : State P) (h other : Head).

(** C1 (as the code has it): [copy_head] wraps the other head's dummy
    Lambda, not the body under it.  The new dummy's body field is
    [other->dummy], the one new uplink lands on that dummy, and every other
    node, the body node included, is left as it was. *)
Lemma copy_head_wraps_dummy st other (d : Node P) :
  nodes st !! dummy other = Some d ->
  nodes st !! next st = None ->
  nodes st !! Pos.succ (next st) = None ->
  exists st',
    copy_head st other = Done (mkHead (Pos.succ (next st)), st') /\
    nodes st' !! Pos.succ (next st)
      = Some (mkNode NULL [] (lambda (dummy other) (next st))) /\
    nodes st' !! dummy other
      = Some (mkNode (cache d)
                (uplinks d ++ [mkUplink (Pos.succ (next st)) UPLINK_NA])
                (payload d)) /\
    forall b, b <> dummy other -> b <> next st -> b <> Pos.succ (next st) ->
      nodes st' !! b = nodes st !! b.
Proof.
  intros Hd Hn Hs.
  assert (dummy other <> next st) by congruence.
  assert (dummy other <> Pos.succ (next st)) by congruence.
  assert (next st <> Pos.succ (next st)) by lia.
  unfold copy_head, Var, Fun, new_Node, uplinks_add, deref. cbn.
  rewrite !lookup_insert_ne by done. rewrite Hd. cbn.
  eexists. split; [reflexivity|]. cbn.
  split; [|split].
  - rewrite lookup_insert_ne by done. by rewrite lookup_insert_eq.
  - by rewrite lookup_insert_eq.
  - intros b ? ? ?. by rewrite !lookup_insert_ne by done.
Qed.

(** C10: [get_prim] reads and never writes.  On a head whose pointers are
    live it returns, leaves the store as it found it, and answers with a
    primitive exactly when the body under the dummy Lambda is a Prim node
    wrapping it; in every other case the answer is null. *)
Theorem get_prim_reads_only st h :
  head_readable st h ->
  exists r,
    get_prim st h = Done (r, st) /\
    (forall p, r = Some p <-> body_is_prim st h p).
Proof.
  intros (d & Hd & Hb). unfold get_prim, deref, body_is_prim. rewrite Hd. cbn.
  destruct (payload d) as [l r|b v| |q] eqn:Hp; cbn.
  1,3,4: exists None; split; [done|];
    intros p; split; [done|]; intros (d' & b' & v' & bn & ? & ? & _); congruence.
  destruct (Hb b v eq_refl) as [bn Hbn]. rewrite Hbn. cbn.
  destruct (payload bn) as [| | |q] eqn:Hq.
  1,2,3: exists None; split; [done|];
    intros p; split; [done|];
    intros (d' & b' & v' & bn' & ? & ? & ? & ?); congruence.
  exists (Some q). split; [done|]. intros p. split.
  - intros [= <-]. by exists d, b, v, bn.
  - intros (d' & b' & v' & bn' & ? & ? & ? & ?). congruence.
Qed.

End Heads.

Section Upcopy.
Context {P : Type}.

(** C2 (as the code has it): [upcopy] into a Prim node writes the cache and
    then reaches [std::abort()]; the uplinks of the node are never visited. *)
Lemma upcopy_prim_aborts (fuel : nat) (st : State P) (newchild into : addr)
  (type : UplinkType) (n : Node P) (p : P) :
  nodes st !! into = Some n ->
  payload n = prim p ->
  upcopy (S fuel) st newchild into type = Aborted.
Proof.
  intros Hn Hp. cbn. unfold deref. rewrite Hn. cbn. rewrite Hp. cbn.
  unfold set_cache, deref. rewrite Hn. reflexivity.
Qed.

End Upcopy.

(** ** Invariant 1 under [cleanup] and [upreplace] *)

Section Edges.
Context {P : Type}.
Implicit Types (st : State P) (m : Node P).

Lemma pruned_refl st : pruned st st.
Proof. split; [done|]. intros c m' H. exists m'. eauto. Qed.

Lemma pruned_trans st1 st2 st3 : pruned st1 st2 -> pruned st2 st3 -> pruned st1 st3.
Proof.
  intros [E1 H1] [E2 H2]. split; [congruence|]. intros c m3 H3.
  destruct (H2 _ _ H3) as (m2 & Hm2 & ? & ? & ?).
  destruct (H1 _ _ Hm2) as (m1 & Hm1 & ? & ? & ?).
  exists m1. split_and!; try congruence. eauto.
Qed.

Lemma unlink_list_sub p t l l' u :
  unlink_list p t l = Some l' -> u ∈ l' -> u ∈ l.
Proof.
  revert l'. induction l as [|x l IH]; cbn; intros l' H Hu; [done|].
  destruct (Uplink_matches p t x).
  - injection H as <-. by right.
  - destruct (unlink_list p t l) as [l0|]; [|done]. injection H as <-.
    apply elem_of_cons in Hu as [->|Hu]; [left|right; eauto].
Qed.

Lemma Uplink_matches_true p t u : Uplink_matches p t u = true -> u = mkUplink p t.
Proof.
  unfold Uplink_matches. intros [H1 H2]%andb_prop. apply Pos.eqb_eq in H1.
  destruct u as [pl ty]. cbn in *. subst. by destruct ty, t.
Qed.

Lemma unlink_list_nodup p t l l' :
  unlink_list p t l = Some l' -> NoDup l -> NoDup l' /\ mkUplink p t ∉ l'.
Proof.
  revert l'. induction l as [|x l IH]; cbn; intros l' H ND; [done|].
  apply NoDup_cons in ND as [Hx ND].
  destruct (Uplink_matches p t x) eqn:E.
  - injection H as <-. apply Uplink_matches_true in E. subst x. done.
  - destruct (unlink_list p t l) as [l0|] eqn:E0; [|done]. injection H as <-.
    destruct (IH _ eq_refl ND) as [ND0 Hn]. split.
    + apply NoDup_cons. split; [|done]. intros Hin. apply Hx. eauto using unlink_list_sub.
    + intros [<-|Hin]%elem_of_cons; [|done].
      unfold Uplink_matches in E. cbn in E. rewrite Pos.eqb_refl in E.
      by destruct t.
Qed.

Lemma unlink_list_other p t l l' u :
  unlink_list p t l = Some l' -> u ∈ l -> u <> mkUplink p t -> u ∈ l'.
Proof.
  revert l'. induction l as [|x l IH]; cbn; intros l' H Hu Hne; [by apply elem_of_nil in Hu|].
  destruct (Uplink_matches p t x) eqn:E.
  - injection H as <-. apply Uplink_matches_true in E. subst x.
    apply elem_of_cons in Hu as [->|Hu]; done.
  - destruct (unlink_list p t l) as [l0|] eqn:E0; [|done]. injection H as <-.
    apply elem_of_cons in Hu as [->|Hu]; [left|right; eauto].
Qed.

Lemma uplinks_unlink_pruned c p t st st' :
  uplinks_unlink c p t st = Done st' -> pruned st st'.
Proof.
  intros H. apply uplinks_unlink_Done in H as (m & l & Hm & Hl & ->).
  split; [done|]. intros x mx Hx. cbn in Hx. destruct (decide (x = c)) as [->|].
  - rewrite lookup_insert_eq in Hx. injection Hx as <-. exists m.
    split_and!; eauto using unlink_list_sub.
  - rewrite lookup_insert_ne in Hx by done. exists mx. eauto.
Qed.

Lemma delete_Node_pruned st a st' : delete_Node st a = Done st' -> pruned st st'.
Proof.
  intros H. apply delete_Node_Done in H as [_ ->]. split; [done|].
  intros c m' Hc. cbn in Hc. apply lookup_delete_Some in Hc as [_ Hc]. exists m'. eauto.
Qed.

Lemma cleanup_pruned fuel : forall st (a : addr) st',
  cleanup fuel st a = Done st' -> pruned st st'.
Proof.
  induction fuel as [|fuel IH]; intros st a st' H; [discriminate|].
  cbn in H. apply bind_Done in H as (n & _ & H).
  destruct (uplinks n); [|injection H as <-; apply pruned_refl].
  destruct (payload n).
  - apply bind_Done in H as (st1 & H1 & H). apply bind_Done in H as (st2 & H2 & H).
    apply bind_Done in H as (n' & _ & H). destruct (payload n'); try discriminate.
    apply bind_Done in H as (st3 & H3 & H). apply bind_Done in H as (st4 & H4 & H).
    apply uplinks_unlink_pruned in H1, H3. apply IH in H2, H4.
    apply delete_Node_pruned in H.
    repeat (eapply pruned_trans; [eassumption|]). apply pruned_refl.
  - apply bind_Done in H as (st1 & H1 & H). apply bind_Done in H as (st2 & H2 & H).
    apply uplinks_unlink_pruned in H1. apply IH in H2.
    apply delete_Node_pruned in H.
    repeat (eapply pruned_trans; [eassumption|]). apply pruned_refl.
  - by apply delete_Node_pruned in H.
  - by apply delete_Node_pruned in H.
Qed.

Lemma edges_ok_weaken (E E' : addr -> UplinkType -> Prop) st :
  (forall p t, E p t <-> E' p t) -> edges_ok E st -> edges_ok E' st.
Proof.
  intros HE [S N C]. split; [|done|].
  - intros c m u Hc Hu. destruct (S c m u Hc Hu) as (mp & ? & ? & ?).
    exists mp. split_and!; try done. by rewrite <- HE.
  - intros p mp t c Hp Hs Hn. apply (C p mp t c); try done. by rewrite HE.
Qed.

Lemma edges_unlink E st st' (c p : addr) t :
  edges_ok E st -> uplinks_unlink c p t st = Done st' ->
  edges_ok (fun p' t' => E p' t' \/ (p' = p /\ t' = t)) st'.
Proof.
  intros [S N C] H. apply uplinks_unlink_Done in H as (m & l & Hm & Hl & ->).
  destruct (unlink_list_nodup _ _ _ _ Hl (N _ _ Hm)) as [NDl Hnl].
  assert (Hin := unlink_list_In _ _ _ _ Hl).
  assert (Live : forall x mx, nodes st !! x = Some mx ->
            exists mx', nodes (store c (mkNode (cache m) l (payload m)) st) !! x = Some mx' /\
              payload mx' = payload mx).
  { intros x mx Hx. cbn. destruct (decide (x = c)) as [->|].
    - rewrite lookup_insert_eq. rewrite Hm in Hx. injection Hx as <-. eauto.
    - rewrite lookup_insert_ne by done. eauto. }
  split.
  - intros c' m' u Hc' Hu. cbn in Hc'. destruct (decide (c' = c)) as [->|Hne].
    + rewrite lookup_insert_eq in Hc'. injection Hc' as <-. cbn in Hu.
      destruct (S c m u Hm) as (mp & Hmp & Hs & HnE); [eauto using unlink_list_sub|].
      destruct (Live _ _ Hmp) as (mp' & Hmp' & Hpp). exists mp'.
      rewrite Hpp. split_and!; try done. intros [?|[E1 E2]]; [done|].
      apply Hnl. destruct u; cbn in *. by subst.
    + rewrite lookup_insert_ne in Hc' by done.
      destruct (S c' m' u Hc' Hu) as (mp & Hmp & Hs & HnE).
      destruct (Live _ _ Hmp) as (mp' & Hmp' & Hpp). exists mp'.
      rewrite Hpp. split_and!; try done. intros [?|[E1 E2]]; [done|].
      destruct (S c m _ Hm Hin) as (mp2 & Hmp2 & Hs2 & _). cbn in *. subst.
      rewrite Hmp in Hmp2. injection Hmp2 as <-. congruence.
  - intros c' m' Hc'. cbn in Hc'. destruct (decide (c' = c)) as [->|Hne].
    + rewrite lookup_insert_eq in Hc'. by injection Hc' as <-.
    + rewrite lookup_insert_ne in Hc' by done. eauto.
  - intros p' mp' t' c' Hp' Hs' HnE.
    assert (exists mp0, nodes st !! p' = Some mp0 /\ payload mp' = payload mp0)
      as (mp0 & Hp0 & Hpp).
    { cbn in Hp'. destruct (decide (p' = c)) as [->|].
      - rewrite lookup_insert_eq in Hp'. injection Hp' as <-. eauto.
      - rewrite lookup_insert_ne in Hp' by done. eauto. }
    rewrite Hpp in Hs'.
    destruct (C p' mp0 t' c' Hp0 Hs') as (mc & Hmc & Hu); [tauto|].
    cbn. destruct (decide (c' = c)) as [->|Hne].
    + rewrite lookup_insert_eq. eexists. split; [done|]. cbn.
      rewrite Hm in Hmc. injection Hmc as <-.
      eapply unlink_list_other; eauto. intros [= -> ->]. tauto.
    + rewrite lookup_insert_ne by done. eauto.
Qed.

Lemma edges_delete (E E' : addr -> UplinkType -> Prop) st (n : addr) mn :
  edges_ok E st -> nodes st !! n = Some mn -> uplinks mn = [] ->
  (forall t c, slot_of (payload mn) t = Some c -> E n t) ->
  (forall p t, E' p t -> E p t) ->
  (forall p t, E p t -> p = n \/ E' p t) ->
  edges_ok E' (mkState (delete n (nodes st)) (next st)).
Proof.
  intros [S N C] Hn Hu Hdead Hsub Hsup. split.
  - intros c m u Hc Hin. cbn in Hc. apply lookup_delete_Some in Hc as [Hne Hc].
    destruct (S c m u Hc Hin) as (mp & Hmp & Hs & HnE).
    exists mp. split_and!; eauto. cbn. rewrite lookup_delete_ne; [done|].
    intros Eq. rewrite <- Eq in Hmp, HnE. rewrite Hn in Hmp.
    injection Hmp as <-. eauto.
  - intros c m Hc. cbn in Hc. apply lookup_delete_Some in Hc as [Hne Hc]. eauto.
  - intros p mp t c Hp Hs HnE. cbn in Hp. apply lookup_delete_Some in Hp as [Hne Hp].
    destruct (C p mp t c Hp Hs) as (mc & Hmc & Hin).
    { intros HE. destruct (Hsup _ _ HE); [congruence|done]. }
    exists mc. split; [|done]. cbn. rewrite lookup_delete_ne; [done|].
    intros Eq. rewrite <- Eq in Hmc. rewrite Hn in Hmc. injection Hmc as <-.
    rewrite Hu in Hin.
    by apply elem_of_nil in Hin.
Qed.

Lemma pruned_empty st st' (n : addr) mn mn' :
  pruned st st' -> nodes st !! n = Some mn -> uplinks mn = [] ->
  nodes st' !! n = Some mn' -> uplinks mn' = [] /\ payload mn' = payload mn.
Proof.
  intros [_ Hp] Hn Hu Hn'. destruct (Hp _ _ Hn') as (m & Hm & Hpl & _ & Hsub).
  rewrite Hn in Hm. injection Hm as <-. split; [|done].
  destruct (uplinks mn') as [|u l]; [done|].
  specialize (Hsub u). rewrite Hu in Hsub. exfalso.
  eapply elem_of_nil, Hsub. left.
Qed.

(** [cleanup] keeps invariant 1, whatever edges are exempt. *)
Lemma cleanup_edges fuel : forall st (n : addr) st' E,
  edges_ok E st -> cleanup fuel st n = Done st' -> edges_ok E st'.
Proof.
  induction fuel as [|fuel IH]; intros st n st' E HE H; [discriminate|].
  cbn in H. apply bind_Done in H as (mn & Hn & H). apply deref_Done in Hn.
  destruct (uplinks mn) eqn:Hu; [|by injection H as <-].
  destruct (payload mn) as [l r|b v| |q] eqn:Hp.
  - apply bind_Done in H as (st1 & H1 & H). apply bind_Done in H as (st2 & H2 & H).
    apply bind_Done in H as (m' & Hm' & H). apply deref_Done in Hm'.
    assert (P12 : pruned st st2)
      by eauto using pruned_trans, uplinks_unlink_pruned, cleanup_pruned.
    destruct (pruned_empty _ _ _ _ _ P12 Hn Hu Hm') as [_ Hp'].
    rewrite Hp', Hp in H.
    apply bind_Done in H as (st3 & H3 & H). apply bind_Done in H as (st4 & H4 & H).
    assert (P14 : pruned st st4)
      by eauto using pruned_trans, uplinks_unlink_pruned, cleanup_pruned.
    destruct (delete_Node_Done _ _ _ H) as [[mn4 Hn4] ->].
    destruct (pruned_empty _ _ _ _ _ P14 Hn Hu Hn4) as [Hu4 Hp4].
    eapply (edges_delete _ E _ n mn4); [|done|done| | |].
    + eapply IH; [|exact H4]. eapply edges_unlink; [|exact H3].
      eapply IH; [|exact H2]. eapply edges_unlink; [exact HE|exact H1].
    + intros t c. rewrite Hp4, Hp. destruct t; cbn; intros [= <-]; tauto.
    + intros p t ?. cbn. tauto.
    + intros p t ?. cbn in *. tauto.
  - apply bind_Done in H as (st1 & H1 & H). apply bind_Done in H as (st2 & H2 & H).
    assert (P12 : pruned st st2)
      by eauto using pruned_trans, uplinks_unlink_pruned, cleanup_pruned.
    destruct (delete_Node_Done _ _ _ H) as [[mn2 Hn2] ->].
    destruct (pruned_empty _ _ _ _ _ P12 Hn Hu Hn2) as [Hu2 Hp2].
    eapply (edges_delete _ E _ n mn2); [|done|done| | |].
    + eapply IH; [|exact H2]. eapply edges_unlink; [exact HE|exact H1].
    + intros t c. rewrite Hp2, Hp. destruct t; cbn; intros [= <-]; tauto.
    + intros p t ?. cbn. tauto.
    + intros p t ?. cbn in *. tauto.
  - destruct (delete_Node_Done _ _ _ H) as [_ ->].
    eapply (edges_delete E E _ n mn); try done; [|intros; tauto].
    intros t c. rewrite Hp. done.
  - destruct (delete_Node_Done _ _ _ H) as [_ ->].
    eapply (edges_delete E E _ n mn); try done; [|intros; tauto].
    intros t c. rewrite Hp. done.
Qed.

(** Redirecting the one slot whose uplink record is missing. *)
Lemma edges_set_slot st st' (into nc old : addr) T mi :
  let E1 := fun p t => p = into /\ t = T in
  edges_ok E1 st -> nodes st !! into = Some mi ->
  slot_of (payload mi) T = Some old ->
  set_payload into (set_slot (payload mi) T nc) st = Done st' ->
  edges_ok E1 st' /\
  exists mi', nodes st' !! into = Some mi' /\ slot_of (payload mi') T = Some nc.
Proof.
  intros E1 [S N C] Hi Hs H. apply set_payload_Done in H as (m & Hm & ->).
  rewrite Hi in Hm. injection Hm as <-.
  assert (Slot : forall t c, t <> T ->
            slot_of (set_slot (payload mi) T nc) t = Some c <->
            slot_of (payload mi) t = Some c).
  { intros t c Hne. destruct (payload mi), T, t; cbn in *; try done. }
  split; [split|].
  - intros c m u Hc Hu.
    assert (exists m0, nodes st !! c = Some m0 /\ uplinks m = uplinks m0) as (m0 & Hc0 & Hu0).
    { cbn in Hc. destruct (decide (c = into)) as [->|].
      - rewrite lookup_insert_eq in Hc. injection Hc as <-. eauto.
      - rewrite lookup_insert_ne in Hc by done. eauto. }
    rewrite Hu0 in Hu. destruct (S c m0 u Hc0 Hu) as (mp & Hmp & Hsl & HnE).
    cbn. destruct (decide (up_link u = into)) as [Eq|Hne].
    + rewrite Eq, lookup_insert_eq. eexists. split; [done|]. cbn.
      rewrite Eq in HnE. rewrite Eq, Hi in Hmp. injection Hmp as <-.
      split; [|exact HnE]. apply Slot; [|done]. intros Et. apply HnE. done.
    + rewrite lookup_insert_ne by done. eauto.
  - intros c m Hc. cbn in Hc. destruct (decide (c = into)) as [->|].
    + rewrite lookup_insert_eq in Hc. injection Hc as <-. cbn. eauto.
    + rewrite lookup_insert_ne in Hc by done. eauto.
  - intros p mp t c Hp Hsl HnE.
    assert (exists mp0, nodes st !! p = Some mp0 /\ slot_of (payload mp0) t = Some c)
      as (mp0 & Hp0 & Hs0).
    { cbn in Hp. destruct (decide (p = into)) as [->|].
      - rewrite lookup_insert_eq in Hp. injection Hp as <-. cbn in Hsl.
        exists mi. split; [done|]. apply Slot; [|done]. intros ->. by apply HnE.
      - rewrite lookup_insert_ne in Hp by done. eauto. }
    destruct (C p mp0 t c Hp0 Hs0 HnE) as (mc & Hmc & Hin).
    cbn. destruct (decide (c = into)) as [->|].
    + rewrite lookup_insert_eq. eexists. split; [done|]. cbn.
      rewrite Hi in Hmc. by injection Hmc as <-.
    + rewrite lookup_insert_ne by done. eauto.
  - cbn. rewrite lookup_insert_eq. eexists. split; [done|]. cbn.
    eauto using slot_of_set_slot.
Qed.

(** Installing the missing uplink record. *)
Lemma edges_add st st' (into nc : addr) T mi :
  edges_ok (fun p t => p = into /\ t = T) st ->
  nodes st !! into = Some mi -> slot_of (payload mi) T = Some nc ->
  uplinks_add nc into T st = Done st' ->
  edges_ok no_edge st'.
Proof.
  intros [S N C] Hi Hs H. apply uplinks_add_Done in H as (m & Hm & ->).
  assert (Live : forall x mx, nodes st !! x = Some mx ->
     exists mx', nodes (store nc (mkNode (cache m)
                   (uplinks m ++ [mkUplink into T]) (payload m)) st) !! x = Some mx' /\
       payload mx' = payload mx /\ forall u, u ∈ uplinks mx -> u ∈ uplinks mx').
  { intros x mx Hx. cbn. destruct (decide (x = nc)) as [->|].
    - rewrite lookup_insert_eq. rewrite Hm in Hx. injection Hx as <-.
      eexists. split_and!; try done. cbn. intros u Hu. apply elem_of_app. by left.
    - rewrite lookup_insert_ne by done. eauto. }
  split.
  - intros c mc u Hc Hu. cbn in Hc. destruct (decide (c = nc)) as [->|Hne].
    + rewrite lookup_insert_eq in Hc. injection Hc as <-. cbn in Hu.
      apply elem_of_app in Hu as [Hu|Hu].
      * destruct (S nc m u Hm Hu) as (mp & Hmp & Hsl & _).
        destruct (Live _ _ Hmp) as (mp' & ? & Hpp & _). exists mp'.
        rewrite Hpp. split_and!; try done. by intros [].
      * apply list_elem_of_singleton in Hu as ->. cbn.
        destruct (Live _ _ Hi) as (mi' & ? & Hpp & _). exists mi'.
        rewrite Hpp. split_and!; try done. by intros [].
    + rewrite lookup_insert_ne in Hc by done.
      destruct (S c mc u Hc Hu) as (mp & Hmp & Hsl & _).
      destruct (Live _ _ Hmp) as (mp' & ? & Hpp & _). exists mp'.
      rewrite Hpp. split_and!; try done. by intros [].
  - intros c mc Hc. cbn in Hc. destruct (decide (c = nc)) as [->|Hne].
    + rewrite lookup_insert_eq in Hc. injection Hc as <-. cbn.
      apply NoDup_app. split_and!; eauto using NoDup_singleton.
      intros u Hu ->%list_elem_of_singleton.
      destruct (S nc m _ Hm Hu) as (_ & _ & _ & HnE). by apply HnE.
    + rewrite lookup_insert_ne in Hc by done. eauto.
  - intros p mp t c Hp Hsl _.
    assert (exists mp0, nodes st !! p = Some mp0 /\ payload mp = payload mp0)
      as (mp0 & Hp0 & Hpp).
    { cbn in Hp. destruct (decide (p = nc)) as [->|].
      - rewrite lookup_insert_eq in Hp. injection Hp as <-. eauto.
      - rewrite lookup_insert_ne in Hp by done. eauto. }
    rewrite Hpp in Hsl.
    destruct (decide (p = into /\ t = T)) as [[-> ->]|Hne].
    + rewrite Hi in Hp0. injection Hp0 as <-. rewrite Hs in Hsl. injection Hsl as <-.
      cbn. rewrite lookup_insert_eq. eexists. split; [done|]. cbn.
      apply elem_of_app. right. left.
    + destruct (C p mp0 t c Hp0 Hsl Hne) as (mc & Hmc & Hin).
      destruct (Live _ _ Hmc) as (mc' & ? & _ & Hsub). eauto.
Qed.

(** [upreplace] keeps invariant 1. *)
Lemma upreplace_edges fuel st (nc into : addr) t st' :
  edges_ok no_edge st -> upreplace fuel st nc into t = Done st' ->
  edges_ok no_edge st'.
Proof.
  intros HE H. unfold upreplace in H.
  apply bind_Done in H as (mi & Hi & H). apply deref_Done in Hi.
  assert (Step : forall T old st1 st2 st3,
      slot_of (payload mi) T = Some old ->
      uplinks_unlink old into T st = Done st1 ->
      set_payload into (set_slot (payload mi) T nc) st1 = Done st2 ->
      uplinks_add nc into T st2 = Done st3 ->
      cleanup fuel st3 old = Done st' -> edges_ok no_edge st').
  { intros T old st1 st2 st3 Hs H1 H2 H3 H4.
    assert (E1 : edges_ok (fun p t => p = into /\ t = T) st1).
    { eapply edges_ok_weaken; [|eapply edges_unlink; [exact HE|exact H1]].
      intros p t'. unfold no_edge. tauto. }
    assert (Hi1 : exists mi1, nodes st1 !! into = Some mi1 /\ payload mi1 = payload mi).
    { apply uplinks_unlink_Done in H1 as (m & l & Hm & Hl & ->). cbn.
      destruct (decide (into = old)) as [<-|].
      - rewrite lookup_insert_eq. rewrite Hi in Hm. injection Hm as <-. eauto.
      - rewrite lookup_insert_ne by done. eauto. }
    destruct Hi1 as (mi1 & Hi1 & Hp1). rewrite <- Hp1 in H2, Hs.
    destruct (edges_set_slot _ _ _ _ _ _ _ E1 Hi1 Hs H2) as (E2 & mi2 & Hi2 & Hs2).
    eapply cleanup_edges; [|exact H4]. eapply edges_add; eauto. }
  destruct (payload mi) as [l r|b v| |q] eqn:Hp; try discriminate.
  - destruct t;
      apply bind_Done in H as (st1 & H1 & H); apply bind_Done in H as (st2 & H2 & H);
      apply bind_Done in H as (st3 & H3 & H).
    + eapply (Step UPLINK_APPL); eauto.
    + eapply (Step UPLINK_APPR); eauto.
    + eapply (Step UPLINK_APPR); eauto.
  - apply bind_Done in H as (st1 & H1 & H); apply bind_Done in H as (st2 & H2 & H);
      apply bind_Done in H as (st3 & H3 & H).
    eapply (Step UPLINK_NA); eauto.
Qed.
End Edges.

(** ** The nodes an upcopy pass allocates *)

Section PassExtLemmas.
Context {P : Type} (st0 : State P) (x : addr).
Implicit Types (st : State P) (m : Node P).

#[local] Abbreviation pass_ext := (pass_ext st0 x).
#[local] Abbreviation reached := (reached st0 x).
#[local] Abbreviation walk_step := (walk_step st0).
#[local] Abbreviation upcopy_from := (upcopy_from st0 x).

Lemma walk_step_mono st st' c q :
  marks_kept st0 st st' -> walk_step st c q -> walk_step st' c q.
Proof.
  intros K [(t & m0 & Hc & Hu & Hi & k & Hk)|[Hb [k Hk]]].
  - left. exists t, m0. split_and!; try done. exists k. by apply K.
  - right. split; [done|]. exists k. apply K; eauto using binds_inner.
Qed.

Lemma reached_mono st st' q :
  marks_kept st0 st st' -> reached st q -> reached st' q.
Proof.
  intros K H. unfold reached in *. eapply rtc_subrel; [|exact H].
  intros ? ?. by apply walk_step_mono.
Qed.

Lemma store_binds st a m m' g v :
  nodes st !! a = Some m ->
  (forall b v, payload m' = lambda b v <-> payload m = lambda b v) ->
  binds (store a m' st) g v <-> binds st g v.
Proof.
  intros Ha Hp. unfold binds, store. cbn. split; intros (mg & b & Hg & Hpg).
  - destruct (decide (g = a)) as [->|].
    + rewrite lookup_insert_eq in Hg. injection Hg as <-. exists m, b.
      split; [done|]. by apply Hp.
    + rewrite lookup_insert_ne in Hg by done. eauto.
  - destruct (decide (g = a)) as [->|].
    + rewrite lookup_insert_eq. rewrite Ha in Hg. injection Hg as <-.
      exists m', b. split; [done|]. by apply Hp.
    + rewrite lookup_insert_ne by done. eauto.
Qed.

Lemma binders_ok_store st a m m' :
  binders_ok st -> nodes st !! a = Some m ->
  (forall b v, payload m' = lambda b v <-> payload m = lambda b v) ->
  (payload m = var -> payload m' = var) ->
  binders_ok (store a m' st).
Proof.
  intros [B V N] Ha Hp Hv. split.
  - intros g g' v Hg Hg'. rewrite store_binds in Hg, Hg' by done. eauto.
  - intros g v mv Hg Hmv. rewrite store_binds in Hg by done. cbn in Hmv.
    destruct (decide (v = a)) as [->|].
    + rewrite lookup_insert_eq in Hmv. injection Hmv as <-. eauto.
    + rewrite lookup_insert_ne in Hmv by done. eauto.
  - intros g v Hg. rewrite store_binds in Hg by done. cbn. eauto.
Qed.

Lemma pass_ext_var_alloc st :
  pass_ext st ->
  let st' := (new_Node st (mkNode NULL [] var)).2 in
  pass_ext st' /\ marks_kept st0 st st' /\
  nodes st' !! next st = Some (mkNode NULL [] var) /\
  (forall a, a <> next st -> nodes st' !! a = nodes st !! a) /\
  nodes st0 !! next st = None /\ nodes st !! next st = None /\
  next st' = Pos.succ (next st).
Proof.
  intros X st'.
  destruct (pass_inv_alloc st0 st (mkNode NULL [] var) (pe_inv _ _ _ X))
    as (I' & K & L & F & N0).
  fold st' in I', K, L, F.
  assert (Nl : nodes st !! next st = None).
  { apply (pi_fresh _ _ (pe_inv _ _ _ X)). lia. }
  assert (Fc : forall a, a <> next st -> cache_of st' a = cache_of st a).
  { intros a Ha. unfold cache_of. by rewrite F. }
  assert (Old : forall a, inner st0 a -> a <> next st).
  { intros a (m0 & H0 & _) ->. congruence. }
  split_and!; try done. split; try done.
  - intros a Ha Hlt. rewrite F; [by apply (pe_dead _ _ _ X)|].
    assert (Hn := pe_next _ _ _ X). lia.
  - assert (Hn := pe_next _ _ _ X). unfold st', new_Node. cbn. lia.
  - intros k mk Hk Hk0. destruct (decide (k = next st)) as [->|Hne].
    + rewrite L in Hk. injection Hk as <-. auto.
    + rewrite F in Hk by done.
      destruct (pe_new _ _ _ X _ _ Hk Hk0) as (? & ? & [?|(a & Ha & Hc)]); auto.
      split_and!; try done. right. exists a. split; [done|]. rewrite Fc; auto.
  - intros a a' k Ha Ha' Hc Hc'. rewrite Fc in Hc, Hc' by auto.
    eapply (pe_inj _ _ _ X); eauto.
  - intros a k Ha Hc. rewrite Fc in Hc by auto.
    destruct (pe_copy _ _ _ X _ _ Ha Hc) as [? [mk Hk]]. split; [done|].
    exists mk. rewrite F; [done|]. intros ->. congruence.
  - destruct (pe_binders _ _ _ X) as [B V N].
    assert (Hb : forall g v, binds st' g v <-> binds st g v).
    { intros g v. unfold binds. split; intros (mg & b & Hg & Hpg).
      - destruct (decide (g = next st)) as [->|].
        + rewrite L in Hg. injection Hg as <-. done.
        + rewrite F in Hg by done. eauto.
      - exists mg, b. split; [|done]. rewrite F; [done|]. intros ->. congruence. }
    split.
    + intros g g' v. rewrite !Hb. eauto.
    + intros g v mv. rewrite Hb. intros Hg Hv.
      destruct (decide (v = next st)) as [->|].
      * rewrite L in Hv. by injection Hv as <-.
      * rewrite F in Hv by done. eauto.
    + intros g v. rewrite Hb. intros Hg. specialize (N _ _ Hg).
      unfold st', new_Node. cbn. lia.
  - intros q k Hq Hc. rewrite Fc in Hc by auto.
    eapply reached_mono; [done|]. eapply (pe_reached _ _ _ X); eauto.
  - intros a Ha Hc. rewrite Fc in Hc by auto. eapply (pe_stop _ _ _ X); eauto.
Qed.

(** Allocating the copy of [into] and recording it in [into->cache]. *)
Lemma pass_ext_mark st (into : addr) t m0 m (N : Node P) :
  pass_ext st -> nodes st0 !! into = Some m0 -> nodes st !! into = Some m ->
  inner st0 into -> cache m = NULL ->
  cache N = NULL -> uplinks N = [] -> node_type N = node_type m0 ->
  (forall b v, payload N = lambda b v ->
     (exists mv, nodes st !! v = Some mv /\ payload mv = var) /\
     (forall g, ~ binds st g v)) ->
  (forall b v, payload m0 = lambda b v -> done st0 st b) ->
  upcopy_from st into t ->
  let st' := store into (mkNode (Cached (next st)) (uplinks m) (payload m))
               (new_Node st N).2 in
  set_cache into (Cached (next st)) (new_Node st N).2 = Done st' /\
  pass_ext st' /\ marks_kept st0 st st' /\
  cache_of st' into = Some (Cached (next st)) /\
  (forall a ma, nodes st0 !! a = Some ma -> a <> into ->
     cache_of st' a = cache_of st a) /\
  (forall a, a <> into -> a <> next st -> nodes st' !! a = nodes st !! a).
Proof.
  intros X H0 Hm Hi Hc HcN HuN HtN Hlam Hdone Hfrom st'.
  assert (I := pe_inv _ _ _ X).
  destruct (pass_inv_alloc st0 st N I) as (Ia & Ka & La & Fa & N0).
  assert (Nl : nodes st !! next st = None) by (apply (pi_fresh _ _ I); lia).
  assert (Nn : into <> next st) by (intros ->; congruence).
  assert (Ha : nodes (new_Node st N).2 !! into = Some m) by (by rewrite Fa).
  destruct (pass_inv_set_cache st0 (new_Node st N).2 into m0 m (Cached (next st))
              Ia H0 Ha) as (Hset & Ib & Kb).
  { intros Ht. right. unfold node_type in HtN, Ht. rewrite Ht in HtN.
    destruct (payload N) as [l r| | |] eqn:EN; try done.
    exists (next st), N, l, r. done. }
  { intros b v k Hp _. eapply done_mono; eauto. }
  { auto. }
  fold st' in Hset, Ib, Kb.
  assert (K : marks_kept st0 st st') by eauto using marks_kept_trans.
  assert (Li : nodes st' !! into
               = Some (mkNode (Cached (next st)) (uplinks m) (payload m))).
  { unfold st'. cbn. apply lookup_insert_eq. }
  assert (Ln : nodes st' !! next st = Some N).
  { unfold st'. cbn. by rewrite lookup_insert_ne. }
  assert (Lo : forall a, a <> into -> a <> next st -> nodes st' !! a = nodes st !! a).
  { intros a ? ?. unfold st'. cbn. rewrite lookup_insert_ne by done. by apply Fa. }
  assert (Ci : cache_of st' into = Some (Cached (next st))).
  { by rewrite (cache_of_Some _ _ _ Li). }
  assert (Old : forall a ma, nodes st0 !! a = Some ma -> a <> next st).
  { intros a ma Hma ->. congruence. }
  assert (Fc : forall a ma, nodes st0 !! a = Some ma -> a <> into ->
            cache_of st' a = cache_of st a).
  { intros a ma Hma Hne. unfold cache_of. rewrite Lo; eauto. }
  assert (Hnx : next st' = Pos.succ (next st)) by reflexivity.
  assert (Hpm : payload m = payload m0).
  { destruct (pi_static _ _ I _ _ H0) as (m' & Hm' & ? & _). congruence. }
  split_and!; try done. split; try done.
  - intros a Ha0 Hlt. assert (Hn := pe_next _ _ _ X).
    rewrite Lo; [by apply (pe_dead _ _ _ X)| |lia]. intros ->. congruence.
  - assert (Hn := pe_next _ _ _ X). lia.
  - intros k mk Hk Hk0. destruct (decide (k = next st)) as [->|Hne].
    + rewrite Ln in Hk. injection Hk as <-. split_and!; try done.
      right. exists into. done.
    + assert (k <> into) by (intros ->; congruence).
      rewrite Lo in Hk by done.
      destruct (pe_new _ _ _ X _ _ Hk Hk0) as (? & ? & [?|(a & [ma [Hma Hta]] & Hca)]); auto.
      split_and!; try done. right. exists a. split; [by exists ma|].
      rewrite (Fc a ma); [done..|]. intros ->.
      rewrite (cache_of_Some _ _ _ Hm), Hc in Hca. done.
  - intros a a' k [ma [Hma Hta]] [ma' [Hma' Hta']] Hca Hca'.
    destruct (decide (a = into)) as [->|Hna]; destruct (decide (a' = into)) as [->|Hna'];
      try done.
    + rewrite Ci in Hca. injection Hca as <-. rewrite (Fc a' ma') in Hca' by done.
      destruct (pe_copy _ _ _ X a' (next st)) as [_ [? ?]]; [by exists ma'|done|congruence].
    + rewrite Ci in Hca'. injection Hca' as <-. rewrite (Fc a ma) in Hca by done.
      destruct (pe_copy _ _ _ X a (next st)) as [_ [? ?]]; [by exists ma|done|congruence].
    + rewrite (Fc a ma) in Hca by done. rewrite (Fc a' ma') in Hca' by done.
      eapply (pe_inj _ _ _ X a a'); eauto; eexists; eauto.
  - intros a k [ma [Hma Hta]] Hca. destruct (decide (a = into)) as [->|Hna].
    + rewrite Ci in Hca. injection Hca as <-. by rewrite Ln.
    + rewrite (Fc a ma) in Hca by done.
      destruct (pe_copy _ _ _ X a k) as [? [mk Hk]]; [by exists ma|done|].
      split; [done|]. exists mk. rewrite Lo; [done| |]; intros ->; congruence.
  - destruct (pe_binders _ _ _ X) as [B V Nb].
    assert (Hb : forall g v, binds st' g v <->
              binds st g v \/ (g = next st /\ exists b, payload N = lambda b v)).
    { intros g v. unfold binds. split.
      - intros (mg & b & Hg & Hpg). destruct (decide (g = next st)) as [->|Hgn].
        + rewrite Ln in Hg. injection Hg as <-. right. eauto.
        + left. destruct (decide (g = into)) as [->|Hgi].
          * rewrite Li in Hg. injection Hg as <-. cbn in Hpg. eauto.
          * rewrite Lo in Hg by done. eauto.
      - intros [(mg & b & Hg & Hpg)|[-> [b Hb]]]; [|eauto].
        destruct (decide (g = into)) as [->|Hgi].
        + rewrite Hm in Hg. injection Hg as <-. eexists _, b. split; [exact Li|done].
        + exists mg, b. split; [|done]. rewrite Lo; [done..|]. intros ->. congruence. }
    split.
    + intros g g' v. rewrite !Hb. intros [Hg|[-> [b Hbv]]] [Hg'|[-> [b' Hbv']]]; eauto.
      * destruct (Hlam _ _ Hbv') as [_ Hnb]. by destruct (Hnb g).
      * destruct (Hlam _ _ Hbv) as [_ Hnb]. by destruct (Hnb g').
    + intros g v mv. rewrite Hb. intros Hg Hv.
      assert (exists mv0, nodes st !! v = Some mv0 /\ payload mv = payload mv0 /\
                (binds st g v \/ payload mv0 = var)) as (mv0 & Hv0 & Hpv & Hor).
      { destruct Hg as [Hg|[-> [b Hbv]]].
        - assert (Hlt := Nb _ _ Hg). assert (v <> next st) by lia.
          destruct (decide (v = into)) as [->|].
          + rewrite Li in Hv. injection Hv as <-. eauto.
          + rewrite Lo in Hv by done. eauto.
        - destruct (Hlam _ _ Hbv) as [(mv0 & Hv0 & Hpv0) _].
          assert (v <> next st) by (intros ->; congruence).
          destruct (decide (v = into)) as [->|].
          + rewrite Li in Hv. injection Hv as <-. rewrite Hm in Hv0.
            injection Hv0 as <-. eauto.
          + rewrite Lo in Hv by done. rewrite Hv in Hv0. injection Hv0 as <-. eauto. }
      rewrite Hpv. destruct Hor; eauto.
    + intros g v. rewrite Hb. intros [Hg|[-> [b Hbv]]].
      * specialize (Nb _ _ Hg). lia.
      * destruct (Hlam _ _ Hbv) as [(mv0 & Hv0 & _) _].
        destruct (decide (next st <= v)%positive) as [Hle|]; [|lia].
        rewrite (pi_fresh _ _ I) in Hv0; done.
  - intros q k [mq [Hmq Htq]] Hcq. destruct (decide (q = into)) as [->|Hnq].
    + destruct Hfrom as [[_ (c & mc & Hmc & Huc & Hrc)]|[Hni _]]; [|done].
      eapply rtc_r; [eapply reached_mono; eauto|].
      left. exists t, mc. split_and!; try done. eauto.
    + rewrite (Fc q mq) in Hcq by done. eapply reached_mono; [done|].
      eapply (pe_reached _ _ _ X); eauto. by exists mq.
  - intros a [ma [Hma Hta]] Hca. destruct (decide (a = into)) as [->|Hna].
    + rewrite Ci in Hca. done.
    + rewrite (Fc a ma) in Hca by done. eapply (pe_stop _ _ _ X); [|done].
      by exists ma.
Qed.

(** Overwriting a slot of a copy that is an App. *)
Lemma pass_ext_patch st (into k : addr) mk l r p' :
  pass_ext st -> inner st0 into -> cache_of st into = Some (Cached k) ->
  nodes st !! k = Some mk -> payload mk = app l r ->
  (exists l' r', p' = app l' r') ->
  let st' := store k (mkNode (cache mk) (uplinks mk) p') st in
  set_payload k p' st = Done st' /\ pass_ext st' /\ marks_kept st0 st st' /\
  (forall a, cache_of st' a = cache_of st a).
Proof.
  intros X Hi Hc Hk Hpk (l' & r' & ->) st'.
  assert (I := pe_inv _ _ _ X).
  destruct (pe_copy _ _ _ X _ _ Hi Hc) as [Hk0 _].
  destruct (pass_inv_patch st0 st k mk l r (app l' r') I Hk0 Hk Hpk)
    as (Hset & I' & K & C); [done|]. fold st' in Hset, I', K, C.
  assert (Lk : nodes st' !! k = Some (mkNode (cache mk) (uplinks mk) (app l' r'))).
  { unfold st'. cbn. apply lookup_insert_eq. }
  assert (Lo : forall a, a <> k -> nodes st' !! a = nodes st !! a).
  { intros a ?. unfold st'. cbn. by rewrite lookup_insert_ne. }
  split_and!; try done. split; try done.
  - intros a Ha Hlt. destruct (decide (a = k)) as [->|].
    + assert (Hd := pe_dead _ _ _ X _ Ha Hlt). congruence.
    + rewrite Lo by done. by apply (pe_dead _ _ _ X).
  - apply (pe_next _ _ _ X).
  - intros a ma Ha Ha0. destruct (decide (a = k)) as [->|].
    + rewrite Lk in Ha. injection Ha as <-. cbn.
      destruct (pe_new _ _ _ X _ _ Hk Ha0) as (? & ? & _). split_and!; try done.
      right. exists into. by rewrite C.
    + rewrite Lo in Ha by done.
      destruct (pe_new _ _ _ X _ _ Ha Ha0) as (? & ? & [?|(b & Hb & Hcb)]); auto.
      split_and!; try done. right. exists b. by rewrite C.
  - intros a a' k'. rewrite !C. apply (pe_inj _ _ _ X).
  - intros a k' Ha. rewrite C. intros Hca.
    destruct (pe_copy _ _ _ X _ _ Ha Hca) as [? [mk' Hk']]. split; [done|].
    destruct (decide (k' = k)) as [->|]; [by rewrite Lk|]. rewrite Lo; eauto.
  - eapply binders_ok_store; [apply (pe_binders _ _ _ X)|exact Hk| |].
    + cbn. rewrite Hpk. intros ? ?. split; done.
    + rewrite Hpk. done.
  - intros q k' Hq. rewrite C. intros Hcq. eapply reached_mono; [|eapply (pe_reached _ _ _ X); eauto].
    intros a c. by rewrite C.
  - intros a Ha. rewrite C. apply (pe_stop _ _ _ X _ Ha).
Qed.

(** Recording the image of an old variable. *)
Lemma pass_ext_varcache st (into : addr) m0 m c :
  pass_ext st -> nodes st0 !! into = Some m0 -> payload m0 = var ->
  nodes st !! into = Some m ->
  let st' := store into (mkNode c (uplinks m) (payload m)) st in
  set_cache into c st = Done st' /\ pass_ext st' /\ marks_kept st0 st st' /\
  (forall a, a <> into -> nodes st' !! a = nodes st !! a) /\
  (forall a, inner st0 a -> cache_of st' a = cache_of st a).
Proof.
  intros X H0 Hp0 Hm st'.
  assert (I := pe_inv _ _ _ X).
  assert (Ni : ~ inner st0 into).
  { intros (mi & Hmi & Hti). rewrite H0 in Hmi. injection Hmi as <-.
    unfold node_type in Hti. rewrite Hp0 in Hti. by destruct Hti. }
  destruct (pass_inv_set_cache st0 st into m0 m c I H0 Hm) as (Hset & I' & K).
  { unfold node_type. by rewrite Hp0. }
  { intros ? ? ? ?. congruence. }
  { done. }
  fold st' in Hset, I', K.
  assert (Li : nodes st' !! into = Some (mkNode c (uplinks m) (payload m))).
  { unfold st'. cbn. apply lookup_insert_eq. }
  assert (Lo : forall a, a <> into -> nodes st' !! a = nodes st !! a).
  { intros a ?. unfold st'. cbn. by rewrite lookup_insert_ne. }
  assert (C : forall a, inner st0 a -> cache_of st' a = cache_of st a).
  { intros a Ha. unfold cache_of. rewrite Lo; [done|]. by intros ->. }
  split_and!; try done. split; try done.
  - intros a Ha Hlt. rewrite Lo; [by apply (pe_dead _ _ _ X)|]. intros ->. congruence.
  - apply (pe_next _ _ _ X).
  - intros a ma Ha Ha0. assert (a <> into) by (intros ->; congruence).
    rewrite Lo in Ha by done.
    destruct (pe_new _ _ _ X _ _ Ha Ha0) as (? & ? & [?|(b & Hb & Hcb)]); auto.
    split_and!; try done. right. exists b. by rewrite C.
  - intros a a' k Ha Ha'. rewrite !C by done. by apply (pe_inj _ _ _ X).
  - intros a k Ha. rewrite C by done. intros Hca.
    destruct (pe_copy _ _ _ X _ _ Ha Hca) as [? [mk' Hk']]. split; [done|].
    exists mk'. rewrite Lo; [done|]. intros ->. congruence.
  - eapply binders_ok_store; [apply (pe_binders _ _ _ X)|exact Hm|done..].
  - intros q k' Hq. rewrite C by done. intros Hcq.
    eapply reached_mono; [done|]. eapply (pe_reached _ _ _ X); eauto.
  - intros a Ha. rewrite C by done. apply (pe_stop _ _ _ X _ Ha).
Qed.
End PassExtLemmas.

(** ** What a pass that returns has done *)

(** *** The copies are images of their originals *)

Section ContentLemmas.
Context {P : Type} (st0 : State P) (x arg : addr).
Implicit Types (st : State P) (m : Node P).

#[local] Abbreviation image := (image st0 x arg).
#[local] Abbreviation copy_of := (copy_of st0 x arg).
#[local] Abbreviation content_inv := (content_inv st0 x arg).
#[local] Abbreviation told := (told st0 x arg).
#[local] Abbreviation all_told := (all_told st0 x arg).
#[local] Abbreviation told_kept := (told_kept st0 x arg).

Lemma shape_kept_refl st : shape_kept st st.
Proof. intros k mk Hk. exists mk. auto. Qed.

Lemma shape_kept_trans st1 st2 st3 :
  shape_kept st1 st2 -> shape_kept st2 st3 -> shape_kept st1 st3.
Proof.
  intros H1 H2 k mk Hk. destruct (H1 _ _ Hk) as (m2 & Hm2 & Hp2).
  destruct (H2 _ _ Hm2) as (m3 & Hm3 & Hp3). exists m3. split; [done|].
  destruct Hp2 as [E2|(l & r & l' & r' & E2 & E2')];
    destruct Hp3 as [E3|(l3 & r3 & l3' & r3' & E3 & E3')].
  - left. congruence.
  - right. exists l3, r3, l3', r3'. split; congruence.
  - right. exists l, r, l', r'. split; congruence.
  - right. exists l, r, l3', r3'. split; congruence.
Qed.

Lemma told_kept_refl st : told_kept st st.
Proof. by intros q t. Qed.

Lemma told_kept_trans st1 st2 st3 :
  told_kept st1 st2 -> told_kept st2 st3 -> told_kept st1 st3.
Proof. intros H1 H2 q t H. eauto. Qed.

Lemma all_told_mono st st' c : told_kept st st' -> all_told st c -> all_told st' c.
Proof. intros K H m0 u H0 Hu. eauto. Qed.

Lemma image_mono st st' c c' :
  marks_kept st0 st st' -> shape_kept st st' -> image st c c' -> image st' c c'.
Proof.
  intros K S [[Hi Hc]|[[-> ->]|(g & k & mk & b & Hb & Hc & Hk & Hp)]].
  - left. split; [done|]. by apply K.
  - right. by left.
  - right. right. destruct (S _ _ Hk) as (mk' & Hk' & Hp').
    exists g, k, mk', b. split_and!; try done.
    + apply K; eauto using binds_inner.
    + destruct Hp' as [E|(l & r & l' & r' & E & _)]; congruence.
Qed.

Lemma copy_of_mono st st' p p' :
  marks_kept st0 st st' -> shape_kept st st' -> copy_of st p p' -> copy_of st' p p'.
Proof.
  intros K S. destruct p as [l r|b v| |q], p' as [l' r'|b' v'| |q']; cbn; try done.
  - intros [[?|?] [?|?]]; split; eauto using image_mono.
  - intros (Hb & H0 & mv & Hv & Hpv). split_and!; eauto using image_mono.
    destruct (S _ _ Hv) as (mv' & Hv' & Hp'). exists mv'. split; [done|].
    destruct Hp' as [E|(l & r & l' & r' & E & _)]; congruence.
Qed.

(** A step that keeps every payload: allocations and cache updates. *)
Lemma content_frame st st' :
  content_inv st -> marks_kept st0 st st' ->
  (forall a ma, nodes st !! a = Some ma ->
     exists ma', nodes st' !! a = Some ma' /\ payload ma' = payload ma) ->
  (forall q m0 k, nodes st0 !! q = Some m0 -> inner st0 q ->
     cache_of st' q = Some (Cached k) ->
     cache_of st q = Some (Cached k) \/
     exists N, nodes st' !! k = Some N /\ copy_of st' (payload m0) (payload N)) ->
  content_inv st' /\ shape_kept st st' /\ told_kept st st'.
Proof.
  intros C K PK CK.
  assert (S : shape_kept st st').
  { intros k mk Hk. destruct (PK _ _ Hk) as (mk' & ? & ?). exists mk'. auto. }
  split_and!; [|done|].
  - intros q m0 k H0 Hi Hc. destruct (CK _ _ _ H0 Hi Hc) as [Hc'|?]; [|done].
    destruct (C _ _ _ H0 Hi Hc') as (mk & Hk & Hcp).
    destruct (PK _ _ Hk) as (mk' & Hk' & Hp'). exists mk'. split; [done|].
    rewrite Hp'. eauto using copy_of_mono.
  - intros q t [Hi [Hc|(m0 & c & k & mk & c' & H0 & Hs & Hc & Hk & Hs' & Him)]];
      split; try done.
    + left. by apply K.
    + right. destruct (PK _ _ Hk) as (mk' & Hk' & Hp').
      exists m0, c, k, mk', c'. split_and!; try done.
      * by apply K.
      * by rewrite Hp'.
      * eauto using image_mono.
Qed.

Lemma done_back st st' c :
  (forall q, inner st0 q -> cache_of st' q = cache_of st q) ->
  done st0 st' c -> done st0 st c.
Proof.
  intros F [[Hi [k Hk]]|(g & cg & Hb & Hc & Hn)].
  - left. split; [done|]. exists k. by rewrite <- F.
  - right. exists g, cg. rewrite <- F; eauto using binds_inner.
Qed.

Lemma done_mark st st' (into : addr) c :
  (forall q, inner st0 q -> q <> into -> cache_of st' q = cache_of st q) ->
  done st0 st' c -> done st0 st c \/ c = into \/ binds st0 into c.
Proof.
  intros F [[Hi [k Hk]]|(g & cg & Hb & Hc & Hn)].
  - destruct (decide (c = into)) as [->|Hne]; [auto|].
    left. left. split; [done|]. exists k. by rewrite <- F.
  - destruct (decide (g = into)) as [->|Hne]; [auto|].
    left. right. exists g, cg. rewrite <- F; eauto using binds_inner.
Qed.

(** The second arrival at an App: one slot of its copy is overwritten. *)
Lemma content_patch st (into k : addr) m0 mk l r l' r' t c nc :
  pass_ext st0 x st -> content_inv st ->
  nodes st0 !! into = Some m0 -> payload m0 = app l r -> inner st0 into ->
  cache_of st into = Some (Cached k) ->
  nodes st !! k = Some mk -> payload mk = app l' r' ->
  slot_of (payload m0) t = Some c -> image st c nc ->
  let pl := match t with UPLINK_APPL => app nc r' | _ => app l' nc end in
  let st' := store k (mkNode (cache mk) (uplinks mk) pl) st in
  (forall a, cache_of st' a = cache_of st a) -> marks_kept st0 st st' ->
  content_inv st' /\ shape_kept st st' /\ told_kept st st' /\ told st' into t.
Proof.
  intros X C H0 E0 Hi Hc Hk Hpk Hs Him pl st' F K. rewrite E0 in Hs.
  assert (Lk : nodes st' !! k = Some (mkNode (cache mk) (uplinks mk) pl))
    by apply lookup_insert_eq.
  assert (Lo : forall a, a <> k -> nodes st' !! a = nodes st !! a).
  { intros a Ha. unfold st', store. cbn. by rewrite lookup_insert_ne. }
  assert (S : shape_kept st st').
  { intros a ma Ha. destruct (decide (a = k)) as [->|Hne].
    - eexists. split; [exact Lk|]. right. rewrite Hk in Ha. injection Ha as <-.
      exists l', r'. cbn. unfold pl. destruct t; eauto.
    - exists ma. rewrite Lo by done. auto. }
  assert (Him' : image st' c nc) by eauto using image_mono.
  assert (Hslot : slot_of pl t = Some nc).
  { unfold pl. destruct t; cbn in Hs; try discriminate; done. }
  assert (Hother : forall t' c', t' <> t -> slot_of (payload mk) t' = Some c' ->
            slot_of pl t' = Some c').
  { intros t' c' Hne. rewrite Hpk. unfold pl.
    destruct t, t'; cbn in *; try discriminate; try done. }
  assert (T : told st' into t).
  { split; [done|]. right.
    exists m0, c, k, (mkNode (cache mk) (uplinks mk) pl), nc. rewrite F, E0.
    split_and!; done. }
  split_and!; try done.
  - intros q mq kq Hq Hiq Hcq. rewrite F in Hcq.
    destruct (C _ _ _ Hq Hiq Hcq) as (mkq & Hkq & Hcp).
    destruct (decide (kq = k)) as [->|Hne].
    + assert (q = into) as -> by (eapply (pe_inj _ _ _ X); eauto).
      rewrite H0 in Hq. injection Hq as <-. rewrite Hk in Hkq. injection Hkq as <-.
      eexists. split; [exact Lk|]. cbn. rewrite Hpk, E0 in Hcp. rewrite E0.
      cbn in Hcp. destruct Hcp as [Hl Hr]. unfold pl.
      destruct t; cbn in Hs; try discriminate; injection Hs as <-; cbn; split; auto.
      * destruct Hr as [?|?]; eauto using image_mono.
      * destruct Hl as [?|?]; eauto using image_mono.
    + exists mkq. rewrite Lo by done. split; [done|]. eauto using copy_of_mono.
  - intros q t' [Hiq [Hcq|(mq & cq & kq & mkq & c' & Hq & Hsq & Hcq & Hkq & Hs' & Him2)]].
    { split; [done|]. left. by rewrite F. }
    destruct (decide (kq = k)) as [->|Hne].
    + assert (q = into) as -> by (eapply (pe_inj _ _ _ X); eauto).
      rewrite H0 in Hq. injection Hq as <-. rewrite Hk in Hkq. injection Hkq as <-.
      destruct (decide (t' = t)) as [->|Hnt]; [done|].
      split; [done|]. right.
      exists m0, cq, k, (mkNode (cache mk) (uplinks mk) pl), c'. rewrite F.
      split_and!; try done; [|eauto using image_mono].
      cbn. by apply Hother.
    + split; [done|]. right. exists mq, cq, kq, mkq, c'. rewrite F, Lo by done.
      split_and!; eauto using image_mono.
Qed.
End ContentLemmas.

Section Content.
Context {P : Type} (st0 : State P) (x arg : addr).
Hypothesis SC : scoped st0.
Hypothesis VB : forall g v, binds st0 g v -> (v < next st0)%positive.
Implicit Types (st : State P) (m : Node P).

#[local] Abbreviation pass_ext := (pass_ext st0 x).
#[local] Abbreviation reached := (reached st0 x).
#[local] Abbreviation upcopy_from := (upcopy_from st0 x).
#[local] Abbreviation marks_kept := (marks_kept st0).
#[local] Abbreviation copied_above := (copied_above st0).
#[local] Abbreviation done := (done st0).
#[local] Abbreviation unreached := (unreached st0).
#[local] Abbreviation lambdas_open := (lambdas_open st0).
#[local] Abbreviation upcopy_pre := (upcopy_pre st0).
#[local] Abbreviation image := (image st0 x arg).
#[local] Abbreviation copy_of := (copy_of st0 x arg).
#[local] Abbreviation content_inv := (content_inv st0 x arg).
#[local] Abbreviation content_pre := (content_pre st0 x arg).
#[local] Abbreviation content_post := (content_post st0 x arg).
#[local] Abbreviation told := (told st0 x arg).
#[local] Abbreviation all_told := (all_told st0 x arg).
#[local] Abbreviation told_kept := (told_kept st0 x arg).

Section ContentLoop.
Variable n : nat.
Hypothesis IH : forall st (nc into : addr) t st',
  pass_ext st -> (nodes st0 !! into = None -> nodes st !! into = None) ->
  (is_Some (nodes st0 !! into) -> upcopy_pre st into) ->
  upcopy_from st into t ->
  upcopy n st nc into t = Done st' ->
  pass_ext st' /\ marks_kept st st' /\ copied_above st st' into /\
  (content_inv st -> content_pre st nc into t -> content_post st st' into t).

Lemma upcopy_loop_content (newNode into : addr) m0 : forall l st st',
  pass_ext st -> NoDup l -> nodes st0 !! into = Some m0 ->
  (forall u, u ∈ l -> u ∈ uplinks m0) ->
  reached st into -> done st into -> lambdas_open st l ->
  for_each_uplink
    (fun st cur => upcopy n st newNode (up_link cur) (up_type cur)) l st
  = Done st' ->
  pass_ext st' /\ marks_kept st st' /\
  (forall q mq b v k, nodes st0 !! q = Some mq -> payload mq = lambda b v ->
     cache_of st q = Some NULL -> cache_of st' q = Some (Cached k) ->
     b = into \/ unreached st b) /\
  (content_inv st -> image st into newNode ->
   content_inv st' /\ shape_kept st st' /\ told_kept st st' /\
   (forall u, u ∈ l -> told st' (up_link u) (up_type u)) /\
   (forall c, done st' c -> done st c \/ all_told st' c)).
Proof.
  induction l as [|[p t] l IHl]; intros st st' X ND H0 Hsub Hr Hd Ho H.
  { cbn in H. injection H as <-.
    split_and!; eauto using marks_kept_refl; [congruence|].
    intros C Him.
    split_and!; eauto using shape_kept_refl, told_kept_refl.
    intros u Hu. by apply elem_of_nil in Hu. }
  apply NoDup_cons in ND as [Nin ND].
  assert (Hpar : forall u, u ∈ uplinks m0 ->
            exists mp, nodes st0 !! up_link u = Some mp /\
              slot_of (payload mp) (up_type u) = Some into).
  { intros u Hu. eapply (sc_uplink _ SC); eauto. }
  destruct (Hpar (mkUplink p t)) as (mp & Hp & Hs); [apply Hsub; left|].
  cbn in Hp, Hs.
  assert (Hip : inner st0 p) by eauto using slot_inner.
  assert (I := pe_inv _ _ _ X).
  assert (Pre : upcopy_pre st p).
  { exists mp. split; [done|]. destruct (payload mp) as [| b v | |] eqn:E; try done.
    apply slot_lambda_NA in Hs as [-> ->]. split; [done|].
      eapply (Ho (mkUplink p UPLINK_NA)); [left|done..]. }
  cbn in H. apply bind_Done in H as (st1 & H1 & H).
  destruct (IH st newNode p t st1 X) as (X1 & K1 & A1 & Q1); try done.
  { intros E. congruence. }
  { left. split; [done|]. exists into, m0. split_and!; try done. apply Hsub. left. }
  assert (I1 := pe_inv _ _ _ X1).
  destruct (IHl st1 st') as (X' & K' & A' & Q'); try done.
  - intros u Hu. apply Hsub. by right.
  - eauto using reached_mono.
  - eauto using done_mono.
  - intros u mu b v Hu Hmu Hpu.
    destruct (Hpar u) as (mu' & Hmu' & Hsu); [apply Hsub; by right|].
    rewrite Hmu in Hmu'. injection Hmu' as <-.
    assert (Hiu : inner st0 (up_link u)) by eauto using slot_inner.
    rewrite Hpu in Hsu. apply slot_lambda_NA in Hsu as [Et ->].
    eapply (open_step st0 st st1 (up_link u) mu I1 K1 Hmu Hiu).
    + eapply Ho; [by right|done..].
    + intros k Hk0 Hk. destruct (A1 _ _ _ _ _ Hmu Hpu Hk0 Hk) as [E|[[E Hni]|E]].
      * apply Nin. destruct u as [pu tu]. cbn in *. subst.
        rewrite Hp in Hmu. injection Hmu as ->. rewrite Hpu in Hs.
        apply slot_lambda_NA in Hs as [-> _]. done.
      * subst. done.
      * eauto using done_not_unreached.
  - split_and!; [done|eauto using marks_kept_trans| |].
    2:{ intros C Him.
        destruct Q1 as (C1 & S1 & T1 & Tp & _ & D1); [done| |].
        { split.
          - intros mp' c Hp' Hs'. rewrite Hp in Hp'. injection Hp' as <-.
            rewrite Hs in Hs'. by injection Hs' as <-.
          - intros mp' Hp' Hv. rewrite Hp in Hp'. injection Hp' as <-.
            rewrite Hv in Hs. by destruct t. }
        destruct Q' as (C' & S' & T' & Tl & D'); [done|eauto using image_mono|].
        split_and!; eauto using shape_kept_trans, told_kept_trans.
        - intros u [->|Hu]%elem_of_cons; [|auto]. cbn. auto.
        - intros c Hc. destruct (D' c Hc) as [Hc1|?]; [|auto].
          destruct (D1 c Hc1) as [?|?]; [auto|].
          right. eapply all_told_mono; eauto. }
    intros q mq b v k Hq Hpq Hq0 Hk.
    destruct (pi_static _ _ I1 _ _ Hq) as (m1 & Hm1 & _).
    assert (Hiq : inner st0 q).
    { exists mq. split; [done|]. right. unfold node_type. by rewrite Hpq. }
    destruct (cache m1) as [| |k1] eqn:E.
    + assert (C1 : cache_of st1 q = Some NULL)
        by (by rewrite (cache_of_Some _ _ _ Hm1), E).
      destruct (A' _ _ _ _ _ Hq Hpq C1 Hk) as [?|?]; auto.
      right. eauto using unreached_back.
    + rewrite (K' q STOP) in Hk; try done.
      by rewrite (cache_of_Some _ _ _ Hm1), E.
    + assert (C1 : cache_of st1 q = Some (Cached k1))
        by (by rewrite (cache_of_Some _ _ _ Hm1), E).
      destruct (A1 _ _ _ _ k1 Hq Hpq Hq0 C1) as [->|[[-> Hni]|?]]; auto;
        [|done].
      left. rewrite Hp in Hq. injection Hq as ->. rewrite Hpq in Hs.
      by apply slot_lambda_NA in Hs as [_ ->].
Qed.
End ContentLoop.

#[local] Arguments new_Node : simpl never.

Lemma upcopy_from_mono st st' (into : addr) t :
  marks_kept st st' -> upcopy_from st into t -> upcopy_from st' into t.
Proof.
  intros K [[Hi (c & mc & Hc & Hu & Hr)]|[Hi Hr]]; [left|right]; split; try done.
  - exists c, mc. eauto using reached_mono.
  - eauto using reached_mono.
Qed.

Lemma from_slot st (into : addr) t m0 :
  nodes st0 !! into = Some m0 -> inner st0 into -> upcopy_from st into t ->
  exists c, slot_of (payload m0) t = Some c.
Proof.
  intros H0 Hi [[_ (c & mc & Hc & Hu & _)]|[Hni _]]; [|done].
  destruct (sc_uplink _ SC _ _ _ Hc Hu) as (mp & Hmp & Hs). cbn in Hmp, Hs.
  rewrite H0 in Hmp. injection Hmp as <-. eauto.
Qed.

Lemma upcopy_content : forall fuel st (nc into : addr) t st',
  pass_ext st -> (nodes st0 !! into = None -> nodes st !! into = None) ->
  (is_Some (nodes st0 !! into) -> upcopy_pre st into) ->
  upcopy_from st into t ->
  upcopy fuel st nc into t = Done st' ->
  pass_ext st' /\ marks_kept st st' /\ copied_above st st' into /\
  (content_inv st -> content_pre st nc into t -> content_post st st' into t).
Proof.
  induction fuel as [|fuel IHn]; intros st nc into t st' X Hold Hpre Hfrom H;
    [discriminate|].
  cbn [upcopy] in H. apply bind_Done in H as (m & Hm & H).
  pose proof (deref_Done _ _ _ Hm) as Hm'. clear Hm. rename Hm' into Hm.
  destruct (nodes st0 !! into) as [m0|] eqn:H0;
    [|rewrite Hold in Hm; done].
  destruct Hpre as (m0' & H0' & Pre); [done|].
  rewrite H0 in H0'. injection H0' as <-.
  assert (I := pe_inv _ _ _ X).
  destruct (pi_static _ _ I _ _ H0) as (m' & Hm' & Hp & Hu).
  rewrite Hm in Hm'. injection Hm' as <-.
  assert (Nn : into <> next st) by eauto using old_lt_next.
  rewrite Hp in H. destruct (payload m0) as [l r|b v| |q] eqn:E0; [| | |done].
  - (* App *)
    assert (Hi : inner st0 into) by eauto using app_inner.
    assert (Ht : node_type m0 = NODE_APP) by (unfold node_type; by rewrite E0).
    destruct (pi_app _ _ I _ _ _ H0 Ht Hm) as [Hc|(k & mk & l' & r' & Hc & Hk & Hpk & Hk0)];
      rewrite Hc in H.
    + (* first arrival *)
      assert (Hun : unreached st into).
      { left. split; [done|]. by rewrite (cache_of_Some _ _ _ Hm), Hc. }
      set (pl := match t with UPLINK_APPL => app nc r | _ => app l nc end) in *.
      rewrite (new_Node_eq st (mkNode NULL [] pl)) in H.
      destruct (pass_ext_mark st0 x st into t m0 m (mkNode NULL [] pl))
        as (Hset & Xb & Kab & Cbi & Fr & Lo); try done.
      { unfold node_type at 1. cbn. unfold pl. by destruct t. }
      { cbn. unfold pl. intros ? ?. by destruct t. }
      { intros ? ?. congruence. }
      set (stb := store into (mkNode (Cached (next st)) (uplinks m) (payload m))
                    (new_Node st (mkNode NULL [] pl)).2) in *.
      cbn [mbind outcome_bind obind] in H. rewrite Hset in H.
      cbn [mbind outcome_bind obind] in H.
      rewrite (deref_eq stb into _ (lookup_insert_eq _ _ _)) in H.
      cbn [mbind outcome_bind obind uplinks] in H. rewrite Hu in H.
      destruct (upcopy_loop_content fuel IHn (next st) into m0 (uplinks m0) stb st')
        as (X' & K' & A' & Q'); try done.
      * eapply (sc_nodup _ SC); eauto.
      * eapply (pe_reached _ _ _ Xb); eauto.
      * left. eauto.
      * apply (open_frame st0 st); [|by eapply unreached_open].
        intros u mp b v Hu' Hmp Hpp. eapply Fr; [done|].
        intros E. rewrite E in Hmp. congruence.
      * split_and!; [done|eauto using marks_kept_trans| |].
        2:{ intros C [Pin _].
            destruct (from_slot st into t m0) as [c0 Hs0]; try done.
            assert (Him0 := Pin _ _ H0 Hs0).
            assert (Nl : nodes st !! next st = None) by (apply (pi_fresh _ _ I); lia).
            assert (Lb : nodes stb !! next st = Some (mkNode NULL [] pl)).
            { unfold stb, store, new_Node. cbn.
              rewrite lookup_insert_ne by done. apply lookup_insert_eq. }
            assert (PK : forall a ma, nodes st !! a = Some ma ->
                       exists ma', nodes stb !! a = Some ma' /\ payload ma' = payload ma).
            { intros a ma Ha. destruct (decide (a = into)) as [->|Hne].
              - rewrite Hm in Ha. injection Ha as <-. eexists.
                split; [apply lookup_insert_eq|done].
              - exists ma. rewrite Lo; [done..|]. intros ->. congruence. }
            assert (Sb : shape_kept st stb).
            { intros a ma Ha. destruct (PK _ _ Ha) as (ma' & ? & ?). exists ma'. auto. }
            assert (Himb : image stb c0 nc) by eauto using image_mono.
            destruct (content_frame st0 x arg st stb C Kab PK) as (Cb & _ & Tb).
            { intros q mq k Hq Hiq Hqk. destruct (decide (q = into)) as [->|Hne].
              - right. rewrite Cbi in Hqk. injection Hqk as <-.
                eexists. split; [exact Lb|]. cbn.
                rewrite H0 in Hq. injection Hq as <-. rewrite E0 in Hs0 |- *.
                unfold pl. destruct t; cbn in Hs0; try discriminate;
                  injection Hs0 as <-; cbn; auto.
              - left. by rewrite <- (Fr q mq). }
            assert (Ti : told stb into t).
            { split; [done|]. right. exists m0, c0, (next st), (mkNode NULL [] pl), nc.
              split_and!; try done. cbn. rewrite E0 in Hs0. unfold pl.
              destruct t; cbn in Hs0; try discriminate; done. }
            destruct Q' as (C' & S' & T' & Tl & D'); [done|left; eauto|].
            split_and!; eauto using shape_kept_trans, told_kept_trans.
            - intros Hni. done.
            - intros c Hdc. destruct (D' c Hdc) as [Hcb|?]; [|auto].
              destruct (done_mark st0 st stb into c) as [?|[->|Hb]]; auto.
              + intros q (mq & Hq & _) Hne. eauto.
              + right. intros m0' u H0' Hu'. rewrite H0 in H0'. injection H0' as <-.
                auto.
              + destruct Hb as (mi & bi & Hmi & Hpi). congruence. }
        intros q mq b v k Hq Hpq Hq0 Hqk.
        destruct (decide (q = into)) as [->|Hne]; [by left|]. right. right.
        destruct (A' q mq b v k Hq Hpq) as [->|Hun']; try done.
        { by rewrite (Fr q mq). }
        eauto using unreached_back.
    + (* second arrival: patch the copy and return *)
      rewrite (deref_eq _ _ _ Hk) in H. cbn [mbind outcome_bind obind] in H.
      rewrite Hpk in H.
      set (pl := match t with UPLINK_APPL => app nc r' | _ => app l' nc end) in *.
      destruct (pass_ext_patch st0 x st into k mk l' r' pl X Hi)
        as (Hset & X' & K' & C'); try done.
      { by rewrite (cache_of_Some _ _ _ Hm), Hc. }
      { unfold pl. destruct t; eauto. }
      rewrite Hset in H. cbn [mbind outcome_bind obind] in H. injection H as <-.
      split_and!; try done.
      2:{ intros C [Pin _].
          destruct (from_slot st into t m0) as [c0 Hs0]; try done.
          assert (Him0 := Pin _ _ H0 Hs0).
          destruct (content_patch st0 x arg st into k m0 mk l r l' r' t c0 nc)
            as (Cp & Sp & Tp & Ti); try done.
          { by rewrite (cache_of_Some _ _ _ Hm), Hc. }
          split_and!; try done.
          intros c Hdc. left. eapply done_back; [|exact Hdc]. intros q _. apply C'. }
      intros q mq b v k' Hq Hpq Hq0 Hqk. rewrite C' in Hqk. congruence.
  - (* Lambda *)
    destruct Pre as [Hdb Hc]. rewrite (cache_of_Some _ _ _ Hm) in Hc.
    assert (Hi : inner st0 into) by eauto using lambda_inner.
    destruct Hc as [Hc|Hc]; injection Hc as Hc; rewrite Hc in H;
      cbn [mbind outcome_bind obind] in H.
    2:{ injection H as <-. split_and!; eauto using marks_kept_refl.
        { intros q mq b' v' k Hq Hpq Hq0 Hqk. congruence. }
        intros C _. split_and!; eauto using shape_kept_refl, told_kept_refl.
        - intros _. split; [done|]. left. by rewrite (cache_of_Some _ _ _ Hm), Hc.
        - intros Hni. done. }
    assert (Hun : unreached st into).
    { left. split; [done|]. by rewrite (cache_of_Some _ _ _ Hm), Hc. }
    assert (Hbv : binds st0 into v) by (exists m0, b; done).
    assert (Hunv : unreached st v).
    { right. exists into. split; [done|]. by rewrite (cache_of_Some _ _ _ Hm), Hc. }
    rewrite (new_Node_eq st (mkNode NULL [] var)) in H. cbn beta iota zeta in H.
    destruct (pass_ext_var_alloc st0 x st X) as (X1 & K1 & L1 & F1 & N0 & N1 & E1).
    set (st1 := (new_Node st (mkNode NULL [] var)).2) in *.
    set (nl := mkNode NULL [] (lambda nc (next st))) in *.
    rewrite (new_Node_eq st1 nl) in H. cbn beta iota zeta in H.
    assert (Ha : nodes st1 !! into = Some m) by (by rewrite F1).
    destruct (pass_ext_mark st0 x st1 into t m0 m nl)
      as (Hset & X3 & K3 & C3i & Fr3 & Lo3); try done.
    { unfold node_type. cbn. by rewrite E0. }
    { cbn. intros b' v' [= <- <-]. split; [eauto|].
      intros g (mg & bg & Hg & Hpg).
      assert (g <> next st).
      { intros ->. rewrite L1 in Hg. injection Hg as <-. done. }
      rewrite F1 in Hg by done.
      assert (Hlt : (next st < next st)%positive); [|lia].
      apply (bo_bound _ (pe_binders _ _ _ X) g (next st)). by exists mg, bg. }
    { intros b' v' Hpl. rewrite E0 in Hpl. injection Hpl as <- <-.
      eauto using done_mono. }
    { eauto using upcopy_from_mono. }
    set (st3 := store into (mkNode (Cached (next st1)) (uplinks m) (payload m))
                  (new_Node st1 nl).2) in *.
    rewrite Hset in H. cbn [mbind outcome_bind obind] in H.
    assert (Fr : forall a ma, nodes st0 !! a = Some ma -> a <> into ->
                   cache_of st3 a = cache_of st a).
    { intros a ma Ha0 Hne. rewrite (Fr3 a ma) by done. unfold cache_of.
      rewrite F1; [done|]. intros ->. congruence. }
    assert (K03 : marks_kept st st3) by eauto using marks_kept_trans.
    assert (I3 := pe_inv _ _ _ X3).
    assert (Hd3 : done st3 into) by (left; eauto).
    destruct (upcopy fuel st3 (next st) v UPLINK_NA) as [st4| | |] eqn:H4;
      cbn [mbind outcome_bind obind] in H; try discriminate.
    destruct (IHn st3 (next st) v UPLINK_NA st4 X3) as (X4 & K4 & A4 & Q4); try done.
    { intros Hv0. apply (pe_dead _ _ _ X3); eauto. }
    { intros [mv Hv]. assert (Hpv := sc_var _ SC _ _ _ Hbv Hv).
      exists mv. split; [done|]. rewrite Hpv. split.
      - right. exists into, (Cached (next st1)). done.
      - apply (open_frame st0 st); [|by eapply unreached_open].
        intros u mp b' v' Hu' Hmp Hpp. eapply Fr; [done|].
        intros E. destruct (sc_uplink _ SC _ _ _ Hv Hu') as (mp' & Hmp' & Hs).
        rewrite E, H0 in Hmp'. injection Hmp' as <-. rewrite E0 in Hs.
        apply slot_lambda_NA in Hs as [_ ->]. eauto using done_not_unreached. }
    { right. split; [eauto using binds_not_inner|].
      eapply rtc_r; [eapply (pe_reached _ _ _ X3); eauto|].
      right. split; [done|]. eauto. }
    assert (I4 := pe_inv _ _ _ X4).
    destruct (pi_static _ _ I4 _ _ H0) as (m4 & Hm4 & Hp4 & Hu4).
    rewrite (deref_eq _ _ _ Hm4) in H. cbn [mbind outcome_bind obind] in H.
    rewrite Hu4 in H.
    destruct (upcopy_loop_content fuel IHn (next st1) into m0 (uplinks m0) st4 st')
      as (X' & K' & A' & Q'); try done.
    + eapply (sc_nodup _ SC); eauto.
    + eapply reached_mono; [exact K4|]. eapply (pe_reached _ _ _ X3); eauto.
    + eauto using done_mono.
    + destruct (nodes st0 !! v) as [mv|] eqn:Hv.
      * assert (Hpv := sc_var _ SC _ _ _ Hbv Hv).
        eapply (open_keep st0 SC st3 st4 v into m0); eauto.
        -- apply (open_frame st0 st); [|by eapply unreached_open].
           intros u mp b' v' Hu' Hmp Hpp. eapply Fr; eauto.
           intros E. destruct (sc_uplink _ SC _ _ _ H0 Hu') as (mp' & Hmp' & Hs).
           rewrite E, H0 in Hmp'. injection Hmp' as <-. rewrite E0 in Hs.
           apply slot_lambda_NA in Hs as [_ ->]. eauto using done_not_unreached.
        -- intros u Hu' E.
           destruct (sc_uplink _ SC _ _ _ H0 Hu') as (mp' & Hmp' & Hs).
           rewrite E, Hv in Hmp'. injection Hmp' as <-. rewrite Hpv in Hs. done.
        -- left. intros ->. rewrite H0 in Hv. injection Hv as <-. congruence.
      * (* the variable is not allocated: the renaming pass cannot return *)
        exfalso. destruct fuel; [discriminate|]. cbn [upcopy] in H4.
        apply bind_Done in H4 as (mv & Hmv & _). apply deref_Done in Hmv.
        rewrite (pe_dead _ _ _ X3) in Hmv; eauto. done.
    + split_and!; [done|eauto using marks_kept_trans| |].
      2:{ intros C [Pin _].
          destruct (from_slot st into t m0) as [c0 Hs0]; try done.
          assert (Him0 := Pin _ _ H0 Hs0).
          rewrite E0 in Hs0. apply slot_lambda_NA in Hs0 as [-> <-].
          assert (I1 := pe_inv _ _ _ X1).
          assert (Nl1 : nodes st1 !! next st1 = None) by (apply (pi_fresh _ _ I1); lia).
          assert (Nn1 : into <> next st1) by (intros ->; congruence).
          assert (L3 : nodes st3 !! next st1 = Some nl).
          { unfold st3, store, new_Node. cbn.
            rewrite lookup_insert_ne by done. apply lookup_insert_eq. }
          assert (Lv3 : nodes st3 !! next st = Some (mkNode NULL [] var)).
          { rewrite Lo3; [done|done|]. rewrite E1. lia. }
          assert (PK : forall a ma, nodes st !! a = Some ma ->
                     exists ma', nodes st3 !! a = Some ma' /\ payload ma' = payload ma).
          { intros a ma Hma. destruct (decide (a = into)) as [->|Hne].
            - rewrite Hm in Hma. injection Hma as <-. eexists.
              split; [apply lookup_insert_eq|done].
            - exists ma. assert (a <> next st) by (intros ->; congruence).
              rewrite Lo3, F1; [done..|]. intros ->. rewrite F1 in Nl1 by done.
              congruence. }
          assert (S3 : shape_kept st st3).
          { intros a ma Hma. destruct (PK _ _ Hma) as (ma' & ? & ?). exists ma'. auto. }
          assert (Him3 : image st3 b nc) by eauto using image_mono.
          destruct (content_frame st0 x arg st st3 C K03 PK) as (C3 & _ & T3).
          { intros q mq k Hq Hiq Hqk. destruct (decide (q = into)) as [->|Hne].
            - right. rewrite C3i in Hqk. injection Hqk as <-.
              eexists. split; [exact L3|]. cbn.
              rewrite H0 in Hq. injection Hq as <-. rewrite E0. cbn.
              split_and!; eauto.
            - left. by rewrite <- (Fr q mq). }
          assert (Ti : told st3 into UPLINK_NA).
          { split; [done|]. right. exists m0, b, (next st1), nl, nc.
            rewrite E0. split_and!; done. }
          destruct Q4 as (C4 & S4 & T4 & _ & Tv & D4); [done| |].
          { split.
            - intros mv c Hv Hsv. rewrite (sc_var _ SC _ _ _ Hbv Hv) in Hsv. done.
            - intros mv Hv _. right. right. exists into, (next st1), nl, nc. done. }
          destruct Q' as (C' & S' & T' & Tl & D'); [done|left; eauto|].
          split_and!; eauto using shape_kept_trans, told_kept_trans.
          - intros Hni. done.
          - intros c Hdc. destruct (D' c Hdc) as [Hc4|?]; [|auto].
            destruct (D4 c Hc4) as [Hc3|?]; [|right; eapply all_told_mono; eauto].
            destruct (done_mark st0 st st3 into c) as [?|[->|Hb]]; auto.
            + intros q (mq & Hq & _) Hne. eauto.
            + right. intros m0' u H0' Hu'. rewrite H0 in H0'. injection H0' as <-.
              auto.
            + destruct Hb as (mi & bi & Hmi & Hpi).
              rewrite H0 in Hmi. injection Hmi as <-. rewrite E0 in Hpi.
              injection Hpi as _ <-. right. eapply all_told_mono; [exact T'|].
              apply Tv. eauto using binds_not_inner. }
      intros q mq b' v' k Hq Hpq Hq0 Hqk.
      destruct (decide (q = into)) as [->|Hne]; [by left|]. right. right.
      assert (Hq3 : cache_of st3 q = Some NULL) by (by rewrite (Fr q mq)).
      destruct (pi_static _ _ I4 _ _ Hq) as (mq4 & Hmq4 & _).
      assert (Hiq : inner st0 q) by eauto using lambda_inner.
      destruct (cache mq4) as [| |k4] eqn:E4.
      * destruct (A' q mq b' v' k Hq Hpq) as [->|Hun']; try done.
        { by rewrite (cache_of_Some _ _ _ Hmq4), E4. }
        eauto using unreached_back, marks_kept_trans.
      * rewrite (K' q STOP) in Hqk; try done.
        by rewrite (cache_of_Some _ _ _ Hmq4), E4.
      * destruct (A4 q mq b' v' k4 Hq Hpq Hq3) as [->|[[-> _]|Hun']].
        { by rewrite (cache_of_Some _ _ _ Hmq4), E4. }
        { exfalso. eapply binds_not_inner; eauto. }
        { done. }
        { eauto using unreached_back. }
  - (* Var *)
    destruct Pre as [Hd Ho].
    destruct (pass_ext_varcache st0 x st into m0 m (Cached nc) X H0 E0 Hm)
      as (Hset & Xa & Ka & Lo & Fr).
    set (sta := store into (mkNode (Cached nc) (uplinks m) (payload m)) st) in *.
    rewrite Hset in H. cbn [mbind outcome_bind obind] in H.
    assert (Ni : ~ inner st0 into).
    { intros (mi & Hmi & Hti). rewrite H0 in Hmi. injection Hmi as <-.
      unfold node_type in Hti. rewrite E0 in Hti. by destruct Hti. }
    rewrite (deref_eq sta into _ (lookup_insert_eq _ _ _)) in H.
    cbn [mbind outcome_bind obind uplinks] in H. rewrite Hu in H.
    destruct (upcopy_loop_content fuel IHn nc into m0 (uplinks m0) sta st')
      as (X' & K' & A' & Q'); try done.
    + eapply (sc_nodup _ SC); eauto.
    + destruct Hfrom as [[? _]|[_ Hr]]; [done|]. eauto using reached_mono.
    + eauto using done_mono.
    + apply (open_frame st0 st); [|done].
      intros u mp b v Hu' Hmp Hpp. eauto using lambda_inner.
    + split_and!; [done|eauto using marks_kept_trans| |].
      2:{ intros C [_ Pvar].
          assert (Him0 := Pvar _ H0 E0).
          assert (PK : forall a ma, nodes st !! a = Some ma ->
                     exists ma', nodes sta !! a = Some ma' /\ payload ma' = payload ma).
          { intros a ma Hma. destruct (decide (a = into)) as [->|Hne].
            - rewrite Hm in Hma. injection Hma as <-. eexists.
              split; [apply lookup_insert_eq|done].
            - exists ma. by rewrite Lo. }
          destruct (content_frame st0 x arg st sta C Ka PK) as (Ca & Sa & Ta).
          { intros q mq k Hq Hiq Hqk. left. by rewrite <- Fr. }
          destruct Q' as (C' & S' & T' & Tl & D'); [done|eauto using image_mono|].
          split_and!; eauto using shape_kept_trans, told_kept_trans.
          - intros Hin. done.
          - intros _ m0' u H0' Hu'. rewrite H0 in H0'. injection H0' as <-. auto.
          - intros c Hdc. destruct (D' c Hdc) as [Hca|?]; [|auto].
            left. eapply done_back; [|exact Hca]. intros q Hq. by apply Fr. }
      intros q mq b v k Hq Hpq Hq0 Hqk. right.
      destruct (A' q mq b v k Hq Hpq) as [->|Hun']; try done.
      { rewrite Fr; eauto using lambda_inner. }
      { by left. }
      right. eauto using unreached_back.
Qed.
End Content.

Section Partial.
Context {P : Type} (st0 : State P) (x : addr).
Hypothesis SC : scoped st0.
Hypothesis VB : forall g v, binds st0 g v -> (v < next st0)%positive.
Implicit Types (st : State P) (m : Node P).

Lemma upcopy_partial : forall fuel st (nc into : addr) t st',
  pass_ext st0 x st -> (nodes st0 !! into = None -> nodes st !! into = None) ->
  (is_Some (nodes st0 !! into) -> upcopy_pre st0 st into) ->
  upcopy_from st0 x st into t ->
  upcopy fuel st nc into t = Done st' ->
  pass_ext st0 x st' /\ marks_kept st0 st st' /\ copied_above st0 st st' into.
Proof.
  intros fuel st nc into t st' X Hold Hpre Hfrom H.
  destruct (upcopy_content st0 x x SC VB fuel st nc into t st' X Hold Hpre Hfrom H)
    as (? & ? & ? & _).
  done.
Qed.
End Partial.

(** ** [clear]: wiring the copies and resetting the caches *)

Section ClearLemmas.
Context {P : Type}.
Implicit Types (st : State P) (m : Node P).

Lemma cleared_refl st : cleared st st.
Proof.
  split; try done. intros a m Hm. exists m. split_and!; auto.
  exists []. by rewrite app_nil_r.
Qed.

Lemma cleared_trans st1 st2 st3 : cleared st1 st2 -> cleared st2 st3 -> cleared st1 st3.
Proof.
  intros [N1 D1 L1] [N2 D2 L2]. split; [congruence|auto|].
  intros a m Hm. destruct (L1 _ _ Hm) as (m2 & Hm2 & Hp2 & Hc2 & e2 & Hu2).
  destruct (L2 _ _ Hm2) as (m3 & Hm3 & Hp3 & Hc3 & e3 & Hu3).
  exists m3. split_and!; try congruence.
  - destruct Hc3 as [->|]; auto.
  - exists (e2 ++ e3). by rewrite Hu3, Hu2, app_assoc.
Qed.

Lemma cleared_add st st' (c p : addr) t :
  uplinks_add c p t st = Done st' -> cleared st st'.
Proof.
  intros H. apply uplinks_add_Done in H as (m & Hm & ->). split; [done|..].
  - intros a Ha. cbn. rewrite lookup_insert_ne; [done|]. intros ->. congruence.
  - intros a ma Ha. cbn. destruct (decide (a = c)) as [->|].
    + rewrite lookup_insert_eq. rewrite Hm in Ha. injection Ha as <-.
      eexists. split_and!; [done|done|by left|]. cbn. eauto.
    + rewrite lookup_insert_ne by done. exists ma. split_and!; auto.
      exists []. by rewrite app_nil_r.
Qed.

Lemma cleared_reset st st' (a : addr) :
  set_cache a NULL st = Done st' -> cleared st st'.
Proof.
  unfold set_cache. intros H. apply bind_Done in H as (m & Hm & H).
  apply deref_Done in Hm. injection H as <-. split; [done|..].
  - intros b Hb. cbn. rewrite lookup_insert_ne; [done|]. intros ->. congruence.
  - intros b mb Hb. cbn. destruct (decide (b = a)) as [->|].
    + rewrite lookup_insert_eq. rewrite Hm in Hb. injection Hb as <-.
      eexists. split_and!; [done|done|by right|]. cbn. exists []. by rewrite app_nil_r.
    + rewrite lookup_insert_ne by done. exists mb. split_and!; auto.
      exists []. by rewrite app_nil_r.
Qed.

Lemma cleared_cache st st' a c :
  cleared st st' -> cache_of st a = Some c ->
  cache_of st' a = Some c \/ cache_of st' a = Some NULL.
Proof.
  intros [_ _ L] Hc. unfold cache_of in *.
  destruct (nodes st !! a) as [m|] eqn:Hm; [|done]. injection Hc as <-.
  destruct (L _ _ Hm) as (m' & Hm' & _ & [E|E] & _); rewrite Hm'; cbn;
    rewrite E; auto.
Qed.

Lemma cleared_null st st' a :
  cleared st st' -> cache_of st a = Some NULL -> cache_of st' a = Some NULL.
Proof. intros C H. by destruct (cleared_cache _ _ _ _ C H). Qed.

Lemma cleared_cache_back st st' a k :
  cleared st st' -> cache_of st' a = Some (Cached k) ->
  cache_of st a = Some (Cached k).
Proof.
  intros [_ D L] Hc. unfold cache_of in *.
  destruct (nodes st !! a) as [m|] eqn:Hm.
  - destruct (L _ _ Hm) as (m' & Hm' & _ & [E|E] & _); rewrite Hm' in Hc;
      cbn in *; congruence.
  - by rewrite (D _ Hm) in Hc.
Qed.

Lemma parents_reset_mono (st0 st st' : State P) q :
  cleared st st' -> parents_reset st0 st q -> parents_reset st0 st' q.
Proof. intros C H m0 u H0 Hu. eapply cleared_null; eauto. Qed.

Lemma clear_base_mono (st0 st st' : State P) :
  cleared st st' -> clear_base st0 st -> clear_base st0 st'.
Proof.
  intros C [I Cp O N]. split.
  - intros a a' k Ha Ha' Hc Hc'. eapply I; eauto using cleared_cache_back.
  - intros a k Ha Hc. eapply Cp; eauto using cleared_cache_back.
  - intros a m0 H0. destruct (O _ _ H0) as (m & Hm & Hp & e & Hu).
    destruct (cl_live _ _ C _ _ Hm) as (m' & Hm' & Hp' & _ & e' & Hu').
    exists m'. split_and!; try congruence. exists (e ++ e').
    by rewrite Hu', Hu, app_assoc.
  - intros k mk Hk Hk0. destruct (nodes st !! k) as [m|] eqn:Hm.
    + destruct (cl_live _ _ C _ _ Hm) as (m' & Hm' & _ & [E|E] & _);
        rewrite Hm' in Hk; injection Hk as <-; [|done].
      rewrite E. eauto.
    + by rewrite (cl_dead _ _ C _ Hm) in Hk.
Qed.
End ClearLemmas.

Section EdgesMore.
Context {P : Type}.
Implicit Types (st : State P) (m : Node P).

(** Exemptions matter only where a slot exists. *)
Lemma edges_ok_weaken_slot (E E' : addr -> UplinkType -> Prop) st :
  (forall p mp t c, nodes st !! p = Some mp -> slot_of (payload mp) t = Some c ->
     (E p t <-> E' p t)) ->
  edges_ok E st -> edges_ok E' st.
Proof.
  intros HE [S N C]. split; [|done|].
  - intros c m u Hc Hu. destruct (S c m u Hc Hu) as (mp & Hmp & Hs & Hn).
    exists mp. split_and!; try done. by rewrite <- (HE _ _ _ _ Hmp Hs).
  - intros p mp t c Hp Hs Hn. apply (C p mp t c); try done.
    by rewrite (HE _ _ _ _ Hp Hs).
Qed.

(** The invariant does not look at caches. *)
Lemma edges_set_cache E st st' (a : addr) c :
  edges_ok E st -> set_cache a c st = Done st' -> edges_ok E st'.
Proof.
  intros [S N C] H. unfold set_cache in H. apply bind_Done in H as (ma & Ha & H).
  apply deref_Done in Ha. injection H as <-.
  assert (Fw : forall x mx, nodes st !! x = Some mx ->
            exists mx', nodes (store a (mkNode c (uplinks ma) (payload ma)) st) !! x
                        = Some mx' /\
              payload mx' = payload mx /\ uplinks mx' = uplinks mx).
  { intros x mx Hx. cbn. destruct (decide (x = a)) as [->|].
    - rewrite lookup_insert_eq. rewrite Ha in Hx. injection Hx as <-. eauto.
    - rewrite lookup_insert_ne by done. eauto. }
  assert (Bw : forall x mx',
            nodes (store a (mkNode c (uplinks ma) (payload ma)) st) !! x = Some mx' ->
            exists mx, nodes st !! x = Some mx /\
              payload mx' = payload mx /\ uplinks mx' = uplinks mx).
  { intros x mx' Hx. cbn in Hx. destruct (decide (x = a)) as [->|].
    - rewrite lookup_insert_eq in Hx. injection Hx as <-. eauto.
    - rewrite lookup_insert_ne in Hx by done. eauto. }
  split.
  - intros x mx' u Hx Hu. destruct (Bw _ _ Hx) as (mx & Hmx & _ & Hux).
    rewrite Hux in Hu. destruct (S _ _ _ Hmx Hu) as (mp & Hmp & Hs & Hn).
    destruct (Fw _ _ Hmp) as (mp' & Hmp' & Hpp & _). exists mp'.
    rewrite Hpp. done.
  - intros x mx' Hx. destruct (Bw _ _ Hx) as (mx & Hmx & _ & Hux).
    rewrite Hux. eauto.
  - intros p mp' t x Hp Hs Hn. destruct (Bw _ _ Hp) as (mp & Hmp & Hpp & _).
    rewrite Hpp in Hs. destruct (C _ _ _ _ Hmp Hs Hn) as (mx & Hmx & Hin).
    destruct (Fw _ _ Hmx) as (mx' & Hmx' & _ & Hux). exists mx'.
    rewrite Hux. done.
Qed.

(** Installing the record of an exempt edge. *)
Lemma edges_add_exempt (E : addr -> UplinkType -> Prop) st st' (into nc : addr) T mi :
  edges_ok E st -> E into T ->
  nodes st !! into = Some mi -> slot_of (payload mi) T = Some nc ->
  uplinks_add nc into T st = Done st' ->
  edges_ok (fun p t => E p t /\ ~ (p = into /\ t = T)) st'.
Proof.
  intros [S N C] HE Hi Hs H. apply uplinks_add_Done in H as (m & Hm & ->).
  assert (Live : forall x mx, nodes st !! x = Some mx ->
     exists mx', nodes (store nc (mkNode (cache m)
                   (uplinks m ++ [mkUplink into T]) (payload m)) st) !! x = Some mx' /\
       payload mx' = payload mx /\ forall u, u ∈ uplinks mx -> u ∈ uplinks mx').
  { intros x mx Hx. cbn. destruct (decide (x = nc)) as [->|].
    - rewrite lookup_insert_eq. rewrite Hm in Hx. injection Hx as <-.
      eexists. split_and!; try done. cbn. intros u Hu. apply elem_of_app. by left.
    - rewrite lookup_insert_ne by done. eauto. }
  split.
  - intros c mc u Hc Hu. cbn in Hc. destruct (decide (c = nc)) as [->|Hne].
    + rewrite lookup_insert_eq in Hc. injection Hc as <-. cbn in Hu.
      apply elem_of_app in Hu as [Hu|Hu].
      * destruct (S nc m u Hm Hu) as (mp & Hmp & Hsl & Hn).
        destruct (Live _ _ Hmp) as (mp' & ? & Hpp & _). exists mp'.
        rewrite Hpp. split_and!; try done. by intros [? _].
      * apply list_elem_of_singleton in Hu as ->. cbn.
        destruct (Live _ _ Hi) as (mi' & ? & Hpp & _). exists mi'.
        rewrite Hpp. split_and!; try done. intros [_ Hn]. by apply Hn.
    + rewrite lookup_insert_ne in Hc by done.
      destruct (S c mc u Hc Hu) as (mp & Hmp & Hsl & Hn).
      destruct (Live _ _ Hmp) as (mp' & ? & Hpp & _). exists mp'.
      rewrite Hpp. split_and!; try done. by intros [? _].
  - intros c mc Hc. cbn in Hc. destruct (decide (c = nc)) as [->|Hne].
    + rewrite lookup_insert_eq in Hc. injection Hc as <-. cbn.
      apply NoDup_app. split_and!; eauto using NoDup_singleton.
      intros u Hu ->%list_elem_of_singleton.
      destruct (S nc m _ Hm Hu) as (_ & _ & _ & HnE). by apply HnE.
    + rewrite lookup_insert_ne in Hc by done. eauto.
  - intros p mp t c Hp Hsl Hn.
    assert (exists mp0, nodes st !! p = Some mp0 /\ payload mp = payload mp0)
      as (mp0 & Hp0 & Hpp).
    { cbn in Hp. destruct (decide (p = nc)) as [->|].
      - rewrite lookup_insert_eq in Hp. injection Hp as <-. eauto.
      - rewrite lookup_insert_ne in Hp by done. eauto. }
    rewrite Hpp in Hsl.
    destruct (decide (p = into /\ t = T)) as [[-> ->]|Hne].
    + rewrite Hi in Hp0. injection Hp0 as <-. rewrite Hs in Hsl. injection Hsl as <-.
      cbn. rewrite lookup_insert_eq. eexists. split; [done|]. cbn.
      apply elem_of_app. right. left.
    + assert (HnE : ~ E p t) by (intros HE'; apply Hn; done).
      destruct (C p mp0 t c Hp0 Hsl HnE) as (mc & Hmc & Hin).
      destruct (Live _ _ Hmc) as (mc' & ? & _ & Hsub). eauto.
Qed.
End EdgesMore.

Section Wire.
Context {P : Type} (st0 : State P).
Implicit Types (st : State P) (m : Node P).

#[local] Abbreviation unwired := (unwired st0).
#[local] Abbreviation clear_inv := (clear_inv st0).
#[local] Abbreviation clear_base := (clear_base st0).

Lemma uplinks_add_cache st st' (c p : addr) t a :
  uplinks_add c p t st = Done st' -> cache_of st' a = cache_of st a.
Proof.
  intros H. apply uplinks_add_Done in H as (m & Hm & ->).
  rewrite cache_of_store. destruct (decide (a = c)) as [->|]; [|done].
  by rewrite (cache_of_Some _ _ _ Hm).
Qed.

Lemma set_cache_cache st st' (p : addr) c a :
  set_cache p c st = Done st' ->
  cache_of st' a = if decide (a = p) then Some c else cache_of st a.
Proof.
  unfold set_cache. intros H. apply bind_Done in H as (m & Hm & H).
  injection H as <-. by rewrite cache_of_store.
Qed.

Lemma unwired_after_reset st st' (p k : addr) :
  clear_base st -> inner st0 p -> cache_of st p = Some (Cached k) ->
  (forall a, a <> p -> cache_of st' a = cache_of st a) ->
  cache_of st' p = Some NULL ->
  forall p' t, unwired st' p' t <-> unwired st p' t /\ p' <> k.
Proof.
  intros B Hp Hc Fr Hn p' t. split.
  - intros (a & Ha & Hca). assert (a <> p) by (intros ->; congruence).
    rewrite Fr in Hca by done. split; [by exists a|].
    intros ->. by destruct (cb_inj _ _ B a p k).
  - intros [(a & Ha & Hca) Hne]. exists a. split; [done|].
    rewrite Fr; [done|]. intros ->. congruence.
Qed.

Lemma wire_app st (p k l r : addr) mk st_a st_b st_c :
  clear_inv st -> inner st0 p -> cache_of st p = Some (Cached k) ->
  nodes st !! k = Some mk -> payload mk = app l r ->
  uplinks_add l k UPLINK_APPL st = Done st_a ->
  uplinks_add r k UPLINK_APPR st_a = Done st_b ->
  set_cache p NULL st_b = Done st_c ->
  clear_inv st_c /\ cleared st st_c /\ cache_of st_c p = Some NULL /\
  (forall a, a <> p -> cache_of st_c a = cache_of st a).
Proof.
  intros [Ed B] Hp Hc Hk Hpk Ha Hb Hs.
  assert (Ca := cleared_add _ _ _ _ _ Ha). assert (Cb := cleared_add _ _ _ _ _ Hb).
  assert (Cc := cleared_reset _ _ _ Hs).
  assert (C : cleared st st_c) by eauto using cleared_trans.
  assert (Hn : cache_of st_c p = Some NULL).
  { rewrite (set_cache_cache _ _ _ _ _ Hs). by rewrite decide_True. }
  assert (Fr : forall a, a <> p -> cache_of st_c a = cache_of st a).
  { intros a Hne. rewrite (set_cache_cache _ _ _ _ _ Hs), decide_False by done.
    rewrite (uplinks_add_cache _ _ _ _ _ _ Hb). apply (uplinks_add_cache _ _ _ _ _ _ Ha). }
  split_and!; try done. split; [|eauto using clear_base_mono].
  assert (HE : unwired st k UPLINK_APPL) by (exists p; done).
  assert (Hs1 : slot_of (payload mk) UPLINK_APPL = Some l) by (by rewrite Hpk).
  assert (E1 := edges_add_exempt _ _ _ _ _ _ _ Ed HE Hk Hs1 Ha).
  destruct (cl_live _ _ Ca _ _ Hk) as (mk' & Hk' & Hpk' & _).
  assert (Hs2 : slot_of (payload mk') UPLINK_APPR = Some r) by (by rewrite Hpk', Hpk).
  assert (HE2 : unwired st k UPLINK_APPR /\ ~ (k = k /\ UPLINK_APPR = UPLINK_APPL)).
  { split; [exact HE|by intros [_ ?]]. }
  assert (E2 := edges_add_exempt _ _ _ _ _ _ _ E1 HE2 Hk' Hs2 Hb).
  assert (E3 := edges_set_cache _ _ _ _ _ E2 Hs).
  eapply edges_ok_weaken_slot; [|exact E3].
  intros p' mp' t c Hp' Hsl. cbn beta.
  rewrite (unwired_after_reset st st_c p k B Hp Hc Fr Hn). split.
  - intros [[Hu N1] N2]. split; [done|]. intros ->.
    destruct (cl_live _ _ C _ _ Hk) as (mk3 & Hk3 & Hpk3 & _).
    rewrite Hp' in Hk3. injection Hk3 as <-. rewrite Hpk3, Hpk in Hsl.
    destruct t; cbn in Hsl; try done; [apply N1|apply N2]; done.
  - intros [Hu Hne]. split_and!; try done; by intros [? _].
Qed.

Lemma wire_lambda st (p k b w : addr) mk st_a st_c :
  clear_inv st -> inner st0 p -> cache_of st p = Some (Cached k) ->
  nodes st !! k = Some mk -> payload mk = lambda b w ->
  uplinks_add b k UPLINK_NA st = Done st_a ->
  set_cache p NULL st_a = Done st_c ->
  clear_inv st_c /\ cleared st st_c /\ cache_of st_c p = Some NULL /\
  (forall a, a <> p -> cache_of st_c a = cache_of st a).
Proof.
  intros [Ed B] Hp Hc Hk Hpk Ha Hs.
  assert (Ca := cleared_add _ _ _ _ _ Ha).
  assert (Cc := cleared_reset _ _ _ Hs).
  assert (C : cleared st st_c) by eauto using cleared_trans.
  assert (Hn : cache_of st_c p = Some NULL).
  { rewrite (set_cache_cache _ _ _ _ _ Hs). by rewrite decide_True. }
  assert (Fr : forall a, a <> p -> cache_of st_c a = cache_of st a).
  { intros a Hne. rewrite (set_cache_cache _ _ _ _ _ Hs), decide_False by done.
    apply (uplinks_add_cache _ _ _ _ _ _ Ha). }
  split_and!; try done. split; [|eauto using clear_base_mono].
  assert (HE : unwired st k UPLINK_NA) by (exists p; done).
  assert (Hs1 : slot_of (payload mk) UPLINK_NA = Some b) by (by rewrite Hpk).
  assert (E1 := edges_add_exempt _ _ _ _ _ _ _ Ed HE Hk Hs1 Ha).
  assert (E3 := edges_set_cache _ _ _ _ _ E1 Hs).
  eapply edges_ok_weaken_slot; [|exact E3].
  intros p' mp' t c Hp' Hsl. cbn beta.
  rewrite (unwired_after_reset st st_c p k B Hp Hc Fr Hn). split.
  - intros [Hu N1]. split; [done|]. intros ->.
    destruct (cl_live _ _ C _ _ Hk) as (mk3 & Hk3 & Hpk3 & _).
    rewrite Hp' in Hk3. injection Hk3 as <-. rewrite Hpk3, Hpk in Hsl.
    destruct t; cbn in Hsl; try done. by apply N1.
  - intros [Hu Hne]. split_and!; try done; by intros [? _].
Qed.
End Wire.

Section ClearSpec.
Context {P : Type} (st0 : State P).
Implicit Types (st : State P) (m : Node P).

#[local] Abbreviation clear_inv := (clear_inv st0).
#[local] Abbreviation clear_base := (clear_base st0).
#[local] Abbreviation parents_reset := (parents_reset st0).

#[local] Abbreviation walked := (walked st0).
#[local] Abbreviation reset_closed := (reset_closed st0).

Lemma walked_mono st st' a : cleared st st' -> walked st a -> walked st' a.
Proof. intros C [H1 H2]. split; eauto using parents_reset_mono. Qed.

Lemma reset_closed_refl st : reset_closed st st.
Proof. intros a _ H1 H2. done. Qed.

Lemma reset_closed_trans st1 st2 st3 :
  cleared st2 st3 -> reset_closed st1 st2 -> reset_closed st2 st3 ->
  reset_closed st1 st3.
Proof.
  intros C B12 B23 a Ha H1 H3.
  destruct (cache_of st2 a) as [[| |k]|] eqn:E2.
  - eapply walked_mono; eauto.
  - apply B23; try done. congruence.
  - apply B23; try done. congruence.
  - apply B23; try done. congruence.
Qed.

Lemma tail_reset_parents st q :
  clear_base st -> tail_reset st q 0 -> parents_reset st q.
Proof.
  intros B T m0 u H0 Hu. destruct (cb_old _ _ B _ _ H0) as (m & Hm & _ & e & He).
  apply list_elem_of_lookup in Hu as [j Hj].
  apply (T m j u Hm); [lia|]. rewrite He. by apply lookup_app_l_Some.
Qed.

Lemma tail_reset_step st st' (node : addr) n i cur :
  cleared st st' -> nodes st !! node = Some n -> uplinks n !! i = Some cur ->
  cache_of st' (up_link cur) = Some NULL ->
  tail_reset st' node (S i) -> tail_reset st' node i.
Proof.
  intros C Hn Hi Hc T m j u Hm Hj Hu.
  destruct (decide (j = i)) as [->|]; [|apply (T m j u); [done|lia|done]].
  destruct (cl_live _ _ C _ _ Hn) as (m' & Hm' & _ & _ & e & He).
  rewrite Hm in Hm'. injection Hm' as <-. rewrite He in Hu.
  rewrite (lookup_app_l_Some _ _ _ _ Hi) in Hu. by injection Hu as <-.
Qed.

(** A parent that holds a cache is an App or Lambda of the old graph. *)
Lemma cached_inner st (p : addr) mp :
  clear_base st -> nodes st !! p = Some mp -> cache mp <> NULL ->
  (node_type mp = NODE_APP \/ node_type mp = NODE_LAMBDA) ->
  inner st0 p /\ exists mp0, nodes st0 !! p = Some mp0 /\ payload mp0 = payload mp.
Proof.
  intros B Hp Hc Ht. destruct (nodes st0 !! p) as [mp0|] eqn:H0.
  - destruct (cb_old _ _ B _ _ H0) as (m & Hm & Hpm & _).
    rewrite Hp in Hm. injection Hm as <-. split; [|eauto].
    exists mp0. split; [done|]. unfold node_type in *. by rewrite <- Hpm.
  - by destruct Hc; eapply (cb_new _ _ B).
Qed.

Lemma clear_from_spec : forall fuel st (node : addr) i st',
  clear_inv st -> clear_from fuel st node i = Done st' ->
  clear_inv st' /\ cleared st st' /\ tail_reset st' node i /\
  reset_closed st st'.
Proof.
  induction fuel as [|fuel IH]; intros st node i st' CI H; [discriminate|].
  cbn [clear_from] in H. apply bind_Done in H as (n & Hn & H).
  apply deref_Done in Hn.
  destruct (uplinks n !! i) as [cur|] eqn:Hi.
  2:{ injection H as <-. split_and!; auto using cleared_refl, reset_closed_refl.
      intros m j u Hm Hj Hu. rewrite Hn in Hm. injection Hm as <-.
      exfalso. assert (Hl := lookup_lt_Some _ _ _ Hu).
      apply lookup_ge_None_1 in Hi. lia. }
  apply bind_Done in H as (mp & Hp & H). apply deref_Done in Hp.
  destruct (cache mp) as [| |k] eqn:Hc.
  - (* the parent holds no copy *)
    destruct (IH _ _ _ _ CI H) as (CI' & C' & T' & B').
    split_and!; try done.
    eapply tail_reset_step; eauto. eapply cleared_null; eauto.
    by rewrite (cache_of_Some _ _ _ Hp), Hc.
  - (* [STOP] is not a node *)
    apply bind_Done in H as (st1 & H1 & _).
    destruct (payload mp); discriminate.
  - apply bind_Done in H as (st1 & H1 & H).
    apply bind_Done in H as (st2 & H2 & H3).
    assert (Hcp : cache_of st (up_link cur) = Some (Cached k)).
    { by rewrite (cache_of_Some _ _ _ Hp), Hc. }
    assert (B := ci_base _ _ CI).
    destruct (payload mp) as [l r|b v| |q] eqn:Epl; try discriminate.
    + (* App *)
      destruct (cached_inner st (up_link cur) mp B Hp) as (Hin & mp0 & Hp0 & Hpp0).
      { by rewrite Hc. } { left. unfold node_type. by rewrite Epl. }
      apply bind_Done in H1 as (mk & Hk & H1). apply deref_Done in Hk.
      destruct (payload mk) as [l' r'| | |] eqn:Ek; try discriminate.
      apply bind_Done in H1 as (st_a & Ha & H1).
      apply bind_Done in H1 as (st_b & Hb & Hs).
      destruct (wire_app st0 st (up_link cur) k l' r' mk st_a st_b st1
                  CI Hin Hcp Hk Ek Ha Hb Hs) as (CI1 & C1 & N1 & F1).
      destruct (IH _ _ _ _ CI1 H2) as (CI2 & C2 & T2 & B2).
      destruct (IH _ _ _ _ CI2 H3) as (CI' & C' & T' & B').
      assert (C02 : cleared st st2) by eauto using cleared_trans.
      split_and!; eauto using cleared_trans.
      * apply (tail_reset_step st st' node n i cur); eauto using cleared_trans.
        apply (cleared_null st1 st'); eauto using cleared_trans.
      * eapply (reset_closed_trans st st2 st'); try done.
        intros a Ha0 Hn0 Hn2. destruct (decide (a = up_link cur)) as [->|Hne].
        -- split; [eapply tail_reset_parents; eauto using ci_base|].
           intros w (mw & bw & Hmw & Hpw). rewrite Hp0 in Hmw. injection Hmw as <-.
           congruence.
        -- apply B2; try done. by rewrite F1.
    + (* Lambda *)
      destruct (cached_inner st (up_link cur) mp B Hp) as (Hin & mp0 & Hp0 & Hpp0).
      { by rewrite Hc. } { right. unfold node_type. by rewrite Epl. }
      apply bind_Done in H1 as (mk & Hk & H1). apply deref_Done in Hk.
      destruct (payload mk) as [|b' w'| |] eqn:Ek; try discriminate.
      apply bind_Done in H1 as (st_a & Ha & H1).
      apply bind_Done in H1 as (st_c & Hs & Hv).
      destruct (wire_lambda st0 st (up_link cur) k b' w' mk st_a st_c
                  CI Hin Hcp Hk Ek Ha Hs) as (CIc & Cc & Nc & Fc).
      destruct (IH _ _ _ _ CIc Hv) as (CI1 & C1 & T1 & B1).
      destruct (IH _ _ _ _ CI1 H2) as (CI2 & C2 & T2 & B2).
      destruct (IH _ _ _ _ CI2 H3) as (CI' & C' & T' & B').
      assert (C01 : cleared st st1) by eauto using cleared_trans.
      assert (C02 : cleared st st2) by eauto using cleared_trans.
      split_and!; eauto using cleared_trans.
      * apply (tail_reset_step st st' node n i cur); eauto using cleared_trans.
        apply (cleared_null st_c st'); eauto using cleared_trans.
      * eapply (reset_closed_trans st st2 st'); try done.
        intros a Ha0 Hn0 Hn2. destruct (decide (a = up_link cur)) as [->|Hne].
        -- split; [eapply tail_reset_parents; eauto using ci_base|].
           intros w (mw & bw & Hmw & Hpw). rewrite Hp0 in Hmw. injection Hmw as <-.
           rewrite Hpp0, Epl in Hpw. injection Hpw as <- <-.
           eapply parents_reset_mono; [exact C2|].
           eapply tail_reset_parents; eauto using ci_base.
        -- eapply (reset_closed_trans st_c st1 st2 C2 B1 B2); try done.
           by rewrite Fc.
Qed.
End ClearSpec.

Section AfterPass.
Context {P : Type} (st0 : State P) (x fn : addr).
Implicit Types (st : State P) (m : Node P).
Hypothesis SC : scoped st0.
Hypothesis E0 : edges_ok no_edge st0.
Hypothesis STOP0 : forall a, inner st0 a -> cache_of st0 a = Some STOP -> a = fn.
Hypothesis Hx : ~ inner st0 x.

Lemma clear_inv_start st2 st3 :
  pass_ext st0 x st2 -> cache_of st2 fn = Some STOP ->
  set_cache fn NULL st2 = Done st3 ->
  clear_inv st0 st3 /\
  (forall a, a <> fn -> cache_of st3 a = cache_of st2 a) /\
  cache_of st3 fn = Some NULL /\
  (forall a, inner st0 a -> cache_of st3 a = Some NULL \/
     exists k, cache_of st3 a = Some (Cached k) /\ cache_of st2 a = Some (Cached k)).
Proof.
  intros X Hfn Hs. assert (I := pe_inv _ _ _ X).
  assert (Fr : forall a, a <> fn -> cache_of st3 a = cache_of st2 a).
  { intros a Hne. by rewrite (set_cache_cache _ _ _ _ _ Hs), decide_False. }
  assert (Nf : cache_of st3 fn = Some NULL).
  { by rewrite (set_cache_cache _ _ _ _ _ Hs), decide_True. }
  assert (Bk : forall a k, cache_of st3 a = Some (Cached k) ->
            cache_of st2 a = Some (Cached k)).
  { intros a k Hc. destruct (decide (a = fn)) as [->|]; [congruence|].
    by rewrite <- Fr. }
  assert (C := cleared_reset _ _ _ Hs).
  assert (Sh : forall a, match nodes st2 !! a, nodes st3 !! a with
                         | Some m, Some m' => payload m' = payload m /\
                                              uplinks m' = uplinks m
                         | None, None => True
                         | _, _ => False
                         end).
  { intros a. unfold set_cache in Hs. apply bind_Done in Hs as (mf & Hmf & Hs).
    apply deref_Done in Hmf. injection Hs as <-. cbn.
    destruct (decide (a = fn)) as [->|].
    - rewrite lookup_insert_eq, Hmf. done.
    - rewrite lookup_insert_ne by done. by destruct (nodes st2 !! a). }
  assert (B : clear_base st0 st3).
  { split.
    - intros a a' k Ha Ha' Hc Hc'. eapply (pe_inj _ _ _ X); eauto.
    - intros a k Ha Hc. eapply (pe_copy _ _ _ X); eauto.
    - intros a m0 H0. destruct (pi_static _ _ I _ _ H0) as (m & Hm & Hp & Hu).
      specialize (Sh a). rewrite Hm in Sh.
      destruct (nodes st3 !! a) as [m'|]; [|done]. destruct Sh as [Hp' Hu'].
      exists m'. split_and!; try congruence. exists []. rewrite app_nil_r. congruence.
    - intros k mk Hk Hk0. specialize (Sh k). rewrite Hk in Sh.
      destruct (nodes st2 !! k) as [m2|] eqn:H2; [|done].
      destruct (pe_new _ _ _ X _ _ H2 Hk0) as (Hc2 & _).
      destruct (cl_live _ _ C _ _ H2) as (m' & Hm' & _ & [E|E] & _);
        rewrite Hk in Hm'; injection Hm' as <-; congruence. }
  split_and!; try done.
  - split; [|done]. split.
    + intros c m u Hc Hu. specialize (Sh c). rewrite Hc in Sh.
      destruct (nodes st2 !! c) as [m2|] eqn:H2; [|done]. destruct Sh as [_ Hu2].
      rewrite Hu2 in Hu.
      destruct (nodes st0 !! c) as [m0|] eqn:H0.
      * destruct (pi_static _ _ I _ _ H0) as (m2' & Hm2' & _ & Hu0).
        rewrite H2 in Hm2'. injection Hm2' as <-. rewrite Hu0 in Hu.
        destruct (eo_sound _ _ E0 _ _ _ H0 Hu) as (mp0 & Hp0 & Hsl & _).
        destruct (cb_old _ _ B _ _ Hp0) as (mp & Hmp & Hpp & _).
        exists mp. rewrite Hpp. split_and!; try done.
        intros (a & Ha & Hca). apply Bk in Hca.
        destruct (pe_copy _ _ _ X _ _ Ha Hca) as [Hd _]. congruence.
      * destruct (pe_new _ _ _ X _ _ H2 H0) as (_ & Hu0 & _).
        rewrite Hu0 in Hu. by apply elem_of_nil in Hu.
    + intros c m Hc. specialize (Sh c). rewrite Hc in Sh.
      destruct (nodes st2 !! c) as [m2|] eqn:H2; [|done]. destruct Sh as [_ Hu2].
      rewrite Hu2. destruct (nodes st0 !! c) as [m0|] eqn:H0.
      * destruct (pi_static _ _ I _ _ H0) as (m2' & Hm2' & _ & Hu0).
        rewrite H2 in Hm2'. injection Hm2' as <-. rewrite Hu0.
        eapply (eo_nodup _ _ E0); eauto.
      * destruct (pe_new _ _ _ X _ _ H2 H0) as (_ & -> & _). constructor.
    + intros p mp t c Hp Hsl Hn. destruct (nodes st0 !! p) as [mp0|] eqn:Hp0.
      * destruct (cb_old _ _ B _ _ Hp0) as (mp' & Hmp' & Hpp & _).
        rewrite Hp in Hmp'. injection Hmp' as <-. rewrite Hpp in Hsl.
        destruct (eo_complete _ _ E0 _ _ _ _ Hp0 Hsl) as (m0 & Hm0 & Hin); [by intros []|].
        destruct (cb_old _ _ B _ _ Hm0) as (m & Hm & _ & e & He).
        exists m. split; [done|]. rewrite He. apply elem_of_app. by left.
      * exfalso. specialize (Sh p). rewrite Hp in Sh.
        destruct (nodes st2 !! p) as [m2|] eqn:H2; [|done]. destruct Sh as [Hpp _].
        destruct (pe_new _ _ _ X _ _ H2 Hp0) as (_ & _ & [Hv|(a & Ha & Hca)]).
        -- rewrite Hpp, Hv in Hsl. by destruct t.
        -- apply Hn. exists a. split; [done|]. rewrite Fr; [done|].
           intros ->. congruence.
  - intros a Ha. destruct (decide (a = fn)) as [->|Hne]; [by left|].
    destruct (inner_live st0 st2 a I Ha) as (m & Hm).
    rewrite Fr by done. rewrite (cache_of_Some _ _ _ Hm).
    destruct (cache m) as [| |k] eqn:Ec; [by left| |right; eauto].
    exfalso. apply Hne. apply STOP0; [done|]. apply (pe_stop _ _ _ X); [done|].
    by rewrite (cache_of_Some _ _ _ Hm), Ec.
Qed.

(** After [clear], no App or Lambda of the old graph holds a copy, and every
    copy is wired. *)
Lemma clear_after_pass fuel st2 st3 st4 :
  pass_ext st0 x st2 -> cache_of st2 fn = Some STOP ->
  set_cache fn NULL st2 = Done st3 ->
  clear fuel st3 x = Done st4 ->
  edges_ok no_edge st4 /\ cleared st3 st4 /\ clear_base st0 st4 /\
  (forall a, inner st0 a -> cache_of st4 a = Some NULL).
Proof.
  intros X Hfn Hs Hcl.
  destruct (clear_inv_start st2 st3 X Hfn Hs) as (CI3 & Fr & Nf & Cs).
  destruct (clear_from_spec st0 fuel st3 x 0 st4 CI3 Hcl) as (CI4 & C & T & B).
  assert (B4 := ci_base _ _ CI4).
  assert (Good : forall q, reached st0 x st2 q ->
            parents_reset st0 st4 q /\
            (inner st0 q -> cache_of st4 q = Some NULL)).
  { unfold reached.
    apply (rtc_ind_r (fun q => parents_reset st0 st4 q /\
                        (inner st0 q -> cache_of st4 q = Some NULL))).
    - split; [by apply tail_reset_parents|done].
    - intros c q Hr Hw [PRc INc].
      destruct Hw as [(t & m0 & Hc0 & Hu & Hiq & k & Hk)|[Hb [k Hk]]].
      + assert (Hq4 : cache_of st4 q = Some NULL) by (eapply (PRc m0 _ Hc0 Hu)).
        split; [|done].
        assert (q <> fn) by (intros ->; congruence).
        destruct (B q) as [W1 _]; try done.
        rewrite Fr by done. congruence.
      + assert (Hic : inner st0 c) by eauto using binds_inner.
        split; [|intros Hiq; exfalso; eapply binds_not_inner; eauto].
        assert (c <> fn) by (intros ->; congruence).
        destruct (B c) as [_ W2]; auto.
        rewrite Fr by done. congruence. }
  assert (All : forall a, inner st0 a -> cache_of st4 a = Some NULL).
  { intros a Ha. destruct (Cs a Ha) as [Hn|(k & Hk3 & Hk2)].
    - eapply cleared_null; eauto.
    - apply Good; [|done]. eapply (pe_reached _ _ _ X); eauto. }
  split_and!; try done.
  eapply edges_ok_weaken_slot; [|apply (ci_edges _ _ CI4)].
  intros p mp t c _ _. split; [|done].
  intros (a & Ha & Hca). rewrite All in Hca by done. done.
Qed.
End AfterPass.

(** ** [clear] runs to completion *)

Section ClearTotal.
Context {P : Type} (st0 : State P).
Implicit Types (st : State P) (m : Node P).

#[local] Abbreviation clear_inv := (clear_inv st0).
#[local] Abbreviation clear_ready := (clear_ready st0).
#[local] Abbreviation pending := (pending st0).

Lemma clear_ready_cleared st st' : cleared st st' -> clear_ready st -> clear_ready st'.
Proof.
  intros C [K S]. split.
  - intros q m0 k H0 Hi Hc. apply (cleared_cache_back _ _ _ _ C) in Hc.
    destruct (K _ _ _ H0 Hi Hc) as (mk & Hk & W).
    destruct (cl_live _ _ C _ _ Hk) as (mk' & Hk' & Hp' & _).
    exists mk'. split; [done|]. rewrite Hp'.
    assert (L : forall a, is_Some (nodes st !! a) -> is_Some (nodes st' !! a)).
    { intros a [ma Ha]. destruct (cl_live _ _ C _ _ Ha) as (ma' & ? & _). eauto. }
    destruct (payload m0), (payload mk); cbn in *; try done; destruct W; auto.
  - intros a Hi Hs. unfold cache_of in Hs.
    destruct (nodes st' !! a) as [m'|] eqn:Hm'; [|done].
    destruct (nodes st !! a) as [m|] eqn:Hm.
    + destruct (cl_live _ _ C _ _ Hm) as (m2 & Hm2 & _ & [E|E] & _);
        rewrite Hm' in Hm2; injection Hm2 as <-; cbn in Hs.
      * apply (S a Hi). unfold cache_of. rewrite Hm. cbn. congruence.
      * congruence.
    + by rewrite (cl_dead _ _ C _ Hm) in Hm'.
Qed.

Lemma grown_add st st' (c p : addr) t :
  uplinks_add c p t st = Done st' -> grown 1 st st'.
Proof.
  intros H. apply uplinks_add_Done in H as (m & Hm & ->). intros a. cbn.
  destruct (decide (a = c)) as [->|].
  - rewrite lookup_insert_eq, Hm. cbn. rewrite length_app. cbn. lia.
  - rewrite lookup_insert_ne by done. destruct (nodes st !! a); [lia|done].
Qed.

Lemma grown_set_cache st st' (a : addr) c :
  set_cache a c st = Done st' -> grown 0 st st'.
Proof.
  unfold set_cache. intros H. apply bind_Done in H as (m & Hm & H).
  apply deref_Done in Hm. injection H as <-. intros x. cbn.
  destruct (decide (x = a)) as [->|].
  - rewrite lookup_insert_eq, Hm. cbn. lia.
  - rewrite lookup_insert_ne by done. destruct (nodes st !! x); [lia|done].
Qed.

Lemma grown_trans n1 n2 st1 st2 st3 :
  grown n1 st1 st2 -> grown n2 st2 st3 -> grown (n1 + n2) st1 st3.
Proof.
  intros G1 G2 a. specialize (G1 a). specialize (G2 a).
  destruct (nodes st1 !! a), (nodes st2 !! a), (nodes st3 !! a); try done. lia.
Qed.

Lemma grown_live n st st' a :
  grown n st st' -> is_Some (nodes st !! a) -> is_Some (nodes st' !! a).
Proof.
  intros G [m Hm]. specialize (G a). rewrite Hm in G.
  destruct (nodes st' !! a); [eauto|done].
Qed.

Lemma uplinks_add_total st (c p : addr) t :
  is_Some (nodes st !! c) -> exists st', uplinks_add c p t st = Done st'.
Proof. intros [m Hm]. unfold uplinks_add. rewrite (deref_eq _ _ _ Hm). cbn. eauto. Qed.

Lemma set_cache_total st (a : addr) c :
  is_Some (nodes st !! a) -> exists st', set_cache a c st = Done st'.
Proof. intros [m Hm]. unfold set_cache. rewrite (deref_eq _ _ _ Hm). cbn. eauto. Qed.

Lemma size_without (U : gset addr) (a : addr) :
  a ∈ U -> size U = S (size (U ∖ {[a]})).
Proof.
  intros Ha.
  assert (E : size U = size ({[a]} : gset addr) + size (U ∖ {[a]})).
  { rewrite <- size_union by set_solver. f_equal.
    by apply union_difference_singleton_L. }
  rewrite size_singleton in E. lia.
Qed.

Lemma len_bound_step L (U : gset addr) st st' (p : addr) n :
  len_bound L U st -> grown n st st' -> n <= 2 -> p ∈ U ->
  len_bound L (U ∖ {[p]}) st'.
Proof.
  intros B G Hn Hp a m' Hm'. specialize (G a). rewrite Hm' in G.
  destruct (nodes st !! a) as [m|] eqn:Hm; [|done].
  specialize (B a m Hm). assert (E := size_without U p Hp). lia.
Qed.

Lemma len_bound_sub L (U U' : gset addr) st :
  U' ⊆ U -> len_bound L U st -> len_bound L U' st.
Proof.
  intros Hs B a m Hm. specialize (B a m Hm).
  assert (size U' <= size U) by by apply subseteq_size. lia.
Qed.

Lemma pending_step (U : gset addr) st st' (p : addr) :
  pending U st -> cache_of st' p = Some NULL ->
  (forall a, a <> p -> cache_of st' a = cache_of st a) ->
  pending (U ∖ {[p]}) st'.
Proof.
  intros PU Hn Fr a k Hi Hc. destruct (decide (a = p)) as [->|Hne]; [congruence|].
  rewrite Fr in Hc by done. specialize (PU a k Hi Hc). set_solver.
Qed.

Section ClearLoop.
Variable L : nat.

Lemma clear_from_total : forall fuel st (node : addr) i (U : gset addr),
  clear_inv st -> clear_ready st -> pending U st -> len_bound L U st ->
  is_Some (nodes st !! node) ->
  (L + 1 - i) + (L + 2) * size U < fuel ->
  exists st' U', clear_from fuel st node i = Done st' /\ U' ⊆ U /\
    pending U' st' /\ len_bound L U' st'.
Proof.
  induction fuel as [|fuel IH]; intros st node i U CI CR PU LB [n Hn] Hf; [lia|].
  cbn [clear_from]. rewrite (deref_eq _ _ _ Hn). cbn [mbind outcome_bind obind].
  destruct (uplinks n !! i) as [cur|] eqn:Hi; [|by exists st, U].
  assert (Hlt : i < length (uplinks n)) by eauto using lookup_lt_Some.
  assert (HL := LB _ _ Hn).
  assert (Hcur : cur ∈ uplinks n) by eauto using list_elem_of_lookup_2.
  destruct (eo_sound _ _ (ci_edges _ _ CI) node n cur Hn Hcur) as (mp & Hp & Hs & _).
  rewrite (deref_eq _ _ _ Hp). cbn [mbind outcome_bind obind].
  assert (Ht : node_type mp = NODE_APP \/ node_type mp = NODE_LAMBDA).
  { unfold node_type. destruct (payload mp), (up_type cur); cbn in Hs; try done; auto. }
  assert (B := ci_base _ _ CI).
  destruct (cache mp) as [| |k] eqn:Hc.
  - apply IH; eauto. lia.
  - exfalso. destruct (cached_inner st0 st (up_link cur) mp B Hp) as (Hin & _);
      [by rewrite Hc|done|].
    apply (cr_stop _ _ CR _ Hin). by rewrite (cache_of_Some _ _ _ Hp), Hc.
  - destruct (cached_inner st0 st (up_link cur) mp B Hp) as (Hin & mp0 & Hp0 & Hpp0);
      [by rewrite Hc|done|].
    assert (Hcp : cache_of st (up_link cur) = Some (Cached k))
      by (by rewrite (cache_of_Some _ _ _ Hp), Hc).
    assert (HU : up_link cur ∈ U) by eauto.
    assert (HS := size_without U _ HU).
    destruct (cr_copy _ _ CR _ _ _ Hp0 Hin Hcp) as (mk & Hk & W).
    rewrite Hpp0 in W.
    assert (Live : forall st' a, cleared st st' -> is_Some (nodes st !! a) ->
              is_Some (nodes st' !! a)).
    { intros st' a C [ma Hma]. destruct (cl_live _ _ C _ _ Hma) as (? & ? & _). eauto. }
    destruct (payload mp) as [l r|b v| |q] eqn:Epl; [| |by destruct Ht..].
    + destruct (payload mk) as [l' r'| | |] eqn:Ek; try done. destruct W as [Wl Wr].
      destruct (uplinks_add_total st l' k UPLINK_APPL Wl) as [st_a Ha].
      assert (Ga := grown_add _ _ _ _ _ Ha).
      destruct (uplinks_add_total st_a r' k UPLINK_APPR) as [st_b Hb];
        [eauto using grown_live|].
      assert (Gb := grown_add _ _ _ _ _ Hb).
      destruct (set_cache_total st_b (up_link cur) NULL) as [st_c Hsc].
      { eapply grown_live; [exact Gb|]. eapply grown_live; [exact Ga|]. eauto. }
      assert (Gc := grown_set_cache _ _ _ _ Hsc).
      assert (G : grown 2 st st_c).
      { replace 2 with (1 + (1 + 0)) by lia. eauto using grown_trans. }
      destruct (wire_app st0 st (up_link cur) k l' r' mk st_a st_b st_c
                  CI Hin Hcp Hk Ek Ha Hb Hsc) as (CI1 & C1 & N1 & F1).
      assert (CR1 := clear_ready_cleared _ _ C1 CR).
      destruct (IH st_c (up_link cur) 0 (U ∖ {[up_link cur]})) as (st2 & U2 & H2 & S2 & PU2 & LB2);
        eauto using pending_step, len_bound_step, grown_live.
      { nia. }
      destruct (clear_from_spec st0 _ _ _ _ _ CI1 H2) as (CI2 & C2 & _).
      assert (CR2 := clear_ready_cleared _ _ C2 CR1).
      assert (size U2 <= size (U ∖ {[up_link cur]})) by by apply subseteq_size.
      destruct (IH st2 node (S i) U2) as (st' & U' & H3 & S3 & PU' & LB');
        try done.
      { apply (Live st2); eauto using cleared_trans. }
      { nia. }
      exists st', U'. rewrite (deref_eq _ _ _ Hk). cbn [mbind outcome_bind obind].
      rewrite Ek, Ha. cbn [mbind outcome_bind obind].
      rewrite Hb. cbn [mbind outcome_bind obind].
      rewrite Hsc. cbn [mbind outcome_bind obind].
      rewrite H2. cbn [mbind outcome_bind obind].
      split_and!; try done. set_solver.
    + destruct (payload mk) as [|b' w'| |] eqn:Ek; try done. destruct W as [Wb Wv].
      destruct (uplinks_add_total st b' k UPLINK_NA Wb) as [st_a Ha].
      assert (Ga := grown_add _ _ _ _ _ Ha).
      destruct (set_cache_total st_a (up_link cur) NULL) as [st_c Hsc].
      { eapply grown_live; [exact Ga|]. eauto. }
      assert (Gc := grown_set_cache _ _ _ _ Hsc).
      assert (G : grown 1 st st_c).
      { replace 1 with (1 + 0) by lia. eauto using grown_trans. }
      destruct (wire_lambda st0 st (up_link cur) k b' w' mk st_a st_c
                  CI Hin Hcp Hk Ek Ha Hsc) as (CIc & Cc & Nc & Fc).
      assert (CRc := clear_ready_cleared _ _ Cc CR).
      destruct (IH st_c v 0 (U ∖ {[up_link cur]})) as (st1 & U1 & H1 & S1 & PU1 & LB1);
        eauto using pending_step, len_bound_step, grown_live.
      { nia. }
      destruct (clear_from_spec st0 _ _ _ _ _ CIc H1) as (CI1 & C1 & _).
      assert (CR1 := clear_ready_cleared _ _ C1 CRc).
      assert (size U1 <= size (U ∖ {[up_link cur]})) by by apply subseteq_size.
      destruct (IH st1 (up_link cur) 0 U1) as (st2 & U2 & H2 & S2 & PU2 & LB2);
        try done.
      { apply (Live st1); eauto using cleared_trans. }
      { nia. }
      destruct (clear_from_spec st0 _ _ _ _ _ CI1 H2) as (CI2 & C2 & _).
      assert (CR2 := clear_ready_cleared _ _ C2 CR1).
      assert (size U2 <= size U1) by by apply subseteq_size.
      destruct (IH st2 node (S i) U2) as (st' & U' & H3 & S3 & PU' & LB');
        try done.
      { apply (Live st2); eauto using cleared_trans. }
      { nia. }
      exists st', U'. rewrite (deref_eq _ _ _ Hk). cbn [mbind outcome_bind obind].
      rewrite Ek, Ha. cbn [mbind outcome_bind obind].
      rewrite Hsc. cbn [mbind outcome_bind obind].
      rewrite H1. cbn [mbind outcome_bind obind].
      rewrite H2. cbn [mbind outcome_bind obind].
      split_and!; try done. set_solver.
Qed.
End ClearLoop.
End ClearTotal.

(** ** The invariant between public operations *)

Section GraphInv.
Context {P : Type}.
Implicit Types (st : State P) (m : Node P).

Lemma graph_inv_rest st : graph_inv st -> graph_rest st.
Proof. intros [? ? ? ?]. by split. Qed.

Lemma graph_inv_scoped st :
  edges_ok no_edge st -> binders_ok st -> scoped st.
Proof.
  intros E B. split.
  - intros c m u Hc Hu. destruct (eo_sound _ _ E _ _ _ Hc Hu) as (mp & ? & ? & _).
    eauto.
  - apply (eo_nodup _ _ E).
  - apply (bo_var _ B).
  - apply (bo_binder _ B).
Qed.

Lemma payload_upd_lambda b (p p' : Payload P) bd v :
  payload_upd b p p' -> p' = lambda bd v -> exists bd0, p = lambda bd0 v.
Proof. intros H ->. destruct p; cbn in H; try done. destruct H as [-> _]. eauto. Qed.

Lemma payload_upd_type b (p p' : Payload P) m m' :
  payload_upd b p p' -> payload m = p -> payload m' = p' ->
  node_type m' = node_type m.
Proof.
  intros H <- <-. unfold node_type. destruct (payload m), (payload m'); done.
Qed.

Lemma graph_rest_spliced b st st' :
  spliced b st st' -> graph_rest st -> graph_rest st'.
Proof.
  intros [Hn S] [[B V N] C F].
  assert (Hb : forall g v, binds st' g v -> binds st g v).
  { intros g v (m' & bd & Hm' & Hp'). destruct (S _ _ Hm') as (m & Hm & _ & Hu).
    destruct (payload_upd_lambda _ _ _ _ _ Hu Hp') as (bd0 & ?). by exists m, bd0. }
  split; [split|..].
  - eauto.
  - intros g v mv' Hg Hmv'. destruct (S _ _ Hmv') as (mv & Hmv & _ & Hu).
    assert (Hv := V _ _ _ (Hb _ _ Hg) Hmv). rewrite Hv in Hu.
    by destruct (payload mv').
  - intros g v Hg. rewrite Hn. eauto.
  - intros a (m' & Hm' & Ht). destruct (S _ _ Hm') as (m & Hm & Hc & Hu).
    rewrite (cache_of_Some _ _ _ Hm'), Hc, <- (cache_of_Some _ _ _ Hm).
    apply C. exists m. split; [done|].
    by rewrite <- (payload_upd_type _ _ _ m m' Hu).
  - intros a Ha. rewrite Hn in Ha. destruct (nodes st' !! a) as [m'|] eqn:E; [|done].
    destruct (S _ _ E) as (m & Hm & _). by rewrite F in Hm.
Qed.

Lemma upreplace_spliced fuel st (nc into : addr) t st' :
  upreplace fuel st nc into t = Done st' -> spliced nc st st'.
Proof.
  intros H. unfold upreplace in H.
  apply bind_Done in H as (mi & Hi & H). apply deref_Done in Hi.
  assert (Step : forall T old st1 st2 st3 p',
      payload_upd nc (payload mi) p' ->
      uplinks_unlink old into T st = Done st1 ->
      set_payload into p' st1 = Done st2 ->
      uplinks_add nc into T st2 = Done st3 ->
      cleanup fuel st3 old = Done st' -> spliced nc st st').
  { intros T old st1 st2 st3 p' Hu H1 H2 H3 H4.
    apply uplinks_unlink_Done in H1 as (m1 & l1 & Hm1 & _ & ->).
    apply set_payload_Done in H2 as (m2 & Hm2 & ->).
    apply uplinks_add_Done in H3 as (m3 & Hm3 & ->).
    apply cleanup_shrinks in H4.
    eapply spliced_trans; [|eapply shrinks_spliced; exact H4].
    eapply spliced_trans; [|eapply spliced_store; [exact Hm3|done|]].
    2:{ cbn. destruct (payload m3); cbn; auto. }
    eapply spliced_trans; [|eapply spliced_store; [exact Hm2|done|]].
    2:{ cbn. cbn in Hm2. destruct (decide (into = old)) as [<-|].
        - rewrite lookup_insert_eq in Hm2. injection Hm2 as <-. cbn.
          rewrite Hi in Hm1. by injection Hm1 as <-.
        - rewrite lookup_insert_ne in Hm2 by done. rewrite Hi in Hm2.
          by injection Hm2 as <-. }
    eapply spliced_store; [exact Hm1|done|].
    cbn. destruct (payload m1); cbn; auto. }
  destruct (payload mi) as [l r|b v| |q] eqn:Hp; try discriminate.
  - destruct t;
      apply bind_Done in H as (st1 & H1 & H); apply bind_Done in H as (st2 & H2 & H);
      apply bind_Done in H as (st3 & H3 & H).
    + eapply Step; eauto. cbn. auto.
    + eapply Step; eauto. cbn. auto.
    + eapply Step; eauto. cbn. auto.
  - apply bind_Done in H as (st1 & H1 & H); apply bind_Done in H as (st2 & H2 & H);
      apply bind_Done in H as (st3 & H3 & H).
    eapply Step; eauto. cbn. auto.
Qed.

Lemma upreplace_inv fuel st (nc into : addr) t st' :
  upreplace fuel st nc into t = Done st' -> graph_inv st -> graph_inv st'.
Proof.
  intros H G.
  destruct (graph_rest_spliced nc st st') as [? ? ?];
    eauto using upreplace_spliced, graph_inv_rest.
  split; try done. eapply upreplace_edges; eauto using gi_edges.
Qed.

Lemma upreplace_all_inv fuel st (b : addr) l st' :
  upreplace_all fuel st b l = Done st' -> graph_inv st -> graph_inv st'.
Proof.
  unfold upreplace_all. intros H G.
  eapply for_each_uplink_inv; [|eassumption|done].
  intros ? ? ? Hb ?. eapply upreplace_inv; [exact Hb|done].
Qed.
End GraphInv.

Section BetaInv.
Context {P : Type}.
Implicit Types (st : State P) (m : Node P).

Lemma binders_ok_set_cache st st' (a : addr) c :
  set_cache a c st = Done st' -> binders_ok st -> binders_ok st'.
Proof.
  unfold set_cache. intros H B. apply bind_Done in H as (m & Hm & H).
  apply deref_Done in Hm. injection H as <-.
  eapply binders_ok_store; eauto.
Qed.

Lemma binders_ok_cleared st st' : cleared st st' -> binders_ok st -> binders_ok st'.
Proof.
  intros [Hn D L] [B V N].
  assert (Hb : forall g v, binds st' g v -> binds st g v).
  { intros g v (m' & bd & Hm' & Hp'). destruct (nodes st !! g) as [m|] eqn:Hm.
    - destruct (L _ _ Hm) as (m2 & Hm2 & Hp2 & _). rewrite Hm' in Hm2.
      injection Hm2 as <-. exists m, bd. split; congruence.
    - by rewrite (D _ Hm) in Hm'. }
  split.
  - eauto.
  - intros g v mv' Hg Hmv'. destruct (nodes st !! v) as [mv|] eqn:Hmv.
    + destruct (L _ _ Hmv) as (m2 & Hm2 & Hp2 & _). rewrite Hmv' in Hm2.
      injection Hm2 as <-. rewrite Hp2. eauto.
    + by rewrite (D _ Hmv) in Hmv'.
  - intros g v Hg. rewrite Hn. eauto.
Qed.

(** The store in which a pass starts: the graph between operations, with
    the [STOP] mark on the Lambda under reduction. *)
Lemma pass_ext_init st1 (fn b v : addr) f1 :
  edges_ok no_edge st1 -> binders_ok st1 ->
  (forall a, (next st1 <= a)%positive -> nodes st1 !! a = None) ->
  (forall a, inner st1 a -> a <> fn -> cache_of st1 a = Some NULL) ->
  nodes st1 !! fn = Some f1 -> payload f1 = lambda b v -> cache f1 = STOP ->
  pass_ext st1 v st1 /\
  (is_Some (nodes st1 !! v) -> upcopy_pre st1 st1 v) /\
  upcopy_from st1 v st1 v UPLINK_NA /\ ~ inner st1 v.
Proof.
  intros E B F NC Hf Hpf Hcf.
  assert (SC := graph_inv_scoped _ E B).
  assert (Hb : binds st1 fn v) by (exists f1, b; done).
  assert (Hcfn : cache_of st1 fn = Some STOP) by (by rewrite (cache_of_Some _ _ _ Hf), Hcf).
  assert (NoC : forall a k, inner st1 a -> cache_of st1 a = Some (Cached k) -> False).
  { intros a k Ha Hc. destruct (decide (a = fn)) as [->|]; [congruence|].
    rewrite NC in Hc; done. }
  assert (Hni : ~ inner st1 v) by eauto using binds_not_inner.
  split_and!; try done.
  - split; try done.
    + split; try done.
      * intros a m0 H0. eauto.
      * intros a m0 m H0 Ht Hm. left. rewrite H0 in Hm. injection Hm as <-.
        assert (Hi : inner st1 a) by (exists m0; auto).
        assert (a <> fn).
        { intros ->. rewrite Hf in H0. injection H0 as <-.
          unfold node_type in Ht. by rewrite Hpf in Ht. }
        specialize (NC a Hi). rewrite (cache_of_Some _ _ _ H0) in NC.
        by injection NC.
      * intros g m0 bg vg k Hg Hpg Hc. exfalso. eapply NoC; eauto using lambda_inner.
    + intros k mk Hk Hk0. congruence.
    + intros a a' k Ha _ Hc. exfalso. eauto.
    + intros a k Ha Hc. exfalso. eauto.
    + intros q k Hq Hc. exfalso. eauto.
  - intros [mv Hv]. assert (Hpv := bo_var _ B _ _ _ Hb Hv).
    exists mv. split; [done|]. rewrite Hpv. split.
    + right. exists fn, STOP. done.
    + intros u mp bp vp Hu Hmp Hpp.
      destruct (decide (up_link u = fn)) as [->|]; [auto|].
      left. apply NC; eauto using lambda_inner.
  - right. split; [done|]. apply rtc_refl.
Qed.

Lemma set_cache_shape st st' (a : addr) c :
  set_cache a c st = Done st' ->
  next st' = next st /\
  forall x, match nodes st !! x, nodes st' !! x with
            | Some m, Some m' => payload m' = payload m /\ uplinks m' = uplinks m /\
                                 (x <> a -> cache m' = cache m)
            | None, None => True
            | _, _ => False
            end.
Proof.
  unfold set_cache. intros H. apply bind_Done in H as (m & Hm & H).
  apply deref_Done in Hm. injection H as <-. split; [done|]. intros x. cbn.
  destruct (decide (x = a)) as [->|].
  - rewrite lookup_insert_eq, Hm. done.
  - rewrite lookup_insert_ne by done. by destruct (nodes st !! x).
Qed.

Lemma set_cache_inner st st' (a : addr) c x :
  set_cache a c st = Done st' -> inner st' x <-> inner st x.
Proof.
  intros H. destruct (set_cache_shape _ _ _ _ H) as [_ S]. specialize (S x).
  unfold inner, node_type. split; intros (m & Hm & Ht); rewrite Hm in S.
  - destruct (nodes st !! x) as [m0|]; [|done]. destruct S as (Hp & _).
    exists m0. by rewrite <- Hp.
  - destruct (nodes st' !! x) as [m'|]; [|done]. destruct S as (Hp & _).
    exists m'. by rewrite Hp.
Qed.

(** The beta step keeps the invariant whenever it returns. *)
Lemma beta_reduce_inv fuel st (a : addr) st' :
  beta_reduce fuel st a = Done st' -> graph_inv st -> graph_inv st'.
Proof.
  intros H G. unfold beta_reduce in H.
  apply bind_Done in H as (n & Hn & H). apply deref_Done in Hn.
  destruct (payload n) as [fn arg| | |] eqn:Epn; try discriminate.
  apply bind_Done in H as (f & Hf & H). apply deref_Done in Hf.
  destruct (payload f) as [|b v| |] eqn:Epf; try discriminate.
  apply bind_Done in H as (vn & Hv & H). apply deref_Done in Hv.
  apply bind_Done in H as ([result st5] & Hr & H).
  assert (G5 : graph_inv st5).
  { destruct (uplinks vn) as [|u0 l0]; [by injection Hr as <- <-|].
    apply bind_Done in Hr as (st1 & H1 & Hr).
    apply bind_Done in Hr as (st2 & H2 & Hr).
    apply bind_Done in Hr as (bn & Hbn & Hr).
    apply bind_Done in Hr as (st3 & H3 & Hr).
    apply bind_Done in Hr as (st4 & H4 & Hr). injection Hr as _ <-.
    destruct G as [E B C F].
    destruct (set_cache_shape _ _ _ _ H1) as [N1 S1].
    assert (E1 := edges_set_cache _ _ _ _ _ E H1).
    assert (B1 := binders_ok_set_cache _ _ _ _ H1 B).
    assert (F1 : forall x, (next st1 <= x)%positive -> nodes st1 !! x = None).
    { intros x Hx. rewrite N1 in Hx. specialize (S1 x). rewrite (F x Hx) in S1.
      by destruct (nodes st1 !! x). }
    assert (Hf1 : exists f1, nodes st1 !! fn = Some f1 /\ payload f1 = lambda b v /\
                    cache f1 = STOP).
    { unfold set_cache in H1. rewrite (deref_eq _ _ _ Hf) in H1. injection H1 as <-.
      eexists. split; [apply lookup_insert_eq|]. done. }
    destruct Hf1 as (f1 & Hf1 & Hpf1 & Hcf1).
    assert (NC : forall x, inner st1 x -> x <> fn -> cache_of st1 x = Some NULL).
    { intros x Hx Hne. rewrite (set_cache_cache _ _ _ _ _ H1), decide_False by done.
      apply C. by rewrite <- (set_cache_inner _ _ _ _ x H1). }
    destruct (pass_ext_init st1 fn b v f1 E1 B1 F1 NC Hf1 Hpf1 Hcf1)
      as (X1 & Pre & Hfrom & Hni).
    assert (SC := graph_inv_scoped _ E1 B1).
    destruct (upcopy_partial st1 v SC (bo_bound _ B1) fuel st1 arg v UPLINK_NA st2 X1)
      as (X2 & K2 & _); try done.
    assert (Hfn2 : cache_of st2 fn = Some STOP).
    { apply K2; [eauto using lambda_inner| |done].
      by rewrite (cache_of_Some _ _ _ Hf1), Hcf1. }
    destruct (clear_after_pass st1 v fn SC E1) with (fuel := fuel) (st2 := st2)
      (st3 := st3) (st4 := st4) as (E4 & C34 & B4 & All); try done.
    { intros x Hx Hc. destruct (decide (x = fn)); [done|].
      rewrite NC in Hc; done. }
    destruct (set_cache_shape _ _ _ _ H3) as [N3 S3].
    assert (I2 := pe_inv _ _ _ X2).
    split; try done.
    - eapply binders_ok_cleared; [exact C34|].
      eapply binders_ok_set_cache; [exact H3|]. apply (pe_binders _ _ _ X2).
    - intros x (m4 & Hm4 & Ht). rewrite (cache_of_Some _ _ _ Hm4).
      destruct (nodes st1 !! x) as [m0|] eqn:H0.
      + rewrite <- (cache_of_Some _ _ _ Hm4). apply All.
        destruct (cb_old _ _ B4 _ _ H0) as (m4' & Hm4' & Hp4 & _).
        rewrite Hm4 in Hm4'. injection Hm4' as <-.
        exists m0. split; [done|]. unfold node_type in *. by rewrite <- Hp4.
      + f_equal. eapply (cb_new _ _ B4); eauto.
    - intros x Hx. rewrite (cl_next _ _ C34), N3 in Hx.
      apply (cl_dead _ _ C34). specialize (S3 x).
      rewrite (pi_fresh _ _ I2 x Hx) in S3. by destruct (nodes st3 !! x). }
  apply bind_Done in H as (n' & Hn' & H).
  destruct (uplinks n') as [|u l]; [by injection H as <-|].
  destruct result as [| |r]; try discriminate.
  eapply upreplace_all_inv; eauto.
Qed.
End BetaInv.

Section Constructors.
Context {P : Type}.
Implicit Types (st : State P) (m : Node P).

#[local] Arguments new_Node : simpl never.

Lemma uplinks_add_spliced st st' (c p : addr) t :
  uplinks_add c p t st = Done st' -> spliced c st st'.
Proof.
  intros H. apply uplinks_add_Done in H as (m & Hm & ->).
  eapply spliced_store; eauto. apply payload_upd_refl.
Qed.

Lemma graph_rest_add st st' (c p : addr) t :
  uplinks_add c p t st = Done st' -> graph_rest st -> graph_rest st'.
Proof. intros H. eapply graph_rest_spliced. eauto using uplinks_add_spliced. Qed.

(** A fresh node whose parent edges have no record yet. *)
Lemma edges_alloc st (N : Node P) :
  edges_ok no_edge st ->
  (forall a, (next st <= a)%positive -> nodes st !! a = None) ->
  uplinks N = [] ->
  edges_ok (fun p _ => p = next st) (new_Node st N).2.
Proof.
  intros [S ND C] F HN.
  assert (Nl : nodes st !! next st = None) by (apply F; lia).
  assert (Lo : forall a ma, nodes st !! a = Some ma ->
            nodes (new_Node st N).2 !! a = Some ma /\ a <> next st).
  { intros a ma Ha. assert (a <> next st) by (intros ->; congruence).
    split; [|done]. unfold new_Node. cbn. by rewrite lookup_insert_ne. }
  assert (Bk : forall a ma, nodes (new_Node st N).2 !! a = Some ma ->
            (a = next st /\ ma = N) \/ (a <> next st /\ nodes st !! a = Some ma)).
  { intros a ma. unfold new_Node. cbn. destruct (decide (a = next st)) as [->|].
    - rewrite lookup_insert_eq. intros [= <-]. by left.
    - rewrite lookup_insert_ne by done. by right. }
  split.
  - intros c m u Hc Hu. destruct (Bk _ _ Hc) as [[-> ->]|[Hne Hc0]].
    + rewrite HN in Hu. by apply elem_of_nil in Hu.
    + destruct (S _ _ _ Hc0 Hu) as (mp & Hmp & Hs & _).
      destruct (Lo _ _ Hmp) as [? ?]. eauto.
  - intros c m Hc. destruct (Bk _ _ Hc) as [[-> ->]|[Hne Hc0]]; [|eauto].
    rewrite HN. constructor.
  - intros p mp t c Hp Hs Hn. destruct (Bk _ _ Hp) as [[-> ->]|[Hne Hp0]]; [done|].
    destruct (C _ _ _ _ Hp0 Hs) as (m & Hm & Hin); [by intros []|].
    destruct (Lo _ _ Hm) as [? ?]. eauto.
Qed.

Lemma graph_rest_alloc st (N : Node P) :
  graph_rest st -> cache N = NULL ->
  (forall b v, payload N = lambda b v ->
     (v < next st)%positive /\
     (forall mv, nodes st !! v = Some mv -> payload mv = var) /\
     (forall g, ~ binds st g v)) ->
  graph_rest (new_Node st N).2.
Proof.
  intros [[B V Nb] C F] HN Hl.
  assert (Nl : nodes st !! next st = None) by (apply F; lia).
  assert (Bk : forall a ma, nodes (new_Node st N).2 !! a = Some ma ->
            (a = next st /\ ma = N) \/ (a <> next st /\ nodes st !! a = Some ma)).
  { intros a ma. unfold new_Node. cbn. destruct (decide (a = next st)) as [->|].
    - rewrite lookup_insert_eq. intros [= <-]. by left.
    - rewrite lookup_insert_ne by done. by right. }
  assert (Hb : forall g v, binds (new_Node st N).2 g v ->
            binds st g v \/ (g = next st /\ exists b, payload N = lambda b v)).
  { intros g v (mg & b & Hg & Hpg). destruct (Bk _ _ Hg) as [[-> ->]|[Hne Hg0]].
    - right. eauto.
    - left. by exists mg, b. }
  split; [split|..].
  - intros g g' v Hg Hg'.
    destruct (Hb _ _ Hg) as [H1|[-> [b1 H1]]], (Hb _ _ Hg') as [H2|[-> [b2 H2]]];
      eauto.
    + destruct (Hl _ _ H2) as (_ & _ & Hu). by destruct (Hu g).
    + destruct (Hl _ _ H1) as (_ & _ & Hu). by destruct (Hu g').
  - intros g v mv Hg Hmv. destruct (Hb _ _ Hg) as [H1|[-> [b1 H1]]].
    + destruct (Bk _ _ Hmv) as [[-> ->]|[Hne Hv0]]; [|eauto].
      specialize (Nb _ _ H1). lia.
    + destruct (Hl _ _ H1) as (Hlt & Hv & _).
      destruct (Bk _ _ Hmv) as [[-> ->]|[Hne Hv0]]; [lia|eauto].
  - intros g v Hg. unfold new_Node. cbn. destruct (Hb _ _ Hg) as [H1|[-> [b1 H1]]].
    + specialize (Nb _ _ H1). lia.
    + destruct (Hl _ _ H1) as (Hlt & _). lia.
  - intros a (ma & Ha & Ht). rewrite (cache_of_Some _ _ _ Ha).
    destruct (Bk _ _ Ha) as [[-> ->]|[Hne Ha0]]; [by rewrite HN|].
    rewrite <- (cache_of_Some _ _ _ Ha0). apply C. by exists ma.
  - intros a Ha. unfold new_Node in *. cbn in *.
    rewrite lookup_insert_ne by lia. apply F. lia.
Qed.

(** A node without child slots. *)
Lemma leaf_inv st (N : Node P) :
  graph_inv st -> cache N = NULL -> uplinks N = [] ->
  (forall t, slot_of (payload N) t = None) ->
  graph_inv (new_Node st N).2.
Proof.
  intros G HcN HuN Hs.
  destruct (graph_rest_alloc st N (graph_inv_rest _ G) HcN) as [? ? ?].
  { intros b v Hp. specialize (Hs UPLINK_NA). by rewrite Hp in Hs. }
  split; try done.
  eapply edges_ok_weaken_slot; [|apply edges_alloc; eauto using gi_edges, gi_fresh].
  intros p mp t c Hp Hsl. cbn. split; [|done]. intros ->.
  unfold new_Node in Hp. cbn in Hp. rewrite lookup_insert_eq in Hp.
  injection Hp as <-. by rewrite Hs in Hsl.
Qed.

Lemma Var_inv st a st' : Var st = (a, st') -> graph_inv st -> graph_inv st'.
Proof.
  unfold Var. intros H G. rewrite (new_Node_eq st) in H. injection H as _ <-.
  by apply leaf_inv.
Qed.

Lemma Prim_inv st p a st' : Prim st p = (a, st') -> graph_inv st -> graph_inv st'.
Proof.
  unfold Prim. intros H G. rewrite (new_Node_eq st) in H. injection H as _ <-.
  by apply leaf_inv.
Qed.

Lemma new_Node_lookup st (N : Node P) :
  nodes (new_Node st N).2 !! next st = Some N.
Proof. unfold new_Node. cbn. apply lookup_insert_eq. Qed.

Lemma Fun_inv st (v body ret : addr) st' :
  Fun st v body = Done (ret, st') ->
  (v < next st)%positive ->
  (forall mv, nodes st !! v = Some mv -> payload mv = var) ->
  (forall g, ~ binds st g v) ->
  graph_inv st -> graph_inv st'.
Proof.
  unfold Fun. intros H Hlt Hv Hu G.
  set (N := mkNode NULL [] (lambda body v)) in *.
  rewrite (new_Node_eq st N) in H. cbn beta iota zeta in H.
  apply bind_Done in H as (st2 & Ha & H). injection H as _ <-.
  assert (R1 : graph_rest (new_Node st N).2).
  { apply graph_rest_alloc; eauto using graph_inv_rest.
    cbn. intros b w [= <- <-]. done. }
  destruct (graph_rest_add _ _ _ _ _ Ha R1) as [? ? ?]. split; try done.
  assert (E1 := edges_alloc st N (gi_edges _ G) (gi_fresh _ G) eq_refl).
  assert (E2 := edges_add_exempt _ _ _ (next st) body UPLINK_NA N E1 eq_refl
                  (new_Node_lookup st N) eq_refl Ha).
  eapply edges_ok_weaken_slot; [|exact E2].
  intros p mp t c Hp Hsl. cbn. split; [|done]. intros [-> Hn]. apply Hn.
  split; [done|].
  destruct (cl_live _ _ (cleared_add _ _ _ _ _ Ha) _ _ (new_Node_lookup st N))
    as (m' & Hm' & Hp' & _).
  rewrite Hp in Hm'. injection Hm' as <-. rewrite Hp' in Hsl. by destruct t.
Qed.

Lemma App_inv st (l r ret : addr) st' :
  App st l r = Done (ret, st') -> graph_inv st -> graph_inv st'.
Proof.
  unfold App. intros H G.
  set (N := mkNode NULL [] (app l r)) in *.
  rewrite (new_Node_eq st N) in H. cbn beta iota zeta in H.
  apply bind_Done in H as (st2 & Ha & H).
  apply bind_Done in H as (st3 & Hb & H). injection H as _ <-.
  assert (R1 : graph_rest (new_Node st N).2).
  { apply graph_rest_alloc; eauto using graph_inv_rest. cbn. done. }
  assert (R2 := graph_rest_add _ _ _ _ _ Ha R1).
  destruct (graph_rest_add _ _ _ _ _ Hb R2) as [? ? ?]. split; try done.
  assert (E1 := edges_alloc st N (gi_edges _ G) (gi_fresh _ G) eq_refl).
  assert (E2 := edges_add_exempt _ _ _ (next st) l UPLINK_APPL N E1 eq_refl
                  (new_Node_lookup st N) eq_refl Ha).
  destruct (cl_live _ _ (cleared_add _ _ _ _ _ Ha) _ _ (new_Node_lookup st N))
    as (m2 & Hm2 & Hp2 & _).
  assert (Hs2 : slot_of (payload m2) UPLINK_APPR = Some r) by (by rewrite Hp2).
  assert (E3 := edges_add_exempt _ _ _ (next st) r UPLINK_APPR m2 E2
                  ltac:(split; [done|by intros [_ ?]]) Hm2 Hs2 Hb).
  eapply edges_ok_weaken_slot; [|exact E3].
  intros p mp t c Hp Hsl. cbn. split; [|done]. intros [[-> Hn1] Hn2].
  destruct (cl_live _ _ (cleared_add _ _ _ _ _ Hb) _ _ Hm2)
    as (m3 & Hm3 & Hp3 & _).
  rewrite Hp in Hm3. injection Hm3 as <-. rewrite Hp3, Hp2 in Hsl.
  destruct t; cbn in Hsl; try done; [apply Hn1|apply Hn2]; done.
Qed.

(** [Var] followed by [Fun] over the fresh variable. *)
Lemma wrap_inv st (body : addr) d st' :
  (let '(v, st) := Var st in
   '(d, st) ← Fun st v body; Done (mkHead d, st)) = Done (d, st') ->
  graph_inv st -> graph_inv st'.
Proof.
  intros H G. unfold Var in H.
  rewrite (new_Node_eq st (mkNode NULL [] var)) in H. cbn beta iota zeta in H.
  apply bind_Done in H as ([ret st2] & HF & H). injection H as _ <-.
  assert (G1 : graph_inv (new_Node st (mkNode NULL [] var)).2) by (by apply leaf_inv).
  eapply (Fun_inv _ _ _ _ _ HF); try done.
  - unfold new_Node. cbn. lia.
  - intros mv. rewrite new_Node_lookup. by intros [= <-].
  - intros g (mg & b & Hg & Hpg). unfold new_Node in Hg. cbn in Hg.
    destruct (decide (g = next st)) as [->|].
    + rewrite lookup_insert_eq in Hg. injection Hg as <-. done.
    + rewrite lookup_insert_ne in Hg by done.
      assert (Hlt := bo_bound _ (gi_binders _ G) g (next st)).
      assert (next st < next st)%positive; [|lia]. apply Hlt. by exists mg, b.
Qed.

Lemma make_head_inv st (body : addr) h st' :
  make_head st body = Done (h, st') -> graph_inv st -> graph_inv st'.
Proof. apply wrap_inv. Qed.

Lemma copy_head_inv st other h st' :
  copy_head st other = Done (h, st') -> graph_inv st -> graph_inv st'.
Proof. apply wrap_inv. Qed.

Lemma cleanup_inv fuel st (a : addr) st' :
  cleanup fuel st a = Done st' -> graph_inv st -> graph_inv st'.
Proof.
  intros H G.
  destruct (graph_rest_spliced a st st') as [? ? ?];
    eauto using shrinks_spliced, cleanup_shrinks, graph_inv_rest.
  split; try done. eapply cleanup_edges; eauto using gi_edges.
Qed.

Lemma free_head_inv fuel st h st' :
  free_head fuel st h = Done st' -> graph_inv st -> graph_inv st'.
Proof. apply cleanup_inv. Qed.

Lemma get_prim_same st h (r : option P) st' :
  get_prim st h = Done (r, st') -> st' = st.
Proof.
  unfold get_prim. intros H. apply bind_Done in H as (d & _ & H).
  destruct (payload d); try (by injection H as _ <-).
  apply bind_Done in H as (bn & _ & H).
  destruct (payload bn); by injection H as _ <-.
Qed.
End Constructors.

Section DriverInv.
Context {P : Type}.
Implicit Types (st : State P) (m : Node P).
Variable prim_apply :
  (State P -> Head -> outcome (bool * State P)) ->
  P -> Head -> State P -> outcome (option P * State P).

(** The primitive's [apply] acts on the store through the reducer it is
    handed and the public interface: it keeps the invariant when that
    reducer does. *)
Hypothesis prim_apply_inv : forall reduce pn h st r st',
  keeps_inv reduce ->
  prim_apply reduce pn h st = Done (r, st') -> graph_inv st -> graph_inv st'.

Lemma prim_reduce_inv fuel reduce st (a : addr) b st' :
  keeps_inv reduce ->
  prim_reduce prim_apply fuel reduce st a = Done (b, st') ->
  graph_inv st -> graph_inv st'.
Proof.
  intros K H G. unfold prim_reduce in H.
  apply bind_Done in H as (n & Hn & H).
  destruct (payload n) as [fn arg| | |]; try discriminate.
  apply bind_Done in H as ([h st1] & H1 & H).
  assert (G1 := make_head_inv _ _ _ _ H1 G).
  apply bind_Done in H as (f & Hf & H).
  destruct (payload f) as [| | |pn]; try discriminate.
  apply bind_Done in H as ([p st2] & H2 & H).
  assert (G2 := prim_apply_inv _ _ _ _ _ _ K H2 G1).
  apply bind_Done in H as (st3 & H3 & H).
  assert (G3 := free_head_inv _ _ _ _ H3 G2).
  destruct p as [p|]; [|by injection H as _ <-].
  rewrite (new_Node_eq st3) in H. cbn beta iota zeta in H.
  apply bind_Done in H as (n' & Hn' & H).
  apply bind_Done in H as (st4 & H4 & H). injection H as _ <-.
  eapply upreplace_all_inv; [exact H4|]. by apply leaf_inv.
Qed.

Lemma hnf_reduce_1_inv fuel : forall st (ptr : addr) b st',
  hnf_reduce_1 prim_apply fuel st ptr = Done (b, st') ->
  graph_inv st -> graph_inv st'.
Proof.
  induction fuel as [|fuel IH]; intros st ptr b st' H G; [discriminate|].
  cbn [hnf_reduce_1] in H. apply bind_Done in H as (n & Hn & H).
  destruct (payload n) as [l r|bd v| |q].
  - apply bind_Done in H as ([red st1] & H1 & H).
    assert (G1 := IH _ _ _ _ H1 G).
    destruct red; [by injection H as _ <-|].
    apply bind_Done in H as (n' & Hn' & H).
    destruct (payload n') as [l' r'| | |]; try discriminate.
    apply bind_Done in H as (ln & Hl & H).
    destruct (node_type ln).
    + by injection H as _ <-.
    + apply bind_Done in H as (st2 & H2 & H). injection H as _ <-.
      eapply beta_reduce_inv; eauto.
    + by injection H as _ <-.
    + eapply prim_reduce_inv; [|exact H|done].
      intros s h b' s' Hr. eapply IH; eauto.
  - eapply IH; eauto.
  - by injection H as _ <-.
  - by injection H as _ <-.
Qed.

Lemma hnf_reduce_1_head_inv fuel st h b st' :
  hnf_reduce_1_head prim_apply fuel st h = Done (b, st') ->
  graph_inv st -> graph_inv st'.
Proof. apply hnf_reduce_1_inv. Qed.

Lemma hnf_reduce_inv fuel : forall st h st',
  hnf_reduce prim_apply fuel st h = Done st' -> graph_inv st -> graph_inv st'.
Proof.
  induction fuel as [|fuel IH]; intros st h st' H G; [discriminate|].
  cbn [hnf_reduce] in H. apply bind_Done in H as ([b st1] & H1 & H).
  assert (G1 := hnf_reduce_1_head_inv _ _ _ _ _ H1 G).
  destruct b; [eauto|by injection H as <-].
Qed.
End DriverInv.

Section Public.
Context {P : Type}.
Implicit Types (st : State P) (m : Node P).

Lemma graph_inv_empty : graph_inv (empty_state (PrimNode := P)).
Proof.
  assert (L : forall a, nodes (empty_state (PrimNode := P)) !! a = None).
  { intros a. unfold empty_state. cbn. apply lookup_empty. }
  split; [split|split|..].
  - intros c m u Hc. by rewrite L in Hc.
  - intros c m Hc. by rewrite L in Hc.
  - intros p mp t c Hp. by rewrite L in Hp.
  - intros g g' v (m & b & Hm & _). by rewrite L in Hm.
  - intros g v mv (m & b & Hm & _). by rewrite L in Hm.
  - intros g v (m & b & Hm & _). by rewrite L in Hm.
  - intros a (m & Hm & _). by rewrite L in Hm.
  - intros a _. apply L.
Qed.

Lemma graph_inv_mirror st : graph_inv st -> uplinks_mirror_edges st.
Proof.
  intros [[S N C] _ _ _]. split.
  - intros p mp t c Hp Hs. destruct (C _ _ _ _ Hp Hs) as (m & Hm & Hin); [by intros []|].
    exists m. split; [done|].
    apply NoDup_count_occ'; [|by apply list_elem_of_In].
    apply NoDup_ListNoDup. eauto.
  - intros c m u Hc Hu. destruct (S _ _ _ Hc Hu) as (mp & ? & ? & _). eauto.
Qed.

Lemma Fun_pre_sound st (v : addr) :
  graph_inv st -> Fun_pre st v = true ->
  (v < next st)%positive /\
  (forall mv, nodes st !! v = Some mv -> payload mv = var) /\
  (forall g, ~ binds st g v).
Proof.
  unfold Fun_pre. rewrite andb_true_iff, bool_decide_eq_true. intros G [H1 H2].
  destruct (nodes st !! v) as [mv|] eqn:Hv; [|done]. split_and!.
  - destruct (decide (v < next st)%positive) as [|Hge]; [done|].
    rewrite (gi_fresh _ G) in Hv; [done|lia].
  - intros mv' [= <-]. by destruct (payload mv).
  - intros g (mg & b & Hg & Hp). specialize (H2 g mg Hg). cbn in H2.
    unfold binds_var in H2. rewrite Hp, Pos.eqb_refl in H2. done.
Qed.

Section Steps.
Variable prim_apply :
  (State P -> Head -> outcome (bool * State P)) ->
  P -> Head -> State P -> outcome (option P * State P).
Hypothesis prim_apply_inv : forall reduce pn h st r st',
  keeps_inv reduce ->
  prim_apply reduce pn h st = Done (r, st') -> graph_inv st -> graph_inv st'.

Lemma public_step_inv st st' :
  public_step prim_apply st st' -> graph_inv st -> graph_inv st'.
Proof.
  intros [a H|p a H|v body ret Hpre H|l r ret H|body h H|other h H|fuel h H
         |fuel h b H|fuel h H|h r H] G.
  - eauto using Var_inv.
  - eauto using Prim_inv.
  - destruct (Fun_pre_sound st v G Hpre) as (? & ? & ?). eauto using Fun_inv.
  - eauto using App_inv.
  - eauto using make_head_inv.
  - eauto using copy_head_inv.
  - eauto using free_head_inv.
  - eapply hnf_reduce_1_head_inv; eauto.
  - eapply hnf_reduce_inv; eauto.
  - by rewrite (get_prim_same _ _ _ _ H).
Qed.

Lemma public_steps_inv st :
  rtc (public_step prim_apply) empty_state st -> graph_inv st.
Proof.
  apply (rtc_ind_r (fun st => graph_inv st)).
  - apply graph_inv_empty.
  - intros s s' _ Hs G. eapply public_step_inv; eauto.
Qed.
End Steps.
End Public.

(** C7: after every public operation returns, every parent edge
    [parent --slot--> child] of the store has exactly one uplink record
    [(parent, slot)] on the child's list, and every uplink record on a list
    is the record of such an edge of its parent.  The store is any store
    reached from the empty one by calls of the public interface that
    returned: [Var], [Prim], [Fun] on a Var node that no Lambda binds yet,
    [App], [make_head], [copy_head], [free_head], [hnf_reduce_1],
    [hnf_reduce] and [get_prim].  The primitive's [apply] is client code; it
    is assumed to keep the store well formed whenever the reducer it is
    handed does. *)
Theorem uplinks_mirror_edges_after_public_ops (P : Type)
  (prim_apply : (State P -> Head -> outcome (bool * State P)) ->
                P -> Head -> State P -> outcome (option P * State P)) :
  (forall reduce pn h st r st',
      keeps_inv reduce ->
      prim_apply reduce pn h st = Done (r, st') -> graph_inv st -> graph_inv st') ->
  forall st, rtc (public_step prim_apply) empty_state st ->
    uplinks_mirror_edges st.
Proof.
  intros PA st H. apply graph_inv_mirror. eapply public_steps_inv; eauto.
Qed.


(** * Further properties of the code *)

(** ** UplinkSet *)

Section UplinkSetFacts.
Context {P : Type}.
Implicit Types (st : State P) (m n : Node P).

Lemma Uplink_matches_spec p t u : Uplink_matches p t u = true <-> u = mkUplink p t.
Proof.
  split; [apply Uplink_matches_true|]. intros ->. unfold Uplink_matches. cbn.
  rewrite Pos.eqb_refl. by destruct t.
Qed.

Lemma unlink_list_split p t l :
  match unlink_list p t l with
  | None => mkUplink p t ∉ l
  | Some l' => exists l1 l2, l = l1 ++ mkUplink p t :: l2 /\
      (mkUplink p t ∉ l1) /\ l' = l1 ++ l2
  end.
Proof.
  induction l as [|u l IH]; cbn; [apply not_elem_of_nil|].
  destruct (Uplink_matches p t u) eqn:E.
  - apply Uplink_matches_spec in E as ->. exists [], l. split_and!; try done.
    apply not_elem_of_nil.
  - assert (u <> mkUplink p t).
    { intros Hu. apply Uplink_matches_spec in Hu. congruence. }
    destruct (unlink_list p t l) as [l'|].
    + destruct IH as (l1 & l2 & -> & Hn & ->). exists (u :: l1), l2.
      split_and!; try done. by apply not_elem_of_cons.
    + by apply not_elem_of_cons.
Qed.

Lemma store_same st (c : addr) n : nodes st !! c = Some n -> store c n st = st.
Proof.
  intros H. destruct st as [ns nx]. unfold store. cbn in *. f_equal.
  by apply insert_id.
Qed.

Lemma store_store st (c : addr) n n' : store c n (store c n' st) = store c n st.
Proof. unfold store. cbn. f_equal. apply insert_insert_eq. Qed.
End UplinkSetFacts.

(** X1: [UplinkSet::unlink(parent, type)] on the list of the node [c].  The
    call reads through [c], so it faults when [c] is not allocated; it ends
    in [std::abort()] exactly when no record of the list equals
    [(parent, type)]; otherwise it removes the first such record and leaves
    the other records in their order. *)
Theorem uplinks_unlink_first_match (P : Type) (st : State P) (c p : addr) t :
  match nodes st !! c with
  | None => uplinks_unlink c p t st = Undefined
  | Some n =>
      ((mkUplink p t ∉ uplinks n) /\ uplinks_unlink c p t st = Aborted) \/
      (exists l1 l2, uplinks n = l1 ++ mkUplink p t :: l2 /\
         (mkUplink p t ∉ l1) /\
         uplinks_unlink c p t st
         = Done (store c (mkNode (cache n) (l1 ++ l2) (payload n)) st))
  end.
Proof.
  unfold uplinks_unlink, deref. destruct (nodes st !! c) as [n|]; [|done]. cbn.
  assert (H := unlink_list_split p t (uplinks n)).
  destruct (unlink_list p t (uplinks n)) as [l'|].
  - right. destruct H as (l1 & l2 & ? & ? & ->). eauto.
  - by left.
Qed.

(** X2: [add] followed by [unlink] of the same [(parent, type)] on a live
    node.  When the list held no equal record the store is back as it was.
    When it held one, [unlink] removes that earlier record: the list is the
    old one with its first equal record moved to the tail. *)
Theorem uplinks_add_then_unlink (P : Type) (st : State P) (c p : addr) t n :
  nodes st !! c = Some n ->
  exists st1, uplinks_add c p t st = Done st1 /\
    (((mkUplink p t ∉ uplinks n) /\ uplinks_unlink c p t st1 = Done st) \/
     (exists l1 l2, uplinks n = l1 ++ mkUplink p t :: l2 /\
        (mkUplink p t ∉ l1) /\
        uplinks_unlink c p t st1
        = Done (store c (mkNode (cache n) (l1 ++ l2 ++ [mkUplink p t]) (payload n))
                  st))).
Proof.
  intros Hn. unfold uplinks_add. rewrite (deref_eq _ _ _ Hn). cbn.
  eexists. split; [done|]. unfold uplinks_unlink, deref. cbn.
  rewrite lookup_insert_eq. cbn.
  assert (H := unlink_list_split p t (uplinks n)).
  destruct (unlink_list p t (uplinks n)) as [l'|] eqn:E.
  - right. destruct H as (l1 & l2 & Hl & Hn1 & ->). exists l1, l2.
    split_and!; try done. rewrite Hl, <- app_assoc. cbn.
    assert (H := unlink_list_split p t (l1 ++ mkUplink p t :: l2 ++ [mkUplink p t])).
    destruct (unlink_list p t (l1 ++ mkUplink p t :: l2 ++ [mkUplink p t])) as [l3|].
    + destruct H as (k1 & k2 & Hk & Hk1 & ->). rewrite store_store.
      assert (k1 = l1 /\ k2 = l2 ++ [mkUplink p t]) as [-> ->]; [|done].
      clear -Hk Hn1 Hk1. revert k1 Hk Hk1.
      induction l1 as [|a l1 IH]; intros [|b k1] Hk Hk1; cbn in Hk.
      * by injection Hk as <-.
      * injection Hk as <- _. destruct Hk1. left.
      * injection Hk as -> _. destruct Hn1. left.
      * injection Hk as <- Hk. apply not_elem_of_cons in Hn1 as [? ?].
        apply not_elem_of_cons in Hk1 as [? ?].
        destruct (IH ltac:(done) k1) as [-> ->]; done.
    + destruct H. apply elem_of_app. right. left.
  - left. split; [done|].
    assert (H' := unlink_list_split p t (uplinks n ++ [mkUplink p t])).
    destruct (unlink_list p t (uplinks n ++ [mkUplink p t])) as [l3|].
    + destruct H' as (k1 & k2 & Hk & Hk1 & ->). rewrite store_store.
      assert (k1 = uplinks n /\ k2 = []) as [-> ->].
      { clear -Hk H Hk1. revert k1 Hk Hk1.
        induction (uplinks n) as [|a l1 IH]; intros [|b k1] Hk Hk1; cbn in Hk.
        - by injection Hk as <-.
        - injection Hk as <- Hk. destruct Hk1. left.
        - injection Hk as -> _. destruct H. left.
        - injection Hk as <- Hk. apply not_elem_of_cons in H as [? ?].
          apply not_elem_of_cons in Hk1 as [? ?].
          destruct (IH ltac:(done) k1) as [-> ->]; done. }
      rewrite app_nil_r. f_equal. apply store_same.
      rewrite Hn. by destruct n.
    + destruct H'. apply elem_of_app. right. left.
Qed.

(** ** clear *)

Section ClearShape.
Context {P : Type}.
Implicit Types (st : State P) (m n : Node P).

Lemma clear_from_cleared fuel : forall st (node : addr) i st',
  clear_from fuel st node i = Done st' -> cleared st st'.
Proof.
  induction fuel as [|fuel IH]; intros st node i st' H; [discriminate|].
  cbn [clear_from] in H. apply bind_Done in H as (n & _ & H).
  destruct (uplinks n !! i) as [cur|]; [|injection H as <-; apply cleared_refl].
  apply bind_Done in H as (mp & _ & H).
  destruct (cache mp) as [| |k].
  - eauto.
  - apply bind_Done in H as (st1 & H1 & _). destruct (payload mp); discriminate.
  - apply bind_Done in H as (st1 & H1 & H). apply bind_Done in H as (st2 & H2 & H3).
    apply IH in H2, H3.
    assert (C1 : cleared st st1); [|eauto using cleared_trans].
    destruct (payload mp); try discriminate.
    + apply bind_Done in H1 as (mk & _ & H1). destruct (payload mk); try discriminate.
      apply bind_Done in H1 as (sa & Ha & H1). apply bind_Done in H1 as (sb & Hb & Hs).
      apply cleared_add in Ha, Hb. apply cleared_reset in Hs.
      eauto using cleared_trans.
    + apply bind_Done in H1 as (mk & _ & H1). destruct (payload mk); try discriminate.
      apply bind_Done in H1 as (sa & Ha & H1). apply bind_Done in H1 as (sc & Hs & Hv).
      apply IH in Hv. apply cleared_add in Ha. apply cleared_reset in Hs.
      eauto using cleared_trans.
Qed.
End ClearShape.

(** X3: [clear] neither allocates nor frees a node and never writes a
    payload: whenever it returns, every node is the node it was, except that
    its cache may have been reset to null and its uplink list may have
    records appended at the tail. *)
Theorem clear_appends_and_resets (P : Type) fuel (st : State P) (node : addr) st' :
  clear fuel st node = Done st' ->
  next st' = next st /\
  forall a,
    match nodes st !! a, nodes st' !! a with
    | None, None => True
    | Some m, Some m' =>
        payload m' = payload m /\ (cache m' = cache m \/ cache m' = NULL) /\
        exists ext, uplinks m' = uplinks m ++ ext
    | _, _ => False
    end.
Proof.
  unfold clear. intros H. apply clear_from_cleared in H as [N D L].
  split; [done|]. intros a. destruct (nodes st !! a) as [m|] eqn:E.
  - destruct (L _ _ E) as (m' & -> & ? & ? & ?). done.
  - by rewrite (D _ E).
Qed.

(** ** The invariant between public operations, decided and used *)

Section CheckSound.
Context {P : Type}.
Implicit Types (st : State P) (m n : Node P).

Lemma graph_inv_check_sound st : graph_inv_check st = true -> graph_inv st.
Proof.
  unfold graph_inv_check. rewrite andb_true_iff, bool_decide_eq_true.
  intros [WF HC]. apply well_formed_check_sound in WF.
  destruct WF as [U N V B C F]. split; [split|split|..]; try done.
  - intros c m u Hc Hu. destruct (U _ _ _ Hc Hu) as (mp & ? & ?).
    exists mp. split_and!; try done. by intros [].
  - intros p mp t c Hp Hs _. specialize (HC p mp Hp). cbn in HC.
    rewrite !andb_true_iff in HC. destruct HC as (H1 & H2 & H3 & _).
    assert (Ht : slot_ok st p mp t = true) by (by destruct t).
    unfold slot_ok in Ht. rewrite Hs in Ht.
    destruct (nodes st !! c) as [mc|]; [|done].
    apply bool_decide_eq_true in Ht. eauto.
  - intros g v mv Hg Hv. destruct (V _ _ Hg) as (mv' & ? & ?). congruence.
  - intros g v Hg. destruct (V _ _ Hg) as (mv & Hv & _).
    destruct (decide (v < next st)%positive) as [|Hge]; [done|].
    rewrite F in Hv; [done|lia].
Qed.
End CheckSound.

(** X4: in every store reached from the empty one by public calls that
    returned, every App and every Lambda has a null cache (for the Var nodes
    this fails, see C4).  The assumptions on [Fun] and on the primitive's
    [apply] are those of C7. *)
Theorem inner_caches_null_after_public_ops (P : Type)
  (prim_apply : (State P -> Head -> outcome (bool * State P)) ->
                P -> Head -> State P -> outcome (option P * State P)) :
  (forall reduce pn h st r st',
      keeps_inv reduce ->
      prim_apply reduce pn h st = Done (r, st') -> graph_inv st -> graph_inv st') ->
  forall st, rtc (public_step prim_apply) empty_state st ->
    forall a m, nodes st !! a = Some m ->
      node_type m = NODE_APP \/ node_type m = NODE_LAMBDA -> cache m = NULL.
Proof.
  intros PA st H a m Hm Ht.
  assert (G := public_steps_inv prim_apply PA st H).
  assert (Hc := gi_cache _ G a). rewrite (cache_of_Some _ _ _ Hm) in Hc.
  assert (Some (cache m) = Some NULL) as [= ->]; [|done].
  apply Hc. by exists m.
Qed.

(** X5: in every store reached from the empty one by public calls that
    returned, two Lambdas never share a variable, and the variable of a
    Lambda is a Var node as long as it is allocated: the copies that a beta
    step makes of a Lambda get Var nodes of their own. *)
Theorem binders_distinct_after_public_ops (P : Type)
  (prim_apply : (State P -> Head -> outcome (bool * State P)) ->
                P -> Head -> State P -> outcome (option P * State P)) :
  (forall reduce pn h st r st',
      keeps_inv reduce ->
      prim_apply reduce pn h st = Done (r, st') -> graph_inv st -> graph_inv st') ->
  forall st, rtc (public_step prim_apply) empty_state st ->
    forall g g' (mg mg' : Node P) b b' v,
      nodes st !! g = Some mg -> payload mg = lambda b v ->
      nodes st !! g' = Some mg' -> payload mg' = lambda b' v ->
      g = g' /\
      match nodes st !! v with
      | Some mv => payload mv = var
      | None => True
      end.
Proof.
  intros PA st H g g' mg mg' b b' v Hg Hpg Hg' Hpg'.
  assert (G := public_steps_inv prim_apply PA st H).
  destruct (gi_binders _ G) as [B V _].
  assert (Hb : binds st g v) by (by exists mg, b).
  assert (Hb' : binds st g' v) by (by exists mg', b').
  split; [eauto|]. destruct (nodes st !! v) as [mv|] eqn:Hv; [|done]. eauto.
Qed.

(** X6: the upcopy pass of a beta step does not touch the graph it copies.
    On a well-formed store, after [fun->cache = STOP] and
    [upcopy(arg, fun->lambda.var, _)] have returned, every node that was
    allocated is still allocated with the payload and the uplink list it
    had, every node allocated by the pass has a null cache and no uplink
    record yet, and the Lambda under reduction still holds [STOP]. *)
Theorem upcopy_pass_keeps_graph (P : Type) fuel (st st1 st2 : State P)
  (fn arg b v : addr) (f : Node P) :
  graph_inv st ->
  nodes st !! fn = Some f -> payload f = lambda b v ->
  set_cache fn STOP st = Done st1 ->
  upcopy fuel st1 arg v UPLINK_NA = Done st2 ->
  (forall a m, nodes st !! a = Some m ->
     exists m', nodes st2 !! a = Some m' /\
       payload m' = payload m /\ uplinks m' = uplinks m) /\
  (forall k mk, nodes st !! k = None -> nodes st2 !! k = Some mk ->
     cache mk = NULL /\ uplinks mk = []) /\
  cache_of st2 fn = Some STOP.
Proof.
  intros [E B C F] Hf Hpf H1 H2.
  destruct (set_cache_shape _ _ _ _ H1) as [N1 S1].
  assert (E1 := edges_set_cache _ _ _ _ _ E H1).
  assert (B1 := binders_ok_set_cache _ _ _ _ H1 B).
  assert (F1 : forall x, (next st1 <= x)%positive -> nodes st1 !! x = None).
  { intros x Hx. rewrite N1 in Hx. specialize (S1 x). rewrite (F x Hx) in S1.
    by destruct (nodes st1 !! x). }
  assert (Hf1 : exists f1, nodes st1 !! fn = Some f1 /\ payload f1 = lambda b v /\
                  cache f1 = STOP).
  { unfold set_cache in H1. rewrite (deref_eq _ _ _ Hf) in H1. injection H1 as <-.
    eexists. split; [apply lookup_insert_eq|]. done. }
  destruct Hf1 as (f1 & Hf1 & Hpf1 & Hcf1).
  assert (NC : forall x, inner st1 x -> x <> fn -> cache_of st1 x = Some NULL).
  { intros x Hx Hne. rewrite (set_cache_cache _ _ _ _ _ H1), decide_False by done.
    apply C. by rewrite <- (set_cache_inner _ _ _ _ x H1). }
  destruct (pass_ext_init st1 fn b v f1 E1 B1 F1 NC Hf1 Hpf1 Hcf1)
    as (X1 & Pre & Hfrom & Hni).
  assert (SC := graph_inv_scoped _ E1 B1).
  destruct (upcopy_partial st1 v SC (bo_bound _ B1) fuel st1 arg v UPLINK_NA st2 X1)
    as (X2 & K2 & _); try done.
  assert (I2 := pe_inv _ _ _ X2).
  split_and!.
  - intros a m Ha. specialize (S1 a). rewrite Ha in S1.
    destruct (nodes st1 !! a) as [m1|] eqn:Ha1; [|done]. destruct S1 as (Hp1 & Hu1 & _).
    destruct (pi_static _ _ I2 _ _ Ha1) as (m2 & Hm2 & Hp2 & Hu2).
    exists m2. split_and!; congruence.
  - intros k mk Hk Hk2. specialize (S1 k). rewrite Hk in S1.
    destruct (nodes st1 !! k) as [m1|] eqn:Hk1; [done|].
    destruct (pe_new _ _ _ X2 _ _ Hk2 Hk1) as (? & ? & _). done.
  - apply K2; [eauto using lambda_inner| |done].
    by rewrite (cache_of_Some _ _ _ Hf1), Hcf1.
Qed.

(** ** The copies of an upcopy pass *)

Section PassResult.
Context {P : Type}.
Implicit Types (st : State P) (m : Node P).

Lemma upcopy_pass_result fuel st st1 st2 (fn arg b v : addr) f :
  graph_inv st ->
  nodes st !! fn = Some f -> payload f = lambda b v ->
  set_cache fn STOP st = Done st1 ->
  upcopy fuel st1 arg v UPLINK_NA = Done st2 ->
  pass_result st1 st2 fn v arg.
Proof.
  intros [E B C F] Hf Hpf H1 H2.
  destruct (set_cache_shape _ _ _ _ H1) as [N1 S1].
  assert (E1 := edges_set_cache _ _ _ _ _ E H1).
  assert (B1 := binders_ok_set_cache _ _ _ _ H1 B).
  assert (F1 : forall x, (next st1 <= x)%positive -> nodes st1 !! x = None).
  { intros x Hx. rewrite N1 in Hx. specialize (S1 x). rewrite (F x Hx) in S1.
    by destruct (nodes st1 !! x). }
  assert (Hf1 : exists f1, nodes st1 !! fn = Some f1 /\ payload f1 = lambda b v /\
                  cache f1 = STOP).
  { unfold set_cache in H1. rewrite (deref_eq _ _ _ Hf) in H1. injection H1 as <-.
    eexists. split; [apply lookup_insert_eq|]. done. }
  destruct Hf1 as (f1 & Hf1 & Hpf1 & Hcf1).
  assert (NC : forall x, inner st1 x -> x <> fn -> cache_of st1 x = Some NULL).
  { intros x Hx Hne. rewrite (set_cache_cache _ _ _ _ _ H1), decide_False by done.
    apply C. by rewrite <- (set_cache_inner _ _ _ _ x H1). }
  assert (Hcfn : cache_of st1 fn = Some STOP)
    by (by rewrite (cache_of_Some _ _ _ Hf1), Hcf1).
  assert (NoC : forall a k, inner st1 a -> cache_of st1 a = Some (Cached k) -> False).
  { intros a k Ha Hc. destruct (decide (a = fn)) as [->|]; [congruence|].
    rewrite NC in Hc; done. }
  destruct (pass_ext_init st1 fn b v f1 E1 B1 F1 NC Hf1 Hpf1 Hcf1)
    as (X1 & Pre & Hfrom & Hni).
  assert (SC := graph_inv_scoped _ E1 B1).
  assert (Hb : binds st1 fn v) by (exists f1, b; done).
  destruct (upcopy_content st1 v arg SC (bo_bound _ B1) fuel st1 arg v UPLINK_NA st2 X1)
    as (X2 & K2 & _ & Q2); try done.
  destruct Q2 as (C2 & S2 & T2 & _ & Tx & D2).
  { intros q m0 k Hq Hi Hc. exfalso. eauto. }
  { split.
    - intros mv c Hv Hs. rewrite (bo_var _ B1 _ _ _ Hb Hv) in Hs. done.
    - intros mv Hv _. right. by left. }
  split; try done.
  - intros c Hc. destruct (D2 c Hc) as [[[Hi [k Hk]]|(g & cg & Hg & Hcg & Hn)]|?];
      [| |done].
    + exfalso. eauto.
    + assert (g = fn) as ->.
      { destruct (decide (g = fn)) as [|Hne]; [done|].
        rewrite NC in Hcg; eauto using binds_inner. congruence. }
      destruct Hg as (mg & bg & Hmg & Hpg). rewrite Hf1 in Hmg. injection Hmg as <-.
      rewrite Hpf1 in Hpg. injection Hpg as _ <-. auto.
  - apply K2; [eauto using lambda_inner|done|done].
Qed.

Section Facts.
Variables (st1 st2 : State P) (fn x arg : addr).
Hypothesis R : pass_result st1 st2 fn x arg.

#[local] Abbreviation image := (image st1 x arg st2).
#[local] Abbreviation stands_for := (stands_for st1 x arg st2).

Lemma image_done c c' : image c c' -> done st1 st2 c.
Proof.
  intros [[Hi Hc]|[[-> ->]|(g & k & mk & b & Hb & Hc & Hk & Hp)]].
  - left. eauto.
  - right. exists fn, STOP. split_and!; [apply (pr_binds _ _ _ _ _ R)| |done].
    apply (pr_stop _ _ _ _ _ R).
  - right. exists g, (Cached k). done.
Qed.

Lemma image_functional c c1 c2 : image c c1 -> image c c2 -> c1 = c2.
Proof.
  assert (SC := pr_scoped _ _ _ _ _ R).
  assert (Hx : forall g k, binds st1 g x -> cache_of st2 g = Some (Cached k) -> False).
  { intros g k Hg Hc.
    assert (g = fn) as -> by (eapply (sc_binder _ SC); [exact Hg|apply (pr_binds _ _ _ _ _ R)]).
    rewrite (pr_stop _ _ _ _ _ R) in Hc. done. }
  intros [[Hi Hc]|[[-> ->]|(g & k & mk & b & Hb & Hc & Hk & Hp)]]
         [[Hi' Hc']|[[E' ->]|(g' & k' & mk' & b' & Hb' & Hc' & Hk' & Hp')]];
    try congruence.
  - subst. destruct (pr_var _ _ _ _ _ R Hi).
  - exfalso. eapply (binds_not_inner st1 SC); eauto.
  - destruct (pr_var _ _ _ _ _ R Hi').
  - exfalso. eauto.
  - exfalso. eapply (binds_not_inner st1 SC); eauto.
  - subst. exfalso. eauto.
  - assert (g = g') as <- by (eapply (sc_binder _ SC); eauto).
    rewrite Hc in Hc'. injection Hc' as <-. rewrite Hk in Hk'. injection Hk' as <-.
    congruence.
Qed.

(** A slot of a finished copy holds what stands for the original child. *)
Lemma slot_stands_for q m1 k mk t c c' :
  nodes st1 !! q = Some m1 -> cache_of st2 q = Some (Cached k) ->
  nodes st2 !! k = Some mk -> copy_of st1 x arg st2 (payload m1) (payload mk) ->
  slot_of (payload m1) t = Some c -> slot_of (payload mk) t = Some c' ->
  stands_for c c'.
Proof.
  intros Hq Hc Hk Hcp Hs Hs'. split.
  - destruct (payload m1) as [l r|b v| |], (payload mk) as [l' r'|b' v'| |];
      try done; cbn in Hcp.
    + destruct Hcp as [Hl Hr].
      destruct t; cbn in Hs, Hs'; try discriminate;
        injection Hs as <-; injection Hs' as <-; done.
    + destruct Hcp as [Hb _].
      destruct t; cbn in Hs, Hs'; try discriminate;
        injection Hs as <-; injection Hs' as <-; auto.
  - intros c'' Him.
    destruct (eo_complete _ _ (pr_edges _ _ _ _ _ R) q m1 t c Hq Hs) as (mc & Hmc & Hu);
      [by intros []|].
    destruct (pr_told _ _ _ _ _ R c (image_done _ _ Him) mc _ Hmc Hu)
      as [Hi [Hstop|(m0 & c0 & k0 & mk0 & c0' & H0 & Hs0 & Hc0 & Hk0 & Hs0' & Him0)]];
      cbn in *; [congruence|].
    rewrite Hq in H0. injection H0 as <-. rewrite Hs in Hs0. injection Hs0 as <-.
    rewrite Hc in Hc0. injection Hc0 as <-. rewrite Hk in Hk0. injection Hk0 as <-.
    rewrite Hs' in Hs0'. injection Hs0' as <-. eauto using image_functional.
Qed.

Lemma copy_substituted q m1 k :
  nodes st1 !! q = Some m1 -> inner st1 q -> cache_of st2 q = Some (Cached k) ->
  exists mk, nodes st2 !! k = Some mk /\ nodes st1 !! k = None /\
    substituted st1 x arg st2 (payload m1) (payload mk).
Proof.
  intros Hq Hi Hc.
  destruct (pr_content _ _ _ _ _ R q m1 k Hq Hi Hc) as (mk & Hk & Hcp).
  destruct (pe_copy _ _ _ (pr_ext _ _ _ _ _ R) _ _ Hi Hc) as [Hk0 _].
  exists mk. split_and!; try done.
  assert (S := fun t c c' => slot_stands_for q m1 k mk t c c' Hq Hc Hk Hcp).
  destruct (payload m1) as [l r|b v| |] eqn:E1, (payload mk) as [l' r'|b' v'| |] eqn:Ek;
    try done; cbn in Hcp |- *.
  - split; [apply (S UPLINK_APPL)|apply (S UPLINK_APPR)]; done.
  - destruct Hcp as (_ & Hv0 & Hv). split_and!; try done.
    + by apply (S UPLINK_NA).
    + assert (Him : image v v').
      { right. right. exists q, k, mk, b'. split_and!; try done. by exists m1, b. }
      split; [auto|]. intros c'' Him'. eauto using image_functional.
Qed.

(** The nodes that hold a copy are the nodes above the variable. *)
Lemma walk_done c : rtc (copy_step st1 fn) x c -> done st1 st2 c.
Proof.
  assert (SC := pr_scoped _ _ _ _ _ R).
  revert c. apply (rtc_ind_r (fun c => done st1 st2 c)).
  { right. exists fn, STOP. split_and!; [apply (pr_binds _ _ _ _ _ R)| |done].
    apply (pr_stop _ _ _ _ _ R). }
  intros c q _ [[Hne (mc & t & Hc & Hu)]|Hb] Hd.
  - destruct (pr_told _ _ _ _ _ R c Hd mc _ Hc Hu) as [Hi [Hstop|(m0 & c0 & k & _ & _ & _ & _ & Hk & _)]];
      cbn in *.
    + exfalso. apply Hne.
      assert (H1 := pe_stop _ _ _ (pr_ext _ _ _ _ _ R) q Hi Hstop).
      destruct (decide (q = fn)) as [|Hn]; [done|].
      rewrite (pr_null _ _ _ _ _ R q Hi Hn) in H1. done.
    + left. eauto.
  - destruct Hd as [[_ [k Hk]]|(g & cg & Hg & _)].
    + right. exists c, (Cached k). done.
    + exfalso. eapply (binds_not_inner st1 SC); eauto using binds_inner.
Qed.

Lemma copied_iff_above q :
  inner st1 q ->
  (exists k, cache_of st2 q = Some (Cached k)) <-> rtc (copy_step st1 fn) x q.
Proof.
  assert (SC := pr_scoped _ _ _ _ _ R).
  intros Hi. split.
  - intros [k Hk]. assert (Hr := pe_reached _ _ _ (pr_ext _ _ _ _ _ R) q k Hi Hk).
    eapply rtc_subrel; [|exact Hr].
    intros c q' [(t & m0 & Hc & Hu & Hi' & k' & Hk')|[Hb _]]; [left|by right].
    split; [|eauto]. intros ->. rewrite (pr_stop _ _ _ _ _ R) in Hk'. done.
  - intros H. destruct (walk_done q H) as [[_ ?]|(g & cg & Hg & _)]; [done|].
    exfalso. eapply (binds_not_inner st1 SC); eauto.
Qed.
End Facts.
End PassResult.

(** X21: the copies of an upcopy pass are the originals with the argument
    substituted for the variable.  On a well-formed store, after
    [fun->cache = STOP] and [upcopy(arg, fun->lambda.var, _)] have returned,
    every App or Lambda [q] that holds a copy [k] in its cache has, in [k],
    a node that the pass allocated, of the type of [q], in which every
    child is what stands for the child of [q]: the copy of a child that was
    copied, [arg] for the variable, the fresh variable of the copy of its
    Lambda for a variable whose Lambda was copied, and the child itself
    when it has none of these; the variable of the copy of a Lambda is a
    Var node that the pass allocated. *)
Theorem upcopy_pass_copies_by_substitution (P : Type) fuel (st st1 st2 : State P)
  (fn arg b v : addr) (f : Node P) :
  graph_inv st ->
  nodes st !! fn = Some f -> payload f = lambda b v ->
  set_cache fn STOP st = Done st1 ->
  upcopy fuel st1 arg v UPLINK_NA = Done st2 ->
  forall q m k, nodes st !! q = Some m ->
    node_type m = NODE_APP \/ node_type m = NODE_LAMBDA ->
    cache_of st2 q = Some (Cached k) ->
    exists mk, nodes st2 !! k = Some mk /\ nodes st !! k = None /\
      substituted st1 v arg st2 (payload m) (payload mk).
Proof.
  intros G Hf Hpf H1 H2 q m k Hq Ht Hc.
  assert (R := upcopy_pass_result fuel st st1 st2 fn arg b v f G Hf Hpf H1 H2).
  destruct (set_cache_shape _ _ _ _ H1) as [_ S1].
  assert (Sq := S1 q). rewrite Hq in Sq.
  destruct (nodes st1 !! q) as [m1|] eqn:Hq1; [|done]. destruct Sq as (Hp1 & _).
  assert (Hi : inner st1 q).
  { exists m1. split; [done|]. unfold node_type in *. by rewrite Hp1. }
  destruct (copy_substituted st1 st2 fn v arg R q m1 k Hq1 Hi Hc) as (mk & Hk & Hk1 & Hs).
  exists mk. split_and!; [done| |by rewrite <- Hp1].
  specialize (S1 k). rewrite Hk1 in S1. by destruct (nodes st !! k).
Qed.

(** X22: an upcopy pass copies the nodes above the variable and no others.
    Under the hypotheses of X21 an App or Lambda holds a copy when the pass
    returns exactly if it is reached from the variable by steps that go
    from a node to a recorded parent other than the Lambda under reduction,
    or from a Lambda to its variable. *)
Theorem upcopy_pass_copies_what_lies_above (P : Type) fuel (st st1 st2 : State P)
  (fn arg b v : addr) (f : Node P) :
  graph_inv st ->
  nodes st !! fn = Some f -> payload f = lambda b v ->
  set_cache fn STOP st = Done st1 ->
  upcopy fuel st1 arg v UPLINK_NA = Done st2 ->
  forall q m, nodes st !! q = Some m ->
    node_type m = NODE_APP \/ node_type m = NODE_LAMBDA ->
    ((exists k, cache_of st2 q = Some (Cached k)) <-> rtc (copy_step st fn) v q).
Proof.
  intros G Hf Hpf H1 H2 q m Hq Ht.
  assert (R := upcopy_pass_result fuel st st1 st2 fn arg b v f G Hf Hpf H1 H2).
  destruct (set_cache_shape _ _ _ _ H1) as [_ S1].
  assert (Sq := S1 q). rewrite Hq in Sq.
  destruct (nodes st1 !! q) as [m1|] eqn:Hq1; [|done]. destruct Sq as (Hp1 & _).
  assert (Hi : inner st1 q).
  { exists m1. split; [done|]. unfold node_type in *. by rewrite Hp1. }
  rewrite (copied_iff_above st1 st2 fn v arg R q Hi).
  assert (St : forall c q', copy_step st1 fn c q' <-> copy_step st fn c q').
  { intros c q'. unfold copy_step, binds.
    split; (intros [[Hne (mc & t & Hc & Hu)]|(mc & bc & Hc & Hpc)]; [left|right]).
    - split; [done|]. specialize (S1 c). rewrite Hc in S1.
      destruct (nodes st !! c) as [mc0|]; [|done]. destruct S1 as (_ & Hu1 & _).
      exists mc0, t. by rewrite <- Hu1.
    - specialize (S1 c). rewrite Hc in S1.
      destruct (nodes st !! c) as [mc0|]; [|done]. destruct S1 as (Hp & _).
      exists mc0, bc. by rewrite <- Hp.
    - split; [done|]. specialize (S1 c). rewrite Hc in S1.
      destruct (nodes st1 !! c) as [mc1|]; [|done]. destruct S1 as (_ & Hu1 & _).
      exists mc1, t. by rewrite Hu1.
    - specialize (S1 c). rewrite Hc in S1.
      destruct (nodes st1 !! c) as [mc1|]; [|done]. destruct S1 as (Hp & _).
      exists mc1, bc. by rewrite Hp. }
  split; intros H; (eapply rtc_subrel; [|exact H]); intros c q'; apply St.
Qed.

(** ** [clear] after the pass *)

Section ClearStart.
Context {P : Type}.
Implicit Types (st : State P) (m : Node P).

Lemma uplinks_length_bound (M : gmap addr (Node P)) :
  exists B, forall a m, M !! a = Some m -> length (uplinks m) <= B.
Proof.
  induction M as [|a m M Ha _ [B HB]] using map_first_key_ind.
  - exists 0. intros a m Hm. by rewrite lookup_empty in Hm.
  - exists (max B (length (uplinks m))). intros a' m' Hm'.
    destruct (decide (a' = a)) as [->|Hne].
    + rewrite lookup_insert_eq in Hm'. injection Hm' as <-. lia.
    + rewrite lookup_insert_ne in Hm' by done. specialize (HB _ _ Hm'). lia.
Qed.

Section ClearFacts.
Variables (st1 st2 st3 : State P) (fn x arg : addr).
Hypothesis R : pass_result st1 st2 fn x arg.
Hypothesis Harg : is_Some (nodes st1 !! arg).
Hypothesis VL : forall g w, binds st1 g w -> is_Some (nodes st1 !! w).
Hypothesis H3 : set_cache fn NULL st2 = Done st3.

Lemma old_live_after a : is_Some (nodes st1 !! a) -> is_Some (nodes st2 !! a).
Proof.
  intros [m0 H0].
  destruct (pi_static _ _ (pe_inv _ _ _ (pr_ext _ _ _ _ _ R)) _ _ H0) as (m & ? & _).
  eauto.
Qed.

Lemma image_live c c' : image st1 x arg st2 c c' -> is_Some (nodes st2 !! c').
Proof.
  intros [[Hi Hc]|[[-> ->]|(g & k & mk & b & Hb & Hc & Hk & Hp)]].
  - by destruct (pe_copy _ _ _ (pr_ext _ _ _ _ _ R) _ _ Hi Hc).
  - by apply old_live_after.
  - destruct Hb as (mg & bg & Hg & Hpg).
    destruct (pr_content _ _ _ _ _ R g mg k Hg) as (mk' & Hk' & Hcp);
      [eauto using lambda_inner|done|].
    rewrite Hk in Hk'. injection Hk' as <-. rewrite Hpg, Hp in Hcp. cbn in Hcp.
    destruct Hcp as (_ & _ & mv & Hv & _). eauto.
Qed.

Lemma clear_ready_start : clear_ready st1 st3.
Proof.
  assert (X := pr_ext _ _ _ _ _ R). assert (I := pe_inv _ _ _ X).
  destruct (set_cache_shape _ _ _ _ H3) as [_ S3].
  assert (L3 : forall a, is_Some (nodes st2 !! a) -> is_Some (nodes st3 !! a)).
  { intros a [m Hm]. specialize (S3 a). rewrite Hm in S3.
    destruct (nodes st3 !! a); [eauto|done]. }
  assert (Bk : forall a k, cache_of st3 a = Some (Cached k) ->
            cache_of st2 a = Some (Cached k)).
  { intros a k Hc. rewrite (set_cache_cache _ _ _ _ _ H3) in Hc.
    destruct (decide (a = fn)); [done|done]. }
  split.
  - intros q m0 k H0 Hi Hc. apply Bk in Hc.
    destruct (pr_content _ _ _ _ _ R q m0 k H0 Hi Hc) as (mk & Hk & Hcp).
    assert (Sk := S3 k). rewrite Hk in Sk.
    destruct (nodes st3 !! k) as [mk3|] eqn:Hk3; [|done]. destruct Sk as (Hp3 & _).
    exists mk3. split; [done|]. rewrite Hp3.
    assert (Child : forall t c c', slot_of (payload m0) t = Some c ->
              c' = c \/ image st1 x arg st2 c c' -> is_Some (nodes st3 !! c')).
    { intros t c c' Hs [->|Him]; apply L3; [|by eapply image_live].
      apply old_live_after.
      destruct (eo_complete _ _ (pr_edges _ _ _ _ _ R) q m0 t c H0 Hs) as (mc & ? & _);
        [by intros []|eauto]. }
    destruct (payload m0) as [l r|b v| |] eqn:E0, (payload mk) as [l' r'|b' v'| |];
      try done; cbn in Hcp |- *.
    + destruct Hcp as [Hl Hr]. split.
      * by apply (Child UPLINK_APPL l).
      * by apply (Child UPLINK_APPR r).
    + destruct Hcp as (Hb & _). split.
      * apply (Child UPLINK_NA b); auto.
      * apply L3, old_live_after, (VL q). by exists m0, b.
  - intros a Hi Hs. rewrite (set_cache_cache _ _ _ _ _ H3) in Hs.
    destruct (decide (a = fn)) as [->|Hne]; [done|].
    assert (H1 := pe_stop _ _ _ X a Hi Hs).
    rewrite (pr_null _ _ _ _ _ R a Hi Hne) in H1. done.
Qed.
End ClearFacts.
End ClearStart.

Section CopyPhase.
Context {P : Type}.
Implicit Types (st : State P) (m : Node P).

(** The pass followed by [clear] leaves a well-formed store in which every
    old node has its payload, and its uplink list with records added at
    the tail. *)
Lemma copy_phase_inv fuelp fuel st st1 st2 st3 st4 (fn arg b v : addr) f :
  graph_inv st ->
  nodes st !! fn = Some f -> payload f = lambda b v ->
  set_cache fn STOP st = Done st1 ->
  upcopy fuelp st1 arg v UPLINK_NA = Done st2 ->
  set_cache fn NULL st2 = Done st3 ->
  clear fuel st3 v = Done st4 ->
  graph_inv st4 /\
  forall x m, nodes st !! x = Some m ->
    exists m4, nodes st4 !! x = Some m4 /\ payload m4 = payload m /\
      exists ext, uplinks m4 = uplinks m ++ ext.
Proof.
  intros G Hf Hpf H1 H2 H3 H4.
  assert (R := upcopy_pass_result fuelp st st1 st2 fn arg b v f G Hf Hpf H1 H2).
  destruct (set_cache_shape _ _ _ _ H1) as [N1 S1].
  assert (X2 := pr_ext _ _ _ _ _ R). assert (I2 := pe_inv _ _ _ X2).
  assert (SC := pr_scoped _ _ _ _ _ R). assert (E1 := pr_edges _ _ _ _ _ R).
  assert (Hfn2 := pr_stop _ _ _ _ _ R).
  assert (STOP0 : forall x, inner st1 x -> cache_of st1 x = Some STOP -> x = fn).
  { intros x Hx Hc. destruct (decide (x = fn)); [done|].
    rewrite (pr_null _ _ _ _ _ R) in Hc; done. }
  destruct (set_cache_shape _ _ _ _ H3) as [N3 S3].
  destruct (clear_after_pass st1 v fn SC E1 STOP0 (pr_var _ _ _ _ _ R) fuel st2 st3 st4
              X2 Hfn2 H3 H4) as (E4 & C34 & B4 & All).
  split.
  - split; try done.
    + eapply binders_ok_cleared; [exact C34|].
      eapply binders_ok_set_cache; [exact H3|]. apply (pe_binders _ _ _ X2).
    + intros x (m4 & Hm4 & Ht). rewrite (cache_of_Some _ _ _ Hm4).
      destruct (nodes st1 !! x) as [m0|] eqn:H0.
      * rewrite <- (cache_of_Some _ _ _ Hm4). apply All.
        destruct (cb_old _ _ B4 _ _ H0) as (m4' & Hm4' & Hp4 & _).
        rewrite Hm4 in Hm4'. injection Hm4' as <-.
        exists m0. split; [done|]. unfold node_type in *. by rewrite <- Hp4.
      * f_equal. eapply (cb_new _ _ B4); eauto.
    + intros x Hx. rewrite (cl_next _ _ C34), N3 in Hx.
      apply (cl_dead _ _ C34). specialize (S3 x).
      rewrite (pi_fresh _ _ I2 x Hx) in S3. by destruct (nodes st3 !! x).
  - intros x m Hm. specialize (S1 x). rewrite Hm in S1.
    destruct (nodes st1 !! x) as [m1|] eqn:Hm1; [|done]. destruct S1 as (Hp1 & Hu1 & _).
    destruct (cb_old _ _ B4 _ _ Hm1) as (m4 & Hm4 & Hp4 & ext & Hu4).
    exists m4. split_and!; [done|congruence|]. exists ext. congruence.
Qed.
End CopyPhase.

(** X23: [clear] runs to completion after an upcopy pass.  On a well-formed
    store in which the variable of every Lambda is allocated, once the pass
    of a beta step on the redex [(fn arg)] has returned and [fn->cache] is
    reset, [clear(fn->lambda.var)] returns for every recursion budget from
    some point on: it dereferences no freed node, meets no [STOP] and no
    parent that is not an App or a Lambda; the store is then well formed
    again. *)
Theorem clear_returns_after_pass (P : Type) fuelp (st st1 st2 : State P)
  (a fn arg b v : addr) (n f : Node P) :
  graph_inv st ->
  (forall g w, binds st g w -> is_Some (nodes st !! w)) ->
  nodes st !! a = Some n -> payload n = app fn arg ->
  nodes st !! fn = Some f -> payload f = lambda b v ->
  set_cache fn STOP st = Done st1 ->
  upcopy fuelp st1 arg v UPLINK_NA = Done st2 ->
  exists st3, set_cache fn NULL st2 = Done st3 /\
    exists fuel0, forall fuel, fuel0 <= fuel ->
      exists st4, clear fuel st3 v = Done st4 /\ graph_inv st4.
Proof.
  intros G VL Ha Hpa Hf Hpf H1 H2.
  assert (R := upcopy_pass_result fuelp st st1 st2 fn arg b v f G Hf Hpf H1 H2).
  destruct G as [E B C F].
  destruct (set_cache_shape _ _ _ _ H1) as [N1 S1].
  assert (L1 : forall x, is_Some (nodes st !! x) -> is_Some (nodes st1 !! x)).
  { intros x [m Hm]. specialize (S1 x). rewrite Hm in S1.
    destruct (nodes st1 !! x); [eauto|done]. }
  assert (Harg : is_Some (nodes st1 !! arg)).
  { apply L1. destruct (eo_complete _ _ E a n UPLINK_APPR arg Ha) as (m & ? & _);
      [by rewrite Hpa|by intros []|eauto]. }
  assert (VL1 : forall g w, binds st1 g w -> is_Some (nodes st1 !! w)).
  { intros g w (mg & bg & Hg & Hpg). apply L1, (VL g). specialize (S1 g).
    rewrite Hg in S1. destruct (nodes st !! g) as [mg0|] eqn:Hg0; [|done].
    destruct S1 as (Hp & _). exists mg0, bg. split; congruence. }
  assert (X2 := pr_ext _ _ _ _ _ R). assert (I2 := pe_inv _ _ _ X2).
  assert (SC := pr_scoped _ _ _ _ _ R). assert (E1 := pr_edges _ _ _ _ _ R).
  assert (Hfn2 := pr_stop _ _ _ _ _ R).
  assert (STOP0 : forall x, inner st1 x -> cache_of st1 x = Some STOP -> x = fn).
  { intros x Hx Hc. destruct (decide (x = fn)); [done|].
    rewrite (pr_null _ _ _ _ _ R) in Hc; done. }
  destruct (set_cache_total st2 fn NULL) as [st3 H3].
  { apply (old_live_after st1 st2 fn v arg R), L1. eauto. }
  exists st3. split; [done|].
  destruct (clear_inv_start st1 v fn E1 STOP0 st2 st3 X2 Hfn2 H3)
    as (CI3 & _).
  assert (CR3 := clear_ready_start st1 st2 st3 fn v arg R Harg VL1 H3).
  destruct (uplinks_length_bound (nodes st3)) as [B0 HB].
  set (U := dom (nodes st3)).
  set (L := B0 + 2 * size U).
  exists (S ((L + 1) + (L + 2) * size U)). intros fuel Hfuel.
  destruct (set_cache_shape _ _ _ _ H3) as [N3 S3].
  destruct (clear_from_total st1 L fuel st3 v 0 U) as (st4 & _ & H4 & _); try done.
  { intros x k _ Hc. apply elem_of_dom. unfold cache_of in Hc.
    destruct (nodes st3 !! x); [eauto|done]. }
  { intros x m Hm. specialize (HB x m Hm). unfold L. lia. }
  { specialize (S3 v).
    destruct (old_live_after st1 st2 fn v arg R v) as [m2 Hm2].
    { apply (VL1 fn), (pr_binds _ _ _ _ _ R). }
    rewrite Hm2 in S3. destruct (nodes st3 !! v); [eauto|done]. }
  { lia. }
  exists st4. split; [done|].
  eapply (copy_phase_inv fuelp fuel st st1 st2 st3 st4); eauto.
  by split.
Qed.

(** ** The result of a beta step *)

Section Redirect.
Context {P : Type}.
Implicit Types (st : State P) (m : Node P).

Lemma payload_upd_aligned b (p p' : Payload P) t :
  payload_upd b p p' -> is_Some (slot_of p t) -> is_Some (slot_of p' t).
Proof. destruct p, p', t; cbn; try done; intros _ [? [=]]. Qed.

Lemma upreplace_sets_slot fuel st (r p : addr) t st' m :
  upreplace fuel st r p t = Done st' ->
  nodes st !! p = Some m -> is_Some (slot_of (payload m) t) ->
  forall m', nodes st' !! p = Some m' -> slot_of (payload m') t = Some r.
Proof.
  intros H Hm [old Hs] m' Hm'.
  destruct (upreplace_Done _ _ _ _ _ _ _ _ H Hm Hs) as (st1 & st2 & st3 & _ & H2 & H3 & H4).
  apply set_payload_Done in H2 as (m2 & Hm2 & ->).
  apply uplinks_add_Done in H3 as (m3 & Hm3 & ->).
  apply cleanup_shrinks in H4. destruct H4 as [_ S].
  destruct (S _ _ Hm') as (m4 & Hm4 & -> & _). cbn in Hm4, Hm3.
  destruct (decide (p = r)) as [->|Hne].
  - rewrite lookup_insert_eq in Hm4, Hm3. injection Hm3 as <-. injection Hm4 as <-.
    cbn. eauto using slot_of_set_slot.
  - rewrite lookup_insert_ne, lookup_insert_eq in Hm4 by done. injection Hm4 as <-.
    cbn. eauto using slot_of_set_slot.
Qed.

Lemma upreplace_all_slots fuel (r : addr) : forall l st st',
  upreplace_all fuel st r l = Done st' ->
  (forall u m, u ∈ l -> nodes st !! up_link u = Some m ->
     is_Some (slot_of (payload m) (up_type u))) ->
  forall u m', u ∈ l -> nodes st' !! up_link u = Some m' ->
    slot_of (payload m') (up_type u) = Some r.
Proof.
  unfold upreplace_all.
  induction l as [|[p t] l IH]; intros st st' H Al u m' Hu Hm'.
  { by apply elem_of_nil in Hu. }
  cbn in H. apply bind_Done in H as (st1 & H1 & H).
  assert (S1 := upreplace_spliced _ _ _ _ _ _ H1).
  assert (Al1 : forall u m, u ∈ l -> nodes st1 !! up_link u = Some m ->
            is_Some (slot_of (payload m) (up_type u))).
  { intros u1 m1 Hu1 Hm1. destruct S1 as [_ S1].
    destruct (S1 _ _ Hm1) as (m0 & Hm0 & _ & Hup).
    eapply payload_upd_aligned; [exact Hup|]. apply (Al u1); [by right|done]. }
  assert (Srest : spliced r st1 st').
  { clear -H. revert st1 H. induction l as [|c l IHl]; intros st1 H.
    - injection H as <-. apply spliced_refl.
    - cbn in H. apply bind_Done in H as (st2 & H2 & H).
      eapply spliced_trans; [eapply upreplace_spliced; exact H2|eauto]. }
  apply elem_of_cons in Hu as [->|Hu]; [|eauto]. cbn in *.
  destruct Srest as [_ Sr]. destruct (Sr _ _ Hm') as (m1 & Hm1 & _ & Hup).
  destruct S1 as [_ S1']. destruct (S1' _ _ Hm1) as (m0 & Hm0 & _).
  eapply payload_upd_slot; [exact Hup|].
  eapply (upreplace_sets_slot fuel st r p t st1 m0); eauto.
  apply (Al (mkUplink p t)); [by left|done].
Qed.
End Redirect.

(** X24: a beta step puts its result where the redex was.  When
    [beta_reduce] returns on a redex [(fn arg)], [fn = \v. b], that has
    parents, on a well-formed store, there is one node [r] that every
    parent recorded on the redex (and still allocated) holds in the slot
    its record names: [r] is the body [b] when the variable has no uplink
    record, and otherwise what the cache of [b] holds when the upcopy pass
    returns. *)
Theorem beta_reduce_redirects_parents (P : Type) fuel (st st' : State P)
  (a fn arg b v : addr) (n f vn : Node P) :
  graph_inv st ->
  nodes st !! a = Some n -> payload n = app fn arg ->
  nodes st !! fn = Some f -> payload f = lambda b v ->
  nodes st !! v = Some vn ->
  uplinks n <> [] ->
  beta_reduce fuel st a = Done st' ->
  exists r,
    (forall u mp', u ∈ uplinks n -> nodes st' !! up_link u = Some mp' ->
       slot_of (payload mp') (up_type u) = Some r) /\
    (uplinks vn = [] -> r = b) /\
    (uplinks vn <> [] ->
       exists st1 st2, set_cache fn STOP st = Done st1 /\
         upcopy fuel st1 arg v UPLINK_NA = Done st2 /\
         cache_of st2 b = Some (Cached r)).
Proof.
  intros G Hn Hpn Hf Hpf Hv Hne H. unfold beta_reduce in H.
  rewrite (deref_eq _ _ _ Hn) in H. cbn [mbind outcome_bind obind] in H.
  rewrite Hpn, (deref_eq _ _ _ Hf) in H. cbn [mbind outcome_bind obind] in H.
  rewrite Hpf, (deref_eq _ _ _ Hv) in H. cbn [mbind outcome_bind obind] in H.
  assert (Slots : forall st5 n5 r ext, graph_inv st5 -> nodes st5 !! a = Some n5 ->
            uplinks n5 = uplinks n ++ ext ->
            upreplace_all fuel st5 r (uplinks n5) = Done st' ->
            forall u mp', u ∈ uplinks n -> nodes st' !! up_link u = Some mp' ->
              slot_of (payload mp') (up_type u) = Some r).
  { intros st5 n5 r ext G5 Hn5 Hu5 Hr u mp' Hu Hmp'.
    eapply (upreplace_all_slots fuel r (uplinks n5) st5 st'); try done.
    - intros u' m' Hu' Hm'.
      destruct (eo_sound _ _ (gi_edges _ G5) a n5 u' Hn5 Hu') as (mp & Hmp & Hs & _).
      rewrite Hm' in Hmp. injection Hmp as <-. eauto.
    - rewrite Hu5. apply elem_of_app. by left. }
  destruct (uplinks vn) as [|u0 l0] eqn:Huv.
  - cbn [mbind outcome_bind obind] in H. rewrite (deref_eq _ _ _ Hn) in H.
    cbn [mbind outcome_bind obind] in H.
    destruct (uplinks n) as [|u1 l1] eqn:Hun; [done|]. rewrite <- Hun in *.
    exists b. split_and!; [|done|done].
    eapply (Slots st n b []); try done. by rewrite app_nil_r.
  - apply bind_Done in H as ([result st5] & Hr & H).
    apply bind_Done in Hr as (st1 & H1 & Hr).
    apply bind_Done in Hr as (st2 & H2 & Hr).
    apply bind_Done in Hr as (bn & Hbn & Hr). apply deref_Done in Hbn.
    apply bind_Done in Hr as (st3 & H3 & Hr).
    apply bind_Done in Hr as (st4 & H4 & Hr). injection Hr as <- <-.
    destruct (copy_phase_inv fuel fuel st st1 st2 st3 st4 fn arg b v f G Hf Hpf H1 H2 H3 H4)
      as (G4 & Old).
    destruct (Old _ _ Hn) as (n4 & Hn4 & _ & ext & Hu4).
    rewrite (deref_eq _ _ _ Hn4) in H. cbn [mbind outcome_bind obind] in H.
    destruct (uplinks n4) as [|u1 l1] eqn:Hun4.
    { destruct (uplinks n); [done|discriminate]. }
    destruct (cache bn) as [| |r] eqn:Hcb; try discriminate.
    rewrite <- Hun4 in *.
    exists r. split_and!; [|done|].
    + eapply (Slots st4 n4 r ext); done.
    + intros _. exists st1, st2. split_and!; try done.
      by rewrite (cache_of_Some _ _ _ Hbn), Hcb.
Qed.

(** ** Heads *)

Section HeadsMore.
Context {P : Type}.
Implicit Types (st : State P) (m n : Node P).

#[local] Arguments new_Node : simpl never.

Lemma wrap_effect st (body : addr) mb :
  (forall a, (next st <= a)%positive -> nodes st !! a = None) ->
  nodes st !! body = Some mb ->
  let v := next st in
  let d := Pos.succ (next st) in
  make_head st body =
  Done (mkHead d,
        mkState (<[body := mkNode (cache mb) (uplinks mb ++ [mkUplink d UPLINK_NA])
                              (payload mb)]>
                 (<[d := mkNode NULL [] (lambda body v)]>
                  (<[v := mkNode NULL [] var]> (nodes st))))
                (Pos.succ d)).
Proof.
  intros F Hb v d. unfold make_head, Var, Fun.
  rewrite (new_Node_eq st). cbn beta iota zeta.
  rewrite (new_Node_eq (new_Node st _).2). cbn beta iota zeta.
  assert (Hbv : body <> v) by (intros ->; rewrite F in Hb; [done|unfold v; lia]).
  assert (Hbd : body <> d) by (intros ->; rewrite F in Hb; [done|unfold d; lia]).
  unfold uplinks_add, deref, new_Node. cbn.
  rewrite !lookup_insert_ne by done. rewrite Hb. cbn. done.
Qed.
End HeadsMore.

(** X7: [free_head] on a head that has been copied frees no node.
    [copy_head] puts an uplink record on the dummy of the head it copies,
    so the [cleanup] in [free_head] returns at its first test: the nodes
    are exactly those of before, and the dummy of the freed head is still
    allocated, as the body of the copy's dummy.  (The code deletes the Head
    object all the same; the statement is about the nodes.) *)
Theorem free_head_of_copied_head (P : Type) (st st' : State P) other h fuel :
  copy_head st other = Done (h, st') ->
  exists st'', free_head (S fuel) st' other = Done st'' /\
    nodes st'' = nodes st' /\
    exists d v, nodes st'' !! dummy h = Some d /\
      payload d = lambda (dummy other) v /\
      is_Some (nodes st'' !! dummy other).
Proof.
  unfold copy_head, Var, Fun. intros H.
  rewrite (new_Node_eq st) in H. cbn beta iota zeta in H.
  rewrite (new_Node_eq (new_Node st _).2) in H. cbn beta iota zeta in H.
  apply bind_Done in H as ([d st2] & H & H'). injection H' as Hh Hs. subst h st'.
  apply bind_Done in H as (st3 & Ha & H). injection H as Hd Hs. subst d st2.
  apply uplinks_add_Done in Ha as (m & Hm & ->).
  match goal with |- context [free_head _ ?s _] => exists s end. split.
  - unfold free_head. cbn [cleanup]. unfold deref, store. cbn [nodes].
    rewrite lookup_insert_eq. cbn. by destruct (uplinks m).
  - split; [done|]. unfold new_Node in Hm |- *. cbn in Hm |- *.
    rewrite lookup_insert_eq.
    destruct (decide (dummy other = Pos.succ (next st))) as [E|Hne].
    + rewrite E, lookup_insert_eq in Hm. injection Hm as <-.
      rewrite E. rewrite lookup_insert_eq. cbn. eauto.
    + rewrite lookup_insert_ne by done. rewrite lookup_insert_eq. cbn. eauto.
Qed.

Section HeadsLeak.
Context {P : Type}.
Implicit Types (st : State P) (m n : Node P).

(** Freeing the head that [make_head] has just made over a node with another
    owner. *)
Lemma make_head_free_head st (body : addr) mb fuel :
  graph_inv st ->
  nodes st !! body = Some mb -> uplinks mb <> [] ->
  exists st1, make_head st body = Done (mkHead (Pos.succ (next st)), st1) /\
    nodes st1 !! Pos.succ (next st) = Some (mkNode NULL [] (lambda body (next st))) /\
    (forall x, x <> body -> x <> next st -> x <> Pos.succ (next st) ->
       nodes st1 !! x = nodes st !! x) /\
    (exists nb, nodes st1 !! body = Some nb /\ payload nb = payload mb) /\
    free_head (S (S fuel)) st1 (mkHead (Pos.succ (next st))) = Done (leaked_var st).
Proof.
  intros G Hb Hne.
  assert (F := gi_fresh _ G).
  assert (Hbv : body <> next st) by (intros ->; rewrite F in Hb; [done|lia]).
  assert (Hbd : body <> Pos.succ (next st)) by (intros ->; rewrite F in Hb; [done|lia]).
  assert (W := wrap_effect st body mb F Hb). cbn zeta in W.
  set (d := Pos.succ (next st)) in *.
  set (nb := mkNode (cache mb) (uplinks mb ++ [mkUplink d UPLINK_NA]) (payload mb)) in *.
  set (nd := mkNode NULL [] (lambda body (next st))) in *.
  set (nv := mkNode NULL [] (@var P)) in *.
  set (st1 := mkState (<[body := nb]> (<[d := nd]> (<[next st := nv]> (nodes st))))
                (Pos.succ d)) in *.
  assert (Ld : nodes st1 !! d = Some nd).
  { unfold st1. cbn. rewrite lookup_insert_ne by done. apply lookup_insert_eq. }
  assert (Lb : nodes st1 !! body = Some nb).
  { unfold st1. cbn. apply lookup_insert_eq. }
  exists st1. split_and!; try done.
  { intros x H1 H2 H3. unfold st1. cbn [nodes]. by rewrite !lookup_insert_ne. }
  { exists nb. done. }
  unfold free_head. cbn [dummy cleanup]. rewrite (deref_eq _ _ _ Ld).
  cbn [mbind outcome_bind obind uplinks payload nd].
  unfold uplinks_unlink. rewrite (deref_eq _ _ _ Lb).
  cbn [mbind outcome_bind obind uplinks payload cache nb].
  assert (Hn : mkUplink d UPLINK_NA ∉ uplinks mb).
  { intros Hin. destruct (eo_sound _ _ (gi_edges _ G) _ _ _ Hb Hin) as (mp & Hmp & _).
    cbn in Hmp. rewrite F in Hmp; [done|unfold d; lia]. }
  assert (Hun : unlink_list d UPLINK_NA (uplinks mb ++ [mkUplink d UPLINK_NA])
                = Some (uplinks mb)).
  { clear -Hn. induction (uplinks mb) as [|u l IH].
    - apply unlink_list_head.
    - apply not_elem_of_cons in Hn as [Hu Hl]. rewrite <- app_comm_cons. cbn [unlink_list].
      destruct (Uplink_matches _ _ u) eqn:E.
      + apply Uplink_matches_true in E. congruence.
      + by rewrite IH. }
  rewrite Hun. cbn [mbind outcome_bind obind].
  replace (mkNode (cache mb) (uplinks mb) (payload mb)) with mb by (by destruct mb).
  set (st2 := store body mb st1).
  assert (Lb2 : nodes st2 !! body = Some mb) by apply lookup_insert_eq.
  assert (Ld2 : nodes st2 !! d = Some nd).
  { unfold st2, store. cbn [nodes]. by rewrite lookup_insert_ne. }
  rewrite (deref_eq _ _ _ Lb2). cbn [mbind outcome_bind obind].
  destruct (uplinks mb) as [|u l] eqn:Eu; [done|]. cbn [mbind outcome_bind obind].
  unfold delete_Node. rewrite Ld2.
  unfold leaked_var. f_equal. f_equal.
  apply map_eq. intros i. unfold st2, store, st1. cbn [nodes].
  destruct (decide (i = d)) as [->|Hd].
  - rewrite lookup_delete_eq. rewrite lookup_insert_ne by (unfold d; lia).
    symmetry. apply F. unfold d. lia.
  - rewrite lookup_delete_ne by done.
    destruct (decide (i = body)) as [->|Hib].
    + rewrite lookup_insert_eq. rewrite lookup_insert_ne by done. done.
    + rewrite !(lookup_insert_ne _ body) by done. rewrite (lookup_insert_ne _ d) by done.
      done.
Qed.
End HeadsLeak.

(** X8: [make_head] followed by [free_head] on a node that has another
    owner.  Both calls return, and afterwards every node of the store is as
    it was; the one difference is the Var node that [make_head] allocated
    for the dummy Lambda, which stays allocated. *)
Theorem make_head_then_free_head (P : Type) (st : State P) (body : addr) mb fuel :
  graph_inv st ->
  nodes st !! body = Some mb -> uplinks mb <> [] ->
  exists h st1, make_head st body = Done (h, st1) /\
    nodes st1 !! dummy h = Some (mkNode NULL [] (lambda body (next st))) /\
    free_head (S (S fuel)) st1 h = Done (leaked_var st) /\
    nodes (leaked_var st) !! next st = Some (mkNode NULL [] var) /\
    forall x, x <> next st -> nodes (leaked_var st) !! x = nodes st !! x.
Proof.
  intros G Hb Hne.
  destruct (make_head_free_head st body mb fuel G Hb Hne) as (st1 & H1 & Hd & _ & _ & H2).
  exists (mkHead (Pos.succ (next st))), st1. split_and!; try done.
  - unfold leaked_var. cbn. apply lookup_insert_eq.
  - intros x Hx. unfold leaked_var. cbn. by rewrite lookup_insert_ne.
Qed.

(** X9: a primitive application whose [apply] answers null without touching
    the store.  [prim_reduce] reports no progress and leaves every node as
    it was, but the Var node of the head it made over the argument stays
    allocated: each such attempt costs one node. *)
Theorem prim_reduce_rejection_leaks_var (P : Type)
  (prim_apply : (State P -> Head -> outcome (bool * State P)) ->
                P -> Head -> State P -> outcome (option P * State P))
  fuel reduce (st : State P) (a fn arg : addr) (n f : Node P) pn :
  graph_inv st ->
  nodes st !! a = Some n -> payload n = app fn arg ->
  nodes st !! fn = Some f -> payload f = prim pn ->
  (forall h st1, make_head st arg = Done (h, st1) ->
     prim_apply reduce pn h st1 = Done (None, st1)) ->
  prim_reduce prim_apply (S (S fuel)) reduce st a = Done (false, leaked_var st).
Proof.
  intros G Ha Hpa Hf Hpf Hrej.
  destruct (eo_complete _ _ (gi_edges _ G) a n UPLINK_APPR arg Ha) as (marg & Harg & Hin).
  { by rewrite Hpa. } { by intros []. }
  assert (Hne : uplinks marg <> []).
  { intros E. rewrite E in Hin. by apply elem_of_nil in Hin. }
  destruct (make_head_free_head st arg marg fuel G Harg Hne)
    as (st1 & H1 & Hd & Ho & (nb & Hnb & Hpb) & H2).
  assert (F := gi_fresh _ G).
  assert (exists f1, nodes st1 !! fn = Some f1 /\ payload f1 = prim pn) as (f1 & Hf1 & Hpf1).
  { destruct (decide (fn = arg)) as [->|Hne'].
    - exists nb. split; [done|]. rewrite Hpb. congruence.
    - exists f. split; [|done]. rewrite Ho; try done.
      + intros ->. rewrite F in Hf; [done|lia].
      + intros ->. rewrite F in Hf; [done|lia]. }
  unfold prim_reduce. rewrite (deref_eq _ _ _ Ha). cbn [mbind outcome_bind obind].
  rewrite Hpa, H1. cbn [mbind outcome_bind obind].
  rewrite (deref_eq _ _ _ Hf1). cbn [mbind outcome_bind obind]. rewrite Hpf1.
  rewrite (Hrej _ _ H1). cbn [mbind outcome_bind obind]. rewrite H2. done.
Qed.

(** X25: a primitive application whose [apply] answers with a primitive
    without touching the store.  When [prim_reduce] returns, it reports
    progress; the node it allocated for the answer is the one every parent
    recorded on the application (and still allocated) holds in the slot its
    record names, and that node, where allocated, is a Prim node holding
    the answer. *)
Theorem prim_reduce_replaces_redex (P : Type)
  (prim_apply : (State P -> Head -> outcome (bool * State P)) ->
                P -> Head -> State P -> outcome (option P * State P))
  fuel reduce (st st' : State P) (a fn arg : addr) (n f : Node P) pn p ok :
  graph_inv st ->
  nodes st !! a = Some n -> payload n = app fn arg ->
  nodes st !! fn = Some f -> payload f = prim pn ->
  (forall h st1, make_head st arg = Done (h, st1) ->
     prim_apply reduce pn h st1 = Done (Some p, st1)) ->
  prim_reduce prim_apply (S (S fuel)) reduce st a = Done (ok, st') ->
  let r := Pos.succ (Pos.succ (next st)) in
  ok = true /\ nodes st !! r = None /\
  (forall u mp', u ∈ uplinks n -> nodes st' !! up_link u = Some mp' ->
     slot_of (payload mp') (up_type u) = Some r) /\
  (forall mr, nodes st' !! r = Some mr -> payload mr = prim p).
Proof.
  intros G Ha Hpa Hf Hpf Hacc H r.
  destruct (eo_complete _ _ (gi_edges _ G) a n UPLINK_APPR arg Ha) as (marg & Harg & Hin).
  { by rewrite Hpa. } { by intros []. }
  assert (Hne : uplinks marg <> []).
  { intros E. rewrite E in Hin. by apply elem_of_nil in Hin. }
  destruct (make_head_free_head st arg marg fuel G Harg Hne)
    as (st1 & H1 & Hd & Ho & (nb & Hnb & Hpb) & H2).
  assert (F := gi_fresh _ G).
  assert (Old : forall x m, nodes st !! x = Some m -> x <> next st /\ x <> r).
  { intros x m Hx. split; intros ->; rewrite F in Hx; try done; unfold r; lia. }
  assert (exists f1, nodes st1 !! fn = Some f1 /\ payload f1 = prim pn) as (f1 & Hf1 & Hpf1).
  { destruct (decide (fn = arg)) as [->|Hne'].
    - exists nb. split; [done|]. rewrite Hpb. congruence.
    - exists f. split; [|done]. destruct (Old _ _ Hf). rewrite Ho; try done.
      intros ->. rewrite F in Hf; [done|lia]. }
  unfold prim_reduce in H. rewrite (deref_eq _ _ _ Ha) in H.
  cbn [mbind outcome_bind obind] in H. rewrite Hpa, H1 in H.
  cbn [mbind outcome_bind obind] in H.
  rewrite (deref_eq _ _ _ Hf1) in H. cbn [mbind outcome_bind obind] in H.
  rewrite Hpf1, (Hacc _ _ H1) in H. cbn [mbind outcome_bind obind] in H.
  rewrite H2 in H. cbn [mbind outcome_bind obind] in H.
  set (N := mkNode NULL [] (prim p)) in *.
  assert (En : new_Node (leaked_var st) N = (r, (new_Node (leaked_var st) N).2))
    by reflexivity.
  rewrite En in H. clear En. set (st_r := (new_Node (leaked_var st) N).2) in *.
  assert (Lo : forall x m, nodes st !! x = Some m -> nodes st_r !! x = Some m).
  { intros x m Hx. destruct (Old _ _ Hx). unfold st_r, new_Node, leaked_var. cbn.
    by rewrite !lookup_insert_ne. }
  assert (Lr : nodes st_r !! r = Some N).
  { unfold st_r, new_Node, leaked_var. cbn. apply lookup_insert_eq. }
  rewrite (deref_eq _ _ _ (Lo _ _ Ha)) in H. cbn [mbind outcome_bind obind] in H.
  apply bind_Done in H as (st5 & H5 & H). injection H as <- <-.
  split_and!; [done|apply F; unfold r; lia| |].
  - intros u mp' Hu Hmp'.
    eapply (upreplace_all_slots (S (S fuel)) r (uplinks n) st_r st5); try done.
    intros u' m' Hu' Hm'.
    destruct (eo_sound _ _ (gi_edges _ G) a n u' Ha Hu') as (mp & Hmp & Hs & _).
    rewrite (Lo _ _ Hmp) in Hm'. injection Hm' as <-. eauto.
  - intros mr Hmr.
    assert (S : spliced r st_r st5).
    { clear -H5. unfold upreplace_all in H5. revert H5. generalize st_r.
      induction (uplinks n) as [|c l IHl]; intros s H.
      - injection H as <-. apply spliced_refl.
      - cbn in H. apply bind_Done in H as (s2 & H2 & H).
        eapply spliced_trans; [eapply upreplace_spliced; exact H2|eauto]. }
    destruct S as [_ S]. destruct (S _ _ Hmr) as (m0 & Hm0 & _ & Hup).
    rewrite Lr in Hm0. injection Hm0 as <-. cbn in Hup.
    destruct (payload mr); try done. by rewrite Hup.
Qed.

(** ** The driver *)

Section HnfFacts.
Context {P : Type}.
Implicit Types (st : State P) (m n : Node P).
Variable prim_apply :
  (State P -> Head -> outcome (bool * State P)) ->
  P -> Head -> State P -> outcome (option P * State P).

Lemma head_normal_stuck st a :
  head_normal st a ->
  exists fuel0, forall fuel, fuel0 <= fuel ->
    hnf_reduce_1 prim_apply fuel st a = Done (false, st).
Proof.
  induction 1 as [a m Hm Hp|a m p Hm Hp|a m b v Hm Hp Hb [f0 IH]
                 |a m l r ml Hm Hp Hl [f0 IH] Hml Ht].
  - exists 1. intros [|fuel] ?; [lia|]. cbn. rewrite (deref_eq _ _ _ Hm). cbn.
    by rewrite Hp.
  - exists 1. intros [|fuel] ?; [lia|]. cbn. rewrite (deref_eq _ _ _ Hm). cbn.
    by rewrite Hp.
  - exists (S f0). intros [|fuel] ?; [lia|]. cbn [hnf_reduce_1].
    rewrite (deref_eq _ _ _ Hm). cbn [mbind outcome_bind obind]. rewrite Hp.
    apply IH. lia.
  - exists (S f0). intros [|fuel] ?; [lia|]. cbn [hnf_reduce_1].
    rewrite (deref_eq _ _ _ Hm). cbn [mbind outcome_bind obind]. rewrite Hp.
    rewrite IH by lia. cbn [mbind outcome_bind obind].
    rewrite (deref_eq _ _ _ Hm). cbn [mbind outcome_bind obind]. rewrite Hp.
    rewrite (deref_eq _ _ _ Hml). cbn [mbind outcome_bind obind].
    by destruct Ht as [-> | ->].
Qed.

Lemma stuck_head_normal fuel : forall st a st',
  prim_free st ->
  hnf_reduce_1 prim_apply fuel st a = Done (false, st') ->
  head_normal st a /\ st' = st.
Proof.
  induction fuel as [|fuel IH]; intros st a st' F H; [discriminate|].
  cbn [hnf_reduce_1] in H. apply bind_Done in H as (n & Hn & H).
  apply deref_Done in Hn.
  destruct (payload n) as [l r|b v| |q] eqn:Hp.
  - apply bind_Done in H as ([red st1] & H1 & H).
    destruct red; [discriminate|].
    destruct (IH _ _ _ F H1) as [Hl ->].
    apply bind_Done in H as (n' & Hn' & H). apply deref_Done in Hn'.
    rewrite Hn in Hn'. injection Hn' as <-. rewrite Hp in H.
    apply bind_Done in H as (ln & Hln & H). apply deref_Done in Hln.
    destruct (node_type ln) eqn:Ht.
    + injection H as <-. split; [|done]. eapply hn_app; eauto.
    + apply bind_Done in H as (? & _ & H). discriminate.
    + injection H as <-. split; [|done]. eapply hn_app; eauto.
    + by destruct (F _ _ Hln).
  - destruct (IH _ _ _ F H) as [Hb ->]. split; [|done]. eapply hn_lambda; eauto.
  - injection H as <-. split; [|done]. eapply hn_var; eauto.
  - injection H as <-. split; [|done]. eapply hn_prim; eauto.
Qed.
End HnfFacts.

(** X11: when [hnf_reduce_1] reports no progress.  On a term in head normal
    form (under its leading Lambdas, applications whose head is a variable;
    or a Prim node) the call returns false and leaves the store as it is,
    for every recursion budget from some point on.  Conversely, on a store
    without Prim nodes a call that returns false was made on a term in head
    normal form, and the store is unchanged. *)
Theorem hnf_reduce_1_false_iff_head_normal (P : Type)
  (prim_apply : (State P -> Head -> outcome (bool * State P)) ->
                P -> Head -> State P -> outcome (option P * State P))
  (st : State P) (a : addr) :
  (head_normal st a ->
   exists fuel0, forall fuel, fuel0 <= fuel ->
     hnf_reduce_1 prim_apply fuel st a = Done (false, st)) /\
  (prim_free st ->
   forall fuel st', hnf_reduce_1 prim_apply fuel st a = Done (false, st') ->
     head_normal st a /\ st' = st).
Proof.
  split.
  - apply head_normal_stuck.
  - intros F fuel st' H. eapply stuck_head_normal; eauto.
Qed.

Section NoApply.
Context {P : Type}.
Implicit Types (st : State P) (m n : Node P).
Variables pa1 pa2 :
  (State P -> Head -> outcome (bool * State P)) ->
  P -> Head -> State P -> outcome (option P * State P).

Lemma hnf_reduce_1_no_apply fuel : forall st (a : addr),
  prim_free st -> hnf_reduce_1 pa1 fuel st a = hnf_reduce_1 pa2 fuel st a.
Proof.
  induction fuel as [|fuel IH]; intros st a F; [done|].
  cbn [hnf_reduce_1]. unfold deref. destruct (nodes st !! a) as [n|] eqn:Hn; [|done].
  cbn [mbind outcome_bind obind]. destruct (payload n) as [l r|b v| |q] eqn:Hp; eauto.
  rewrite (IH st l F).
  destruct (hnf_reduce_1 pa2 fuel st l) as [[red st1]| | |] eqn:H1; try done.
  cbn [mbind outcome_bind obind]. destruct red; [done|].
  destruct (hnf_reduce_1_prim_free pa2 _ _ _ _ _ H1 F) as [F1 _].
  destruct (nodes st1 !! a) as [n'|] eqn:Hn'; [|done].
  cbn [mbind outcome_bind obind]. destruct (payload n') as [l' r'| | |]; try done.
  destruct (nodes st1 !! l') as [ln|] eqn:Hl; [|done].
  cbn [mbind outcome_bind obind]. destruct (node_type ln) eqn:Ht; try done.
  by destruct (F1 _ _ Hl).
Qed.

Lemma hnf_reduce_no_apply fuel : forall st h,
  prim_free st -> hnf_reduce pa1 fuel st h = hnf_reduce pa2 fuel st h.
Proof.
  induction fuel as [|fuel IH]; intros st h F; [done|].
  cbn [hnf_reduce]. unfold hnf_reduce_1_head.
  rewrite (hnf_reduce_1_no_apply fuel st (dummy h) F).
  destruct (hnf_reduce_1 pa2 fuel st (dummy h)) as [[b st1]| | |] eqn:H1; try done.
  cbn [mbind outcome_bind obind]. destruct b; [|done].
  destruct (hnf_reduce_1_prim_free pa2 _ _ _ _ _ H1 F) as [F1 _]. eauto.
Qed.
End NoApply.

(** X10: on a store without Prim nodes the driver never calls the
    primitive's [apply]: [hnf_reduce] and [hnf_reduce_1] give the same
    outcome for any two [apply] functions, and the store [hnf_reduce]
    returns has no Prim node either. *)
Theorem hnf_reduce_never_calls_apply (P : Type)
  (pa1 pa2 : (State P -> Head -> outcome (bool * State P)) ->
             P -> Head -> State P -> outcome (option P * State P))
  fuel (st : State P) h :
  prim_free st ->
  hnf_reduce pa1 fuel st h = hnf_reduce pa2 fuel st h /\
  hnf_reduce_1_head pa1 fuel st h = hnf_reduce_1_head pa2 fuel st h /\
  forall st', hnf_reduce pa1 fuel st h = Done st' -> prim_free st'.
Proof.
  intros F. split_and!.
  - by apply hnf_reduce_no_apply.
  - by apply hnf_reduce_1_no_apply.
  - intros st' H. by destruct (hnf_reduce_fixpoint pa1 _ _ _ _ F H).
Qed.

Section Strategy.
Context {P : Type}.
Implicit Types (st : State P) (m n : Node P).
Variable prim_apply :
  (State P -> Head -> outcome (bool * State P)) ->
  P -> Head -> State P -> outcome (option P * State P).

Lemma hnf_reduce_1_step fuel : forall st (ptr : addr) st',
  prim_free st ->
  hnf_reduce_1 prim_apply fuel st ptr = Done (true, st') ->
  exists (a l r : addr) n ml fuel',
    on_spine st ptr a /\
    nodes st !! a = Some n /\ payload n = app l r /\
    nodes st !! l = Some ml /\ node_type ml = NODE_LAMBDA /\
    head_normal st l /\
    fuel' < fuel /\ beta_reduce fuel' st a = Done st'.
Proof.
  induction fuel as [|fuel IH]; intros st ptr st' F H; [discriminate|].
  cbn [hnf_reduce_1] in H. apply bind_Done in H as (n & Hn & H).
  apply deref_Done in Hn.
  destruct (payload n) as [l r|b v| |q] eqn:Hp; try discriminate.
  - apply bind_Done in H as ([red st1] & H1 & H). destruct red.
    + injection H as <-.
      destruct (IH _ _ _ F H1)
        as (a & l' & r' & na & ml & f' & Hs & Ha & Hpa & Hl & Ht & Hh & Hf & Hb).
      exists a, l', r', na, ml, f'. split_and!; try done; [|lia].
      eapply sp_app; eauto.
    + destruct (stuck_head_normal prim_apply _ _ _ _ F H1) as [Hh ->].
      apply bind_Done in H as (n' & Hn' & H). apply deref_Done in Hn'.
      rewrite Hn in Hn'. injection Hn' as <-. rewrite Hp in H.
      apply bind_Done in H as (ln & Hln & H). apply deref_Done in Hln.
      destruct (node_type ln) eqn:Ht; try discriminate.
      * apply bind_Done in H as (st2 & H2 & H). injection H as <-.
        exists ptr, l, r, n, ln, fuel. split_and!; try done; [apply sp_here|lia].
      * by destruct (F _ _ Hln).
  - destruct (IH _ _ _ F H)
      as (a & l' & r' & na & ml & f' & Hs & Ha & Hpa & Hl & Ht & Hh & Hf & Hb).
    exists a, l', r', na, ml, f'. split_and!; try done; [|lia].
    eapply sp_lambda; eauto.
Qed.
End Strategy.

(** X19: what a step that reports progress has done.  On a store without
    Prim nodes, when [hnf_reduce_1] returns true the new store is the result
    of one [beta_reduce], at an App of the head spine whose function is a
    Lambda already in head normal form: the spine is searched under Lambdas
    and to the left of Apps, and the innermost redex on it is the one
    reduced. *)
Theorem hnf_reduce_1_progress_is_one_beta_step (P : Type)
  (prim_apply : (State P -> Head -> outcome (bool * State P)) ->
                P -> Head -> State P -> outcome (option P * State P))
  fuel (st st' : State P) (ptr : addr) :
  prim_free st ->
  hnf_reduce_1 prim_apply fuel st ptr = Done (true, st') ->
  exists (a l r : addr) n ml fuel',
    on_spine st ptr a /\
    nodes st !! a = Some n /\ payload n = app l r /\
    nodes st !! l = Some ml /\ node_type ml = NODE_LAMBDA /\
    head_normal st l /\
    fuel' < fuel /\ beta_reduce fuel' st a = Done st'.
Proof. apply hnf_reduce_1_step. Qed.

(** X20: when [hnf_reduce] returns on a store without Prim nodes, the term
    under the head is in head normal form. *)
Theorem hnf_reduce_ends_in_head_normal_form (P : Type)
  (prim_apply : (State P -> Head -> outcome (bool * State P)) ->
                P -> Head -> State P -> outcome (option P * State P))
  fuel (st st' : State P) h :
  prim_free st ->
  hnf_reduce prim_apply fuel st h = Done st' ->
  head_normal st' (dummy h).
Proof.
  revert st. induction fuel as [|fuel IH]; intros st F H; [discriminate|].
  cbn [hnf_reduce] in H. apply bind_Done in H as ([b st1] & H1 & H).
  unfold hnf_reduce_1_head in H1. destruct b.
  - destruct (hnf_reduce_1_prim_free _ _ _ _ _ _ H1 F) as [F1 _]. eauto.
  - injection H as <-.
    by destruct (stuck_head_normal prim_apply _ _ _ _ F H1) as [Hh ->].
Qed.

(** ** cleanup *)

Section CleanupTotal.
Context {P : Type}.
Implicit Types (st : State P) (m n : Node P).
Variable rank : addr -> nat.

Lemma unlink_present st (c p : addr) t mc :
  nodes st !! c = Some mc -> mkUplink p t ∈ uplinks mc ->
  exists l, unlink_list p t (uplinks mc) = Some l /\
    uplinks_unlink c p t st = Done (store c (mkNode (cache mc) l (payload mc)) st).
Proof.
  intros Hc Hin. assert (H := unlink_list_split p t (uplinks mc)).
  unfold uplinks_unlink. rewrite (deref_eq _ _ _ Hc). cbn.
  destruct (unlink_list p t (uplinks mc)) as [l|]; [eauto|done].
Qed.

Lemma unlink_keeps st st' (c p : addr) t x mx :
  uplinks_unlink c p t st = Done st' -> nodes st !! x = Some mx ->
  exists mx', nodes st' !! x = Some mx' /\ payload mx' = payload mx /\
    (x <> c -> mx' = mx).
Proof.
  intros H Hx. apply uplinks_unlink_Done in H as (m & l & Hm & _ & ->). cbn.
  destruct (decide (x = c)) as [->|].
  - rewrite lookup_insert_eq. rewrite Hm in Hx. injection Hx as <-.
    eexists. split_and!; done.
  - rewrite lookup_insert_ne by done. eauto.
Qed.

Lemma cleanup_total : forall fuel st (a : addr) (E : addr -> UplinkType -> Prop),
  ranked rank st -> edges_ok E st ->
  (forall p t, E p t -> rank a < rank p) ->
  is_Some (nodes st !! a) -> rank a < fuel ->
  exists st', cleanup fuel st a = Done st'.
Proof.
  induction fuel as [|fuel IH]; intros st a E R Ed HE [n Hn] Hf; [lia|].
  cbn [cleanup]. rewrite (deref_eq _ _ _ Hn). cbn [mbind outcome_bind obind].
  destruct (uplinks n) eqn:Hu; [|eauto].
  assert (NE : forall t, ~ E a t) by (intros t Ht; specialize (HE _ _ Ht); lia).
  assert (Del : forall s : State P, is_Some (nodes s !! a) ->
            exists s', delete_Node s a = Done s').
  { intros s [ma Ha]. unfold delete_Node. rewrite Ha. eauto. }
  (* one child: unlink, cascade, and the node itself is still there *)
  assert (Child : forall (s : State P) t c (E' : addr -> UplinkType -> Prop) ms,
            ranked rank s -> edges_ok E' s ->
            (forall p t', E' p t' -> rank a <= rank p) -> ~ E' a t ->
            nodes s !! a = Some ms -> payload ms = payload n ->
            slot_of (payload n) t = Some c ->
            exists s1 s2, uplinks_unlink c a t s = Done s1 /\
              cleanup fuel s1 c = Done s2 /\ ranked rank s2 /\
              edges_ok (fun p' t' => E' p' t' \/ (p' = a /\ t' = t)) s2 /\
              exists ms2, nodes s2 !! a = Some ms2 /\ payload ms2 = payload n).
  { intros s t c E' ms Rs Es HE' Hn' Hs Hps Hsl.
    assert (Hlt : rank c < rank a).
    { apply (Rs a ms c Hs). rewrite Hps. destruct (payload n), t; cbn in Hsl;
        try discriminate; injection Hsl as <-; cbn; set_solver. }
    destruct (eo_complete _ _ Es a ms t c Hs) as (mc & Hc & Hin); [by rewrite Hps|done|].
    destruct (unlink_present s c a t mc Hc Hin) as (l' & _ & H1).
    assert (E1 := edges_unlink _ _ _ _ _ _ Es H1).
    assert (R1 : ranked rank (store c (mkNode (cache mc) l' (payload mc)) s)).
    { eapply shrinks_ranked; [|exact Rs]. by apply shrinks_store_uplinks. }
    destruct (unlink_keeps _ _ _ _ _ _ _ H1 Hs) as (ms1 & Hs1 & Hp1 & Hsame).
    destruct (IH _ c _ R1 E1) as (s2 & H2).
    { intros p t' [Hp|[-> _]]; [specialize (HE' _ _ Hp)|]; lia. }
    { cbn. rewrite lookup_insert_eq. eauto. }
    { lia. }
    eexists _, s2. split_and!; try done.
    - eapply shrinks_ranked; [eapply cleanup_shrinks; eauto|done].
    - eapply cleanup_edges; eauto.
    - assert (Hfr := cleanup_frame rank _ _ _ _ H2 R1 a).
      rewrite Hfr; [exists ms1; split; congruence| |left; lia].
      intros ->. lia. }
  destruct (payload n) as [l r|b v| |q] eqn:Hp.
  - destruct (Child st UPLINK_APPL l E n) as (s1 & s2 & H1 & H2 & R2 & E2 & ms2 & Hs2 & Hp2);
      try done.
    { intros p t Hpt. specialize (HE _ _ Hpt). lia. }
    rewrite H1. cbn [mbind outcome_bind obind]. rewrite H2. cbn [mbind outcome_bind obind].
    rewrite (deref_eq _ _ _ Hs2). cbn [mbind outcome_bind obind]. rewrite Hp2.
    destruct (Child s2 UPLINK_APPR r _ ms2 R2 E2)
      as (s3 & s4 & H3 & H4 & R4 & E4 & ms4 & Hs4 & Hp4); try done.
    { intros p t [Hpt|[-> _]]; [specialize (HE _ _ Hpt)|]; lia. }
    { intros [Hpt|[_ ?]]; [by apply (NE UPLINK_APPR)|done]. }
    rewrite H3. cbn [mbind outcome_bind obind]. rewrite H4. cbn [mbind outcome_bind obind].
    apply Del. eauto.
  - destruct (Child st UPLINK_NA b E n) as (s1 & s2 & H1 & H2 & R2 & E2 & ms2 & Hs2 & Hp2);
      try done.
    { intros p t Hpt. specialize (HE _ _ Hpt). lia. }
    rewrite H1. cbn [mbind outcome_bind obind]. rewrite H2. cbn [mbind outcome_bind obind].
    apply Del. eauto.
  - apply Del. eauto.
  - apply Del. eauto.
Qed.
End CleanupTotal.

(** X12: [free_head] returns on a well-formed acyclic store: on a store
    that satisfies the invariant between public calls and whose edges go
    down along some rank, [cleanup] finds every record it unlinks, never
    reads through a freed node, and ends within a recursion budget above the
    rank of the dummy; the invariant holds afterwards. *)
Theorem free_head_returns (P : Type) (rank : addr -> nat) fuel (st : State P) h :
  ranked rank st -> graph_inv st ->
  is_Some (nodes st !! dummy h) -> rank (dummy h) < fuel ->
  exists st', free_head fuel st h = Done st' /\ graph_inv st'.
Proof.
  intros R G Hl Hf.
  destruct (cleanup_total rank fuel st (dummy h) no_edge R (gi_edges _ G)) as (st' & H);
    try done.
  exists st'. split; [done|]. eapply free_head_inv; eauto.
Qed.

Section CleanupReach.
Context {P : Type}.
Implicit Types (st : State P) (m n : Node P).

Lemma shrinks_child st st' x y : shrinks st st' -> child_of st' x y -> child_of st x y.
Proof.
  intros [_ S] (m' & Hm' & Hy). destruct (S _ _ Hm') as (m & Hm & Hp & _).
  exists m. by rewrite <- Hp.
Qed.

Lemma shrinks_dead st st' (c : addr) :
  shrinks st st' -> nodes st !! c = None -> nodes st' !! c = None.
Proof.
  intros [_ S] Hc. destruct (nodes st' !! c) as [m'|] eqn:E; [|done].
  destruct (S _ _ E) as (m & Hm & _). congruence.
Qed.

Lemma cleanup_reach fuel : forall st (a : addr) st' c,
  cleanup fuel st a = Done st' ->
  is_Some (nodes st !! c) -> nodes st' !! c = None ->
  rtc (child_of st) a c.
Proof.
  induction fuel as [|fuel IH]; intros st a st' c H Hc Hd; [discriminate|].
  cbn [cleanup] in H. apply bind_Done in H as (n & Hn & H). apply deref_Done in Hn.
  destruct (uplinks n) eqn:Hu.
  2:{ injection H as <-. destruct Hc as [? Hc]. congruence. }
  destruct (decide (c = a)) as [->|Hca]; [apply rtc_refl|].
  destruct (payload n) as [l r|b v| |q] eqn:Hp.
  - apply bind_Done in H as (s1 & H1 & H). apply bind_Done in H as (s2 & H2 & H).
    apply bind_Done in H as (n' & Hn' & H).
    destruct (payload n') as [l' r'| | |] eqn:Hp'; try discriminate.
    apply bind_Done in H as (s3 & H3 & H). apply bind_Done in H as (s4 & H4 & H).
    apply deref_Done in Hn'.
    assert (S1 := uplinks_unlink_shrinks _ _ _ _ _ H1).
    assert (S2 := cleanup_shrinks _ _ _ _ H2).
    assert (S3 := uplinks_unlink_shrinks _ _ _ _ _ H3).
    assert (S02 : shrinks st s2) by eauto using shrinks_trans.
    assert (S03 : shrinks st s3) by eauto using shrinks_trans.
    assert (Hr' : r' = r).
    { destruct S02 as [_ S]. destruct (S _ _ Hn') as (n0 & Hn0 & Hpp & _).
      rewrite Hn in Hn0. injection Hn0 as <-. rewrite Hp, Hp' in Hpp. congruence. }
    subst r'.
    apply delete_Node_Done in H as [_ ->]. cbn in Hd.
    rewrite lookup_delete_ne in Hd by done.
    assert (K1 : forall x, is_Some (nodes st !! x) -> is_Some (nodes s1 !! x)).
    { intros x [mx Hx]. destruct (unlink_keeps _ _ _ _ _ _ _ H1 Hx) as (? & ? & _). eauto. }
    assert (K3 : forall x, is_Some (nodes s2 !! x) -> is_Some (nodes s3 !! x)).
    { intros x [mx Hx]. destruct (unlink_keeps _ _ _ _ _ _ _ H3 Hx) as (? & ? & _). eauto. }
    destruct (nodes s2 !! c) as [m2|] eqn:Hc2.
    + (* freed below the right child *)
      apply (rtc_l _ a r c); [exists n; split; [done|]; rewrite Hp; cbn; set_solver|].
      eapply rtc_subrel; [|eapply (IH s3 r s4 c H4); eauto].
      intros x y. by apply shrinks_child.
    + apply (rtc_l _ a l c); [exists n; split; [done|]; rewrite Hp; cbn; set_solver|].
      eapply rtc_subrel; [|eapply (IH s1 l s2 c H2); eauto].
      intros x y. by apply shrinks_child.
  - apply bind_Done in H as (s1 & H1 & H). apply bind_Done in H as (s2 & H2 & H).
    assert (S1 := uplinks_unlink_shrinks _ _ _ _ _ H1).
    apply delete_Node_Done in H as [_ ->]. cbn in Hd.
    rewrite lookup_delete_ne in Hd by done.
    assert (K1 : forall x, is_Some (nodes st !! x) -> is_Some (nodes s1 !! x)).
    { intros x [mx Hx]. destruct (unlink_keeps _ _ _ _ _ _ _ H1 Hx) as (? & ? & _). eauto. }
    apply (rtc_l _ a b c); [exists n; split; [done|]; rewrite Hp; cbn; set_solver|].
    eapply rtc_subrel; [|eapply (IH s1 b s2 c H2); eauto].
    intros x y. by apply shrinks_child.
  - apply delete_Node_Done in H as [_ ->]. cbn in Hd.
    rewrite lookup_delete_ne in Hd by done. destruct Hc. congruence.
  - apply delete_Node_Done in H as [_ ->]. cbn in Hd.
    rewrite lookup_delete_ne in Hd by done. destruct Hc. congruence.
Qed.
End CleanupReach.

Section CleanupRecords.
Context {P : Type}.
Implicit Types (st : State P) (m n : Node P).

Lemma records_kept_refl st : records_kept st st.
Proof. intros c m u Hc Hu. left. eauto. Qed.

Lemma records_kept_step st s1 s2 (b a : addr) t :
  uplinks_unlink b a t st = Done s1 -> shrinks s1 s2 -> records_kept s1 s2 ->
  forall c m u, nodes st !! c = Some m -> u ∈ uplinks m ->
    (exists m', nodes s2 !! c = Some m' /\ u ∈ uplinks m') \/
    nodes s2 !! up_link u = None \/ up_link u = a.
Proof.
  intros H1 S R c m u Hc Hu.
  apply uplinks_unlink_Done in H1 as (mb & l & Hb & Hl & ->).
  destruct (decide (c = b)) as [->|Hne].
  - rewrite Hb in Hc. injection Hc as <-.
    destruct (decide (u = mkUplink a t)) as [->|Hua]; [by right; right|].
    assert (Hu' := unlink_list_other _ _ _ _ _ Hl Hu Hua).
    destruct (R b (mkNode (cache mb) l (payload mb)) u) as [?|?]; auto.
    cbn. apply lookup_insert_eq.
  - destruct (R c m u) as [?|?]; auto. cbn. by rewrite lookup_insert_ne.
Qed.

Lemma cleanup_records fuel : forall st (a : addr) st',
  cleanup fuel st a = Done st' -> records_kept st st'.
Proof.
  induction fuel as [|fuel IH]; intros st a st' H; [discriminate|].
  cbn [cleanup] in H. apply bind_Done in H as (n & Hn & H). apply deref_Done in Hn.
  destruct (uplinks n) eqn:Hu; [|injection H as <-; apply records_kept_refl].
  assert (Fin : forall s (R : forall c m u, nodes st !! c = Some m -> u ∈ uplinks m ->
                    (exists m', nodes s !! c = Some m' /\ u ∈ uplinks m') \/
                    nodes s !! up_link u = None \/ up_link u = a),
            records_kept st (mkState (delete a (nodes s)) (next s))).
  { intros s R c m u Hc Hin. cbn.
    destruct (decide (c = a)) as [->|Hca].
    { rewrite Hn in Hc. injection Hc as <-. rewrite Hu in Hin.
      by apply elem_of_nil in Hin. }
    destruct (R c m u Hc Hin) as [(m' & Hm' & Hu')|[Hd| ->]].
    - left. exists m'. by rewrite lookup_delete_ne.
    - right. destruct (decide (up_link u = a)) as [->|];
        [apply lookup_delete_eq|by rewrite lookup_delete_ne].
    - right. apply lookup_delete_eq. }
  destruct (payload n) as [l r|b v| |q] eqn:Hp.
  - apply bind_Done in H as (s1 & H1 & H). apply bind_Done in H as (s2 & H2 & H).
    apply bind_Done in H as (n' & Hn' & H).
    destruct (payload n') as [l' r'| | |] eqn:Hp'; try discriminate.
    apply bind_Done in H as (s3 & H3 & H). apply bind_Done in H as (s4 & H4 & H).
    apply delete_Node_Done in H as [_ ->]. apply Fin.
    intros c m u Hc Hin.
    destruct (records_kept_step _ _ _ _ _ _ H1 (cleanup_shrinks _ _ _ _ H2)
                (IH _ _ _ H2) c m u Hc Hin) as [(m2 & Hm2 & Hu2)|[Hd|Ha]]; auto.
    + destruct (records_kept_step _ _ _ _ _ _ H3 (cleanup_shrinks _ _ _ _ H4)
                  (IH _ _ _ H4) c m2 u Hm2 Hu2) as [?|[?|?]]; auto.
    + right. left. eapply shrinks_dead; [|exact Hd].
      eauto using shrinks_trans, uplinks_unlink_shrinks, cleanup_shrinks.
  - apply bind_Done in H as (s1 & H1 & H). apply bind_Done in H as (s2 & H2 & H).
    apply delete_Node_Done in H as [_ ->]. apply Fin.
    intros c m u Hc Hin.
    eapply records_kept_step; eauto using cleanup_shrinks.
  - apply delete_Node_Done in H as [_ ->]. apply Fin.
    intros c m u Hc Hin. left. eauto.
  - apply delete_Node_Done in H as [_ ->]. apply Fin.
    intros c m u Hc Hin. left. eauto.
Qed.
End CleanupRecords.

(** X13: [cleanup] frees nothing but the node it starts from and nodes below
    it: a node that is allocated before a call of [cleanup(a)] that returns,
    and is not afterwards, is reached from [a] through child pointers. *)
Theorem cleanup_frees_only_descendants (P : Type) fuel (st st' : State P) (a c : addr) :
  cleanup fuel st a = Done st' ->
  is_Some (nodes st !! c) -> nodes st' !! c = None ->
  rtc (child_of st) a c.
Proof. apply cleanup_reach. Qed.

(** X14: [cleanup] spares shared nodes.  If a node carries a record of a
    parent that is still allocated after the call, the node is still
    allocated, with that record, its payload and its cache. *)
Theorem cleanup_spares_shared_nodes (P : Type) fuel (st st' : State P) (a c : addr)
  (m : Node P) u :
  cleanup fuel st a = Done st' ->
  nodes st !! c = Some m -> u ∈ uplinks m ->
  is_Some (nodes st' !! up_link u) ->
  exists m', nodes st' !! c = Some m' /\ u ∈ uplinks m' /\
    payload m' = payload m /\ cache m' = cache m.
Proof.
  intros H Hc Hu [mp Hp].
  destruct (cleanup_records _ _ _ _ H c m u Hc Hu) as [(m' & Hm' & Hu')|Hd];
    [|congruence].
  exists m'. split_and!; try done.
  - destruct (cleanup_shrinks _ _ _ _ H) as [_ S].
    destruct (S _ _ Hm') as (m0 & Hm0 & ? & _). congruence.
  - destruct (cleanup_shrinks _ _ _ _ H) as [_ S].
    destruct (S _ _ Hm') as (m0 & Hm0 & _ & ?). congruence.
Qed.

(** X15: freeing a head twice.  After [free_head] has returned on a head
    whose dummy had no uplink record, the dummy is freed, and a second
    [free_head] on the same head reads through the freed node. *)
Theorem free_head_twice_faults (P : Type) fuel fuel' (st st' : State P) h (d : Node P) :
  nodes st !! dummy h = Some d -> uplinks d = [] ->
  free_head fuel st h = Done st' ->
  free_head (S fuel') st' h = Undefined.
Proof.
  unfold free_head. intros Hd Hu H.
  assert (Hdead := cleanup_deletes _ _ _ _ _ H Hd Hu).
  cbn [cleanup]. unfold deref. by rewrite Hdead.
Qed.

(** X16: [free_head] on the copy of a head frees the original's dummy.  For
    a head [other] as [make_head] leaves it (no record on its dummy),
    [free_head] on [copy_head(other)] frees the dummy of [other] together
    with the copy's own dummy, so [other] dangles: a later [hnf_reduce_1]
    on it reads through a freed node. *)
Theorem free_head_of_copy_frees_original (P : Type) fuel (st st1 st2 : State P)
  other h2 (d : Node P) :
  (forall a, (next st <= a)%positive -> nodes st !! a = None) ->
  nodes st !! dummy other = Some d -> uplinks d = [] ->
  copy_head st other = Done (h2, st1) ->
  free_head fuel st1 h2 = Done st2 ->
  nodes st2 !! dummy other = None /\ nodes st2 !! dummy h2 = None /\
  forall prim_apply fuel',
    hnf_reduce_1_head prim_apply (S fuel') st2 other = Undefined.
Proof.
  intros F Hd Hu Hc Hf.
  assert (Hdead : nodes st2 !! dummy other = None /\ nodes st2 !! dummy h2 = None);
    [|destruct Hdead as [H1 H2]; split_and!; try done;
      intros pa fuel'; unfold hnf_reduce_1_head; cbn [hnf_reduce_1]; unfold deref;
      by rewrite H1].
  unfold copy_head, Var, Fun in Hc.
  rewrite (new_Node_eq st) in Hc. cbn beta iota zeta in Hc.
  rewrite (new_Node_eq (new_Node st _).2) in Hc. cbn beta iota zeta in Hc.
  apply bind_Done in Hc as ([d2 s] & Hc & Hc'). injection Hc' as <- <-.
  apply bind_Done in Hc as (s3 & Ha & Hc). injection Hc as <- <-.
  apply uplinks_add_Done in Ha as (m & Hm & ->).
  assert (Hov : dummy other <> next st) by (intros E; rewrite E, F in Hd; [done|lia]).
  assert (Hod : dummy other <> Pos.succ (next st))
    by (intros E; rewrite E, F in Hd; [done|lia]).
  unfold new_Node in Hm. cbn in Hm. rewrite !lookup_insert_ne in Hm by done.
  rewrite Hd in Hm. injection Hm as <-. rewrite Hu, app_nil_l in Hf.
  unfold free_head in Hf. cbn [dummy] in Hf.
  destruct fuel as [|fuel]; [discriminate|]. cbn [cleanup] in Hf.
  unfold new_Node in Hf. cbn [fst snd new_Node next nodes] in Hf.
  set (d2 := Pos.succ (next st)) in *.
  set (s1 := store (dummy other) _ _) in Hf.
  assert (L2 : nodes s1 !! d2 = Some (mkNode NULL [] (lambda (dummy other) (next st)))).
  { unfold s1, store. cbn [nodes]. rewrite lookup_insert_ne by done.
    apply lookup_insert_eq. }
  rewrite (deref_eq _ _ _ L2) in Hf. cbn [mbind outcome_bind obind uplinks payload] in Hf.
  apply bind_Done in Hf as (s2 & H1 & Hf). apply bind_Done in Hf as (s3 & H2 & Hf).
  apply uplinks_unlink_Done in H1 as (mo & l & Hmo & Hl & ->).
  unfold s1, store in Hmo. cbn [nodes] in Hmo. rewrite lookup_insert_eq in Hmo.
  injection Hmo as <-. cbn [uplinks cache payload] in Hl, H2.
  rewrite unlink_list_head in Hl. injection Hl as <-.
  assert (Hdead : nodes s3 !! dummy other = None).
  { eapply (cleanup_deletes _ _ _ _ (mkNode (cache d) [] (payload d)));
      [exact H2| |done]. unfold store. cbn [nodes].
    apply lookup_insert_eq. }
  apply delete_Node_Done in Hf as [_ ->]. cbn [nodes].
  split; [by rewrite lookup_delete_ne|apply lookup_delete_eq].
Qed.

(** ** dotify *)

Section Unseen.
Lemma unseen_shrinks (D seen seen' : gset addr) :
  seen ⊆ seen' -> size (D ∖ seen') <= size (D ∖ seen).
Proof. intros H. apply subseteq_size. set_solver. Qed.

Lemma unseen_insert (D seen : gset addr) (a : addr) :
  a ∈ D -> a ∉ seen -> size (D ∖ ({[a]} ∪ seen)) < size (D ∖ seen).
Proof.
  intros HD Hs. apply subset_size. apply strict_spec_alt. split; [set_solver|].
  intros E. assert (a ∈ D ∖ seen) as Ha by set_solver. rewrite <- E in Ha. set_solver.
Qed.

End Unseen.

Section DotifyFacts.
Context {P : Type}.
Implicit Types (st : State P) (m n : Node P).
Variable show : addr -> string.
Variable repr : P -> string.

Lemma closed_check_sound st : closed_check st = true -> closed st.
Proof.
  unfold closed_check. rewrite bool_decide_eq_true. intros H a m Hm.
  specialize (H a m Hm). cbn in H. unfold closed_node in H.
  destruct (payload m); try done;
    apply andb_true_iff in H as [H1 H2]; by rewrite !bool_decide_eq_true in *.
Qed.

Lemma dotify_rec_total st : closed st ->
  forall fuel top out (seen : gset addr),
    is_Some (nodes st !! top) ->
    size (dom (nodes st) ∖ seen) < fuel ->
    exists out' seen', dotify_rec show repr fuel st top (out, seen) = Done (out', seen') /\
      seen ⊆ seen'.
Proof.
  intros C. induction fuel as [|fuel IH]; intros top out seen [n Hn] Hsz; [lia|].
  cbn [dotify_rec]. destruct (decide (top ∈ seen)) as [|Hns]; [eauto|].
  assert (Hlt : size (dom (nodes st) ∖ ({[top]} ∪ seen)) < fuel).
  { assert (H := unseen_insert (dom (nodes st)) seen top). 
    assert (top ∈ dom (nodes st)) by (apply elem_of_dom; eauto).
    specialize (H ltac:(done) Hns). lia. }
  rewrite (deref_eq _ _ _ Hn). cbn [mbind outcome_bind obind].
  assert (Hc := C _ _ Hn).
  destruct (payload n) as [l r|b v| |q].
  - destruct Hc as [Hl Hr].
    match goal with |- context [dotify_rec _ _ _ _ l (?o, ?s)] =>
      destruct (IH l o s Hl Hlt) as (o1 & s1 & H1 & S1) end. rewrite H1.
    cbn [mbind outcome_bind obind].
    destruct (IH r o1 s1 Hr) as (o2 & s2 & H2 & S2).
    { assert (H := unseen_shrinks (dom (nodes st)) _ _ S1). lia. }
    rewrite H2. cbn [mbind outcome_bind obind]. cbn beta iota zeta.
    eexists _, _; split; [done|set_solver].
  - destruct Hc as [Hb [vn Hv]]. rewrite (deref_eq _ _ _ Hv).
    cbn [mbind outcome_bind obind].
    match goal with |- context [dotify_rec _ _ _ _ b (?o, ?s)] =>
      destruct (IH b o s Hb Hlt) as (o1 & s1 & H1 & S1) end. rewrite H1.
    cbn [mbind outcome_bind obind]. cbn beta iota zeta. eexists _, _; split; [done|set_solver].
  - cbn [mbind outcome_bind obind]. cbn beta iota zeta. eexists _, _; split; [done|set_solver].
  - cbn [mbind outcome_bind obind]. cbn beta iota zeta. eexists _, _; split; [done|set_solver].
Qed.
End DotifyFacts.

(** X17: [dotify] returns on every store whose pointer fields point to
    allocated nodes, cyclic ones included: [dotify_rec] enters a node only
    when it is not in the [seen] set, so a recursion budget of the number of
    allocated nodes is enough. *)
Theorem dotify_returns_on_closed_graphs (P : Type) (show : addr -> string)
  (repr : P -> string) fuel (st : State P) h (d : Node P) b v :
  closed st -> nodes st !! dummy h = Some d -> payload d = lambda b v ->
  size (nodes st) <= fuel ->
  exists out, dotify show repr fuel st h = Done out.
Proof.
  intros C Hd Hp Hf. unfold dotify. rewrite (deref_eq _ _ _ Hd).
  cbn [mbind outcome_bind obind]. rewrite Hp.
  assert (Hc := C _ _ Hd). rewrite Hp in Hc. destruct Hc as [Hb' _].
  match goal with |- context [dotify_rec _ _ _ _ b (?o, ?s)] =>
    destruct (dotify_rec_total show repr st C fuel b o s) as (o' & s' & H & _) end;
    [exact Hb'| |].
  2:{ rewrite H. cbn. eauto. }
  assert (Hin : dummy h ∈ dom (nodes st)) by (apply elem_of_dom; eauto).
  assert (H' := unseen_insert (dom (nodes st)) (∅ : gset addr) (dummy h) Hin
                  ltac:(set_solver)).
  assert (E0 : dom (nodes st) ∖ (∅ : gset addr) = dom (nodes st)) by set_solver.
  assert (E1 : ({[dummy h]} ∪ ∅ : gset addr) = {[dummy h]}) by set_solver.
  rewrite E0, E1, size_dom in H'. lia.
Qed.

(** X18: [dotify_rec] reads the variable of the Lambda it draws
    ([top->lambda.var->uplinks.head]).  On a head whose body is a Lambda
    with a freed variable, [dotify] reads through the freed node; a step of
    reduction inside such a Lambda's body can leave it in that state (the
    witness is [\x. (\y. z) x] after one step). *)
Theorem dotify_reads_lambda_variables (P : Type) (show : addr -> string)
  (repr : P -> string) fuel (st : State P) h (d bn : Node P) b v b' v' :
  nodes st !! dummy h = Some d -> payload d = lambda b v ->
  b <> dummy h ->
  nodes st !! b = Some bn -> payload bn = lambda b' v' ->
  nodes st !! v' = None ->
  dotify show repr (S fuel) st h = Undefined.
Proof.
  intros Hd Hp Hne Hb Hpb Hv. unfold dotify. rewrite (deref_eq _ _ _ Hd).
  cbn [mbind outcome_bind obind]. rewrite Hp. cbn [dotify_rec].
  rewrite decide_False by set_solver. rewrite (deref_eq _ _ _ Hb).
  cbn [mbind outcome_bind obind]. rewrite Hpb. unfold deref at 1. rewrite Hv. done.
Qed.

(** ** A reduction step returns *)

Section SpliceTotal.
Context {P : Type} (rank : addr -> nat).
Implicit Types (st : State P) (m : Node P).

Lemma upreplace_eq fuel st (nc into old : addr) t m :
  nodes st !! into = Some m -> slot_of (payload m) t = Some old ->
  upreplace fuel st nc into t
  = (st1 ← uplinks_unlink old into t st;
     st2 ← set_payload into (set_slot (payload m) t nc) st1;
     st3 ← uplinks_add nc into t st2;
     cleanup fuel st3 old).
Proof.
  intros Hm Hs. unfold upreplace. rewrite (deref_eq _ _ _ Hm).
  cbn [mbind outcome_bind obind].
  destruct (payload m) as [l r|b v| |q], t; cbn in Hs; try discriminate;
    injection Hs as <-; reflexivity.
Qed.

(** One turn of the loop: the first record on the redex [a] names the
    parent [p]. *)
Lemma upreplace_total fuel st (a r p : addr) t ca rest pa :
  graph_inv st -> ranked rank st ->
  nodes st !! a = Some (mkNode ca (mkUplink p t :: rest) pa) ->
  is_Some (nodes st !! r) -> rank r < rank a -> rank a < fuel ->
  exists st', upreplace fuel st r p t = Done st' /\
    graph_inv st' /\ ranked rank st' /\
    (rest <> [] -> nodes st' !! a = Some (mkNode ca rest pa) /\
                   is_Some (nodes st' !! r)).
Proof.
  intros G R Ha [mr Hr] Hra Hf.
  destruct (eo_sound _ _ (gi_edges _ G) a _ (mkUplink p t) Ha) as (mp & Hp & Hs & _);
    [left|]. cbn in Hp, Hs.
  assert (Hap : rank a < rank p) by (eapply R; eauto using slot_of_children).
  assert (Nap : a <> p) by (intros ->; lia).
  assert (Nra : r <> a) by (intros ->; lia).
  assert (Nrp : r <> p) by (intros ->; lia).
  rewrite (upreplace_eq fuel st r p a t mp Hp Hs).
  set (st1 := store a (mkNode ca rest pa) st).
  assert (H1 : uplinks_unlink a p t st = Done st1).
  { unfold uplinks_unlink. rewrite (deref_eq _ _ _ Ha).
    cbn [mbind outcome_bind obind uplinks]. by rewrite unlink_list_head. }
  assert (Hp1 : nodes st1 !! p = Some mp).
  { unfold st1, store. cbn. by rewrite lookup_insert_ne. }
  set (st2 := store p (mkNode (cache mp) (uplinks mp) (set_slot (payload mp) t r)) st1).
  assert (H2 : set_payload p (set_slot (payload mp) t r) st1 = Done st2).
  { unfold set_payload. by rewrite (deref_eq _ _ _ Hp1). }
  assert (Hr2 : nodes st2 !! r = Some mr).
  { unfold st2, st1, store. cbn. by rewrite !lookup_insert_ne. }
  set (st3 := store r (mkNode (cache mr) (uplinks mr ++ [mkUplink p t]) (payload mr)) st2).
  assert (H3 : uplinks_add r p t st2 = Done st3).
  { unfold uplinks_add. by rewrite (deref_eq _ _ _ Hr2). }
  rewrite H1. cbn [mbind outcome_bind obind].
  rewrite H2. cbn [mbind outcome_bind obind].
  rewrite H3. cbn [mbind outcome_bind obind].
  assert (Ha3 : nodes st3 !! a = Some (mkNode ca rest pa)).
  { unfold st3, st2, st1, store. cbn.
    rewrite lookup_insert_ne, lookup_insert_ne by done. apply lookup_insert_eq. }
  assert (E3 : edges_ok no_edge st3).
  { assert (E1 : edges_ok (fun p' t' => p' = p /\ t' = t) st1).
    { eapply edges_ok_weaken; [|eapply edges_unlink; [exact (gi_edges _ G)|exact H1]].
      intros p' t'. unfold no_edge. tauto. }
    destruct (edges_set_slot _ _ _ _ _ _ _ E1 Hp1 Hs H2) as (E2 & mi2 & Hi2 & Hs2).
    eapply edges_add; eauto. }
  assert (R3 : ranked rank st3).
  { unfold st3, st2, st1. apply ranked_store; [apply ranked_store; [apply ranked_store|]|].
    - done.
    - cbn. intros c Hc. eapply R; eauto.
    - cbn. intros c Hc.
      destruct (children_set_slot _ _ _ _ _ Hs Hc) as [->|Hc']; [lia|].
      eapply R; eauto.
    - cbn. intros c Hc. eapply R; eauto. }
  destruct (cleanup_total rank fuel st3 a no_edge R3 E3) as [st' H4]; try done.
  exists st'. split; [done|].
  assert (Hup : upreplace fuel st r p t = Done st').
  { rewrite (upreplace_eq fuel st r p a t mp Hp Hs).
    rewrite H1. cbn [mbind outcome_bind obind].
    rewrite H2. cbn [mbind outcome_bind obind].
    rewrite H3. cbn [mbind outcome_bind obind]. done. }
  split_and!.
  - eapply upreplace_inv; eauto.
  - eapply shrinks_ranked; [eapply cleanup_shrinks; exact H4|done].
  - intros Hne. destruct fuel as [|fuel]; [lia|]. cbn [cleanup] in H4.
    rewrite (deref_eq _ _ _ Ha3) in H4. cbn in H4.
    destruct rest; [done|]. injection H4 as <-. split; [done|].
    unfold st3, store. cbn. rewrite lookup_insert_eq. eauto.
Qed.

Lemma upreplace_all_total fuel (a r : addr) : forall l st ca pa,
  graph_inv st -> ranked rank st ->
  nodes st !! a = Some (mkNode ca l pa) ->
  is_Some (nodes st !! r) -> rank r < rank a -> rank a < fuel ->
  exists st', upreplace_all fuel st r l = Done st' /\
    graph_inv st' /\ ranked rank st'.
Proof.
  unfold upreplace_all.
  induction l as [|[p t] rest IH]; intros st ca pa G R Ha Hr Hra Hf.
  { exists st. done. }
  destruct (upreplace_total fuel st a r p t ca rest pa G R Ha Hr Hra Hf)
    as (st1 & H1 & G1 & R1 & Hrest).
  cbn. rewrite H1. cbn [mbind outcome_bind obind].
  destruct rest as [|u rest'].
  { exists st1. done. }
  destruct Hrest as [Ha1 Hr1]; [done|]. eapply IH; eauto.
Qed.
End SpliceTotal.

(** X26: the redirection loop of a reduction step returns.  On a
    well-formed store whose nodes each rank above their children, with the
    replacement [r] allocated and ranked below the redex [a], the loop that
    calls [upreplace] for every uplink record of [a] returns whenever the
    recursion budget exceeds the rank of [a]: every record names a live
    parent that holds [a] in the slot named, and the [cleanup] that each
    [upreplace] ends in stays within the budget.  The store is then well
    formed and ranked as before. *)
Theorem upreplace_all_returns (P : Type) (rank : addr -> nat) fuel (st : State P)
  (a r : addr) (n : Node P) :
  graph_inv st -> ranked rank st ->
  nodes st !! a = Some n -> is_Some (nodes st !! r) ->
  rank r < rank a -> rank a < fuel ->
  exists st', upreplace_all fuel st r (uplinks n) = Done st' /\
    graph_inv st' /\ ranked rank st'.
Proof.
  intros G R Ha Hr Hra Hf. destruct n as [ca l pa].
  eapply (upreplace_all_total rank fuel a r l st ca pa); eauto.
Qed.

Section ClearApriori.
Context {P : Type}.
Implicit Types (st : State P) (m : Node P).
Variables (st1 st2 st3 : State P) (fn x arg : addr).
Hypothesis R : pass_result st1 st2 fn x arg.
Hypothesis Harg : is_Some (nodes st1 !! arg).
Hypothesis VL : forall g w, binds st1 g w -> is_Some (nodes st1 !! w).
Hypothesis H3 : set_cache fn NULL st2 = Done st3.

Lemma clear_after_pass_total B0 fuel :
  (forall a m, nodes st1 !! a = Some m -> length (uplinks m) <= B0) ->
  let U := dom (nodes st1) in
  let L := B0 + 2 * size U in
  (L + 1) + (L + 2) * size U < fuel ->
  exists st4, clear fuel st3 x = Done st4.
Proof.
  intros HB U L Hf.
  assert (X2 := pr_ext _ _ _ _ _ R). assert (I2 := pe_inv _ _ _ X2).
  assert (E1 := pr_edges _ _ _ _ _ R). assert (Hfn2 := pr_stop _ _ _ _ _ R).
  assert (STOP0 : forall y, inner st1 y -> cache_of st1 y = Some STOP -> y = fn).
  { intros y Hy Hc. destruct (decide (y = fn)); [done|].
    rewrite (pr_null _ _ _ _ _ R) in Hc; done. }
  destruct (clear_inv_start st1 x fn E1 STOP0 st2 st3 X2 Hfn2 H3) as (CI3 & _).
  assert (CR3 := clear_ready_start st1 st2 st3 fn x arg R Harg VL H3).
  destruct (set_cache_shape _ _ _ _ H3) as [N3 S3].
  destruct (clear_from_total st1 L fuel st3 x 0 U) as (st4 & _ & H4 & _); try done.
  - intros y k (my & Hy & _) _. apply elem_of_dom. eauto.
  - intros y m Hm. specialize (S3 y). rewrite Hm in S3.
    destruct (nodes st2 !! y) as [m2|] eqn:Hm2; [|done]. destruct S3 as (_ & -> & _).
    destruct (nodes st1 !! y) as [m1|] eqn:Hm1.
    + destruct (pi_static _ _ I2 _ _ Hm1) as (m2' & Hm2' & _ & Hu).
      rewrite Hm2 in Hm2'. injection Hm2' as <-. rewrite Hu.
      specialize (HB _ _ Hm1). unfold L. lia.
    + destruct (pe_new _ _ _ X2 _ _ Hm2 Hm1) as (_ & -> & _). cbn. unfold L. lia.
  - specialize (S3 x).
    destruct (old_live_after st1 st2 fn x arg R x) as [m2 Hm2].
    { apply (VL fn), (pr_binds _ _ _ _ _ R). }
    rewrite Hm2 in S3. destruct (nodes st3 !! x); [eauto|done].
  - lia.
  - by exists st4.
Qed.
End ClearApriori.

Section RankAfter.
Context {P : Type}.
Implicit Types (st : State P) (m : Node P).
Variables (st1 st2 : State P) (fn x arg : addr).
Hypothesis R : pass_result st1 st2 fn x arg.
Variables (rank : addr -> nat) (ra : nat).
Hypothesis Rk : ranked rank st1.
Hypothesis Hcopied : forall q k, inner st1 q -> cache_of st2 q = Some (Cached k) ->
  rank q < ra.
Hypothesis Harg : is_Some (nodes st1 !! arg).
Hypothesis Hargr : rank arg < ra.

#[local] Abbreviation rank' := (copy_rank rank ra st1 st2).

Lemma holds_copy_spec k (q : addr) mq :
  nodes st2 !! q = Some mq -> holds_copy k (q, mq) = true ->
  inner st1 q /\ cache_of st2 q = Some (Cached k).
Proof.
  intros Hq H. assert (X := pr_ext _ _ _ _ _ R). assert (I := pe_inv _ _ _ X).
  unfold holds_copy in H. cbn in H.
  destruct (cache mq) as [| |c] eqn:Hc; try done.
  assert (c = k) as ->.
  { destruct (payload mq); try done; by apply Pos.eqb_eq. }
  destruct (nodes st1 !! q) as [m1|] eqn:H1.
  - destruct (pi_static _ _ I _ _ H1) as (m2 & Hm2 & Hp & _).
    rewrite Hq in Hm2. injection Hm2 as <-. split.
    + exists m1. split; [done|]. unfold node_type. rewrite <- Hp.
      destruct (payload mq); try done; auto.
    + by rewrite (cache_of_Some _ _ _ Hq), Hc.
  - destruct (pe_new _ _ _ X _ _ Hq H1) as (Hn & _). congruence.
Qed.

Lemma origin_copy (q k : addr) :
  inner st1 q -> cache_of st2 q = Some (Cached k) -> origin st2 k = Some q.
Proof.
  intros Hi Hc. assert (X := pr_ext _ _ _ _ _ R). assert (I := pe_inv _ _ _ X).
  unfold origin. destruct (find (holds_copy k) (map_to_list (nodes st2))) as [[q' m']|] eqn:F.
  - apply find_some in F as [Hin Hh]. apply list_elem_of_In in Hin.
    apply elem_of_map_to_list in Hin.
    destruct (holds_copy_spec k q' m' Hin Hh) as [Hi' Hc']. cbn. f_equal.
    eapply (pe_inj _ _ _ X); eauto.
  - exfalso. destruct Hi as (m1 & H1 & Ht).
    destruct (pi_static _ _ I _ _ H1) as (m2 & Hm2 & Hp & _).
    assert (Hin : In (q, m2) (map_to_list (nodes st2))).
    { apply list_elem_of_In. by apply elem_of_map_to_list. }
    apply (find_none _ _ F) in Hin. unfold holds_copy in Hin. cbn in Hin.
    rewrite (cache_of_Some _ _ _ Hm2) in Hc. injection Hc as Hc. rewrite Hc, Hp in Hin.
    unfold node_type in Ht.
    destruct (payload m1); try (by destruct Ht); by rewrite Pos.eqb_refl in Hin.
Qed.

Lemma origin_var (k : addr) mk :
  nodes st2 !! k = Some mk -> payload mk = var -> origin st2 k = None.
Proof.
  intros Hk Hp. unfold origin.
  destruct (find (holds_copy k) (map_to_list (nodes st2))) as [[q' m']|] eqn:F; [|done].
  exfalso. apply find_some in F as [Hin Hh]. apply list_elem_of_In in Hin.
  apply elem_of_map_to_list in Hin.
  destruct (holds_copy_spec k q' m' Hin Hh) as [Hi' Hc'].
  destruct Hi' as (m1 & H1 & Ht).
  destruct (pr_content _ _ _ _ _ R q' m1 k H1) as (mk' & Hk' & Hcp);
    [by exists m1|done|].
  rewrite Hk in Hk'. injection Hk' as <-. rewrite Hp in Hcp.
  by destruct (payload m1).
Qed.

Lemma copy_rank_old (k : addr) : is_Some (nodes st1 !! k) -> rank' k = (ra + 2) * rank k.
Proof. intros H. unfold copy_rank. by rewrite decide_True. Qed.

Lemma copy_rank_copy (q k : addr) :
  inner st1 q -> cache_of st2 q = Some (Cached k) ->
  rank' k = (ra + 2) * (ra - 1) + 1 + rank q.
Proof.
  intros Hi Hc. unfold copy_rank.
  destruct (pe_copy _ _ _ (pr_ext _ _ _ _ _ R) _ _ Hi Hc) as [H0 _].
  rewrite decide_False by (rewrite H0; by intros [? ?]).
  by rewrite (origin_copy q k Hi Hc).
Qed.

Lemma image_rank (q c c' : addr) mq :
  nodes st1 !! q = Some mq -> c ∈ children (payload mq) -> rank q < ra ->
  c' = c \/ image st1 x arg st2 c c' ->
  rank' c' < (ra + 2) * (ra - 1) + 1 + rank q.
Proof.
  intros Hq Hc Hqa H. assert (Hcq : rank c < rank q) by (eapply Rk; eauto).
  assert (Hlive : is_Some (nodes st1 !! c)).
  { assert (exists t, slot_of (payload mq) t = Some c) as [t Hs].
    { destruct (payload mq) as [l r|b v| |]; cbn in Hc.
      - apply elem_of_cons in Hc as [->|Hc]; [by exists UPLINK_APPL|].
        apply list_elem_of_singleton in Hc as ->. by exists UPLINK_APPR.
      - apply list_elem_of_singleton in Hc as ->. by exists UPLINK_NA.
      - by apply elem_of_nil in Hc.
      - by apply elem_of_nil in Hc. }
    destruct (eo_complete _ _ (pr_edges _ _ _ _ _ R) q mq t c Hq Hs) as (mc & ? & _);
      [by intros []|eauto]. }
  destruct H as [->|[[Hi Hcc]|[[-> ->]|(g & k & mk & b & Hb & Hg & Hk & Hp)]]].
  - rewrite copy_rank_old by done. nia.
  - rewrite (copy_rank_copy c c' Hi Hcc). lia.
  - rewrite copy_rank_old by done. nia.
  - destruct Hb as (mg & bg & Hmg & Hpg).
    destruct (pr_content _ _ _ _ _ R g mg k Hmg) as (mk' & Hk' & Hcp);
      [eauto using lambda_inner|done|].
    rewrite Hk in Hk'. injection Hk' as <-. rewrite Hpg, Hp in Hcp. cbn in Hcp.
    destruct Hcp as (_ & H0 & mv & Hv & Hpv).
    unfold copy_rank. rewrite decide_False by (rewrite H0; by intros [? ?]).
    rewrite (origin_var c' mv Hv Hpv). lia.
Qed.

Lemma ranked_after_pass st4 :
  (forall y m4, nodes st4 !! y = Some m4 ->
     exists m2, nodes st2 !! y = Some m2 /\ payload m4 = payload m2) ->
  ranked rank' st4.
Proof.
  intros Hpay y m4 c Hy Hc. destruct (Hpay _ _ Hy) as (m2 & Hm2 & Hp4).
  rewrite Hp4 in Hc. clear Hp4 Hy m4.
  assert (X := pr_ext _ _ _ _ _ R). assert (I := pe_inv _ _ _ X).
  destruct (nodes st1 !! y) as [m1|] eqn:H1.
  - destruct (pi_static _ _ I _ _ H1) as (m2' & Hm2' & Hp & _).
    rewrite Hm2 in Hm2'. injection Hm2' as <-. rewrite Hp in Hc.
    assert (Hcy : rank c < rank y) by (eapply Rk; eauto).
    assert (Hlive : is_Some (nodes st1 !! c)).
    { assert (exists t, slot_of (payload m1) t = Some c) as [t Hs].
      { destruct (payload m1) as [l r|b v| |]; cbn in Hc.
        - apply elem_of_cons in Hc as [->|Hc]; [by exists UPLINK_APPL|].
          apply list_elem_of_singleton in Hc as ->. by exists UPLINK_APPR.
        - apply list_elem_of_singleton in Hc as ->. by exists UPLINK_NA.
        - by apply elem_of_nil in Hc.
        - by apply elem_of_nil in Hc. }
      destruct (eo_complete _ _ (pr_edges _ _ _ _ _ R) y m1 t c H1 Hs) as (mc & ? & _);
        [by intros []|eauto]. }
    rewrite !copy_rank_old by eauto. nia.
  - destruct (pe_new _ _ _ X _ _ Hm2 H1) as (_ & _ & [Hv|(q & Hi & Hq)]).
    { rewrite Hv in Hc. by apply elem_of_nil in Hc. }
    rewrite (copy_rank_copy q y Hi Hq).
    assert (Hqa := Hcopied q y Hi Hq).
    destruct Hi as (mq & Hmq & Ht).
    destruct (pr_content _ _ _ _ _ R q mq y Hmq) as (mk & Hk & Hcp);
      [by exists mq|done|].
    rewrite Hm2 in Hk. injection Hk as <-.
    destruct (payload mq) as [l r|b v| |] eqn:Eq, (payload m2) as [l' r'|b' v'| |];
      try done; cbn in Hcp, Hc.
    + destruct Hcp as [Hl Hr]. apply elem_of_cons in Hc as [->|Hc].
      * eapply (image_rank q l); eauto. rewrite Eq. set_solver.
      * apply list_elem_of_singleton in Hc as ->.
        eapply (image_rank q r); eauto. rewrite Eq. set_solver.
    + destruct Hcp as (Hb & _). apply list_elem_of_singleton in Hc as ->.
      eapply (image_rank q b); eauto. rewrite Eq. set_solver.
Qed.
End RankAfter.

Section BetaTotal.
Context {P : Type}.
Implicit Types (st : State P) (m : Node P).

Lemma child_slot (p : Payload P) (c : addr) :
  c ∈ children p -> exists t, slot_of p t = Some c.
Proof.
  destruct p as [l r|b v| |]; cbn; intros Hc.
  - apply elem_of_cons in Hc as [->|Hc]; [by exists UPLINK_APPL|].
    apply list_elem_of_singleton in Hc as ->. by exists UPLINK_APPR.
  - apply list_elem_of_singleton in Hc as ->. by exists UPLINK_NA.
  - by apply elem_of_nil in Hc.
  - by apply elem_of_nil in Hc.
Qed.

Lemma graph_inv_well_formed st :
  graph_inv st -> (forall g w, binds st g w -> is_Some (nodes st !! w)) ->
  well_formed st.
Proof.
  intros [E B C F] VL. split; try done.
  - intros c m u Hc Hu. destruct (eo_sound _ _ E _ _ _ Hc Hu) as (mp & ? & ? & _).
    eauto.
  - apply (eo_nodup _ _ E).
  - intros g v Hb. destruct (VL g v Hb) as [mv Hv]. exists mv. split; [done|].
    eapply (bo_var _ B); eauto.
  - apply (bo_binder _ B).
Qed.

Lemma below_rank (rank : addr -> nat) st (b q : addr) :
  ranked rank st -> rtc (child_of st) b q -> rank q <= rank b.
Proof.
  intros Rk. induction 1 as [|x y z (m & Hm & Hc) _ IH]; [lia|].
  specialize (Rk _ _ _ Hm Hc). lia.
Qed.

(** A node under [b] is reached from below by the walk of the pass. *)
Lemma below_above (rank : addr -> nat) st (fn b y : addr) :
  edges_ok no_edge st -> ranked rank st -> rank b < rank fn ->
  rtc (child_of st) b y -> rtc (copy_step st fn) y b.
Proof.
  intros E Rk Hb. revert y. apply (rtc_ind_r (fun y => rtc (copy_step st fn) y b)).
  { apply rtc_refl. }
  intros y z Hy (m & Hm & Hc) IH.
  eapply rtc_l; [|exact IH]. left. split.
  - intros ->. assert (H := below_rank rank st b fn Rk Hy). lia.
  - destruct (child_slot _ _ Hc) as [t Hs].
    destruct (eo_complete _ _ E y m t z Hm Hs) as (mz & Hz & Hu); [by intros []|].
    eauto.
Qed.

Lemma for_each_uplink_skip (body : State P -> Uplink -> outcome (State P)) l st :
  (forall u, u ∈ l -> body st u = Done st) -> for_each_uplink body l st = Done st.
Proof.
  induction l as [|u l IH]; intros H; [done|]. cbn.
  rewrite (H u) by set_solver. cbn. apply IH. intros u' Hu'. apply H. set_solver.
Qed.

(** The pass on a variable that only the Lambda under reduction refers to
    hands the argument to the variable and stops. *)
Lemma upcopy_identity fuel st1 (fn v arg b : addr) f1 vn :
  nodes st1 !! fn = Some f1 -> payload f1 = lambda b v -> cache f1 = STOP ->
  nodes st1 !! v = Some vn -> payload vn = var ->
  (forall u, u ∈ uplinks vn -> up_link u = fn) ->
  exists st2, upcopy (S (S fuel)) st1 arg v UPLINK_NA = Done st2 /\
    cache_of st2 v = Some (Cached arg).
Proof.
  intros Hf Hpf Hcf Hv Hpv Hu.
  assert (Hne : fn <> v) by (intros ->; congruence).
  set (st2 := store v (mkNode (Cached arg) (uplinks vn) (payload vn)) st1).
  exists st2. split.
  - cbn [upcopy]. rewrite (deref_eq _ _ _ Hv). cbn [mbind outcome_bind obind].
    rewrite Hpv. unfold set_cache. rewrite (deref_eq _ _ _ Hv).
    cbn [mbind outcome_bind obind]. fold st2.
    assert (Hv2 : nodes st2 !! v = Some (mkNode (Cached arg) (uplinks vn) (payload vn))).
    { unfold st2, store. cbn. apply lookup_insert_eq. }
    rewrite (deref_eq _ _ _ Hv2). cbn [mbind outcome_bind obind uplinks].
    apply for_each_uplink_skip. intros u Hin. rewrite (Hu u Hin).
    assert (Hf2 : nodes st2 !! fn = Some f1).
    { unfold st2, store. cbn. by rewrite lookup_insert_ne. }
    destruct fuel; cbn [upcopy]; rewrite (deref_eq _ _ _ Hf2); cbn [mbind outcome_bind obind];
      rewrite Hpf, Hcf; reflexivity.
  - unfold st2. rewrite cache_of_store. by rewrite decide_True.
Qed.

Lemma set_cache_copy_step st st' (p : addr) c (fn x q : addr) :
  set_cache p c st = Done st' -> copy_step st' fn x q -> copy_step st fn x q.
Proof.
  intros H. destruct (set_cache_shape _ _ _ _ H) as [_ S].
  intros [(Hne & mc & t & Hc & Hu)|(mg & bg & Hg & Hpg)].
  - left. split; [done|]. specialize (S x). rewrite Hc in S.
    destruct (nodes st !! x) as [m0|]; [|done]. destruct S as (_ & Hu0 & _).
    exists m0, t. split; [done|]. by rewrite <- Hu0.
  - right. specialize (S x). rewrite Hg in S.
    destruct (nodes st !! x) as [m0|] eqn:H0; [|done]. destruct S as (Hp0 & _).
    exists m0, bg. split; [done|]. by rewrite <- Hp0.
Qed.

Lemma set_cache_ranked (rank : addr -> nat) st st' (p : addr) c :
  set_cache p c st = Done st' -> ranked rank st -> ranked rank st'.
Proof.
  intros H Rk x m' y Hx Hy. destruct (set_cache_shape _ _ _ _ H) as [_ S].
  specialize (S x). rewrite Hx in S.
  destruct (nodes st !! x) as [m0|] eqn:H0; [|done]. destruct S as (Hp0 & _).
  rewrite Hp0 in Hy. eauto.
Qed.

(** The unused-variable branch and the branch with a pass, for every
    recursion budget from some point on. *)
Lemma beta_reduce_total (rank : addr -> nat) st (a fn arg b v : addr) n f :
  graph_inv st -> ranked rank st ->
  (forall g w, binds st g w -> is_Some (nodes st !! w)) ->
  nodes st !! a = Some n -> payload n = app fn arg ->
  nodes st !! fn = Some f -> payload f = lambda b v ->
  (forall q, rtc (copy_step st fn) v q -> q = v \/ rtc (child_of st) b q) ->
  exists fuel0, forall fuel, fuel0 <= fuel ->
    exists st', beta_reduce fuel st a = Done st' /\ graph_inv st' /\
      exists rank', ranked rank' st'.
Proof.
  intros G Rk VL Ha Hpa Hf Hpf Sc.
  assert (E := gi_edges _ G). assert (B := gi_binders _ G).
  assert (Hb : binds st fn v) by (exists f, b; done).
  destruct (VL fn v Hb) as [vn Hv].
  assert (Hpv : payload vn = var) by (eapply (bo_var _ B); eauto).
  assert (Hfa : rank fn < rank a).
  { apply (Rk a n fn Ha). rewrite Hpa. cbn. set_solver. }
  assert (Hargr : rank arg < rank a).
  { apply (Rk a n arg Ha). rewrite Hpa. cbn. set_solver. }
  assert (Hbf : rank b < rank fn).
  { apply (Rk fn f b Hf). rewrite Hpf. cbn. set_solver. }
  assert (Hbl : is_Some (nodes st !! b)).
  { destruct (eo_complete _ _ E fn f UPLINK_NA b Hf) as (m & ? & _);
      [by rewrite Hpf|by intros []|eauto]. }
  assert (Hargl : is_Some (nodes st !! arg)).
  { destruct (eo_complete _ _ E a n UPLINK_APPR arg Ha) as (m & ? & _);
      [by rewrite Hpa|by intros []|eauto]. }
  assert (Hn : n = mkNode (cache n) (uplinks n) (payload n)) by (by destruct n).
  destruct (uplinks vn) as [|u0 l0] eqn:Huv.
  { exists (S (rank a)). intros fuel Hfuel. unfold beta_reduce.
    rewrite (deref_eq _ _ _ Ha). cbn [mbind outcome_bind obind]. rewrite Hpa.
    rewrite (deref_eq _ _ _ Hf). cbn [mbind outcome_bind obind]. rewrite Hpf.
    rewrite (deref_eq _ _ _ Hv). cbn [mbind outcome_bind obind]. rewrite Huv.
    cbn [mbind outcome_bind obind]. rewrite (deref_eq _ _ _ Ha).
    cbn [mbind outcome_bind obind].
    clear Hn. destruct n as [cn [|u l] pn]; cbn [uplinks]; [exists st; eauto|].
    destruct (upreplace_all_total rank fuel a b (u :: l) st _ _ G Rk Ha Hbl)
      as (st' & H' & G' & Rk'); [lia|lia|].
    exists st'. eauto. }
  assert (WF := graph_inv_well_formed st G VL).
  destruct (upcopy_started_total st a fn arg b v n f WF Ha Hpa Hf Hpf)
    as (st1 & H1 & fuelu & Hup).
  destruct (uplinks_length_bound (nodes st1)) as [B0 HB0].
  set (U := dom (nodes st1)). set (L := B0 + 2 * size U).
  exists (fuelu + ((L + 1) + (L + 2) * size U + 1) + ((rank a + 2) * rank a + 1) + 2).
  intros fuel Hfuel.
  destruct (Hup fuel) as [st2 H2]; [lia|].
  assert (R := upcopy_pass_result fuel st st1 st2 fn arg b v f G Hf Hpf H1 H2).
  destruct (set_cache_shape _ _ _ _ H1) as [N1 S1].
  assert (L1 : forall x, is_Some (nodes st !! x) -> is_Some (nodes st1 !! x)).
  { intros x [m Hm]. specialize (S1 x). rewrite Hm in S1.
    destruct (nodes st1 !! x); [eauto|done]. }
  assert (Harg1 := L1 _ Hargl).
  assert (VL1 : forall g w, binds st1 g w -> is_Some (nodes st1 !! w)).
  { intros g w (mg & bg & Hg & Hpg). apply L1, (VL g). specialize (S1 g).
    rewrite Hg in S1. destruct (nodes st !! g) as [mg0|] eqn:Hg0; [|done].
    destruct S1 as (Hp & _). exists mg0, bg. split; congruence. }
  assert (X2 := pr_ext _ _ _ _ _ R). assert (I2 := pe_inv _ _ _ X2).
  assert (SC := pr_scoped _ _ _ _ _ R). assert (E1 := pr_edges _ _ _ _ _ R).
  assert (Hfn2 := pr_stop _ _ _ _ _ R).
  assert (STOP0 : forall x, inner st1 x -> cache_of st1 x = Some STOP -> x = fn).
  { intros x Hx Hc. destruct (decide (x = fn)); [done|].
    rewrite (pr_null _ _ _ _ _ R) in Hc; done. }
  destruct (set_cache_total st2 fn NULL) as [st3 H3].
  { apply (old_live_after st1 st2 fn v arg R), L1. eauto. }
  destruct (clear_after_pass_total st1 st2 st3 fn v arg R Harg1 VL1 H3 B0 fuel HB0)
    as [st4 H4]; [fold U L; lia|].
  destruct (copy_phase_inv fuel fuel st st1 st2 st3 st4 fn arg b v f G Hf Hpf H1 H2 H3 H4)
    as [G4 Old4].
  destruct (clear_after_pass st1 v fn SC E1 STOP0 (pr_var _ _ _ _ _ R) fuel st2 st3 st4
              X2 Hfn2 H3 H4) as (_ & C34 & _ & _).
  destruct (set_cache_shape _ _ _ _ H3) as [N3 S3].
  assert (Rk1 := set_cache_ranked rank st st1 fn STOP H1 Rk).
  assert (Above : forall q, rtc (copy_step st1 fn) v q -> rtc (copy_step st fn) v q).
  { intros q. apply rtc_subrel. intros x y. apply (set_cache_copy_step _ _ _ _ _ _ _ H1). }
  assert (Hcopied : forall q k, inner st1 q -> cache_of st2 q = Some (Cached k) ->
            rank q < rank a).
  { intros q k Hi Hc.
    assert (Hq : rtc (copy_step st1 fn) v q)
      by (apply (copied_iff_above st1 st2 fn v arg R q Hi); eauto).
    destruct (Sc q (Above q Hq)) as [->|Hd].
    { destruct (pr_var _ _ _ _ _ R Hi). }
    assert (H := below_rank rank st b q Rk Hd). lia. }
  assert (Hpay : forall y m4, nodes st4 !! y = Some m4 ->
            exists m2, nodes st2 !! y = Some m2 /\ payload m4 = payload m2).
  { intros y m4 Hy. specialize (S3 y).
    destruct (nodes st3 !! y) as [m3|] eqn:Hy3.
    - destruct (cl_live _ _ C34 _ _ Hy3) as (m4' & Hy4 & Hp4 & _).
      rewrite Hy in Hy4. injection Hy4 as <-.
      destruct (nodes st2 !! y) as [m2|]; [|done]. destruct S3 as (Hp3 & _).
      exists m2. split; congruence.
    - rewrite (cl_dead _ _ C34 _ Hy3) in Hy. done. }
  assert (Live24 : forall y, is_Some (nodes st2 !! y) -> is_Some (nodes st4 !! y)).
  { intros y [m2 Hy]. specialize (S3 y). rewrite Hy in S3.
    destruct (nodes st3 !! y) as [m3|] eqn:Hy3; [|done].
    destruct (cl_live _ _ C34 _ _ Hy3) as (m4 & Hy4 & _). eauto. }
  assert (Rk4 := ranked_after_pass st1 st2 fn v arg R rank (rank a) Rk1 Hcopied
                   Harg1 Hargr st4 Hpay).
  set (rank' := copy_rank rank (rank a) st1 st2) in *.
  assert (Ha1 : is_Some (nodes st1 !! a)) by eauto.
  assert (Hra' : rank' a = (rank a + 2) * rank a)
    by (apply (copy_rank_old st1 st2 rank (rank a) a Ha1)).
  destruct (old_live_after st1 st2 fn v arg R b (L1 _ Hbl)) as [bn Hbn].
  (* the body's cache holds the result *)
  assert (Hres : exists r, cache bn = Cached r /\ is_Some (nodes st4 !! r) /\
            rank' r < rank' a).
  { destruct (decide (b = v)) as [->|Hbv].
    - exists arg.
      assert (Hall : forall u, u ∈ uplinks vn -> up_link u = fn).
      { intros u Hu. destruct (decide (up_link u = fn)) as [|Hne]; [done|]. exfalso.
        destruct (eo_sound _ _ E _ _ _ Hv Hu) as (mp & Hp & Hs & _).
        assert (Hstep : copy_step st fn v (up_link u)).
        { left. split; [done|]. exists vn, (up_type u). split; [done|].
          by destruct u. }
        assert (Hself : up_link u <> v).
        { intros Heq. rewrite Heq, Hv in Hp. injection Hp as <-.
          rewrite Hpv in Hs. by destruct (up_type u). }
        destruct (Sc _ (rtc_once _ _ Hstep)) as [|Hd]; [done|].
        apply rtc_inv in Hd as [Heq|(y & (m & Hm & Hy) & _)]; [by destruct Hself|].
        rewrite Hv in Hm. injection Hm as <-. rewrite Hpv in Hy.
        by apply elem_of_nil in Hy. }
      destruct (set_cache_shape _ _ _ _ H1) as [_ S1'].
      assert (Hf1 : exists f1, nodes st1 !! fn = Some f1 /\ payload f1 = lambda v v /\
                cache f1 = STOP).
      { unfold set_cache in H1. rewrite (deref_eq _ _ _ Hf) in H1. injection H1 as <-.
        eexists. split; [apply lookup_insert_eq|]. done. }
      destruct Hf1 as (f1 & Hf1 & Hpf1 & Hcf1).
      assert (Hv1 : exists vn1, nodes st1 !! v = Some vn1 /\ payload vn1 = var /\
                uplinks vn1 = uplinks vn).
      { specialize (S1 v). rewrite Hv in S1. destruct (nodes st1 !! v) as [vn1|]; [|done].
        destruct S1 as (? & ? & _). exists vn1. split_and!; congruence. }
      destruct Hv1 as (vn1 & Hv1 & Hpv1 & Huv1).
      destruct fuel as [|[|fuel']]; [lia|lia|].
      destruct (upcopy_identity fuel' st1 fn v arg v f1 vn1 Hf1 Hpf1 Hcf1 Hv1 Hpv1)
        as (st2' & H2' & Hc2).
      { rewrite Huv1, Huv. rewrite Huv in Hall. exact Hall. }
      rewrite H2 in H2'. injection H2' as <-.
      rewrite (cache_of_Some _ _ _ Hbn) in Hc2. injection Hc2 as Hc2.
      split_and!; [done|by apply Live24, (old_live_after st1 st2 fn v arg R)|].
      rewrite Hra'. unfold rank'. rewrite (copy_rank_old st1 st2 rank (rank a) arg Harg1).
      nia.
    - assert (Hu0 : u0 ∈ uplinks vn) by (rewrite Huv; set_solver).
      destruct (eo_sound _ _ E _ _ _ Hv Hu0) as (mp & Hp & Hs & _).
      assert (Hne : up_link u0 <> fn).
      { intros Heq. rewrite Heq, Hf in Hp. injection Hp as <-. rewrite Hpf in Hs.
        destruct (up_type u0); cbn in Hs; congruence. }
      assert (Hstep : copy_step st fn v (up_link u0)).
      { left. split; [done|]. exists vn, (up_type u0). split; [done|].
        by destruct u0. }
      assert (Hd : rtc (child_of st) b v).
      { destruct (Sc _ (rtc_once _ _ Hstep)) as [Heq|Hd].
        { rewrite Heq, Hv in Hp. injection Hp as <-.
          rewrite Hpv in Hs. by destruct (up_type u0). }
        eapply rtc_r; [exact Hd|].
        exists mp. split; [done|]. eapply slot_of_children; eauto. }
      assert (Hbi : inner st b).
      { apply rtc_inv in Hd as [Heq|(y & (m & Hm & Hy) & _)]; [done|].
        exists m. split; [done|]. unfold node_type.
        destruct (payload m); cbn in Hy; try (by apply elem_of_nil in Hy); auto. }
      assert (Hbi1 : inner st1 b) by (by apply (set_cache_inner _ _ _ _ b H1)).
      assert (Hab : rtc (copy_step st1 fn) v b).
      { eapply rtc_subrel; [|apply (below_above rank st fn b v E Rk Hbf Hd)].
        intros x y [(Hn' & mc & t & Hc & Hu)|(mg & bg & Hg & Hpg)].
        - left. split; [done|]. specialize (S1 x). rewrite Hc in S1.
          destruct (nodes st1 !! x) as [m1|]; [|done]. destruct S1 as (_ & Hu1 & _).
          exists m1, t. split; [done|]. by rewrite Hu1.
        - right. specialize (S1 x). rewrite Hg in S1.
          destruct (nodes st1 !! x) as [m1|] eqn:Hx1; [|done]. destruct S1 as (Hp1 & _).
          exists m1, bg. split; [done|]. by rewrite Hp1. }
      destruct (proj2 (copied_iff_above st1 st2 fn v arg R b Hbi1) Hab) as [k Hk].
      exists k. rewrite (cache_of_Some _ _ _ Hbn) in Hk. injection Hk as Hk.
      assert (Hk' : cache_of st2 b = Some (Cached k))
        by (by rewrite (cache_of_Some _ _ _ Hbn), Hk).
      split_and!; [done| |].
      + apply Live24. by destruct (pe_copy _ _ _ X2 _ _ Hbi1 Hk').
      + rewrite Hra'. unfold rank'.
        rewrite (copy_rank_copy st1 st2 fn v arg R rank (rank a) b k Hbi1 Hk'). nia. }
  destruct Hres as (r & Hcr & Hrl & Hrr).
  destruct (Old4 a n Ha) as (n4 & Ha4 & Hp4 & ext & Hu4).
  unfold beta_reduce.
  rewrite (deref_eq _ _ _ Ha). cbn [mbind outcome_bind obind]. rewrite Hpa.
  rewrite (deref_eq _ _ _ Hf). cbn [mbind outcome_bind obind]. rewrite Hpf.
  rewrite (deref_eq _ _ _ Hv). cbn [mbind outcome_bind obind]. rewrite Huv.
  rewrite H1. cbn [mbind outcome_bind obind].
  rewrite H2. cbn [mbind outcome_bind obind].
  rewrite (deref_eq _ _ _ Hbn). cbn [mbind outcome_bind obind].
  rewrite H3. cbn [mbind outcome_bind obind].
  rewrite H4. cbn [mbind outcome_bind obind].
  rewrite (deref_eq _ _ _ Ha4). cbn [mbind outcome_bind obind]. rewrite Hcr.
  clear Hp4 Hu4. destruct n4 as [cn4 [|u l] pn4]; cbn [uplinks]; [exists st4; eauto|].
  destruct (upreplace_all_total rank' fuel a r (u :: l) st4 _ _ G4 Rk4 Ha4 Hrl)
    as (st' & H' & G' & Rk'); [done|rewrite Hra'; lia|].
  exists st'. eauto.
Qed.
End BetaTotal.

(** X27: a beta step returns.  On a well-formed store whose nodes each rank
    above their children, on a redex [(fn arg)] whose Lambda has its
    variable allocated like every other, and whose variable occurs only in
    the body of the Lambda (every node other than the variable that the
    pass reaches upwards from it, short of [fn], lies in or under the body;
    a variable without uplinks meets this outright), [beta_reduce] returns
    for every recursion budget from some point on: neither the pass nor
    [clear] nor the redirection of the parents nor the [cleanup] it ends in
    dereferences a freed node or aborts.  The store is then well formed and
    ranked again. *)
Theorem beta_reduce_returns (P : Type) (rank : addr -> nat) (st : State P)
  (a fn arg b v : addr) (n f : Node P) :
  graph_inv st -> ranked rank st ->
  (forall g w, binds st g w -> is_Some (nodes st !! w)) ->
  nodes st !! a = Some n -> payload n = app fn arg ->
  nodes st !! fn = Some f -> payload f = lambda b v ->
  (forall q, rtc (copy_step st fn) v q -> q = v \/ rtc (child_of st) b q) ->
  exists fuel0, forall fuel, fuel0 <= fuel ->
    exists st', beta_reduce fuel st a = Done st' /\ graph_inv st' /\
      exists rank', ranked rank' st'.
Proof. apply beta_reduce_total. Qed.

(** ** A beta step whose Lambda does not use its variable *)

Section Release.
Context {P : Type} (rank : addr -> nat).
Implicit Types (st : State P) (m : Node P).










End Release.

(** ** The step after [hnf_reduce] *)

Section Reject.
Context {P : Type}.
Implicit Types (st : State P) (m n : Node P).
Variable prim_apply :
  (State P -> Head -> outcome (bool * State P)) ->
  P -> Head -> State P -> outcome (option P * State P).

Lemma live_lt_next st (x : addr) m :
  graph_inv st -> nodes st !! x = Some m -> (x < next st)%positive.
Proof.
  intros G Hx. destruct (decide (x < next st)%positive) as [|Hge]; [done|].
  rewrite (gi_fresh _ G) in Hx; [done|lia].
Qed.

Lemma leaked_lookup st (x : addr) m :
  graph_inv st -> nodes st !! x = Some m -> nodes (leaked_var st) !! x = Some m.
Proof.
  intros G Hx. assert (H := live_lt_next _ _ _ G Hx).
  unfold leaked_var. cbn. rewrite lookup_insert_ne by lia. done.
Qed.

Lemma leaked_lookup_twice st (x : addr) m :
  graph_inv st -> nodes st !! x = Some m ->
  nodes (leaked_var (leaked_var st)) !! x = Some m.
Proof.
  intros G Hx. assert (H := live_lt_next _ _ _ G Hx).
  unfold leaked_var. cbn. rewrite !lookup_insert_ne by lia. done.
Qed.

Lemma head_normal_leaked st a :
  graph_inv st -> head_normal st a -> head_normal (leaked_var st) a.
Proof.
  intros G. induction 1.
  - eapply hn_var; eauto using leaked_lookup.
  - eapply hn_prim; eauto using leaked_lookup.
  - eapply hn_lambda; eauto using leaked_lookup.
  - eapply hn_app; eauto using leaked_lookup.
Qed.

Lemma graph_inv_leaked st (body : addr) mb :
  graph_inv st -> nodes st !! body = Some mb -> uplinks mb <> [] ->
  graph_inv (leaked_var st).
Proof.
  intros G Hb Hne.
  destruct (make_head_free_head st body mb 0 G Hb Hne) as (st1 & H1 & _ & _ & _ & H2).
  eapply free_head_inv; [exact H2|]. eapply make_head_inv; eauto.
Qed.

(** What a rejection leaves: the head made over the argument is freed,
    and the Var of its dummy stays. *)
Lemma make_head_reject st (a fn arg : addr) n h1 st1 fuel st' :
  graph_inv st ->
  nodes st !! a = Some n -> payload n = app fn arg ->
  make_head st arg = Done (h1, st1) ->
  free_head fuel st1 h1 = Done st' ->
  st' = leaked_var st /\ graph_inv (leaked_var st) /\
  forall f, nodes st1 !! fn = Some f ->
    exists f0, nodes st !! fn = Some f0 /\ payload f0 = payload f.
Proof.
  intros G Ha Hpa H1 H2.
  destruct (eo_complete _ _ (gi_edges _ G) a n UPLINK_APPR arg Ha) as (marg & Harg & Hin).
  { by rewrite Hpa. } { by intros []. }
  assert (Hne : uplinks marg <> []).
  { intros E. rewrite E in Hin. by apply elem_of_nil in Hin. }
  destruct (eo_complete _ _ (gi_edges _ G) a n UPLINK_APPL fn Ha) as (f0 & Hf0 & _).
  { by rewrite Hpa. } { by intros []. }
  assert (F := gi_fresh _ G).
  split_and!.
  - destruct fuel as [|[|fuel]].
    + discriminate.
    + destruct (make_head_free_head st arg marg 0 G Harg Hne)
        as (st1' & H1' & Hd & _ & _ & _).
      rewrite H1 in H1'. injection H1' as -> <-.
      unfold free_head in H2. cbn [dummy cleanup] in H2.
      rewrite (deref_eq _ _ _ Hd) in H2. cbn in H2.
      apply bind_Done in H2 as (s1 & _ & H2). discriminate.
    + destruct (make_head_free_head st arg marg fuel G Harg Hne)
        as (st1' & H1' & _ & _ & _ & H2').
      rewrite H1 in H1'. injection H1' as -> <-. congruence.
  - eauto using graph_inv_leaked.
  - intros f Hf.
    destruct (make_head_free_head st arg marg 0 G Harg Hne)
      as (st1' & H1' & _ & Ho & (nb & Hnb & Hpb) & _).
    rewrite H1 in H1'. injection H1' as _ <-.
    destruct (decide (fn = arg)) as [->|Hne'].
    + exists marg. split; [done|]. rewrite Hf in Hnb. injection Hnb as <-. done.
    + exists f0. split; [done|]. rewrite Ho in Hf; try done.
      * congruence.
      * intros ->. rewrite F in Hf0; [done|lia].
      * intros ->. rewrite F in Hf0; [done|lia].
Qed.

Lemma prim_reduce_inert fuel reduce st (a fn arg : addr) n f pn :
  graph_inv st ->
  nodes st !! a = Some n -> payload n = app fn arg ->
  nodes st !! fn = Some f -> payload f = prim pn ->
  inert prim_apply pn ->
  prim_reduce prim_apply (S (S fuel)) reduce st a = Done (false, leaked_var st).
Proof.
  intros G Ha Hpa Hf Hpf Hrej.
  destruct (eo_complete _ _ (gi_edges _ G) a n UPLINK_APPR arg Ha) as (marg & Harg & Hin).
  { by rewrite Hpa. } { by intros []. }
  assert (Hne : uplinks marg <> []).
  { intros E. rewrite E in Hin. by apply elem_of_nil in Hin. }
  destruct (make_head_free_head st arg marg fuel G Harg Hne)
    as (st1 & H1 & Hd & Ho & (nb & Hnb & Hpb) & H2).
  assert (F := gi_fresh _ G).
  assert (exists f1, nodes st1 !! fn = Some f1 /\ payload f1 = prim pn) as (f1 & Hf1 & Hpf1).
  { destruct (decide (fn = arg)) as [->|Hne'].
    - exists nb. split; [done|]. rewrite Hpb. congruence.
    - exists f. split; [|done]. rewrite Ho; try done.
      + intros ->. rewrite F in Hf; [done|lia].
      + intros ->. rewrite F in Hf; [done|lia]. }
  unfold prim_reduce. rewrite (deref_eq _ _ _ Ha). cbn [mbind outcome_bind obind].
  rewrite Hpa, H1. cbn [mbind outcome_bind obind].
  rewrite (deref_eq _ _ _ Hf1). cbn [mbind outcome_bind obind]. rewrite Hpf1.
  rewrite Hrej. cbn [mbind outcome_bind obind]. rewrite H2. done.
Qed.

Lemma on_spine_app_or_lambda st (l r : addr) n fn arg :
  on_spine st l r -> nodes st !! r = Some n -> payload n = app fn arg ->
  exists ml, nodes st !! l = Some ml /\
    (node_type ml = NODE_APP \/ node_type ml = NODE_LAMBDA).
Proof.
  intros Hs Hr Hp. destruct Hs as [a|a m b v c Hm Hpm _|a m l' r' c Hm Hpm _].
  - exists n. split; [done|]. left. unfold node_type. by rewrite Hp.
  - exists m. split; [done|]. right. unfold node_type. by rewrite Hpm.
  - exists m. split; [done|]. left. unfold node_type. by rewrite Hpm.
Qed.

(** When [hnf_reduce_1] reports no progress: the term is in head normal
    form and the store untouched, or [apply] has rejected the argument of
    a primitive on the head spine.  A primitive that [apply] always
    rejects without touching the store is rejected again by the next
    call, each time at the cost of one Var node. *)
Lemma hnf_reduce_1_false fuel : forall st (a : addr) st',
  hnf_reduce_1 prim_apply fuel st a = Done (false, st') ->
  (head_normal st a /\ st' = st) \/
  exists pn, rejected prim_apply st a pn /\
    (inert prim_apply pn -> graph_inv st ->
     st' = leaked_var st /\
     exists fuel0, forall fuel', fuel0 <= fuel' ->
       hnf_reduce_1 prim_apply fuel' (leaked_var st) a
       = Done (false, leaked_var (leaked_var st))).
Proof.
  induction fuel as [|fuel IH]; intros st a st' H; [discriminate|].
  cbn [hnf_reduce_1] in H. apply bind_Done in H as (n & Hn & H).
  apply deref_Done in Hn.
  destruct (payload n) as [l r|b v| |q] eqn:Hp.
  - apply bind_Done in H as ([red st1] & H1 & H). destruct red; [discriminate|].
    destruct (IH _ _ _ H1) as [[Hl ->]|(pn & Hrej & Hin)].
    + apply bind_Done in H as (n' & Hn' & H). apply deref_Done in Hn'.
      rewrite Hn in Hn'. injection Hn' as <-. rewrite Hp in H.
      apply bind_Done in H as (ln & Hln & H). apply deref_Done in Hln.
      destruct (node_type ln) eqn:Ht.
      * injection H as <-. left. split; [|done]. eapply hn_app; eauto.
      * apply bind_Done in H as (st2 & _ & H). discriminate.
      * injection H as <-. left. split; [|done]. eapply hn_app; eauto.
      * right. unfold prim_reduce in H.
        rewrite (deref_eq _ _ _ Hn) in H. cbn [mbind outcome_bind obind] in H.
        rewrite Hp in H.
        apply bind_Done in H as ([h1 sta] & Hmh & H).
        apply bind_Done in H as (f & Hf & H). apply deref_Done in Hf.
        destruct (payload f) as [| | |pn] eqn:Hpf; try discriminate.
        apply bind_Done in H as ([p stb] & Hap & H).
        apply bind_Done in H as (stc & Hfh & H).
        destruct p as [p|].
        { rewrite (new_Node_eq stc) in H. cbn beta iota zeta in H.
          apply bind_Done in H as (n2 & _ & H).
          apply bind_Done in H as (std & _ & H). discriminate. }
        injection H as <-.
        exists pn. split.
        { exists a, l, r, n, (fun st h => hnf_reduce_1 prim_apply fuel st (dummy h)),
            h1, sta, f, stb.
          split_and!; try done. apply sp_here. }
        intros Hi G. rewrite Hi in Hap. injection Hap as <-.
        destruct (make_head_reject st a l r n h1 sta fuel stc G Hn Hp Hmh Hfh)
          as (-> & G' & Hback).
        split; [done|].
        destruct (Hback f Hf) as (f0 & Hf0 & Hpf0).
        rewrite Hln in Hf0. injection Hf0 as <-. rewrite Hpf in Hpf0.
        destruct (head_normal_stuck prim_apply _ _ (head_normal_leaked _ _ G Hl))
          as [f0 Hst].
        exists (S (f0 + 2)). intros [|k] Hk; [lia|].
        cbn [hnf_reduce_1].
        rewrite (deref_eq _ _ _ (leaked_lookup _ _ _ G Hn)).
        cbn [mbind outcome_bind obind]. rewrite Hp.
        rewrite Hst by lia. cbn [mbind outcome_bind obind].
        rewrite (deref_eq _ _ _ (leaked_lookup _ _ _ G Hn)).
        cbn [mbind outcome_bind obind]. rewrite Hp.
        rewrite (deref_eq _ _ _ (leaked_lookup _ _ _ G Hln)).
        cbn [mbind outcome_bind obind]. rewrite Ht.
        destruct k as [|[|k]]; [lia|lia|].
        eapply prim_reduce_inert; eauto using leaked_lookup.
    + right. exists pn. split.
      { destruct Hrej as (r0 & fn & arg & n0 & red & h1 & sta & f & stb & Hs & Hr).
        exists r0, fn, arg, n0, red, h1, sta, f, stb. split; [|done].
        eapply sp_app; eauto. }
      intros Hi G. destruct (Hin Hi G) as [-> (f0 & Hrep)].
      destruct Hrej as (r0 & fn & arg & n0 & red & h1 & sta & f & stb
                        & Hs & Hr0 & Hpr0 & _).
      destruct (on_spine_app_or_lambda _ _ _ _ _ _ Hs Hr0 Hpr0) as (ml & Hml & Htl).
      rewrite (deref_eq _ _ _ (leaked_lookup _ _ _ G Hn)) in H.
      cbn [mbind outcome_bind obind] in H. rewrite Hp in H.
      rewrite (deref_eq _ _ _ (leaked_lookup _ _ _ G Hml)) in H.
      cbn [mbind outcome_bind obind] in H.
      destruct Htl as [Htl|Htl]; rewrite Htl in H.
      2:{ apply bind_Done in H as (st2 & _ & H). discriminate. }
      injection H as <-. split; [done|].
      exists (S f0). intros [|k] Hk; [lia|].
      cbn [hnf_reduce_1].
      rewrite (deref_eq _ _ _ (leaked_lookup _ _ _ G Hn)).
      cbn [mbind outcome_bind obind]. rewrite Hp.
      rewrite Hrep by lia. cbn [mbind outcome_bind obind].
      rewrite (deref_eq _ _ _ (leaked_lookup_twice _ _ _ G Hn)).
      cbn [mbind outcome_bind obind]. rewrite Hp.
      rewrite (deref_eq _ _ _ (leaked_lookup_twice _ _ _ G Hml)).
      cbn [mbind outcome_bind obind]. by rewrite Htl.
  - destruct (IH _ _ _ H) as [[Hb ->]|(pn & Hrej & Hin)].
    + left. split; [|done]. eapply hn_lambda; eauto.
    + right. exists pn. split.
      { destruct Hrej as (r0 & fn & arg & n0 & red & h1 & sta & f & stb & Hs & Hr).
        exists r0, fn, arg, n0, red, h1, sta, f, stb. split; [|done].
        eapply sp_lambda; eauto. }
      intros Hi G. destruct (Hin Hi G) as [-> (f0 & Hrep)]. split; [done|].
      exists (S f0). intros [|k] Hk; [lia|].
      cbn [hnf_reduce_1].
      rewrite (deref_eq _ _ _ (leaked_lookup _ _ _ G Hn)).
      cbn [mbind outcome_bind obind]. rewrite Hp. apply Hrep. lia.
  - injection H as <-. left. split; [|done]. eapply hn_var; eauto.
  - injection H as <-. left. split; [|done]. eapply hn_prim; eauto.
Qed.

(** The step that ends [hnf_reduce]. *)
Lemma hnf_reduce_last fuel : forall st h st',
  hnf_reduce prim_apply fuel st h = Done st' ->
  exists st0 fuel0,
    hnf_reduce_1_head prim_apply fuel0 st0 h = Done (false, st') /\
    (graph_inv st ->
     (forall reduce pn h st r st', keeps_inv reduce ->
        prim_apply reduce pn h st = Done (r, st') -> graph_inv st -> graph_inv st') ->
     graph_inv st0).
Proof.
  induction fuel as [|fuel IH]; intros st h st' H; [discriminate|].
  cbn [hnf_reduce] in H. apply bind_Done in H as ([progress st1] & H1 & H).
  destruct progress.
  - destruct (IH _ _ _ H) as (st0 & fuel0 & H0 & G0).
    exists st0, fuel0. split; [done|]. intros G PA. apply G0; [|done].
    eapply hnf_reduce_1_head_inv; eauto.
  - injection H as <-. exists st, fuel. split; [done|]. done.
Qed.
End Reject.

Module ScenarioFacts.
Import Client Scenarios.

Lemma copy_head_wraps_dummy_witness :
  exists h st d,
    lit7 = Done (h, st) /\ nodes st !! dummy h = Some d /\
    exists st',
      copy_head st h = Done (mkHead (Pos.succ (next st)), st') /\
      nodes st' !! Pos.succ (next st)
        = Some (mkNode NULL [] (lambda (dummy h) (next st))) /\
      nodes st' !! dummy h
        = Some (mkNode (cache d)
                  (uplinks d ++ [mkUplink (Pos.succ (next st)) UPLINK_NA])
                  (payload d)) /\
      forall b, b <> dummy h -> b <> next st -> b <> Pos.succ (next st) ->
        nodes st' !! b = nodes st !! b.
Proof.
  eexists _, _, _. split; [reflexivity|]. split; [reflexivity|].
  apply copy_head_wraps_dummy; reflexivity.
Defined.

(** The copy of a head over the literal 7 does not answer [get_prim]: the
    body under its dummy is the first head's dummy, a Lambda. *)
Example copy_head_hides_prim :
  ('(h, st) ← lit7;
   '(h2, st) ← copy_head st h;
   '(r1, _) ← get_prim st h;
   '(r2, _) ← get_prim st h2;
   Done (r1, r2, payload_at st (dummy h2), uplinks_at st 1%positive))
  = Done (Some (PLit 7), None, Some (lambda 3 4),
          Some [mkUplink 3 UPLINK_NA])%positive.
Proof. vm_compute. reflexivity. Qed.

Lemma get_prim_reads_only_witness :
  exists h st,
    id_lit7 = Done (h, st) /\ head_readable st h /\
    exists r, get_prim st h = Done (r, st) /\
      (forall p, r = Some p <-> body_is_prim st h p).
Proof.
  eexists _, _. split; [reflexivity|].
  assert (Hr : head_readable
            (match id_lit7 with Done (_, st) => st | _ => empty_state end)
            (mkHead 6)).
  { eexists. split; [reflexivity|]. intros b v [= <- <-]. by eexists. }
  split; [exact Hr|]. exact (get_prim_reads_only _ _ Hr).
Defined.

(** [get_prim] does not reduce: over [(\x. x) 7] it answers null, and after
    [hnf_reduce] on the same head it answers 7. *)
Example get_prim_before_and_after :
  ('(h, st) ← id_lit7;
   '(r1, st1) ← get_prim st h;
   st2 ← hnf_reduce apply 20 st1 h;
   '(r2, _) ← get_prim st2 h;
   Done (r1, r2))
  = Done (None, Some (PLit 7)).
Proof. vm_compute. reflexivity. Qed.

Lemma upcopy_prim_aborts_witness :
  upcopy 1 (snd (@Prim PrimNode empty_state (PLit 0))) 5 1 UPLINK_NA
  = Aborted.
Proof. eapply (upcopy_prim_aborts 0); reflexivity. Defined.

(** The same abort through the public interface: the first beta step on a
    lambda whose variable node is a Prim. *)
Example hnf_reduce_prim_binder_aborts :
  ('(h, st) ← prim_binder; hnf_reduce apply 20 st h) = Aborted.
Proof. vm_compute. reflexivity. Qed.

(** C3 (as the code has it): building a head over a free variable and
    freeing that head leaves one node allocated, the Var that [make_head]
    made for the dummy Lambda. *)
Lemma free_head_leaks_dummy_var :
  live_nodes empty_state = 0 /\
  ('(h, st) ← free_var;
   st' ← free_head 10 st h;
   Done (live_nodes st, live_nodes st', payload_at st' 2%positive))
  = Done (3, 1, Some var).
Proof. split; vm_compute; reflexivity. Qed.

(** C4 (as the code has it): after one public step on [(f a) (f b)] with a
    shared [f = \x. x], the variable [x] (node 1) is still reachable from the
    head (head 9 -> 7 -> 6 -> f = 2 -> 1) and its cache holds [a] (node 3). *)
Lemma stale_var_cache_after_step :
  ('(h, st) ← shared_identity;
   '(progress, st') ← hnf_reduce_1_head apply 20 st h;
   Done (progress, dummy h,
         payload_at st' 9, payload_at st' 7, payload_at st' 6,
         payload_at st' 2, payload_at st' 1, cache_at st' 1))%positive
  = Done (true, 9, Some (lambda 7 8), Some (app 3 6), Some (app 2 4),
          Some (lambda 1 1), Some var, Some (Cached 3))%positive.
Proof. vm_compute. reflexivity. Qed.

(** C5: [hnf_reduce] on [(\x. x x) (a b)] returns; the body under the head
    is then an App (node 10) whose left and right child are one and the same
    node, and that node is the argument [(a b)] the term was built with
    (node 6, still the App of nodes 4 and 5): it was shared, not copied. *)

Theorem shared_argument_stays_shared :
  ('(h, st) ← dup_arg;
   st' ← hnf_reduce apply 20 st h;
   Done (payload_at st 6, dummy h,
         payload_at st' 9, payload_at st' 10, payload_at st' 6,
         uplinks_at st' 6, live_nodes st'))%positive
  = Done (Some (app 4 5), 9, Some (lambda 10 8), Some (app 6 6),
          Some (app 4 5),
          Some [mkUplink 10 UPLINK_APPL; mkUplink 10 UPLINK_APPR], 6%nat)%positive.
Proof. vm_compute. reflexivity. Qed.



(** C9 (as the code has it): with the stepping primitive [PStep] applied
    to [(\x. x) ((\x. x) 0)], [hnf_reduce] returns as soon as [apply] has
    rejected once, and the very next [hnf_reduce_1] on the same head reports
    progress. *)
Lemma hnf_reduce_then_step_progress :
  ('(h, st) ← step_twice;
   st' ← hnf_reduce apply 20 st h;
   '(progress, st'') ← hnf_reduce_1_head apply 20 st' h;
   '(p, _) ← get_prim st'' h;
   Done (progress, p))
  = Done (true, Some (PLit 1)).
Proof. vm_compute. reflexivity. Qed.

(** C9, amended: whatever [apply] the client supplies and whatever the
    store holds, once [hnf_reduce] has returned, either the term under the
    head is in head normal form, and then a further [hnf_reduce_1] on the
    same head returns false and leaves the store untouched (for every
    recursion budget from some point on); or the step that ended
    [hnf_reduce] ended because [apply] rejected the argument of a
    primitive on the head spine.  In that case the further step calls
    [apply] on that primitive again.  If [apply] rejects this primitive
    whatever the argument, without touching the store (as a literal in
    function position does), the further step returns false as well, and
    leaves the store as it was but for one more Var node, the one of the
    head that [prim_reduce] makes over the argument and frees.  Otherwise
    the answer is up to [apply]; [hnf_reduce_then_step_progress] has an
    [apply] that answers the second time. *)
Theorem hnf_reduce_then_step_false
  (P : Type)
  (prim_apply : (State P -> Head -> outcome (bool * State P)) ->
                P -> Head -> State P -> outcome (option P * State P))
  (fuel : nat) (st st' : State P) (h : Head) :
  hnf_reduce prim_apply fuel st h = Done st' ->
  (head_normal st' (dummy h) /\
   exists fuel0, forall fuel', fuel0 <= fuel' ->
     hnf_reduce_1_head prim_apply fuel' st' h = Done (false, st')) \/
  (exists st0 fuel0 pn,
     hnf_reduce_1_head prim_apply fuel0 st0 h = Done (false, st') /\
     rejected prim_apply st0 (dummy h) pn /\
     (inert prim_apply pn -> graph_inv st ->
      (forall reduce pn h st r st', keeps_inv reduce ->
         prim_apply reduce pn h st = Done (r, st') -> graph_inv st -> graph_inv st') ->
      st' = leaked_var st0 /\
      exists fuel1, forall fuel', fuel1 <= fuel' ->
        hnf_reduce_1_head prim_apply fuel' st' h = Done (false, leaked_var st'))).
Proof.
  intros H. destruct (hnf_reduce_last prim_apply _ _ _ _ H) as (st0 & fuel0 & H0 & G0).
  destruct (hnf_reduce_1_false prim_apply _ _ _ _ H0) as [[Hh ->]|(pn & Hrej & Hin)].
  - left. split; [done|]. apply head_normal_stuck. done.
  - right. exists st0, fuel0, pn. split_and!; try done.
    intros Hi G PA. destruct (Hin Hi (G0 G PA)) as [-> Hrep]. split; [done|].
    exact Hrep.
Qed.

Lemma hnf_reduce_then_step_false_witness :
  (let h := fst (built id_lit7) in
   let st := snd (built id_lit7) in
   exists st',
     hnf_reduce apply 20 st h = Done st' /\
     hnf_reduce_1_head apply 20 st' h = Done (false, st') /\
     ((head_normal st' (dummy h) /\
       exists fuel0, forall fuel', fuel0 <= fuel' ->
         hnf_reduce_1_head apply fuel' st' h = Done (false, st')) \/
      (exists st0 fuel0 pn,
         hnf_reduce_1_head apply fuel0 st0 h = Done (false, st') /\
         rejected apply st0 (dummy h) pn /\
         (inert apply pn -> graph_inv st ->
          (forall reduce pn h st r st', keeps_inv reduce ->
             apply reduce pn h st = Done (r, st') -> graph_inv st -> graph_inv st') ->
          st' = leaked_var st0 /\
          exists fuel1, forall fuel', fuel1 <= fuel' ->
            hnf_reduce_1_head apply fuel' st' h = Done (false, leaked_var st'))))) /\
  (let h := fst (built lit_applied) in
   let st := snd (built lit_applied) in
   exists st',
     hnf_reduce apply 20 st h = Done st' /\
     hnf_reduce_1_head apply 20 st' h = Done (false, leaked_var st') /\
     ((head_normal st' (dummy h) /\
       exists fuel0, forall fuel', fuel0 <= fuel' ->
         hnf_reduce_1_head apply fuel' st' h = Done (false, st')) \/
      (exists st0 fuel0 pn,
         hnf_reduce_1_head apply fuel0 st0 h = Done (false, st') /\
         rejected apply st0 (dummy h) pn /\
         (inert apply pn -> graph_inv st ->
          (forall reduce pn h st r st', keeps_inv reduce ->
             apply reduce pn h st = Done (r, st') -> graph_inv st -> graph_inv st') ->
          st' = leaked_var st0 /\
          exists fuel1, forall fuel', fuel1 <= fuel' ->
            hnf_reduce_1_head apply fuel' st' h = Done (false, leaked_var st'))))).
Proof.
  split; intros h st;
    (eexists; split; [vm_compute; reflexivity|]; split; [vm_compute; reflexivity|]).
  - eapply (hnf_reduce_then_step_false PrimNode apply 20 st _ h).
    vm_compute. reflexivity.
  - eapply (hnf_reduce_then_step_false PrimNode apply 20 st _ h).
    vm_compute. reflexivity.
Defined.

(** C8: on a well-formed graph (uplinks name real parent edges, once each;
    every lambda has its own live Var node; no App or Lambda holds a cache;
    addresses from the allocation counter on are unused), the upcopy pass
    that [beta_reduce] starts on a redex [(fn arg)], [fn = \v. b], runs to
    completion: after [fn->cache = STOP], [upcopy(arg, fn->lambda.var, _)]
    returns for every recursion budget from some point on.  The three ways
    the walk ends are read off the code: at a Lambda holding [STOP] the call
    returns at once and changes nothing; at an App that holds a copy it
    overwrites one slot of the copy and returns without a further call; at a
    node without uplinks the loop has nothing to visit. *)
Theorem upcopy_pass_terminates (P : Type) :
  (forall (st : State P) (a fn arg b v : addr) (n f : Node P),
      well_formed st ->
      nodes st !! a = Some n -> payload n = app fn arg ->
      nodes st !! fn = Some f -> payload f = lambda b v ->
      exists st1, set_cache fn STOP st = Done st1 /\
        exists fuel0, forall fuel, fuel0 <= fuel ->
          exists st2, upcopy fuel st1 arg v UPLINK_NA = Done st2) /\
  (forall (fuel : nat) (st : State P) (nc into : addr) t (m : Node P) b v,
      nodes st !! into = Some m -> payload m = lambda b v -> cache m = STOP ->
      upcopy (S fuel) st nc into t = Done st) /\
  (forall (fuel : nat) (st : State P) (nc into k : addr) t (m mk : Node P) l r l' r',
      nodes st !! into = Some m -> payload m = app l r -> cache m = Cached k ->
      nodes st !! k = Some mk -> payload mk = app l' r' ->
      upcopy (S fuel) st nc into t
      = Done (store k (mkNode (cache mk) (uplinks mk)
                         (match t with
                          | UPLINK_APPL => app nc r'
                          | _ => app l' nc
                          end)) st)) /\
  (forall (fuel : nat) (st : State P) (nc into : addr) t (m : Node P),
      nodes st !! into = Some m -> payload m = var -> uplinks m = [] ->
      upcopy (S fuel) st nc into t
      = Done (store into (mkNode (Cached nc) [] var) st)).
Proof.
  split_and!.
  - intros st a fn arg b v n f WF Ha Hpa Hf Hpf.
    exact (upcopy_started_total st a fn arg b v n f WF Ha Hpa Hf Hpf).
  - intros fuel st nc into t m b v Hm Hp Hc. cbn [upcopy].
    rewrite (deref_eq _ _ _ Hm). cbn. by rewrite Hp, Hc.
  - intros fuel st nc into k t m mk l r l' r' Hm Hp Hc Hk Hpk. cbn [upcopy].
    rewrite (deref_eq _ _ _ Hm). cbn. rewrite Hp, Hc, (deref_eq _ _ _ Hk). cbn.
    rewrite Hpk. unfold set_payload. rewrite (deref_eq _ _ _ Hk). reflexivity.
  - intros fuel st nc into t m Hm Hp Hu. cbn [upcopy].
    rewrite (deref_eq _ _ _ Hm). cbn. rewrite Hp. unfold set_cache.
    rewrite (deref_eq _ _ _ Hm). cbn.
    rewrite (deref_eq _ into _ (lookup_insert_eq _ _ _)). cbn.
    by rewrite Hu, Hp.
Qed.

Lemma upcopy_pass_terminates_witness :
  let st := snd (built dup_arg) in
  exists st1, set_cache 3 STOP st = Done st1 /\
    exists fuel0, forall fuel, fuel0 <= fuel ->
      exists st2, upcopy fuel st1 6 1 UPLINK_NA = Done st2.
Proof.
  intros st.
  eapply (proj1 (upcopy_pass_terminates PrimNode) st 7 3 6 2 1)%positive.
  - apply well_formed_check_sound. vm_compute. reflexivity.
  - vm_compute. reflexivity.
  - reflexivity.
  - vm_compute. reflexivity.
  - reflexivity.
Defined.

Lemma client_apply_inv reduce pn h (st : St) r st' :
  keeps_inv reduce ->
  Client.apply reduce pn h st = Done (r, st') -> graph_inv st -> graph_inv st'.
Proof.
  intros K H G. destruct pn as [n|]; cbn in H.
  - by injection H as _ <-.
  - apply bind_Done in H as ([b st1] & H1 & H).
    assert (G1 := K _ _ _ _ H1 G).
    apply bind_Done in H as ([p st2] & H2 & H).
    rewrite (get_prim_same _ _ _ _ H2) in H.
    destruct p as [[n|]|]; by injection H as _ <-.
Qed.

Lemma uplinks_mirror_edges_after_public_ops_witness : uplinks_mirror_edges dup_arg_reduced.
Proof.
  apply (uplinks_mirror_edges_after_public_ops PrimNode Client.apply client_apply_inv).
  eapply rtc_l; [eapply step_Var; vm_compute; reflexivity|].
  eapply rtc_l; [eapply (step_App _ _ _ 1 1)%positive; vm_compute; reflexivity|].
  eapply rtc_l; [eapply (step_Fun _ _ _ 1 2)%positive; vm_compute; reflexivity|].
  eapply rtc_l; [eapply step_Var; vm_compute; reflexivity|].
  eapply rtc_l; [eapply step_Var; vm_compute; reflexivity|].
  eapply rtc_l; [eapply (step_App _ _ _ 4 5)%positive; vm_compute; reflexivity|].
  eapply rtc_l; [eapply (step_App _ _ _ 3 6)%positive; vm_compute; reflexivity|].
  eapply rtc_l; [eapply (step_make_head _ _ _ 7)%positive; vm_compute; reflexivity|].
  eapply rtc_l; [eapply (step_hnf_reduce _ _ _ 20%nat (mkHead 9)); vm_compute; reflexivity|].
  vm_compute. apply rtc_refl.
Defined.

(** *** Instances of the further properties *)

Lemma curried_kept_by_public_steps :
  rtc (public_step Client.apply) empty_state curried_kept_reduced.
Proof.
  eapply rtc_l; [eapply step_Var; vm_compute; reflexivity|].
  eapply rtc_l; [eapply step_Var; vm_compute; reflexivity|].
  eapply rtc_l; [eapply (step_App _ _ _ 1 2)%positive; vm_compute; reflexivity|].
  eapply rtc_l; [eapply (step_Fun _ _ _ 2 3)%positive; vm_compute; reflexivity|].
  eapply rtc_l; [eapply (step_Fun _ _ _ 1 4)%positive; vm_compute; reflexivity|].
  eapply rtc_l; [eapply (step_make_head _ _ _ 5)%positive; vm_compute; reflexivity|].
  eapply rtc_l; [eapply step_Var; vm_compute; reflexivity|].
  eapply rtc_l; [eapply (step_App _ _ _ 5 8)%positive; vm_compute; reflexivity|].
  eapply rtc_l; [eapply (step_make_head _ _ _ 9)%positive; vm_compute; reflexivity|].
  eapply rtc_l; [eapply (step_hnf_reduce _ _ _ 20%nat (mkHead 11)); vm_compute; reflexivity|].
  vm_compute. apply rtc_refl.
Qed.

Lemma uplinks_add_then_unlink_witness :
  exists st1, uplinks_add 1 9 UPLINK_NA (snd (built free_var)) = Done st1 /\
    (((mkUplink 9 UPLINK_NA ∉ [mkUplink 3 UPLINK_NA]) /\
      uplinks_unlink 1 9 UPLINK_NA st1 = Done (snd (built free_var))) \/
     (exists l1 l2, [mkUplink 3 UPLINK_NA] = l1 ++ mkUplink 9 UPLINK_NA :: l2 /\
        (mkUplink 9 UPLINK_NA ∉ l1) /\
        uplinks_unlink 1 9 UPLINK_NA st1
        = Done (store 1 (mkNode NULL (l1 ++ l2 ++ [mkUplink 9 UPLINK_NA]) var)
                  (snd (built free_var))))).
Proof.
  apply (uplinks_add_then_unlink PrimNode (snd (built free_var)) 1 9 UPLINK_NA
           (mkNode NULL [mkUplink 3 UPLINK_NA] var)).
  vm_compute. reflexivity.
Defined.

Lemma clear_appends_and_resets_witness :
  exists st', clear 20 dup_arg_copied 1 = Done st' /\
    next st' = next dup_arg_copied /\
    forall a,
      match nodes dup_arg_copied !! a, nodes st' !! a with
      | None, None => True
      | Some m, Some m' =>
          payload m' = payload m /\ (cache m' = cache m \/ cache m' = NULL) /\
          exists ext, uplinks m' = uplinks m ++ ext
      | _, _ => False
      end.
Proof.
  eexists. split; [vm_compute; reflexivity|].
  apply (clear_appends_and_resets PrimNode 20 dup_arg_copied 1).
  vm_compute. reflexivity.
Defined.

Lemma inner_caches_null_after_public_ops_witness :
  (exists st1 st2, set_cache 5 STOP (snd (built curried_kept)) = Done st1 /\
     upcopy 20 st1 8 1 UPLINK_NA = Done st2 /\
     cache_at st2 3 = Some (Cached 12) /\ cache_at st2 4 = Some (Cached 14)) /\
  exists m3 m4,
    nodes curried_kept_reduced !! 3%positive = Some m3 /\
    nodes curried_kept_reduced !! 4%positive = Some m4 /\
    payload m3 = app 1 2 /\ payload m4 = lambda 3 2 /\
    cache m3 = NULL /\ cache m4 = NULL.
Proof.
  split.
  { eexists _, _. split; [vm_compute; reflexivity|].
    split; [vm_compute; reflexivity|]. split; vm_compute; reflexivity. }
  eexists _, _. split; [vm_compute; reflexivity|]. split; [vm_compute; reflexivity|].
  split; [reflexivity|]. split; [reflexivity|]. split.
  - apply (inner_caches_null_after_public_ops PrimNode Client.apply
             client_apply_inv _ curried_kept_by_public_steps 3%positive).
    + vm_compute. reflexivity.
    + left. reflexivity.
  - apply (inner_caches_null_after_public_ops PrimNode Client.apply
             client_apply_inv _ curried_kept_by_public_steps 4%positive).
    + vm_compute. reflexivity.
    + right. reflexivity.
Defined.

Lemma binders_distinct_after_public_ops_witness :
  exists mg mk : Node PrimNode,
    nodes curried_kept_reduced !! 4%positive = Some mg /\
    payload mg = lambda 3 2 /\
    nodes curried_kept_reduced !! 14%positive = Some mk /\
    payload mk = lambda 12 13 /\
    (14%positive = 14%positive /\
     match nodes curried_kept_reduced !! 13%positive with
     | Some mv => payload mv = var
     | None => True
     end).
Proof.
  eexists _, _. split; [vm_compute; reflexivity|]. split; [reflexivity|].
  split; [vm_compute; reflexivity|]. split; [reflexivity|].
  eapply (binders_distinct_after_public_ops PrimNode Client.apply
            client_apply_inv _ curried_kept_by_public_steps 14 14 _ _ 12 12 13)%positive.
  - vm_compute. reflexivity.
  - reflexivity.
  - vm_compute. reflexivity.
  - reflexivity.
Defined.

Lemma upcopy_pass_keeps_graph_witness :
  let st := snd (built dup_arg) in
  exists st1 st2, set_cache 3 STOP st = Done st1 /\
    upcopy 20 st1 6 1 UPLINK_NA = Done st2 /\
    (forall a m, nodes st !! a = Some m ->
       exists m', nodes st2 !! a = Some m' /\
         payload m' = payload m /\ uplinks m' = uplinks m) /\
    (forall k mk, nodes st !! k = None -> nodes st2 !! k = Some mk ->
       cache mk = NULL /\ uplinks mk = []) /\
    cache_of st2 3 = Some STOP.
Proof.
  intros st. eexists _, _. split; [vm_compute; reflexivity|].
  split; [vm_compute; reflexivity|].
  eapply (upcopy_pass_keeps_graph PrimNode 20 st _ _ 3 6 2 1)%positive.
  - apply graph_inv_check_sound. vm_compute. reflexivity.
  - vm_compute. reflexivity.
  - reflexivity.
  - vm_compute. reflexivity.
  - vm_compute. reflexivity.
Defined.

Lemma free_head_of_copied_head_witness :
  exists h st',
    copy_head (snd (built free_var)) (fst (built free_var)) = Done (h, st') /\
    exists st'', free_head 5 st' (fst (built free_var)) = Done st'' /\
      nodes st'' = nodes st' /\
      exists d v, nodes st'' !! dummy h = Some d /\
        payload d = lambda (dummy (fst (built free_var))) v /\
        is_Some (nodes st'' !! dummy (fst (built free_var))).
Proof.
  eexists _, _. split; [vm_compute; reflexivity|].
  eapply (free_head_of_copied_head PrimNode (snd (built free_var))).
  vm_compute. reflexivity.
Defined.

Lemma make_head_then_free_head_witness :
  let st := snd (built dup_arg) in
  exists h st1, make_head st 6 = Done (h, st1) /\
    nodes st1 !! dummy h = Some (mkNode NULL [] (lambda 6 (next st))) /\
    free_head 2 st1 h = Done (leaked_var st) /\
    nodes (leaked_var st) !! next st = Some (mkNode NULL [] var) /\
    forall x, x <> next st -> nodes (leaked_var st) !! x = nodes st !! x.
Proof.
  intros st.
  eapply (make_head_then_free_head PrimNode st 6%positive _ 0).
  - apply graph_inv_check_sound. vm_compute. reflexivity.
  - vm_compute. reflexivity.
  - discriminate.
Defined.

Lemma prim_reduce_rejection_leaks_var_witness :
  let st := snd (built lit_applied) in
  prim_reduce Client.apply 2 (fun st h => hnf_reduce_1 Client.apply 20 st (dummy h)) st 3
  = Done (false, leaked_var st).
Proof.
  intros st.
  eapply (prim_reduce_rejection_leaks_var PrimNode Client.apply 0 _ st 3 1 2)%positive.
  - apply graph_inv_check_sound. vm_compute. reflexivity.
  - vm_compute. reflexivity.
  - reflexivity.
  - vm_compute. reflexivity.
  - reflexivity.
  - intros h st1 _. reflexivity.
Defined.

Lemma hnf_reduce_never_calls_apply_witness :
  let h := fst (built dup_arg) in
  let st := snd (built dup_arg) in
  let reject := fun _ _ _ (st : St) => Done (None, st) in
  hnf_reduce Client.apply 20 st h = hnf_reduce reject 20 st h /\
  hnf_reduce_1_head Client.apply 20 st h = hnf_reduce_1_head reject 20 st h /\
  forall st', hnf_reduce Client.apply 20 st h = Done st' -> prim_free st'.
Proof.
  intros h st reject.
  apply (hnf_reduce_never_calls_apply PrimNode Client.apply reject 20 st h).
  apply prim_free_check_sound. vm_compute. reflexivity.
Defined.

Lemma hnf_reduce_1_false_iff_head_normal_witness :
  let st := snd (built free_var) in
  (exists fuel0, forall fuel, fuel0 <= fuel ->
     hnf_reduce_1 Client.apply fuel st 3 = Done (false, st)) /\
  (head_normal st 3 /\ st = st).
Proof.
  intros st.
  destruct (hnf_reduce_1_false_iff_head_normal PrimNode Client.apply st 3) as [H1 H2].
  split.
  - apply H1. eapply hn_lambda; [vm_compute; reflexivity|reflexivity|].
    eapply hn_var; [vm_compute; reflexivity|reflexivity].
  - apply (H2 ltac:(apply prim_free_check_sound; vm_compute; reflexivity) 5).
    vm_compute. reflexivity.
Defined.

Lemma free_head_returns_witness :
  exists st', free_head 20 (snd (built dup_arg)) (fst (built dup_arg)) = Done st' /\
    graph_inv st'.
Proof.
  apply (free_head_returns PrimNode Pos.to_nat 20 (snd (built dup_arg))
           (fst (built dup_arg))).
  - apply ranked_check_sound. vm_compute. reflexivity.
  - apply graph_inv_check_sound. vm_compute. reflexivity.
  - vm_compute. eauto.
  - vm_compute. lia.
Defined.

Lemma cleanup_frees_only_descendants_witness :
  rtc (child_of (snd (built dup_arg))) 9%positive 4%positive.
Proof.
  eapply (cleanup_frees_only_descendants PrimNode 20 (snd (built dup_arg))).
  - vm_compute. reflexivity.
  - vm_compute. eauto.
  - vm_compute. reflexivity.
Defined.

Lemma cleanup_spares_shared_nodes_witness :
  exists st' m', cleanup 20 two_heads 3 = Done st' /\
    nodes st' !! 1%positive = Some m' /\ mkUplink 5 UPLINK_NA ∈ uplinks m' /\
    payload m' = var /\ cache m' = NULL.
Proof.
  eexists. 
  destruct (cleanup_spares_shared_nodes PrimNode 20 two_heads
              (state_of (cleanup 20 two_heads 3)) 3 1
              (mkNode NULL [mkUplink 3 UPLINK_NA; mkUplink 5 UPLINK_NA] var)
              (mkUplink 5 UPLINK_NA)) as (m' & H1 & H2 & H3 & H4).
  - vm_compute. reflexivity.
  - vm_compute. reflexivity.
  - right. left.
  - vm_compute. eauto.
  - exists m'. split; [vm_compute; reflexivity|]. done.
Defined.

Lemma free_head_twice_faults_witness :
  exists st', free_head 20 (snd (built free_var)) (fst (built free_var)) = Done st' /\
    free_head 20 st' (fst (built free_var)) = Undefined.
Proof.
  eexists. split; [vm_compute; reflexivity|].
  eapply (free_head_twice_faults PrimNode 20 19 (snd (built free_var))).
  - vm_compute. reflexivity.
  - reflexivity.
  - vm_compute. reflexivity.
Defined.

Lemma free_head_of_copy_frees_original_witness :
  let h := fst (built free_var) in
  exists h2 st1 st2, copy_head (snd (built free_var)) h = Done (h2, st1) /\
    free_head 20 st1 h2 = Done st2 /\
    nodes st2 !! dummy h = None /\ nodes st2 !! dummy h2 = None /\
    forall prim_apply fuel',
      hnf_reduce_1_head prim_apply (S fuel') st2 h = Undefined.
Proof.
  intros h. eexists _, _, _. split; [vm_compute; reflexivity|].
  split; [vm_compute; reflexivity|].
  eapply (free_head_of_copy_frees_original PrimNode 20 (snd (built free_var))).
  - intros a Ha. apply (gi_fresh (snd (built free_var))); [|exact Ha].
    apply graph_inv_check_sound. vm_compute. reflexivity.
  - vm_compute. reflexivity.
  - reflexivity.
  - vm_compute. reflexivity.
  - vm_compute. reflexivity.
Defined.

Lemma dotify_returns_on_closed_graphs_witness :
  exists out, dotify (fun a => "n") (fun p : PrimNode => "prim") 3 knot (mkHead 3)
              = Done out.
Proof.
  eapply (dotify_returns_on_closed_graphs PrimNode _ _ 3 knot (mkHead 3)).
  - apply closed_check_sound. vm_compute. reflexivity.
  - vm_compute. reflexivity.
  - reflexivity.
  - vm_compute. lia.
Defined.

Lemma dotify_reads_lambda_variables_witness :
  dotify (fun a => "n") (fun p : PrimNode => "prim") 20 inner_redex_reduced
    (fst (built inner_redex))
  = Undefined.
Proof.
  eapply (dotify_reads_lambda_variables PrimNode _ _ 19 inner_redex_reduced
            (fst (built inner_redex)) _ _ 6 7 1 4)%positive.
  - vm_compute. reflexivity.
  - reflexivity.
  - discriminate.
  - vm_compute. reflexivity.
  - reflexivity.
  - vm_compute. reflexivity.
Defined.

Lemma hnf_reduce_1_progress_is_one_beta_step_witness :
  let st := snd (built inner_redex) in
  exists (a l r : addr) n ml fuel',
    on_spine st 8 a /\
    nodes st !! a = Some n /\ payload n = app l r /\
    nodes st !! l = Some ml /\ node_type ml = NODE_LAMBDA /\
    head_normal st l /\
    fuel' < 20 /\ beta_reduce fuel' st a = Done inner_redex_reduced.
Proof.
  intros st.
  apply (hnf_reduce_1_progress_is_one_beta_step PrimNode Client.apply 20 st).
  - apply prim_free_check_sound. vm_compute. reflexivity.
  - vm_compute. reflexivity.
Defined.

Lemma hnf_reduce_ends_in_head_normal_form_witness :
  head_normal dup_arg_reduced 9.
Proof.
  apply (hnf_reduce_ends_in_head_normal_form PrimNode Client.apply 20
           (snd (built dup_arg)) dup_arg_reduced (fst (built dup_arg))).
  - apply prim_free_check_sound. vm_compute. reflexivity.
  - vm_compute. reflexivity.
Defined.

Lemma upcopy_pass_copies_by_substitution_witness :
  let st := snd (built curried) in
  exists st1 st2, set_cache 5 STOP st = Done st1 /\
    upcopy 20 st1 6 1 UPLINK_NA = Done st2 /\
    exists mk, nodes st2 !! 12%positive = Some mk /\ nodes st !! 12%positive = None /\
      substituted st1 1 6 st2 (lambda 3 2) (payload mk).
Proof.
  intros st. eexists _, _. split; [vm_compute; reflexivity|].
  split; [vm_compute; reflexivity|].
  eapply (upcopy_pass_copies_by_substitution PrimNode 20 st _ _ 5 6 4 1
           (mkNode NULL [mkUplink 7 UPLINK_APPL] (lambda 4 1)))%positive
    with (q := 4%positive) (m := mkNode NULL [mkUplink 5 UPLINK_NA] (lambda 3 2)).
  - apply graph_inv_check_sound. vm_compute. reflexivity.
  - vm_compute. reflexivity.
  - reflexivity.
  - vm_compute. reflexivity.
  - vm_compute. reflexivity.
  - vm_compute. reflexivity.
  - right. reflexivity.
  - vm_compute. reflexivity.
Defined.

Lemma upcopy_pass_copies_what_lies_above_witness :
  let st := snd (built curried) in
  exists st1 st2, set_cache 5 STOP st = Done st1 /\
    upcopy 20 st1 6 1 UPLINK_NA = Done st2 /\
    ((exists k, cache_of st2 4 = Some (Cached k)) <-> rtc (copy_step st 5) 1%positive 4%positive).
Proof.
  intros st. eexists _, _. split; [vm_compute; reflexivity|].
  split; [vm_compute; reflexivity|].
  eapply (upcopy_pass_copies_what_lies_above PrimNode 20 st _ _ 5 6 4 1
           (mkNode NULL [mkUplink 7 UPLINK_APPL] (lambda 4 1)))%positive
    with (m := mkNode NULL [mkUplink 5 UPLINK_NA] (lambda 3 2)).
  - apply graph_inv_check_sound. vm_compute. reflexivity.
  - vm_compute. reflexivity.
  - reflexivity.
  - vm_compute. reflexivity.
  - vm_compute. reflexivity.
  - vm_compute. reflexivity.
  - right. reflexivity.
Defined.
Lemma clear_returns_after_pass_witness :
  let st := snd (built dup_arg) in
  exists st1 st2, set_cache 3 STOP st = Done st1 /\
    upcopy 20 st1 6 1 UPLINK_NA = Done st2 /\
    exists st3, set_cache 3 NULL st2 = Done st3 /\
      exists fuel0, forall fuel, fuel0 <= fuel ->
        exists st4, clear fuel st3 1 = Done st4 /\ graph_inv st4.
Proof.
  intros st. eexists _, _. split; [vm_compute; reflexivity|].
  split; [vm_compute; reflexivity|].
  eapply (clear_returns_after_pass PrimNode 20 st _ _ 7 3 6 2 1)%positive.
  - apply graph_inv_check_sound. vm_compute. reflexivity.
  - intros g w (mg & bg & Hg & Hpg).
    assert (Cl : closed st) by (apply closed_check_sound; vm_compute; reflexivity).
    specialize (Cl g mg Hg). rewrite Hpg in Cl. apply Cl.
  - vm_compute. reflexivity.
  - reflexivity.
  - vm_compute. reflexivity.
  - reflexivity.
  - vm_compute. reflexivity.
  - vm_compute. reflexivity.
Defined.

Lemma beta_reduce_redirects_parents_witness :
  let st := snd (built dup_arg) in
  exists st', beta_reduce 20 st 7 = Done st' /\
    exists r,
      (forall u mp', u ∈ [mkUplink 9 UPLINK_NA] -> nodes st' !! up_link u = Some mp' ->
         slot_of (payload mp') (up_type u) = Some r) /\
      ([mkUplink 2 UPLINK_APPL; mkUplink 2 UPLINK_APPR] = [] -> r = 2%positive) /\
      ([mkUplink 2 UPLINK_APPL; mkUplink 2 UPLINK_APPR] <> [] ->
         exists st1 st2, set_cache 3 STOP st = Done st1 /\
           upcopy 20 st1 6 1 UPLINK_NA = Done st2 /\
           cache_of st2 2 = Some (Cached r)).
Proof.
  intros st. eexists. split; [vm_compute; reflexivity|].
  eapply (beta_reduce_redirects_parents PrimNode 20 st _ 7 3 6 2 1
            (mkNode NULL [mkUplink 9 UPLINK_NA] (app 3 6))
            (mkNode NULL [mkUplink 7 UPLINK_APPL] (lambda 2 1))
            (mkNode NULL [mkUplink 2 UPLINK_APPL; mkUplink 2 UPLINK_APPR] var))%positive.
  - apply graph_inv_check_sound. vm_compute. reflexivity.
  - vm_compute. reflexivity.
  - reflexivity.
  - vm_compute. reflexivity.
  - reflexivity.
  - vm_compute. reflexivity.
  - discriminate.
  - vm_compute. reflexivity.
Defined.

Lemma prim_reduce_replaces_redex_witness :
  let st := snd (built step_lit) in
  exists st',
    prim_reduce Client.apply 20
      (fun st h => hnf_reduce_1 Client.apply 20 st (dummy h)) st 3
    = Done (true, st') /\
    (true = true /\ nodes st !! 8%positive = None /\
     (forall u mp', u ∈ [mkUplink 5 UPLINK_NA] -> nodes st' !! up_link u = Some mp' ->
        slot_of (payload mp') (up_type u) = Some 8%positive) /\
     (forall mr, nodes st' !! 8%positive = Some mr -> payload mr = prim (PLit 4))).
Proof.
  intros st. eexists. split; [vm_compute; reflexivity|].
  eapply (prim_reduce_replaces_redex PrimNode Client.apply 18
            (fun st h => hnf_reduce_1 Client.apply 20 st (dummy h)) st _ 3 1 2
            (mkNode NULL [mkUplink 5 UPLINK_NA] (app 1 2))
            (mkNode NULL [mkUplink 3 UPLINK_APPL] (prim PStep)) PStep (PLit 4) true)%positive.
  - apply graph_inv_check_sound. vm_compute. reflexivity.
  - vm_compute. reflexivity.
  - reflexivity.
  - vm_compute. reflexivity.
  - reflexivity.
  - intros h st1 Hm. vm_compute in Hm. injection Hm as <- <-. vm_compute. reflexivity.
  - vm_compute. reflexivity.
Defined.

Lemma upreplace_all_returns_witness :
  let st := snd (built dup_arg) in
  exists st', upreplace_all 20 st 6 [mkUplink 9 UPLINK_NA] = Done st' /\
    graph_inv st' /\ ranked Pos.to_nat st'.
Proof.
  intros st.
  apply (upreplace_all_returns PrimNode Pos.to_nat 20 st 7 6
           (mkNode NULL [mkUplink 9 UPLINK_NA] (app 3 6)))%positive.
  - apply graph_inv_check_sound. vm_compute. reflexivity.
  - apply ranked_check_sound. vm_compute. reflexivity.
  - vm_compute. reflexivity.
  - vm_compute. eauto.
  - vm_compute. lia.
  - vm_compute. lia.
Defined.

Lemma beta_reduce_returns_witness :
  (let st := snd (built dup_arg) in
   exists fuel0, forall fuel, fuel0 <= fuel ->
     exists st', beta_reduce fuel st 7 = Done st' /\ graph_inv st' /\
       exists rank', ranked rank' st') /\
  (let st := snd (built unused_omega) in
   exists fuel0, forall fuel, fuel0 <= fuel ->
     exists st', beta_reduce fuel st 11 = Done st' /\ graph_inv st' /\
       exists rank', ranked rank' st').
Proof.
  split; intros st.
  - apply (beta_reduce_returns PrimNode Pos.to_nat st 7 3 6 2 1
             (mkNode NULL [mkUplink 9 UPLINK_NA] (app 3 6))
             (mkNode NULL [mkUplink 7 UPLINK_APPL] (lambda 2 1)))%positive.
    + apply graph_inv_check_sound. vm_compute. reflexivity.
    + apply ranked_check_sound. vm_compute. reflexivity.
    + intros g w Hb.
      assert (WF : well_formed st)
        by (apply well_formed_check_sound; vm_compute; reflexivity).
      destruct (wf_var _ WF g w Hb) as (mv & Hv & _). eauto.
    + vm_compute. reflexivity.
    + reflexivity.
    + vm_compute. reflexivity.
    + reflexivity.
    + assert (Hcl : forall q, rtc (copy_step st 3) 1%positive q ->
                q = 1%positive \/ q = 2%positive).
      { intros q. apply (rtc_ind_r (fun q => q = 1%positive \/ q = 2%positive)); [auto|].
        intros y z _ Hstep [-> | ->];
          destruct Hstep as [(Hne & mc & t & Hc & Hu)|(m & bg & Hm & Hp)].
        - vm_compute in Hc. injection Hc as <-. cbn in Hu.
          apply elem_of_cons in Hu as [Hu|Hu]; [injection Hu; auto|].
          apply elem_of_cons in Hu as [Hu|Hu]; [injection Hu; auto|].
          by apply elem_of_nil in Hu.
        - vm_compute in Hm. injection Hm as <-. discriminate.
        - vm_compute in Hc. injection Hc as <-. cbn in Hu.
          apply elem_of_cons in Hu as [Hu|Hu]; [injection Hu; intros; subst; done|].
          by apply elem_of_nil in Hu.
        - vm_compute in Hm. injection Hm as <-. discriminate. }
      intros q Hq. destruct (Hcl q Hq) as [-> | ->]; [by left|right; apply rtc_refl].
  - apply (beta_reduce_returns PrimNode Pos.to_nat st 11 3 10 1 2
             (mkNode NULL [mkUplink 13 UPLINK_NA] (app 3 10))
             (mkNode NULL [mkUplink 11 UPLINK_APPL] (lambda 1 2)))%positive.
    + apply graph_inv_check_sound. vm_compute. reflexivity.
    + apply ranked_check_sound. vm_compute. reflexivity.
    + intros g w Hb.
      assert (WF : well_formed st)
        by (apply well_formed_check_sound; vm_compute; reflexivity).
      destruct (wf_var _ WF g w Hb) as (mv & Hv & _). eauto.
    + vm_compute. reflexivity.
    + reflexivity.
    + vm_compute. reflexivity.
    + reflexivity.
    + intros q Hq. left. revert q Hq.
      apply (rtc_ind_r (fun q => q = 2%positive)); [done|].
      intros y z _ Hstep ->.
      destruct Hstep as [(Hne & mc & t & Hc & Hu)|(m & bg & Hm & Hp)].
      * vm_compute in Hc. injection Hc as <-. cbn in Hu. by apply elem_of_nil in Hu.
      * vm_compute in Hm. injection Hm as <-. discriminate.
Defined.

End ScenarioFacts.
